(** * Parametric lathe mesh engine: profile, lathe grid, displacement,
      smoothing, cap welding and export transform.

    The TypeScript sources compute on JavaScript numbers and keep vertex data
    in flat [Float32Array]s.  The embedding below is written once, over an
    interface [Number] of the arithmetic the code uses, and is instantiated
    twice:
    - [RNumber]: exact real arithmetic (rounding is the identity), where the
      algebraic statements of the specification are proved;
    - [FloatNumber]: IEEE-754 binary64 (Rocq's primitive floats, the very
      format of a JavaScript number) with binary32 rounding on stores, where
      the definitions are evaluated on concrete inputs and the radius clamp
      is followed through the rounding of its operations. *)

From Stdlib Require Import List ZArith Bool Arith Lia.
From Stdlib Require Import Reals Lra Psatz.
From Stdlib Require Import Floats.PrimFloat Floats.SpecFloat Floats.FloatOps.
From Stdlib Require Floats.FloatAxioms Floats.FloatLemmas Uint63.
Import ListNotations.

Set Implicit Arguments.

(** ** The arithmetic of a JavaScript number *)

Class Number (num : Type) : Type := {
  ofZ : Z -> num;                 (* an integer used as a number *)
  num_add : num -> num -> num;
  num_sub : num -> num -> num;
  num_mul : num -> num -> num;
  num_div : num -> num -> num;
  num_rem : num -> num -> num;        (* the [%] operator *)
  num_neg : num -> num;
  Math_sqrt : num -> num;              (* Math.sqrt *)
  Math_abs : num -> num;               (* Math.abs *)
  Math_floor : num -> num;             (* Math.floor *)
  Math_max : num -> num -> num;        (* Math.max *)
  num_ltb : num -> num -> bool;       (* [<];  [a > b] is [b < a] *)
  num_leb : num -> num -> bool;       (* [<=]; [a >= b] is [b <= a] *)
  truthy : num -> bool;           (* ToBoolean: false on 0 and NaN *)
  toIndex : num -> option nat;    (* a number used as an array index *)
  fround : num -> num;            (* the rounding of a Float32Array store *)
  undef : num;                    (* [undefined] used in arithmetic (NaN) *)
  Math_PI : num;                       (* Math.PI *)
  Math_cos : num -> num;
  Math_sin : num -> num;
  Math_atan2 : num -> num -> num;      (* Math.atan2(y, x) *)
  Math_pow : num -> num -> num         (* Math.pow *)
}.

Declare Scope js_scope.
Delimit Scope js_scope with js.
Notation "a + b" := (num_add a b) : js_scope.
Notation "a - b" := (num_sub a b) : js_scope.
Notation "a * b" := (num_mul a b) : js_scope.
Notation "a / b" := (num_div a b) : js_scope.
Notation "- a" := (num_neg a) : js_scope.
Notation "a <? b" := (num_ltb a b) : js_scope.
Notation "a <=? b" := (num_leb a b) : js_scope.
Notation "a >? b" := (num_ltb b a) : js_scope.
Notation "a >=? b" := (num_leb b a) : js_scope.

(** ** Flat arrays *)

Section Arrays.
Context {A : Type}.

(** [arr[i] = x] on a typed array: a write past the end is dropped. *)
Fixpoint upd (l : list A) (i : nat) (x : A) : list A :=
  match l, i with
  | [], _ => []
  | _ :: t, O => x :: t
  | h :: t, S j => h :: upd t j x
  end.
End Arrays.

Section Engine.
Context {num : Type} `{Number num}.
Local Open Scope js_scope.

(** A decimal literal [n/d] of the source: the quotient of two integers is
    correctly rounded, as the literal is. *)
Definition lit (n : Z) (d : positive) : num := ofZ n / ofZ (Zpos d).
Definition ofNat (n : nat) : num := ofZ (Z.of_nat n).
Definition zero : num := ofZ 0.
Definition one : num := ofZ 1.
Definition two : num := ofZ 2.
Definition three : num := ofZ 3.

(** ** THREE.Vector3 (library code outside the repository) *)

Record Vector3 : Type := vec3 { vx : num; vy : num; vz : num }.

Definition v_add (a b : Vector3) : Vector3 :=
  vec3 (vx a + vx b) (vy a + vy b) (vz a + vz b).
Definition subVectors (a b : Vector3) : Vector3 :=
  vec3 (vx a - vx b) (vy a - vy b) (vz a - vz b).
Definition multiplyScalar (v : Vector3) (s : num) : Vector3 :=
  vec3 (vx v * s) (vy v * s) (vz v * s).
Definition crossVectors (a b : Vector3) : Vector3 :=
  vec3 (vy a * vz b - vz a * vy b)
       (vz a * vx b - vx a * vz b)
       (vx a * vy b - vy a * vx b).
Definition v_length (v : Vector3) : num :=
  Math_sqrt (vx v * vx v + vy v * vy v + vz v * vz v).
(** [normalize()] is [divideScalar(length() || 1)], and [divideScalar(s)] is
    [multiplyScalar(1 / s)]. *)
Definition normalize (v : Vector3) : Vector3 :=
  let len := v_length v in
  multiplyScalar v (one / (if truthy len then len else one)).

(** Modelled from the spec: THREE.CubicBezierCurve3 is library code outside
    the repository; its point at [t] is
    [(1-t)^3 A + 3(1-t)^2 t A_out + 3(1-t) t^2 B_in + t^3 B], per component. *)
Definition CubicBezier (t p0 p1 p2 p3 : num) : num :=
  let k := one - t in
  k * k * k * p0 + three * k * k * t * p1
    + three * (one - t) * t * t * p2 + t * t * t * p3.

Record CubicBezierCurve3 : Type :=
  curve3 { v0 : Vector3; v1 : Vector3; v2 : Vector3; v3 : Vector3 }.

Definition getPoint (c : CubicBezierCurve3) (t : num) : Vector3 :=
  vec3 (CubicBezier t (vx (v0 c)) (vx (v1 c)) (vx (v2 c)) (vx (v3 c)))
       (CubicBezier t (vy (v0 c)) (vy (v1 c)) (vy (v2 c)) (vy (v3 c)))
       (CubicBezier t (vz (v0 c)) (vz (v1 c)) (vz (v2 c)) (vz (v3 c))).

(** ** BufferGeometry: flat attribute arrays *)

Record BufferGeometry : Type := mkGeometry {
  position : list num;          (* Float32BufferAttribute, itemSize 3 *)
  normal : list num;            (* Float32BufferAttribute, itemSize 3 *)
  uv : list num;                (* Float32BufferAttribute, itemSize 2 *)
  index : option (list nat)
}.

(** A read past the end of a typed array is [undefined]. *)
Definition getX (a : list num) (i : nat) : num := nth (i * 3) a undef.
Definition getY (a : list num) (i : nat) : num := nth (i * 3 + 1) a undef.
Definition getZ (a : list num) (i : nat) : num := nth (i * 3 + 2) a undef.
Definition getU (a : list num) (i : nat) : num := nth (i * 2) a undef.
Definition getV (a : list num) (i : nat) : num := nth (i * 2 + 1) a undef.
(** [attribute.count]: every array of this program is built from whole
    vertices, so its length is a multiple of the item size. *)
Definition count (a : list num) : nat := length a / 3.

Definition setXYZ (a : list num) (i : nat) (x y z : num) : list num :=
  upd (upd (upd a (i * 3) (fround x)) (i * 3 + 1) (fround y)) (i * 3 + 2) (fround z).

Definition fromBufferAttribute (a : list num) (i : nat) : Vector3 :=
  vec3 (getX a i) (getY a i) (getZ a i).

(** [new THREE.Float32BufferAttribute(values, _)] *)
Definition Float32BufferAttribute (values : list num) : list num :=
  map fround values.

(** ** Parameters and profile anchors *)

Inductive NormalType : Type := vertex | face | horizontal.

Record LoftParams : Type := mkParams {
  rings : nat;
  segments : nat;
  radius : num;
  height : num;
  twist : num;
  taper : num;
  normalType : NormalType;
  textureRepeatU : num;
  textureRepeatV : num;
  textureRotation : num;
  displacementScale : num;
  displacementBias : num;
  smoothingIntensity : nat;
  enableSmoothing : bool;
  geometrySmoothing : nat;
  falloffEnabled : bool;
  falloffTop : num;
  falloffBottom : num;
  falloffPower : num;
  exportScale : num
}.

Record LoftBezierAnchor : Type := mkAnchor {
  a_position : Vector3;         (* x = radius, y = height *)
  handleIn : Vector3;
  handleOut : Vector3;
  isSmooth : bool
}.

(** The initial [loftParams] of the editor. *)
Definition loftParams : LoftParams := {|
  rings := 300;
  segments := 300;
  radius := ofZ 2;
  height := ofZ 5;
  twist := ofZ 0;
  taper := ofZ 1;
  normalType := horizontal;
  textureRepeatU := ofZ 1;
  textureRepeatV := ofZ 1;
  textureRotation := ofZ 0;
  displacementScale := lit 5 10;
  displacementBias := lit (-1) 10;
  smoothingIntensity := 5;
  enableSmoothing := true;
  geometrySmoothing := 5;
  falloffEnabled := true;
  falloffTop := lit 2 10;
  falloffBottom := lit 2 10;
  falloffPower := ofZ 2;
  exportScale := ofZ 10
|}.

(** [initLoftBezierAnchors]: five anchors of uniform radius; the first and
    the last are corner points. *)
Definition initAnchor (params : LoftParams) (i : nat) : LoftBezierAnchor :=
  let t := ofNat i / ofZ (5 - 1) in
  let corner := (i =? 0)%nat || (i =? 4)%nat in
  {| a_position := vec3 (radius params) (t * height params) zero;
     handleIn := if (i =? 0)%nat then vec3 zero zero zero
                 else vec3 zero (lit (-1) 10) zero;
     handleOut := if (i =? 4)%nat then vec3 zero zero zero
                  else vec3 zero (lit 1 10) zero;
     isSmooth := negb corner |}.

Definition initLoftBezierAnchors (params : LoftParams) : list LoftBezierAnchor :=
  map (initAnchor params) (seq 0 5).

(** ** getRadiusAtHeight *)

Definition tolerance : num := lit 1 10000.
Definition maxIterations : nat := 20.

(** The bisection loop with [iters] iterations left. *)
Fixpoint bisect (curve : CubicBezierCurve3) (h : num) (iters : nat)
         (tMin tMax t : num) : num :=
  match iters with
  | O => Math_max (lit 1 10) (vx (getPoint curve t))
  | S n =>
      let point := getPoint curve t in
      let error := vy point - h in
      if Math_abs error <? tolerance then Math_max (lit 1 10) (vx point)
      else
        let tMax' := if error >? zero then t else tMax in
        let tMin' := if error >? zero then tMin else t in
        bisect curve h n tMin' tMax' ((tMin' + tMax') / two)
  end.

Definition segmentCurve (a b : LoftBezierAnchor) : CubicBezierCurve3 :=
  curve3 (a_position a) (v_add (a_position a) (handleOut a))
         (v_add (a_position b) (handleIn b)) (a_position b).

(** The search for the first segment bracketing [h]; [None] when the loop
    runs out. *)
Fixpoint findSegment (anchors : list LoftBezierAnchor) (h : num) : option num :=
  match anchors with
  | a :: ((b :: _) as rest) =>
      if (h >=? vy (a_position a)) && (h <=? vy (a_position b))
      then Some (bisect (segmentCurve a b) h maxIterations zero one (lit 1 2))
      else findSegment rest h
  | _ => None
  end.

(** [None] is the TypeError of reading [.position] of a missing anchor. *)
Definition getRadiusAtHeight (anchors : list LoftBezierAnchor) (params : LoftParams)
           (h : num) : option num :=
  if h <=? zero then
    option_map (fun a => Math_max (lit 1 10) (vx (a_position a))) (hd_error anchors)
  else if h >=? height params then
    option_map (fun a => Math_max (lit 1 10) (vx (a_position a)))
               (nth_error anchors (length anchors - 1))
  else
    match findSegment anchors h with
    | Some r => Some r
    | None => Some (radius params)
    end.

(** ** createLoftGeometry *)

Definition minRadius : num := lit 1 10.

(** [rings - 1] as a number (it is [-1] for an empty grid). *)
Definition ringsMinus1 (params : LoftParams) : num :=
  ofZ (Z.of_nat (rings params) - 1).

Definition heightStep (params : LoftParams) : num :=
  height params / ringsMinus1 params.
Definition twistStep (params : LoftParams) : num :=
  (twist params * Math_PI / ofZ 180) / ringsMinus1 params.
Definition ringHeight (params : LoftParams) (ring : nat) : num :=
  ofNat ring * heightStep params.
Definition ringTaper (params : LoftParams) (ring : nat) : num :=
  one - (one - taper params) * (ofNat ring / ringsMinus1 params).

Fixpoint mapM {A B : Type} (f : A -> option B) (l : list A) : option (list B) :=
  match l with
  | [] => Some []
  | a :: t =>
      match f a with
      | None => None
      | Some b => option_map (cons b) (mapM f t)
      end
  end.

(** First loop: the radius of every ring. *)
Definition ringRadius (anchors : list LoftBezierAnchor) (params : LoftParams)
           (ring : nat) : option num :=
  option_map (fun baseRadius => Math_max minRadius (baseRadius * ringTaper params ring))
             (getRadiusAtHeight anchors params (ringHeight params ring)).

Definition ringRadii (anchors : list LoftBezierAnchor) (params : LoftParams)
  : option (list num) :=
  mapM (ringRadius anchors params) (seq 0 (rings params)).

Definition radiusSlope (params : LoftParams) (radii : list num) (ring : nat) : num :=
  let n := rings params in
  if (0 <? ring)%nat && (ring <? n - 1)%nat then
    (nth (ring + 1) radii undef - nth (ring - 1) radii undef)
      / (two * heightStep params)
  else if (ring =? 0)%nat && (1 <? n)%nat then
    (nth 1 radii undef - nth 0 radii undef) / heightStep params
  else if (ring =? n - 1)%nat && (1 <? n)%nat then
    (nth ring radii undef - nth (ring - 1) radii undef) / heightStep params
  else zero.

Definition theta (params : LoftParams) (ring seg : nat) : num :=
  (ofNat seg / ofNat (segments params)) * Math_PI * two
    + ofNat ring * twistStep params.

Definition loftPosition (params : LoftParams) (radii : list num) (ring seg : nat)
  : list num :=
  let th := theta params ring seg in
  let ringRadius := nth ring radii undef in
  [ringRadius * Math_cos th; ringHeight params ring; ringRadius * Math_sin th].

Definition loftNormal (params : LoftParams) (radii : list num) (ring seg : nat)
  : list num :=
  let th := theta params ring seg in
  let slope := radiusSlope params radii ring in
  let tangentY := vec3 (- slope * Math_cos th) one (- slope * Math_sin th) in
  let n := normalize (crossVectors (vec3 (- Math_sin th) zero (Math_cos th)) tangentY) in
  [vx n; vy n; vz n].

Definition loftUV (params : LoftParams) (ring seg : nat) : list num :=
  let v := ofNat ring / ringsMinus1 params in
  let rotationRadians := (textureRotation params * Math_PI / ofZ 180) * v in
  let u := num_rem (ofNat seg / ofNat (segments params)
                + rotationRadians / (Math_PI * two)) one in
  [if u <? zero then u + one else u; v].

(** The body of a [for ring] / [for seg <= segments] nest that pushes onto a
    flat array. *)
Definition perVertex (params : LoftParams) (f : nat -> nat -> list num) : list num :=
  flat_map (fun ring => flat_map (f ring) (seq 0 (segments params + 1)))
           (seq 0 (rings params)).

Definition quadIndices (params : LoftParams) : list nat :=
  flat_map (fun ring =>
    flat_map (fun seg =>
      let a := (ring * (segments params + 1) + seg)%nat in
      let b := (ring * (segments params + 1) + seg + 1)%nat in
      let c := ((ring + 1) * (segments params + 1) + seg + 1)%nat in
      let d := ((ring + 1) * (segments params + 1) + seg)%nat in
      [a; b; c; a; c; d]) (seq 0 (segments params)))
    (seq 0 (rings params - 1)).

Definition createLoftGeometry (anchors : list LoftBezierAnchor) (params : LoftParams)
  : option BufferGeometry :=
  option_map (fun radii =>
    mkGeometry (Float32BufferAttribute (perVertex params (loftPosition params radii)))
               (Float32BufferAttribute (perVertex params (loftNormal params radii)))
               (Float32BufferAttribute (perVertex params (loftUV params)))
               (Some (quadIndices params)))
    (ringRadii anchors params).

(** ** Cap welding *)

Definition getDisplacedRingVertices (geometry : BufferGeometry)
           (ringIndex : nat) (segs : nat) : list Vector3 :=
  map (fun seg => fromBufferAttribute (position geometry) (ringIndex * (segs + 1) + seg))
      (seq 0 (segs + 1)).

Definition noVertex : Vector3 := vec3 undef undef undef.

(** The centre: the sum of the first [segs] ring vertices, divided by [segs]. *)
Definition ringSum (coord : Vector3 -> num) (ring : list Vector3) (segs : nat) : num :=
  fold_left (fun acc i => acc + coord (nth i ring noVertex)) (seq 0 segs) zero.

Definition capCenter (ring : list Vector3) (segs : nat) : list num :=
  [ringSum vx ring segs / ofNat segs;
   ringSum vy ring segs / ofNat segs;
   ringSum vz ring segs / ofNat segs].

Definition capUV (segs seg : nat) : list num :=
  [lit 1 2 + lit 1 2 * Math_cos ((ofNat seg / ofNat segs) * Math_PI * two);
   lit 1 2 + lit 1 2 * Math_sin ((ofNat seg / ofNat segs) * Math_PI * two)].

Definition capGeometry (ring : list Vector3) (segs : nat) (ny : num)
           (tri : nat -> list nat) : BufferGeometry :=
  let ringSegs := seq 0 (segs + 1) in
  mkGeometry
    (Float32BufferAttribute
       (capCenter ring segs
        ++ flat_map (fun seg => let v := nth seg ring noVertex in [vx v; vy v; vz v])
                    ringSegs))
    (Float32BufferAttribute
       ([zero; ny; zero] ++ flat_map (fun _ => [zero; ny; zero]) ringSegs))
    (Float32BufferAttribute
       ([lit 1 2; lit 1 2] ++ flat_map (capUV segs) ringSegs))
    (Some (flat_map tri (seq 0 segs))).

(** The top ring index [rings - 1] is [-1] on an empty grid: every read is
    then past the array. *)
Definition topRingVertices (geometry : BufferGeometry) (params : LoftParams)
  : list Vector3 :=
  match rings params with
  | O => repeat noVertex (segments params + 1)
  | S r => getDisplacedRingVertices geometry r (segments params)
  end.

Definition createWeldedCapGeometries (cylinderGeometry : BufferGeometry)
           (params : LoftParams) : BufferGeometry * BufferGeometry :=
  let segs := segments params in
  let bottomRingVertices := getDisplacedRingVertices cylinderGeometry 0 segs in
  (capGeometry bottomRingVertices segs (ofZ (-1)) (fun seg => [0; seg + 2; seg + 1]%nat),
   capGeometry (topRingVertices cylinderGeometry params) segs one
               (fun seg => [0; seg + 1; seg + 2]%nat)).

(** ** calculateDisplacementFalloff *)

Definition calculateDisplacementFalloff (normalizedHeight : num) (params : LoftParams)
  : num :=
  if negb (falloffEnabled params) then one
  else if normalizedHeight <? falloffBottom params then
    Math_pow (normalizedHeight / falloffBottom params) (falloffPower params)
  else if normalizedHeight >? one - falloffTop params then
    Math_pow ((one - normalizedHeight) / falloffTop params) (falloffPower params)
  else one.

(** ** calculateFaceNormalsForVertices *)

(** [vertexFaceNormals.get(a)!.add(n)]: a missing key is a TypeError. *)
Definition addAt (m : list Vector3) (a : nat) (n : Vector3) : option (list Vector3) :=
  match nth_error m a with
  | Some w => Some (upd m a (v_add w n))
  | None => None
  end.

Definition outwardFaceNormal (vA vB vC : Vector3) : Vector3 :=
  let cb := subVectors vC vB in
  let ab := subVectors vA vB in
  let faceNormal := normalize (crossVectors cb ab) in
  let centerX := (vx vA + vx vB + vx vC) / three in
  let centerZ := (vz vA + vz vB + vz vC) / three in
  let radialLength := Math_sqrt (centerX * centerX + centerZ * centerZ) in
  if radialLength >? lit 1 1000 then
    let radialX := centerX / radialLength in
    let radialZ := centerZ / radialLength in
    let dotProduct := vx faceNormal * radialX + vz faceNormal * radialZ in
    if dotProduct <? zero then multiplyScalar faceNormal (ofZ (-1)) else faceNormal
  else faceNormal.

Definition faceStep (positions : list num) (m : list Vector3) (a b c : nat)
  : option (list Vector3) :=
  let n := outwardFaceNormal (fromBufferAttribute positions a)
                             (fromBufferAttribute positions b)
                             (fromBufferAttribute positions c) in
  match addAt m a n with
  | None => None
  | Some m1 =>
      match addAt m1 b n with
      | None => None
      | Some m2 => addAt m2 c n
      end
  end.

(** The loop over index triples; a trailing incomplete triple reads
    [undefined] indices, whose Map lookup fails. *)
Fixpoint faceLoop (positions : list num) (idx : list nat) (m : list Vector3)
  : option (list Vector3) :=
  match idx with
  | [] => Some m
  | a :: b :: c :: rest =>
      match faceStep positions m a b c with
      | Some m' => faceLoop positions rest m'
      | None => None
      end
  | _ => None
  end.

Definition calculateFaceNormalsForVertices (geometry : BufferGeometry)
  : option (list Vector3) :=
  let positions := position geometry in
  let init := repeat (vec3 zero zero zero) (count positions) in
  option_map (map normalize)
    match index geometry with
    | Some idx => faceLoop positions idx init
    | None => Some init
    end.

(** ** ensureNormalsPointOutward *)

Definition outwardStep (positions normals : list num) (i : nat) : list num :=
  let x := getX positions i in
  let z := getZ positions i in
  let nx := getX normals i in
  let ny := getY normals i in
  let nz := getZ normals i in
  let radialLength := Math_sqrt (x * x + z * z) in
  if radialLength >? lit 1 1000 then
    let radialX := x / radialLength in
    let radialZ := z / radialLength in
    let dotProduct := nx * radialX + nz * radialZ in
    if dotProduct <? zero then setXYZ normals i (- nx) (- ny) (- nz) else normals
  else normals.

Definition ensureNormalsPointOutward (geometry : BufferGeometry) : BufferGeometry :=
  let positions := position geometry in
  mkGeometry positions
    (fold_left (outwardStep positions) (seq 0 (count positions)) (normal geometry))
    (uv geometry) (index geometry).

(** ** recalculateSmoothNormals *)

(** The [(ring, seg)] pairs of a [for ring < rings] / [for seg <= segs] nest,
    in visiting order. *)
Definition gridCells (segs ringCount : nat) : list (nat * nat) :=
  flat_map (fun ring => map (fun seg => (ring, seg)) (seq 0 (segs + 1)))
           (seq 0 ringCount).

Definition cellIndex (segs : nat) (cell : nat * nat) : nat :=
  (fst cell * (segs + 1) + snd cell)%nat.

Definition smoothNormalAt (positions : list num) (segs ringCount : nat)
           (cell : nat * nat) : Vector3 :=
  let ring := fst cell in
  let seg := snd cell in
  let vertsPerRing := (segs + 1)%nat in
  let idx := cellIndex segs cell in
  let x := getX positions idx in
  let z := getZ positions idx in
  let radiusSlope :=
    if (0 <? ring)%nat && (ring <? ringCount - 1)%nat then
      let idxPrev := ((ring - 1) * vertsPerRing + seg)%nat in
      let idxNext := ((ring + 1) * vertsPerRing + seg)%nat in
      let xPrev := getX positions idxPrev in
      let zPrev := getZ positions idxPrev in
      let yPrev := getY positions idxPrev in
      let radiusPrev := Math_sqrt (xPrev * xPrev + zPrev * zPrev) in
      let xNext := getX positions idxNext in
      let zNext := getZ positions idxNext in
      let yNext := getY positions idxNext in
      let radiusNext := Math_sqrt (xNext * xNext + zNext * zNext) in
      (radiusNext - radiusPrev) / (yNext - yPrev)
    else zero in
  let th := Math_atan2 z x in
  let tangentY := vec3 (- radiusSlope * Math_cos th) one (- radiusSlope * Math_sin th) in
  let tangentTheta := vec3 (- Math_sin th) zero (Math_cos th) in
  normalize (crossVectors tangentTheta tangentY).

Definition recalculateSmoothNormals (geometry : BufferGeometry) (segs ringCount : nat)
  : BufferGeometry :=
  let positions := position geometry in
  mkGeometry positions
    (fold_left (fun normals cell =>
                  let n := smoothNormalAt positions segs ringCount cell in
                  setXYZ normals (cellIndex segs cell) (vx n) (vy n) (vz n))
               (gridCells segs ringCount) (normal geometry))
    (uv geometry) (index geometry).

(** ** smoothDisplacedGeometry *)

(** The running sums [sumX, sumY, sumZ, totalWeight]. *)
Record Sums : Type := mkSums { sumX : num; sumY : num; sumZ : num; totalWeight : num }.

Definition accumulate (positions : list num) (s : Sums) (idx : nat) (weight : num) : Sums :=
  mkSums (sumX s + getX positions idx * weight)
         (sumY s + getY positions idx * weight)
         (sumZ s + getZ positions idx * weight)
         (totalWeight s + weight).

Definition verticalStep (positions : list num) (segs ringCount ring seg : nat)
           (s : Sums) (ringOffset : Z) : Sums :=
  let neighborRing := (Z.of_nat ring + ringOffset)%Z in
  if (0 <=? neighborRing)%Z && (neighborRing <? Z.of_nat ringCount)%Z then
    accumulate positions s (Z.to_nat neighborRing * (segs + 1) + seg)
               (lit 2 10 / Math_abs (ofZ ringOffset))
  else s.

Definition horizontalStep (positions : list num) (segs ring seg : nat)
           (s : Sums) (segOffset : Z) : Sums :=
  let neighborSeg := (Z.of_nat seg + segOffset)%Z in
  let neighborSeg := if (neighborSeg <? 0)%Z then (Z.of_nat segs - 1)%Z else neighborSeg in
  let neighborSeg := if (Z.of_nat segs <? neighborSeg)%Z then 1%Z else neighborSeg in
  accumulate positions s
             (Z.to_nat (Z.of_nat ring * (Z.of_nat segs + 1) + neighborSeg))
             (lit 1 10).

(** The value written to [smoothedPositions] for one vertex. *)
Definition smoothedVertex (positions : list num) (segs ringCount : nat)
           (cell : nat * nat) : Vector3 :=
  let ring := fst cell in
  let seg := snd cell in
  let idx := cellIndex segs cell in
  let x := getX positions idx in
  let y := getY positions idx in
  let z := getZ positions idx in
  if (ring =? 0)%nat || (ring =? ringCount - 1)%nat then vec3 x y z
  else
    let centerWeight := lit 4 10 in
    let s0 := mkSums (zero + x * centerWeight) (zero + y * centerWeight)
                     (zero + z * centerWeight) (zero + centerWeight) in
    let s1 := fold_left (verticalStep positions segs ringCount ring seg)
                        [-2; -1; 1; 2]%Z s0 in
    let s2 := fold_left (horizontalStep positions segs ring seg) [-1; 1]%Z s1 in
    vec3 (sumX s2 / totalWeight s2) (sumY s2 / totalWeight s2)
         (sumZ s2 / totalWeight s2).

(** One pass: fill a zeroed [smoothedPositions] from the current positions,
    then copy it back vertex by vertex. *)
Definition smoothedPositions (positions : list num) (segs ringCount : nat) : list num :=
  fold_left (fun sm cell =>
               let v := smoothedVertex positions segs ringCount cell in
               setXYZ sm (cellIndex segs cell) (vx v) (vy v) (vz v))
            (gridCells segs ringCount) (repeat zero (length positions)).

Definition copyBack (smoothed positions : list num) : list num :=
  fold_left (fun pos i => setXYZ pos i (getX smoothed i) (getY smoothed i) (getZ smoothed i))
            (seq 0 (count positions)) positions.

Definition smoothPass (segs ringCount : nat) (positions : list num) : list num :=
  copyBack (smoothedPositions positions segs ringCount) positions.

(** The closing loop: the last vertex of every ring takes the position of
    the first. *)
Definition matchSeam (segs ringCount : nat) (positions : list num) : list num :=
  fold_left (fun pos ring =>
               let firstIdx := (ring * (segs + 1))%nat in
               let lastIdx := (ring * (segs + 1) + segs)%nat in
               setXYZ pos lastIdx (getX pos firstIdx) (getY pos firstIdx) (getZ pos firstIdx))
            (seq 0 ringCount) positions.

Definition smoothDisplacedGeometry (geometry : BufferGeometry) (segs ringCount passes : nat)
  : BufferGeometry :=
  mkGeometry
    (matchSeam segs ringCount
       (Nat.iter passes (smoothPass segs ringCount) (position geometry)))
    (normal geometry) (uv geometry) (index geometry).

(** ** applyDisplacementToGeometry *)

(** The pixels read back from the canvas the texture image was drawn on. *)
Record ImageData : Type := mkImage { width : nat; i_height : nat; data : list Z }.
Record Texture : Type := mkTexture { image : option ImageData }.

(** [imageData.data[pixelIndex]] as a number. *)
Definition pixel (img : ImageData) (pixelIndex : num) : num :=
  match toIndex pixelIndex with
  | Some n => match nth_error (data img) n with
              | Some b => ofZ b
              | None => undef
              end
  | None => undef
  end.

(** The displacement sampled at [(u, v)], before falloff. *)
Definition sampleDisplacement (img : ImageData) (params : LoftParams)
           (scale bias u v : num) : num :=
  let uSample := num_rem (u * textureRepeatU params) one in
  let vSample := num_rem (v * textureRepeatV params) one in
  let x := Math_floor (uSample * ofZ (Z.of_nat (width img) - 1)) in
  let y := Math_floor ((one - vSample) * ofZ (Z.of_nat (i_height img) - 1)) in
  let pixelIndex := (y * ofNat (width img) + x) * ofZ 4 in
  (pixel img pixelIndex / ofZ 255) * scale + bias.

(** First pass: one value per ring, sampled at [u = 0], falloff applied. *)
Definition seamDisplacements (img : ImageData) (params : LoftParams)
           (scale bias : num) (uvs : list num) (numRings : nat) : list num :=
  map (fun ring =>
         let i := (ring * (segments params + 1))%nat in
         let v := getV uvs i in
         sampleDisplacement img params scale bias zero v
           * calculateDisplacementFalloff v params)
      (seq 0 numRings).

(** The value of [displacement] before the falloff multiplication of the
    main loop. *)
Definition rawDisplacement (img : ImageData) (params : LoftParams) (scale bias : num)
           (uvs seam : list num) (i : nat) : num :=
  let vertsPerRing := (segments params + 1)%nat in
  let ringIndex := (i / vertsPerRing)%nat in
  let vertexInRing := (i mod vertsPerRing)%nat in
  if (vertexInRing =? 0)%nat then nth ringIndex seam undef
  else if (vertexInRing =? segments params)%nat then nth ringIndex seam undef
  else sampleDisplacement img params scale bias (getU uvs i) (getV uvs i).

(** The offset position, before the radius clamp. *)
Definition offsetPosition (params : LoftParams) (isCapRing : bool)
           (current n : Vector3) (displacement : num) : Vector3 :=
  match normalType params with
  | horizontal =>
      let horizontalLength := Math_sqrt (vx n * vx n + vz n * vz n) in
      if horizontalLength >? lit 1 1000 then
        let horizontalNormalX := vx n / horizontalLength in
        let horizontalNormalZ := vz n / horizontalLength in
        vec3 (vx current + horizontalNormalX * displacement)
             (vy current)
             (vz current + horizontalNormalZ * displacement)
      else current
  | _ =>
      vec3 (vx current + vx n * displacement)
           (if isCapRing then vy current else vy current + vy n * displacement)
           (vz current + vz n * displacement)
  end.

(** The minimum-radius clamp: the position actually written. *)
Definition clampRadius (new : Vector3) : Vector3 :=
  let newRadius := Math_sqrt (vx new * vx new + vz new * vz new) in
  if newRadius <? minRadius then
    let scaleFactor := minRadius / newRadius in
    vec3 (vx new * scaleFactor) (vy new) (vz new * scaleFactor)
  else new.

Definition displacedVertex (img : ImageData) (params : LoftParams) (scale bias : num)
           (normals uvs seam : list num) (faceNormalsMap : option (list Vector3))
           (numRings : nat) (current : Vector3) (i : nat) : Vector3 :=
  let ringIndex := (i / (segments params + 1))%nat in
  let displacement :=
    rawDisplacement img params scale bias uvs seam i
      * calculateDisplacementFalloff (getV uvs i) params in
  let n := match faceNormalsMap with
           | None => fromBufferAttribute normals i
           | Some m => match nth_error m i with
                       | Some faceNormal => faceNormal
                       | None => fromBufferAttribute normals i
                       end
           end in
  let isCapRing := (ringIndex =? 0)%nat || (ringIndex =? numRings - 1)%nat in
  clampRadius (offsetPosition params isCapRing current n displacement).

Definition displaceStep (img : ImageData) (params : LoftParams) (scale bias : num)
           (normals uvs seam : list num) (faceNormalsMap : option (list Vector3))
           (numRings : nat) (positions : list num) (i : nat) : list num :=
  let p := displacedVertex img params scale bias normals uvs seam faceNormalsMap
                           numRings (fromBufferAttribute positions i) i in
  setXYZ positions i (vx p) (vy p) (vz p).

(** The positions after the main loop and the seam-closing pass. *)
Definition displacePositions (img : ImageData) (params : LoftParams) (scale bias : num)
           (geometry : BufferGeometry) (faceNormalsMap : option (list Vector3))
  : list num :=
  let positions := position geometry in
  let numRings := (count positions / (segments params + 1))%nat in
  let seam := seamDisplacements img params scale bias (uv geometry) numRings in
  matchSeam (segments params) numRings
    (fold_left (displaceStep img params scale bias (normal geometry) (uv geometry)
                             seam faceNormalsMap numRings)
               (seq 0 (count positions)) positions).

Definition withPositions (geometry : BufferGeometry) (positions : list num)
  : BufferGeometry :=
  mkGeometry positions (normal geometry) (uv geometry) (index geometry).

(** The whole function.  The [try] block is left by a [return] (no texture,
    image not decoded) or by the TypeError of a face-normal lookup, which
    the [catch] swallows; the geometry is then as mutated so far. *)
Definition applyDisplacementToGeometry (params : LoftParams) (geometry : BufferGeometry)
           (texture : option Texture) (scale bias : num) (useVertexNormals : bool)
  : BufferGeometry :=
  match texture with
  | None => geometry
  | Some tex =>
      let g1 := ensureNormalsPointOutward geometry in
      match (if useVertexNormals then Some None
             else option_map Some (calculateFaceNormalsForVertices g1)) with
      | None => g1
      | Some faceNormalsMap =>
          match image tex with
          | None => g1
          | Some img =>
              let numRings := (count (position g1) / (segments params + 1))%nat in
              let g2 := withPositions g1
                          (displacePositions img params scale bias g1 faceNormalsMap) in
              let g3 := recalculateSmoothNormals g2 (segments params) numRings in
              if (Math_abs scale >? lit 1 100) && (0 <? smoothingIntensity params)%nat then
                ensureNormalsPointOutward
                  (recalculateSmoothNormals
                     (smoothDisplacedGeometry g3 (segments params) numRings
                                              (smoothingIntensity params))
                     (segments params) numRings)
              else g3
          end
      end
  end.

(** ** updateLoftGeometry: the rebuild pipeline, geometry only *)

(** [x !== 0] *)
Definition nonZero (x : num) : bool := negb ((x <=? zero) && (zero <=? x)).

Definition smoothAndRepair (geometry : BufferGeometry) (segs ringCount passes : nat)
  : BufferGeometry :=
  ensureNormalsPointOutward
    (recalculateSmoothNormals
       (smoothDisplacedGeometry geometry segs ringCount passes) segs ringCount).

Definition isFace (t : NormalType) : bool :=
  match t with face => true | _ => false end.

(** The body geometry and the two caps welded to it. *)
Definition updateLoftGeometry (anchors : list LoftBezierAnchor) (params : LoftParams)
           (currentTexture : option Texture)
  : option (BufferGeometry * (BufferGeometry * BufferGeometry)) :=
  match createLoftGeometry anchors params with
  | None => None
  | Some loftGeometry =>
      let g1 := ensureNormalsPointOutward loftGeometry in
      let g2 :=
        if enableSmoothing params && (0 <? geometrySmoothing params)%nat then
          smoothAndRepair g1 (segments params)
                          (count (position g1) / (segments params + 1))
                          (geometrySmoothing params)
        else g1 in
      let g3 :=
        match currentTexture with
        | Some _ =>
            if nonZero (displacementScale params) || nonZero (displacementBias params)
            then applyDisplacementToGeometry params g2 currentTexture
                   (displacementScale params) (displacementBias params)
                   (negb (isFace (normalType params)))
            else g2
        | None => g2
        end in
      Some (g3, createWeldedCapGeometries g3 params)
  end.

(** ** Export: clone, scale, swap axes *)

(** Geometries live in a store; a mesh holds the address of its geometry, so
    that a clone of a mesh shares the geometry until it is given its own. *)
Definition Heap : Type := list BufferGeometry.

Inductive Object3D : Type :=
| Mesh (geometry : nat)
| Group (children : list Object3D).

Inductive Result (A : Type) : Type :=
| Ok (a : A)
| Thrown.
Arguments Thrown {A}.

Definition M (A : Type) : Type := Heap -> Result A * Heap.
Definition ret {A : Type} (a : A) : M A := fun h => (Ok a, h).
Definition throw {A : Type} : M A := fun h => (Thrown, h).
Definition bind {A B : Type} (c : M A) (k : A -> M B) : M B :=
  fun h => match c h with
           | (Ok a, h') => k a h'
           | (Thrown, h') => (Thrown, h')
           end.
Notation "x <- c ;; k" := (bind c (fun x => k))
  (at level 61, c at next level, right associativity).

Definition load (a : nat) : M (option BufferGeometry) := fun h => (Ok (nth_error h a), h).
Definition store (a : nat) (g : BufferGeometry) : M unit := fun h => (Ok tt, upd h a g).
(** [geometry.clone()]: a fresh geometry with the same contents. *)
Definition alloc (g : BufferGeometry) : M nat := fun h => (Ok (length h), h ++ [g]).

Definition exportPositionStep (scale : num) (swapYZ : bool) (positions : list num)
           (i : nat) : list num :=
  let x := getX positions i * scale in
  let y := getY positions i * scale in
  let z := getZ positions i * scale in
  if swapYZ then setXYZ positions i x z y else setXYZ positions i x y z.

Definition exportNormalStep (normals : list num) (i : nat) : list num :=
  setXYZ normals i (getX normals i) (getZ normals i) (getY normals i).

(** The in-place transform of one geometry, before [prepareGeometryForSTL]. *)
Definition transformForExport (g : BufferGeometry) (scale : num) (swapYZ : bool)
  : BufferGeometry :=
  mkGeometry
    (fold_left (exportPositionStep scale swapYZ) (seq 0 (count (position g))) (position g))
    (if swapYZ
     then fold_left exportNormalStep (seq 0 (count (normal g))) (normal g)
     else normal g)
    (uv g) (index g).

(** [prepareGeometryForSTL]: a missing index becomes [0 .. count-1]; every
    geometry of this program carries normals, so none are computed; an
    empty geometry is an error. *)
Definition prepareGeometryForSTL (a : nat) : M unit :=
  og <- load a ;;
  match og with
  | None => throw
  | Some g =>
      _ <- store a (mkGeometry (position g) (normal g) (uv g)
                      (match index g with
                       | Some idx => Some idx
                       | None => Some (seq 0 (count (position g)))
                       end)) ;;
      if (count (position g) =? 0)%nat then throw else ret tt
  end.

Definition processGeometryForExport (a : nat) (scale : num) (swapYZ : bool) : M unit :=
  og <- load a ;;
  match og with
  | None => throw
  | Some g =>
      _ <- store a (transformForExport g scale swapYZ) ;;
      prepareGeometryForSTL a
  end.

(** [object.traverse(callback)] over the children of a group, in order. *)
Definition traverse {A B : Type} (callback : A -> M B) : list A -> M (list B) :=
  fix visit (l : list A) : M (list B) :=
    match l with
    | [] => ret []
    | child :: rest =>
        c <- callback child ;;
        r <- visit rest ;;
        ret (c :: r)
    end.

(** [mesh.clone(true)] copies the object tree and shares every geometry;
    each mesh of the copy is then given a clone of its geometry, which is
    processed in place.  A mesh without geometry is left alone. *)
Fixpoint createExportClone (mesh : Object3D) (scale : num) (swapYZ : bool)
  : M Object3D :=
  match mesh with
  | Mesh a =>
      og <- load a ;;
      match og with
      | None => ret (Mesh a)
      | Some g =>
          a' <- alloc g ;;
          _ <- processGeometryForExport a' scale swapYZ ;;
          ret (Mesh a')
      end
  | Group children =>
      cs <- traverse (fun child => createExportClone child scale swapYZ) children ;;
      ret (Group cs)
  end.

(** ** Further library operations *)

(** [Math.min], through [Math.max]: [min(a, b) = -max(-a, -b)] for every
    pair of JavaScript numbers, NaN and signed zeros included. *)
Definition Math_min (a b : num) : num := - Math_max (- a) (- b).

(** [v.lengthSq()] *)
Definition lengthSq (v : Vector3) : num := vx v * vx v + vy v * vy v + vz v * vz v.

(** [array.splice(i, 0, x)] and [array.splice(i, 1)]; an index past the end
    inserts at the end, and removes nothing. *)
Definition spliceIn {A : Type} (l : list A) (i : nat) (x : A) : list A :=
  firstn i l ++ x :: skipn i l.
Definition spliceOut {A : Type} (l : list A) (i : nat) : list A :=
  firstn i l ++ skipn (S i) l.

(** ** The profile editor: toggleLoftAnchorSmooth and the pointer and
       keyboard handlers of initLoftBezierInteractions *)

(** The anchor after [isSmooth = !isSmooth]: when it becomes smooth, the
    longer handle is kept and the other one becomes its opposite. *)
Definition toggledAnchor (anchor : LoftBezierAnchor) : LoftBezierAnchor :=
  if negb (isSmooth anchor) then
    if lengthSq (handleIn anchor) >? lengthSq (handleOut anchor)
    then mkAnchor (a_position anchor) (handleIn anchor)
                  (multiplyScalar (handleIn anchor) (ofZ (-1))) true
    else mkAnchor (a_position anchor) (multiplyScalar (handleOut anchor) (ofZ (-1)))
                  (handleOut anchor) true
  else mkAnchor (a_position anchor) (handleIn anchor) (handleOut anchor) false.

Definition toggleLoftAnchorSmooth (anchors : list LoftBezierAnchor) (idx : Z)
  : list LoftBezierAnchor :=
  if (idx <? 0)%Z || (Z.of_nat (length anchors) <=? idx)%Z then anchors
  else match nth_error anchors (Z.to_nat idx) with
       | Some anchor => upd anchors (Z.to_nat idx) (toggledAnchor anchor)
       | None => anchors
       end.

(** ['in' | 'out'] *)
Inductive Handle : Type := handle_in | handle_out.

(** The variables the handlers share: the anchors, the selection, the drag
    flags, the displacement saved for the time of a drag, and the two
    displacement parameters the handlers write. *)
Record Editor : Type := mkEditor {
  loftBezierAnchors : list LoftBezierAnchor;
  selectedAnchorIndex : option nat;
  selectedHandle : option Handle;
  isDragging : bool;
  dragObject : bool;                        (* whether it holds a mesh *)
  temporaryDisplacementScale : num;
  temporaryDisplacementBias : num;
  displacementDisabledForDrag : bool;
  e_displacementScale : num;                (* loftParams.displacementScale *)
  e_displacementBias : num                  (* loftParams.displacementBias *)
}.

(** The editor after [initLoftBezierAnchors], before any event. *)
Definition initEditor (params : LoftParams) : Editor :=
  mkEditor (initLoftBezierAnchors params) None None false false zero zero false
           (displacementScale params) (displacementBias params).

(** Pointer down on the anchor [i]: select it and damp the displacement for
    the time of the drag. *)
Definition grabAnchor (st : Editor) (i : nat) : Editor :=
  if negb (displacementDisabledForDrag st)
     && (nonZero (e_displacementScale st) || nonZero (e_displacementBias st))
  then mkEditor (loftBezierAnchors st) (Some i) None true true
                (e_displacementScale st) (e_displacementBias st) true
                (e_displacementScale st * lit 3 10) (e_displacementBias st * lit 3 10)
  else mkEditor (loftBezierAnchors st) (Some i) None true true
                (temporaryDisplacementScale st) (temporaryDisplacementBias st)
                (displacementDisabledForDrag st)
                (e_displacementScale st) (e_displacementBias st).

Definition grabHandle (st : Editor) (h : Handle) : Editor :=
  mkEditor (loftBezierAnchors st) (selectedAnchorIndex st) (Some h) true true
           (temporaryDisplacementScale st) (temporaryDisplacementBias st)
           (displacementDisabledForDrag st)
           (e_displacementScale st) (e_displacementBias st).

Definition isSelected (st : Editor) (i : nat) : bool :=
  match selectedAnchorIndex st with
  | Some j => (j =? i)%nat
  | None => false
  end.

(** The loop of the pointer-down handler over the anchors [i, i+1, ...]; the
    three tests answer whether the ray hits the mesh of anchor [i], and its
    visible handle meshes. *)
Fixpoint pointerdownLoop (hitAnchor hitIn hitOut : nat -> bool) (st : Editor)
         (indices : list nat) : Editor :=
  match indices with
  | [] => st
  | i :: rest =>
      if hitAnchor i then grabAnchor st i
      else if isSelected st i then
        if hitIn i then grabHandle st handle_in
        else if hitOut i then grabHandle st handle_out
        else pointerdownLoop hitAnchor hitIn hitOut st rest
      else pointerdownLoop hitAnchor hitIn hitOut st rest
  end.

Definition pointerdown (hitAnchor hitIn hitOut : nat -> bool) (st : Editor) : Editor :=
  let st1 := pointerdownLoop hitAnchor hitIn hitOut st
               (seq 0 (length (loftBezierAnchors st))) in
  if isDragging st1 && dragObject st1 then st1
  else mkEditor (loftBezierAnchors st1) None None (isDragging st1) (dragObject st1)
                (temporaryDisplacementScale st1) (temporaryDisplacementBias st1)
                (displacementDisabledForDrag st1)
                (e_displacementScale st1) (e_displacementBias st1).

(** The anchor [i] of [n] dragged to the point [intersect]. *)
Definition movedAnchor (height : num) (n i : nat) (anchor : LoftBezierAnchor)
           (intersect : Vector3) : LoftBezierAnchor :=
  let y := if (i =? 0)%nat then zero
           else if (i =? n - 1)%nat then height
           else Math_max zero (Math_min height (vy intersect)) in
  mkAnchor (vec3 (Math_max (lit 1 10) (vx intersect)) y (vz (a_position anchor)))
           (handleIn anchor) (handleOut anchor) (isSmooth anchor).

(** A handle of [anchor] dragged to the point [intersect]. *)
Definition movedHandle (h : Handle) (anchor : LoftBezierAnchor) (intersect : Vector3)
  : LoftBezierAnchor :=
  let dragged := vec3 (vx intersect - vx (a_position anchor))
                      (vy intersect - vy (a_position anchor)) zero in
  let mirrored := multiplyScalar dragged (ofZ (-1)) in
  match h with
  | handle_in =>
      mkAnchor (a_position anchor) dragged
               (if isSmooth anchor then mirrored else handleOut anchor) (isSmooth anchor)
  | handle_out =>
      mkAnchor (a_position anchor)
               (if isSmooth anchor then mirrored else handleIn anchor) dragged
               (isSmooth anchor)
  end.

Definition withAnchors (st : Editor) (anchors : list LoftBezierAnchor) : Editor :=
  mkEditor anchors (selectedAnchorIndex st) (selectedHandle st) (isDragging st)
           (dragObject st) (temporaryDisplacementScale st) (temporaryDisplacementBias st)
           (displacementDisabledForDrag st)
           (e_displacementScale st) (e_displacementBias st).

(** Pointer move; [None] is the TypeError of reading a missing anchor. *)
Definition pointermove (height : num) (intersect : Vector3) (st : Editor) : option Editor :=
  if negb (isDragging st) then Some st
  else match selectedAnchorIndex st with
       | None => Some st
       | Some i =>
           match nth_error (loftBezierAnchors st) i with
           | None => None
           | Some anchor =>
               let anchor' :=
                 match selectedHandle st with
                 | None => movedAnchor height (length (loftBezierAnchors st)) i anchor
                                       intersect
                 | Some h => movedHandle h anchor intersect
                 end in
               Some (withAnchors st (upd (loftBezierAnchors st) i anchor'))
           end
       end.

Definition pointerup (st : Editor) : Editor :=
  if displacementDisabledForDrag st
  then mkEditor (loftBezierAnchors st) (selectedAnchorIndex st) (selectedHandle st)
                false false
                (temporaryDisplacementScale st) (temporaryDisplacementBias st) false
                (temporaryDisplacementScale st) (temporaryDisplacementBias st)
  else mkEditor (loftBezierAnchors st) (selectedAnchorIndex st) (selectedHandle st)
                false false
                (temporaryDisplacementScale st) (temporaryDisplacementBias st) false
                (e_displacementScale st) (e_displacementBias st).

(** The search of the double-click handler for the place of a new anchor at
    height [clickY], from index [i] on. *)
Fixpoint findInsertIndex (anchors : list LoftBezierAnchor) (clickY : num) (i : nat)
  : option nat :=
  match anchors with
  | [] => None
  | anchor :: rest =>
      if clickY <? vy (a_position anchor) then Some i
      else match rest with
           | [] => Some i
           | _ => findInsertIndex rest clickY (S i)
           end
  end.

Definition insertAnchor (anchors : list LoftBezierAnchor) (clickedPoint : Vector3)
  : list LoftBezierAnchor :=
  let clickY := vy clickedPoint in
  let insertIndex := match findInsertIndex anchors clickY 0 with
                     | Some i => i
                     | None => 1%nat
                     end in
  let newAnchor := mkAnchor (vec3 (Math_max (lit 1 10) (vx clickedPoint)) clickY zero)
                            (vec3 zero (lit (-1) 10) zero) (vec3 zero (lit 1 10) zero)
                            true in
  spliceIn anchors insertIndex newAnchor.

(** Double click: the first anchor whose mesh is hit is toggled; otherwise a
    hit of the curve, at [curveHit], adds an anchor. *)
Definition dblclick (hitAnchor : nat -> bool) (curveHit : option Vector3) (st : Editor)
  : Editor :=
  match find hitAnchor (seq 0 (length (loftBezierAnchors st))) with
  | Some i => withAnchors st (toggleLoftAnchorSmooth (loftBezierAnchors st) (Z.of_nat i))
  | None =>
      match curveHit with
      | Some clickedPoint => withAnchors st (insertAnchor (loftBezierAnchors st) clickedPoint)
      | None => st
      end
  end.

(** The Delete and Backspace keys remove the selected anchor, unless it is
    the first or the last. *)
Definition deleteKey (st : Editor) : Editor :=
  match selectedAnchorIndex st with
  | Some i =>
      if (0 <? i)%nat && (Z.of_nat i <? Z.of_nat (length (loftBezierAnchors st)) - 1)%Z
      then mkEditor (spliceOut (loftBezierAnchors st) i) None (selectedHandle st)
                    (isDragging st) (dragObject st)
                    (temporaryDisplacementScale st) (temporaryDisplacementBias st)
                    (displacementDisabledForDrag st)
                    (e_displacementScale st) (e_displacementBias st)
      else st
  | None => st
  end.

Inductive Event : Type :=
| PointerDown (hitAnchor hitIn hitOut : nat -> bool)
| PointerMove (intersect : Vector3)
| PointerUp
| DoubleClick (hitAnchor : nat -> bool) (curveHit : option Vector3)
| KeyDelete.

Definition handleEvent (height : num) (st : Editor) (e : Event) : option Editor :=
  match e with
  | PointerDown hitAnchor hitIn hitOut => Some (pointerdown hitAnchor hitIn hitOut st)
  | PointerMove intersect => pointermove height intersect st
  | PointerUp => Some (pointerup st)
  | DoubleClick hitAnchor curveHit => Some (dblclick hitAnchor curveHit st)
  | KeyDelete => Some (deleteKey st)
  end.

(** The events of a session, in order; a TypeError ends it. *)
Fixpoint handleEvents (height : num) (st : Editor) (events : list Event) : option Editor :=
  match events with
  | [] => Some st
  | e :: rest =>
      match handleEvent height st e with
      | Some st' => handleEvents height st' rest
      | None => None
      end
  end.

(** ** The handlers of the displacement controls (initLoftGUI) *)

Definition withDisplacement (p : LoftParams) (scale bias : num) : LoftParams :=
  {| rings := rings p; segments := segments p;
     radius := radius p; height := height p; twist := twist p; taper := taper p;
     normalType := normalType p;
     textureRepeatU := textureRepeatU p; textureRepeatV := textureRepeatV p;
     textureRotation := textureRotation p;
     displacementScale := scale; displacementBias := bias;
     smoothingIntensity := smoothingIntensity p;
     enableSmoothing := enableSmoothing p;
     geometrySmoothing := geometrySmoothing p;
     falloffEnabled := falloffEnabled p; falloffTop := falloffTop p;
     falloffBottom := falloffBottom p; falloffPower := falloffPower p;
     exportScale := exportScale p |}.

Definition withFalloffZones (p : LoftParams) (top bottom : num) : LoftParams :=
  {| rings := rings p; segments := segments p;
     radius := radius p; height := height p; twist := twist p; taper := taper p;
     normalType := normalType p;
     textureRepeatU := textureRepeatU p; textureRepeatV := textureRepeatV p;
     textureRotation := textureRotation p;
     displacementScale := displacementScale p;
     displacementBias := displacementBias p;
     smoothingIntensity := smoothingIntensity p;
     enableSmoothing := enableSmoothing p;
     geometrySmoothing := geometrySmoothing p;
     falloffEnabled := falloffEnabled p; falloffTop := top;
     falloffBottom := bottom; falloffPower := falloffPower p;
     exportScale := exportScale p |}.

(** [updateDisplacement]: the parameters the rebuild is then run with. *)
Definition updateDisplacement (p : LoftParams) : LoftParams :=
  withDisplacement p
    (Math_max (ofZ (-2)) (Math_min (ofZ 2) (displacementScale p)))
    (Math_max (ofZ (-1)) (Math_min (ofZ 1) (displacementBias p))).

(** The [onChange] handlers of the two falloff sliders. *)
Definition onFalloffTopChange (p : LoftParams) : LoftParams :=
  updateDisplacement
    (if falloffTop p + falloffBottom p >? lit 95 100
     then withFalloffZones p (lit 95 100 - falloffBottom p) (falloffBottom p)
     else p).

Definition onFalloffBottomChange (p : LoftParams) : LoftParams :=
  updateDisplacement
    (if falloffTop p + falloffBottom p >? lit 95 100
     then withFalloffZones p (falloffTop p) (lit 95 100 - falloffTop p)
     else p).

(** ** mergeGeometries and createWatertightMesh *)

(** [attribute.count] for an attribute of item size 2. *)
Definition count2 (a : list num) : nat := length a / 2.

(** The values pushed for one attribute: item by item, up to its count. *)
Definition pushedXYZ (a : list num) : list num :=
  flat_map (fun i => [getX a i; getY a i; getZ a i]) (seq 0 (count a)).
Definition pushedUV (a : list num) : list num :=
  flat_map (fun i => [getU a i; getV a i]) (seq 0 (count2 a)).

(** The state of the merge loop: the four arrays and [indexOffset]. *)
Record Merged : Type := mkMerged {
  m_positions : list num;
  m_normals : list num;
  m_uvs : list num;
  m_indices : list nat;
  indexOffset : nat
}.

(** Every geometry of this program carries its three attributes; the index
    alone may be missing. *)
Definition mergeStep (acc : Merged) (geometry : BufferGeometry) : Merged :=
  mkMerged (m_positions acc ++ pushedXYZ (position geometry))
           (m_normals acc ++ pushedXYZ (normal geometry))
           (m_uvs acc ++ pushedUV (uv geometry))
           (match index geometry with
            | Some arr => m_indices acc ++ map (fun i => (i + indexOffset acc)%nat) arr
            | None => m_indices acc
            end)
           (match index geometry with
            | Some _ => (indexOffset acc + count (position geometry))%nat
            | None => indexOffset acc
            end).

(** An attribute that is not set is an empty array here. *)
Definition mergeGeometries (geometries : list BufferGeometry) : BufferGeometry :=
  let acc := fold_left mergeStep geometries (mkMerged [] [] [] [] 0) in
  mkGeometry (Float32BufferAttribute (m_positions acc))
             (Float32BufferAttribute (m_normals acc))
             (Float32BufferAttribute (m_uvs acc))
             (match m_indices acc with
              | [] => None
              | indices => Some indices
              end).

Definition createWatertightMesh (bodyGeometry : BufferGeometry)
           (bottomCapGeometry topCapGeometry : option BufferGeometry) : BufferGeometry :=
  mergeGeometries
    ([bodyGeometry]
       ++ match bottomCapGeometry with Some g => [g] | None => [] end
       ++ match topCapGeometry with Some g => [g] | None => [] end).

(** ** createLoftWireframe *)

(** The points pushed for one ring outline: the vertex of every segment, and
    after each but the last the vertex of the next segment. *)
Definition wireRing (params : LoftParams) (ringRadius : num) (ring : nat) : list num :=
  flat_map (fun seg =>
              let th := theta params ring seg in
              [ringRadius * Math_cos th; ringHeight params ring; ringRadius * Math_sin th]
              ++ (if (seg <? segments params)%nat
                  then let nextTheta := theta params ring (seg + 1) in
                       [ringRadius * Math_cos nextTheta; ringHeight params ring;
                        ringRadius * Math_sin nextTheta]
                  else []))
           (seq 0 (segments params + 1)).

Definition wireOutline (anchors : list LoftBezierAnchor) (params : LoftParams) (ring : nat)
  : option (list num) :=
  option_map (fun baseRadius => wireRing params (baseRadius * ringTaper params ring) ring)
             (getRadiusAtHeight anchors params (ringHeight params ring)).

(** One vertical line, from ring [ring] to the next, at segment [seg]. *)
Definition wireVertical (anchors : list LoftBezierAnchor) (params : LoftParams)
           (seg ring : nat) : option (list num) :=
  match getRadiusAtHeight anchors params (ringHeight params ring),
        getRadiusAtHeight anchors params (ringHeight params (ring + 1)) with
  | Some baseRadius1, Some baseRadius2 =>
      let theta1 := theta params ring seg in
      let theta2 := theta params (ring + 1) seg in
      Some [baseRadius1 * ringTaper params ring * Math_cos theta1;
            ringHeight params ring;
            baseRadius1 * ringTaper params ring * Math_sin theta1;
            baseRadius2 * ringTaper params (ring + 1) * Math_cos theta2;
            ringHeight params (ring + 1);
            baseRadius2 * ringTaper params (ring + 1) * Math_sin theta2]
  | _, _ => None
  end.

(** The position attribute of the line segments; [None] when the profile
    evaluation fails.  The vertical lines are drawn at every fourth segment. *)
Definition createLoftWireframe (anchors : list LoftBezierAnchor) (params : LoftParams)
  : option (list num) :=
  match mapM (wireOutline anchors params) (seq 0 (rings params)) with
  | None => None
  | Some outlines =>
      match mapM (fun seg => mapM (wireVertical anchors params seg)
                                  (seq 0 (rings params - 1)))
                 (map (fun k => (4 * k)%nat) (seq 0 (segments params / 4 + 1))) with
      | None => None
      | Some verticals =>
          Some (Float32BufferAttribute (concat outlines ++ concat (concat verticals)))
      end
  end.

(** ** createNormalsHelper *)

(** The two points of a helper line: from [offset] to [offset + length]
    along [n], starting at [start]. *)
Definition normalLine (start n : Vector3) (length offset : num) : list num :=
  [vx start + vx n * offset; vy start + vy n * offset; vz start + vz n * offset;
   vx start + vx n * (offset + length); vy start + vy n * (offset + length);
   vz start + vz n * (offset + length)].

(** The normal of vertex [i], flipped when it points at the axis. *)
Definition shownVertexNormal (positions normals : list num) (i : nat) : Vector3 :=
  let x := getX positions i in
  let z := getZ positions i in
  let nx := getX normals i in
  let ny := getY normals i in
  let nz := getZ normals i in
  let radialLength := Math_sqrt (x * x + z * z) in
  if radialLength >? lit 1 1000 then
    let radialX := x / radialLength in
    let radialZ := z / radialLength in
    let dotProduct := nx * radialX + nz * radialZ in
    if dotProduct <? zero then vec3 (- nx) (- ny) (- nz) else vec3 nx ny nz
  else vec3 nx ny nz.

(** The line of one triangle: its outward face normal, drawn from its
    centre. *)
Definition faceLine (vA vB vC : Vector3) (length offset : num) : list num :=
  let faceNormal := outwardFaceNormal vA vB vC in
  let center := vec3 ((vx vA + vx vB + vx vC) / three)
                     ((vy vA + vy vB + vy vC) / three)
                     ((vz vA + vz vB + vz vC) / three) in
  normalLine center faceNormal length offset.

(** The loop over the index, three entries at a time; an entry read past the
    end of the index is [undefined], and so is the vertex it designates. *)
Fixpoint indexedFaceLines (positions : list num) (idx : list nat) (length offset : num)
  : list num :=
  match idx with
  | [] => []
  | a :: b :: c :: rest =>
      faceLine (fromBufferAttribute positions a) (fromBufferAttribute positions b)
               (fromBufferAttribute positions c) length offset
      ++ indexedFaceLines positions rest length offset
  | [a; b] =>
      faceLine (fromBufferAttribute positions a) (fromBufferAttribute positions b)
               noVertex length offset
  | [a] => faceLine (fromBufferAttribute positions a) noVertex noVertex length offset
  end.

(** The position attribute of the helper lines: vertex normals for the type
    ['vertex'], face normals for the two other types. *)
Definition createNormalsHelper (geometry : BufferGeometry) (length offset : num)
           (type : NormalType) : list num :=
  let positions := position geometry in
  Float32BufferAttribute
    match type with
    | vertex =>
        flat_map (fun i => normalLine (fromBufferAttribute positions i)
                                      (shownVertexNormal positions (normal geometry) i)
                                      length offset)
                 (seq 0 (count positions))
    | _ =>
        match index geometry with
        | Some idx => indexedFaceLines positions idx length offset
        | None =>
            flat_map (fun k => faceLine (fromBufferAttribute positions (3 * k))
                                        (fromBufferAttribute positions (3 * k + 1))
                                        (fromBufferAttribute positions (3 * k + 2))
                                        length offset)
                     (seq 0 ((count positions + 2) / 3))
        end
    end.

(** ** exportMesh, up to the call of the exporter, and its three callers *)

(** [total += child.geometry.getAttribute('position').count] over the meshes
    of an object. *)
Fixpoint totalVertices (h : Heap) (o : Object3D) : nat :=
  match o with
  | Mesh a => match nth_error h a with
              | Some g => count (position g)
              | None => 0
              end
  | Group children => fold_left (fun total child => (total + totalVertices h child)%nat)
                                children 0%nat
  end.

(** The clone handed to the exporter: [Thrown] stands for the three errors
    thrown before it ('No mesh provided', 'Export mesh has no valid
    geometry', 'Export group has no valid geometry') and for the one of
    [prepareGeometryForSTL]. *)
Definition exportMesh (mesh : option Object3D) (scale : num) (swapYZ : bool)
  : M Object3D :=
  match mesh with
  | None => throw
  | Some o =>
      exportObject <- createExportClone o scale swapYZ ;;
      fun h => if (totalVertices h exportObject =? 0)%nat
               then (Thrown, h) else (Ok exportObject, h)
  end.

(** The groups the three export commands build from the body mesh and the
    caps; [None] when there is no body mesh (an alert, and nothing else). *)
Definition groupOf (parts : list (option Object3D)) : Object3D :=
  Group (flat_map (fun part => match part with Some o => [o] | None => [] end) parts).

Definition exportSTL (loftMesh bottomCap topCap : option Object3D) (params : LoftParams)
  : option (M Object3D) :=
  match loftMesh with
  | None => None
  | Some _ => Some (exportMesh (Some (groupOf [loftMesh; bottomCap; topCap]))
                               (exportScale params) true)
  end.

Definition exportOBJ (loftMesh bottomCap topCap : option Object3D) (params : LoftParams)
  : option (M Object3D) :=
  match loftMesh with
  | None => None
  | Some _ => Some (exportMesh (Some (groupOf [loftMesh; topCap]))
                               (exportScale params) true)
  end.

Definition exportSTLBinary (loftMesh bottomCap topCap : option Object3D)
           (params : LoftParams) : option (M Object3D) :=
  match loftMesh with
  | None => None
  | Some _ => Some (exportMesh (Some (groupOf [loftMesh; bottomCap; topCap]))
                               (exportScale params) true)
  end.
End Engine.

Arguments Thrown {A}.
Arguments Vector3 num : clear implicits.
Arguments CubicBezierCurve3 num : clear implicits.
Arguments BufferGeometry num : clear implicits.
Arguments LoftParams num : clear implicits.
Arguments LoftBezierAnchor num : clear implicits.
Arguments Sums num : clear implicits.
Arguments Heap num : clear implicits.
Arguments M num : clear implicits.

(** ** Exact real arithmetic *)

Module RealArith.
Local Open Scope R_scope.

Definition Rltb (a b : R) : bool := if Rlt_dec a b then true else false.
Definition Rleb (a b : R) : bool := if Rle_dec a b then true else false.

(** Truncation towards zero, for the remainder. *)
Definition Rtrunc (x : R) : Z :=
  if Rle_dec 0 x then Int_part x else (- Int_part (- x))%Z.
Definition Rrem (a b : R) : R := a - b * IZR (Rtrunc (a / b)).

Definition RtoIndex (x : R) : option nat :=
  if Req_dec_T (IZR (Int_part x)) x
  then if Rle_dec 0 x then Some (Z.to_nat (Int_part x)) else None
  else None.

Definition Ratan2 (y x : R) : R :=
  if Rlt_dec 0 x then atan (y / x)
  else if Rlt_dec x 0 then (if Rle_dec 0 y then atan (y / x) + PI else atan (y / x) - PI)
  else if Rlt_dec 0 y then PI / 2
  else if Rlt_dec y 0 then - (PI / 2)
  else 0.

(** [Math.pow] on a non-negative base: [x^0 = 1], [0^y = 0] and [exp (y ln x)]
    otherwise.  (A negative base, where JavaScript answers NaN unless the
    exponent is an integer, is sent to 0.) *)
Definition Rpow (x y : R) : R :=
  if Req_dec_T y 0 then 1
  else if Rlt_dec 0 x then Rpower x y
  else 0.

(** There is no NaN among the reals: [undefined] and a division by zero are
    the total functions of the library ([/ 0 = 0]).  A statement in exact
    arithmetic whose code divides or reads an array therefore carries the
    hypotheses that keep it away from both cases. *)
Definition RNumber : Number R := {|
  ofZ := IZR;
  num_add := Rplus;
  num_sub := Rminus;
  num_mul := Rmult;
  num_div := Rdiv;
  num_rem := Rrem;
  num_neg := Ropp;
  Math_sqrt := R_sqrt.sqrt;
  Math_abs := Rabs;
  Math_floor := fun x => IZR (Int_part x);
  Math_max := Rmax;
  num_ltb := Rltb;
  num_leb := Rleb;
  truthy := fun x => if Req_dec_T x 0 then false else true;
  toIndex := RtoIndex;
  fround := fun x => x;
  undef := 0;
  Math_PI := Rtrigo1.PI;
  Math_cos := Rtrigo_def.cos;
  Math_sin := Rtrigo_def.sin;
  Math_atan2 := Ratan2;
  Math_pow := Rpow
|}.
End RealArith.

(** ** IEEE-754 binary64, with binary32 stores *)

Module FloatArith.
Local Open Scope float_scope.

Definition ofZ64 (z : Z) : float := SF2Prim (binary_normalize prec emax z 0 false).

(** The signed integer [m] with [x = m * 2^e], for a finite non-zero [x]. *)
Definition mantissa (s : bool) (m : positive) : Z := if s then Z.neg m else Z.pos m.

Definition ffloor (x : float) : float :=
  match Prim2SF x with
  | S754_finite s m e =>
      if (0 <=? e)%Z then x
      else
        let q := Z.shiftr (mantissa s m) (- e) in
        if (q =? 0)%Z then (if s then PrimFloat.neg_zero else PrimFloat.zero) else ofZ64 q
  | _ => x
  end.

(** The remainder of the truncated division, exact, with the sign of the
    dividend. *)
Definition frem (a b : float) : float :=
  match Prim2SF a, Prim2SF b with
  | S754_nan, _ | _, S754_nan | S754_infinity _, _ | _, S754_zero _ => nan
  | S754_zero _, _ | _, S754_infinity _ => a
  | S754_finite sa ma ea, S754_finite _ mb eb =>
      let e := Z.min ea eb in
      let r := Z.rem (Z.pos ma * 2 ^ (ea - e)) (Z.pos mb * 2 ^ (eb - e)) in
      SF2Prim (binary_normalize prec emax (if sa then - r else r)%Z e sa)
  end.

Definition fmax (a b : float) : float :=
  if is_nan a || is_nan b then nan
  else if a <? b then b
  else if b <? a then a
  else if get_sign a then b else a.

Definition ftoIndex (x : float) : option nat :=
  match Prim2SF x with
  | S754_zero _ => Some O
  | S754_finite false m e =>
      if (0 <=? e)%Z then Some (Z.to_nat (Z.pos m * 2 ^ e))
      else if (Z.land (Z.pos m) (2 ^ (- e) - 1) =? 0)%Z
           then Some (Z.to_nat (Z.shiftr (Z.pos m) (- e)))
           else None
  | _ => None
  end.

(** Rounding to binary32 (24-bit significand, [emax = 128]), to nearest even. *)
Definition ffround (x : float) : float :=
  match Prim2SF x with
  | S754_finite s m e => SF2Prim (binary_normalize 24 128 (mantissa s m) e s)
  | _ => x
  end.

Definition ftruthy (x : float) : bool := negb (is_nan x || is_zero x).

(** The transcendental functions are left to the implementation by the
    language; they are parameters of the instance. *)
Definition FloatNumber (fcos fsin : float -> float) (fatan2 fpow : float -> float -> float)
  : Number float := {|
  ofZ := ofZ64;
  num_add := PrimFloat.add;
  num_sub := PrimFloat.sub;
  num_mul := PrimFloat.mul;
  num_div := PrimFloat.div;
  num_rem := frem;
  num_neg := PrimFloat.opp;
  Math_sqrt := PrimFloat.sqrt;
  Math_abs := PrimFloat.abs;
  Math_floor := ffloor;
  Math_max := fmax;
  num_ltb := PrimFloat.ltb;
  num_leb := PrimFloat.leb;
  truthy := ftruthy;
  toIndex := ftoIndex;
  fround := ffround;
  undef := nan;
  Math_PI := 0x1.921fb54442d18p+1;
  Math_cos := fcos;
  Math_sin := fsin;
  Math_atan2 := fatan2;
  Math_pow := fpow
|}.
End FloatArith.

(** * Vocabulary of the statements *)

Section Vocabulary.
Context {num : Type} `{Number num}.

(** A vector as a Float32Array store leaves it. *)
Definition roundV (v : Vector3 num) : Vector3 num :=
  vec3 (fround (vx v)) (fround (vy v)) (fround (vz v)).

(** The write of a whole vector at a vertex. *)
Definition setV (a : list num) (i : nat) (v : Vector3 num) : list num :=
  setXYZ a i (vx v) (vy v) (vz v).

(** The seam of ring [r] is closed: its first and last vertices coincide. *)
Definition seamClosed (segs : nat) (a : list num) (r : nat) : Prop :=
  fromBufferAttribute a (r * (segs + 1) + segs)
  = fromBufferAttribute a (r * (segs + 1)).

(** The export transform of the specification: every coordinate times the
    scale, then Y and Z exchanged when asked; for a normal, the exchange
    alone. *)
Definition exportedPosition (scale : num) (swapYZ : bool) (v : Vector3 num) : Vector3 num :=
  if swapYZ
  then vec3 (vx v * scale)%js (vz v * scale)%js (vy v * scale)%js
  else vec3 (vx v * scale)%js (vy v * scale)%js (vz v * scale)%js.

Definition swappedNormal (v : Vector3 num) : Vector3 num := vec3 (vx v) (vz v) (vy v).

(** [g'] is [g] as exported: positions and normals transformed vertex by
    vertex, UVs kept. *)
Definition exportedFrom (scale : num) (swapYZ : bool) (g g' : BufferGeometry num) : Prop :=
  (forall i, i < count (position g) ->
     fromBufferAttribute (position g') i
     = roundV (exportedPosition scale swapYZ (fromBufferAttribute (position g) i)))
  /\ (forall i, i < count (normal g) ->
       fromBufferAttribute (normal g') i
       = if swapYZ then roundV (swappedNormal (fromBufferAttribute (normal g) i))
         else fromBufferAttribute (normal g) i)
  /\ uv g' = uv g
  /\ length (position g') = length (position g).

(** Every seam of the first [n] rings is closed. *)
Definition seamsClosed (segs n : nat) (a : list num) : Prop :=
  forall r, r < n -> seamClosed segs a r.

(** Rounding to Float32 leaves a Float32 value alone. *)
Definition froundIdempotent : Prop := forall x : num, fround (fround x) = fround x.

(** Vertex [i] of [a] holds values a Float32Array can hold. *)
Definition storedVertex (a : list num) (i : nat) : Prop :=
  roundV (fromBufferAttribute a i) = fromBufferAttribute a i.

Definition storedAll (a : list num) : Prop :=
  forall i, i < count a -> storedVertex a i.

(** The number of complete rings of a position array. *)
Definition numRingsOf (segs : nat) (a : list num) : nat := count a / (segs + 1).

(** The red channel of the pixel in column [x] of row [y], normalized to
    [0, 1]. *)
Definition redAt (img : ImageData) (x y : num) : num :=
  (pixel img ((y * ofNat (width img) + x) * ofZ 4) / ofZ 255)%js.

(** The sample of the specification at [(u, v)]: the image is read at
    [(u repeatU mod 1, 1 - (v repeatV mod 1))], scaled to pixel coordinates. *)
Definition sampledRed (img : ImageData) (params : LoftParams num) (u v : num) : num :=
  let uSample := num_rem (u * textureRepeatU params)%js one in
  let vSample := num_rem (v * textureRepeatV params)%js one in
  redAt img (Math_floor (uSample * ofZ (Z.of_nat (width img) - 1))%js)
            (Math_floor ((one - vSample) * ofZ (Z.of_nat (i_height img) - 1))%js).

(** Vertex [i] lies on neither seam column. *)
Definition offSeam (segs i : nat) : Prop :=
  i mod (segs + 1) <> 0 /\ i mod (segs + 1) <> segs.

(** The displacement runs to its end: the image is decoded, and in face mode
    the face normals were computed (no lookup failed). *)
Definition displacementRuns (g : BufferGeometry num) (tex : Texture)
           (useVertexNormals : bool) (img : ImageData)
           (faceNormalsMap : option (list (Vector3 num))) : Prop :=
  image tex = Some img
  /\ (if useVertexNormals then Some None
      else option_map Some (calculateFaceNormalsForVertices (ensureNormalsPointOutward g)))
     = Some faceNormalsMap.

(** Ring [r] is one of the two cap rings of a grid of [n] rings. *)
Definition capRing (n r : nat) : Prop := (r = 0 \/ r = n - 1) /\ r < n.

(** The heights of the cap rings of [q] are those of [p0]. *)
Definition sameCapHeights (segs n : nat) (p0 q : list num) : Prop :=
  forall r s, capRing n r -> s <= segs ->
    vy (fromBufferAttribute q (r * (segs + 1) + s))
    = vy (fromBufferAttribute p0 (r * (segs + 1) + s)).

(** The cap rings of [p0] hold Float32 heights, and the two ends of their
    seams are at the same height (as on every lathe grid). *)
Definition capHeightsStored (segs n : nat) (p0 : list num) : Prop :=
  forall r s, capRing n r -> s <= segs ->
    fround (vy (fromBufferAttribute p0 (r * (segs + 1) + s)))
    = vy (fromBufferAttribute p0 (r * (segs + 1) + s)).

Definition capSeamsLevel (segs n : nat) (p0 : list num) : Prop :=
  forall r, capRing n r ->
    vy (fromBufferAttribute p0 (r * (segs + 1) + segs))
    = vy (fromBufferAttribute p0 (r * (segs + 1))).

(** The sum of one coordinate over the first [segs] vertices of body ring
    [r] (the seam duplicate left out), accumulated in vertex order. *)
Definition bodySum (coord : Vector3 num -> num) (a : list num) (r segs : nat) : num :=
  fold_left (fun acc i => (acc + coord (fromBufferAttribute a (r * (segs + 1) + i)))%js)
            (seq 0 segs) zero.

(** The centroid of body ring [r]: the sums divided by the number of segments. *)
Definition ringCentroid (a : list num) (r segs : nat) : Vector3 num :=
  vec3 (bodySum vx a r segs / ofNat segs)%js
       (bodySum vy a r segs / ofNat segs)%js
       (bodySum vz a r segs / ofNat segs)%js.

(** Parameters [p] in normal mode [t]. *)
Definition withNormalType (p : LoftParams num) (t : NormalType) : LoftParams num :=
  {| rings := rings p; segments := segments p;
     radius := radius p; height := height p; twist := twist p; taper := taper p;
     normalType := t;
     textureRepeatU := textureRepeatU p; textureRepeatV := textureRepeatV p;
     textureRotation := textureRotation p;
     displacementScale := displacementScale p;
     displacementBias := displacementBias p;
     smoothingIntensity := smoothingIntensity p;
     enableSmoothing := enableSmoothing p;
     geometrySmoothing := geometrySmoothing p;
     falloffEnabled := falloffEnabled p; falloffTop := falloffTop p;
     falloffBottom := falloffBottom p; falloffPower := falloffPower p;
     exportScale := exportScale p |}.

(** Parameters [p] on a grid of [r] rings and [s] segments. *)
Definition withGrid (p : LoftParams num) (r s : nat) : LoftParams num :=
  {| rings := r; segments := s;
     radius := radius p; height := height p; twist := twist p; taper := taper p;
     normalType := normalType p;
     textureRepeatU := textureRepeatU p; textureRepeatV := textureRepeatV p;
     textureRotation := textureRotation p;
     displacementScale := displacementScale p;
     displacementBias := displacementBias p;
     smoothingIntensity := smoothingIntensity p;
     enableSmoothing := enableSmoothing p;
     geometrySmoothing := geometrySmoothing p;
     falloffEnabled := falloffEnabled p; falloffTop := falloffTop p;
     falloffBottom := falloffBottom p; falloffPower := falloffPower p;
     exportScale := exportScale p |}.
End Vocabulary.

(** * Decoded images (RGBA bytes, row by row) *)

(** One white pixel, one black pixel, and four pixels in a row with reds
    0, 255, 255, 0. *)
Definition whitePixel : ImageData := mkImage 1 1 [255; 255; 255; 255]%Z.
Definition blackPixel : ImageData := mkImage 1 1 [0; 0; 0; 255]%Z.
Definition stripes : ImageData :=
  mkImage 4 1 [0; 0; 0; 255;  255; 0; 0; 255;  255; 0; 0; 255;  0; 0; 0; 255]%Z.
Definition blackTexture : Texture := mkTexture (Some blackPixel).

(** * Reference functions and scenarios of the specification *)

Module Spec.
Import RealArith.
Local Open Scope R_scope.
#[local] Existing Instance RNumber.

(** A missing bracket, stated on the anchors: no two consecutive anchors have
    heights around [h]. *)
Definition unbracketed (anchors : list (LoftBezierAnchor R)) (h : R) : Prop :=
  forall i a b,
    nth_error anchors i = Some a -> nth_error anchors (S i) = Some b ->
    ~ (vy (a_position a) <= h <= vy (a_position b)).

(** The default parameters with the given falloff, scale 1 and bias 0. *)
Definition withFalloff (enabled : bool) (top bottom power : R) : LoftParams R :=
  {| rings := rings loftParams; segments := segments loftParams;
     radius := radius loftParams; height := height loftParams;
     twist := twist loftParams; taper := taper loftParams;
     normalType := normalType loftParams;
     textureRepeatU := textureRepeatU loftParams;
     textureRepeatV := textureRepeatV loftParams;
     textureRotation := textureRotation loftParams;
     displacementScale := 1; displacementBias := 0;
     smoothingIntensity := smoothingIntensity loftParams;
     enableSmoothing := enableSmoothing loftParams;
     geometrySmoothing := geometrySmoothing loftParams;
     falloffEnabled := enabled; falloffTop := top; falloffBottom := bottom;
     falloffPower := power; exportScale := exportScale loftParams |}.

(** The piecewise function of the specification, with closed zones. *)
Definition referenceFalloff (params : LoftParams R) (v : R) : R :=
  if Rle_dec v (falloffBottom params)
  then Rpow (v / falloffBottom params) (falloffPower params)
  else if Rle_dec (1 - falloffTop params) v
       then Rpow ((1 - v) / falloffTop params) (falloffPower params)
       else 1.

(** Scenario B: both zones 0.2 wide, power 2, scale 1, bias 0 (and the image
    [whitePixel], whose every sample is 1.0). *)
Definition scenarioB : LoftParams R := withFalloff true (2 / 10) (2 / 10) 2.

(** Two anchors out of height order: radius 3 at height 3, then radius 4 at
    height 1. *)
Definition cornerAnchor (r h : R) : LoftBezierAnchor R :=
  mkAnchor (vec3 r h 0) (vec3 0 0 0) (vec3 0 0 0) false.
Definition unsortedAnchors : list (LoftBezierAnchor R) :=
  [cornerAnchor 3 3; cornerAnchor 4 1].

(** The radial distance of a position from the revolution axis. *)
Definition radial (v : Vector3 R) : R := R_sqrt.sqrt (vx v * vx v + vz v * vz v).

(** Scenario C: the offset vertex lies at radius 0.05. *)
Definition scenarioC : Vector3 R := vec3 (5 / 100) 1 0.

(** Scenario A: two corner anchors of radius 2 at heights 0 and 5, 10 rings,
    16 segments, the other parameters at their defaults (no taper, no twist). *)
Definition scenarioA_anchors : list (LoftBezierAnchor R) :=
  [cornerAnchor 2 0; cornerAnchor 2 5].
Definition scenarioA : LoftParams R := withGrid loftParams 10 16.

(** A grid of 3 rings and 4 segments around the axis at radius 1/2, with its
    outward normals and its UVs. *)
Definition prismParams : LoftParams R := withGrid loftParams 3 4.

Definition prismRing (y v : R) : list R * list R * list R :=
  ([1 / 2; y; 0;  0; y; 1 / 2;  - (1 / 2); y; 0;  0; y; - (1 / 2);  1 / 2; y; 0],
   [1; 0; 0;  0; 0; 1;  -1; 0; 0;  0; 0; -1;  1; 0; 0],
   [0; v;  1 / 4; v;  1 / 2; v;  3 / 4; v;  0; v]).

Definition prismGeometry : BufferGeometry R :=
  let '(p0, n0, t0) := prismRing 0 0 in
  let '(p1, n1, t1) := prismRing (5 / 2) (1 / 2) in
  let '(p2, n2, t2) := prismRing 5 1 in
  mkGeometry (p0 ++ p1 ++ p2) (n0 ++ n1 ++ n2) (t0 ++ t1 ++ t2)
             (Some (quadIndices prismParams)).

(** A grid of 3 rings and 4 segments whose texture is twisted by 180 degrees,
    with falloff off, scale 1 and bias 0; its UVs as [createLoftGeometry]
    lays them out ([u = (s / 4 + v / 2) mod 1], [v = r / 2]). *)
Definition rotatedParams : LoftParams R :=
  {| rings := 3; segments := 4;
     radius := 2; height := 5; twist := 0; taper := 1;
     normalType := horizontal;
     textureRepeatU := 1; textureRepeatV := 1; textureRotation := 180;
     displacementScale := 1; displacementBias := 0;
     smoothingIntensity := 5; enableSmoothing := true; geometrySmoothing := 5;
     falloffEnabled := false; falloffTop := 2 / 10; falloffBottom := 2 / 10;
     falloffPower := 2; exportScale := 10 |}.

Definition rotatedUVs : list R :=
  [0; 0;  1 / 4; 0;  1 / 2; 0;  3 / 4; 0;  0; 0;
   1 / 4; 1 / 2;  1 / 2; 1 / 2;  3 / 4; 1 / 2;  0; 1 / 2;  1 / 4; 1 / 2;
   1 / 2; 1;  3 / 4; 1;  0; 1;  1 / 4; 1;  1 / 2; 1].

Definition rotatedGeometry : BufferGeometry R :=
  mkGeometry (position prismGeometry) (normal prismGeometry) rotatedUVs
             (index prismGeometry).

(** The arithmetic mean of a list of reals. *)
Definition meanOf (l : list R) : R := fold_right Rplus 0 l / INR (length l).

(** One coordinate of the first [segs] vertices of body ring [r]. *)
Definition ringCoords (coord : Vector3 R -> R) (a : list R) (r segs : nat) : list R :=
  map (fun i => coord (fromBufferAttribute a (r * (segs + 1) + i))) (seq 0 segs).

(** A body of a single ring of 4 segments at radius 1/2 and height 5. *)
Definition squareRing : BufferGeometry R :=
  mkGeometry [1 / 2; 5; 0;  0; 5; 1 / 2;  - (1 / 2); 5; 0;  0; 5; - (1 / 2);  1 / 2; 5; 0]
             [1; 0; 0;  0; 0; 1;  -1; 0; 0;  0; 0; -1;  1; 0; 0]
             [0; 0;  1 / 4; 0;  1 / 2; 0;  3 / 4; 0;  0; 0]
             (Some []).
Definition squareParams : LoftParams R := withGrid loftParams 1 4.

(** Scenario D: one vertex at (1, 2, 3), with a normal. *)
Definition scenarioD : BufferGeometry R :=
  mkGeometry [1; 2; 3] [0; 1; 0] [0; 0] (Some [0%nat; 0%nat; 0%nat]).

End Spec.

(** * Concrete inputs in binary64 *)

Module FloatInputs.
Local Open Scope float_scope.

(** The defaults, in horizontal mode, with falloff off, scale 1 and
    bias -0.5, on a grid of 3 rings and 4 segments. *)
Definition biasedParams64 : LoftParams float :=
  {| rings := 3; segments := 4;
     radius := 0.5; height := 5; twist := 0; taper := 1;
     normalType := horizontal;
     textureRepeatU := 1; textureRepeatV := 1; textureRotation := 0;
     displacementScale := 1; displacementBias := -0.5;
     smoothingIntensity := 5; enableSmoothing := true; geometrySmoothing := 5;
     falloffEnabled := false; falloffTop := 0.25; falloffBottom := 0.25;
     falloffPower := 2; exportScale := 10 |}.

(** A grid of 3 rings and 4 segments around the axis at radius 0.5 (the
    lathe of a cylinder, with exact sines and cosines), its outward normals
    and its UVs. *)
Definition prismRing64 (y v : float) : list float * list float * list float :=
  ([0.5; y; 0;  0; y; 0.5;  -0.5; y; 0;  0; y; -0.5;  0.5; y; 0],
   [1; 0; 0;  0; 0; 1;  -1; 0; 0;  0; 0; -1;  1; 0; 0],
   [0; v;  0.25; v;  0.5; v;  0.75; v;  0; v]).

Definition prismGeometry64 : BufferGeometry float :=
  let '(p0, n0, t0) := prismRing64 0 0 in
  let '(p1, n1, t1) := prismRing64 2.5 0.5 in
  let '(p2, n2, t2) := prismRing64 5 1 in
  mkGeometry (p0 ++ p1 ++ p2) (n0 ++ n1 ++ n2) (t0 ++ t1 ++ t2)
             (Some (quadIndices biasedParams64)).

(** Scenario A: two corner anchors of radius 2 at heights 0 and 5. *)
Definition scenarioA_anchors64 : list (LoftBezierAnchor float) :=
  [mkAnchor (vec3 2 0 0) (vec3 0 0 0) (vec3 0 0 0) false;
   mkAnchor (vec3 2 5 0) (vec3 0 0 0) (vec3 0 0 0) false].

(** Scenario D: one vertex at (1, 2, 3), with a normal. *)
Definition scenarioD64 : BufferGeometry float :=
  mkGeometry [1; 2; 3] [0; 1; 0] [0; 0] (Some [0; 0; 0]%nat).
End FloatInputs.


(** * Vocabulary of the further properties *)

Arguments Editor num : clear implicits.
Arguments Event num : clear implicits.
Arguments Merged num : clear implicits.

Section Directions.
Context {num : Type} `{Number num}.

(** The opposite vector, as [setXYZ(i, -nx, -ny, -nz)] writes it. *)
Definition negV (n : Vector3 num) : Vector3 num :=
  vec3 (- vx n)%js (- vy n)%js (- vz n)%js.

(** The test under which [ensureNormalsPointOutward] flips a normal [n] at
    the position [p]: farther than 0.001 from the axis, and a negative
    component along the radial direction. *)
Definition pointsInward (p n : Vector3 num) : bool :=
  let radialLength := Math_sqrt (vx p * vx p + vz p * vz p)%js in
  if (radialLength >? lit 1 1000)%js then
    (vx n * (vx p / radialLength) + vz n * (vz p / radialLength) <? zero)%js
  else false.

(** The vertices of the two cap rings hold values a Float32Array can hold,
    and the seams of the two cap rings are closed. *)
Definition capVerticesStored (segs n : nat) (p : list num) : Prop :=
  forall r s, capRing n r -> s <= segs -> storedVertex p (r * (segs + 1) + s).

Definition capSeamsClosed (segs n : nat) (p : list num) : Prop :=
  forall r, capRing n r -> seamClosed segs p r.

(** A geometry as [prepareGeometryForSTL] leaves it: a missing index becomes
    [0 .. count - 1]. *)
Definition indexedForSTL (t : BufferGeometry num) : BufferGeometry num :=
  mkGeometry (position t) (normal t) (uv t)
             (match index t with
              | Some idx => Some idx
              | None => Some (seq 0 (count (position t)))
              end).
End Directions.

(** * Samples of the displacement image *)

Section Samples.
Context {num : Type} `{Number num}.

(** The index at which [sampleDisplacement] reads [imageData.data] for the
    sample point [(u, v)]. *)
Definition pixelIndexAt (img : ImageData) (params : LoftParams num) (u v : num) : num :=
  let uSample := num_rem (u * textureRepeatU params)%js one in
  let vSample := num_rem (v * textureRepeatV params)%js one in
  let x := Math_floor (uSample * ofZ (Z.of_nat (width img) - 1))%js in
  let y := Math_floor ((one - vSample) * ofZ (Z.of_nat (i_height img) - 1))%js in
  ((y * ofNat (width img) + x) * ofZ 4)%js.

(** The sample at [(u, v)] falls inside the image: the index is a whole
    number that designates a byte of the data, so that the read is not
    [undefined]. *)
Definition sampleReadsPixel (img : ImageData) (params : LoftParams num) (u v : num)
  : Prop :=
  exists k, toIndex (pixelIndexAt img params u v) = Some k /\ k < length (data img).

(** The vertex [i] has a stored normal and a stored UV pair. *)
Definition vertexStored (g : BufferGeometry num) (i : nat) : Prop :=
  i < count (normal g) /\ 2 * i + 1 < length (uv g).
End Samples.

(** * States of the profile editor *)

Section EditorStates.
Context {num : Type} `{Number num}.

(** The selected index designates an anchor. *)
Definition selectionValid (st : Editor num) : Prop :=
  match selectedAnchorIndex st with
  | Some i => i < length (loftBezierAnchors st)
  | None => True
  end.

(** The displacement the user has set is [scale] and [bias]: it is in
    [loftParams], or, for the time of a drag, in the two saved values, while
    [loftParams] holds it damped once. *)
Definition displacementKept (scale bias : num) (st : Editor num) : Prop :=
  if displacementDisabledForDrag st
  then temporaryDisplacementScale st = scale /\ temporaryDisplacementBias st = bias
       /\ e_displacementScale st = (scale * lit 3 10)%js
       /\ e_displacementBias st = (bias * lit 3 10)%js
  else e_displacementScale st = scale /\ e_displacementBias st = bias.

(** The last anchor of the profile. *)
Definition lastAnchor (anchors : list (LoftBezierAnchor num)) : option (LoftBezierAnchor num) :=
  nth_error anchors (length anchors - 1).
End EditorStates.

(** * Places in a merged geometry *)

Section MergedPlaces.
Context {num : Type} `{Number num}.

(** The number of vertices, and of index entries, of the geometries before
    the one of rank [j]. *)
Definition vertexOffset (geometries : list (BufferGeometry num)) (j : nat) : nat :=
  list_sum (map (fun g => count (position g)) (firstn j geometries)).

Definition indexLength (g : BufferGeometry num) : nat :=
  match index g with
  | Some idx => length idx
  | None => 0
  end.

Definition entryOffset (geometries : list (BufferGeometry num)) (j : nat) : nat :=
  list_sum (map indexLength (firstn j geometries)).

(** Every index entry of [g] designates one of its vertices. *)
Definition indicesValid (g : BufferGeometry num) : Prop :=
  match index g with
  | Some idx => Forall (fun i => i < count (position g)) idx
  | None => True
  end.
End MergedPlaces.

(** * Sizes of binary64 numbers *)

Module Binary64.
Local Open Scope Z_scope.

(** The position of the leading bit of [m * 2^e]:
    [2^(magnitude - 1) <= m * 2^e < 2^magnitude]. *)
Definition magnitude (m : positive) (e : Z) : Z := Zpos (digits2_pos m) + e.

(** [x] is zero, or finite with [x^2 < 2^(M + 1)]. *)
Definition squareBelow (x : spec_float) (M : Z) : Prop :=
  match x with
  | S754_zero _ => True
  | S754_finite _ m e => 2 * magnitude m e - 1 <= M
  | _ => False
  end.

(** Not negative: NaN, or a sign bit that is clear. *)
Definition SFnonneg (x : spec_float) : Prop :=
  match x with
  | S754_nan => True
  | S754_zero s | S754_infinity s | S754_finite s _ _ => s = false
  end.

(** [x] is zero, or finite and below [2^M]. *)
Definition sizeBelow (x : spec_float) (M : Z) : Prop :=
  match x with
  | S754_zero _ => True
  | S754_finite _ m e => magnitude m e <= M
  | _ => False
  end.

(** Zero or finite, as [Number.isFinite]. *)
Definition SFfinite (x : spec_float) : bool :=
  match x with
  | S754_zero _ | S754_finite _ _ _ => true
  | _ => false
  end.

(** The binary64 number that the literal [0.1] of [minRadius] denotes. *)
Definition c64 : float := 0x1.999999999999ap-4.

(** A position off the axis whose squared coordinates underflow. *)
Definition underflowing : Vector3 float := vec3 0x1p-600%float 1%float 0%float.

(** A position inside the minimum radius, at radius [2^-5]. *)
Definition inside64 : Vector3 float := vec3 0x1p-5%float 1%float 0%float.
End Binary64.

(** * Small inputs in binary64 *)

Module Inputs64.
Local Open Scope float_scope.

(** The parameters of [FloatInputs.biasedParams64] on a grid of a single
    ring. *)
Definition singleRing64 : LoftParams float :=
  {| rings := 1; segments := 4;
     radius := 0.5; height := 5; twist := 0; taper := 1;
     normalType := horizontal;
     textureRepeatU := 1; textureRepeatV := 1; textureRotation := 0;
     displacementScale := 1; displacementBias := -0.5;
     smoothingIntensity := 5; enableSmoothing := true; geometrySmoothing := 5;
     falloffEnabled := false; falloffTop := 0.25; falloffBottom := 0.25;
     falloffPower := 2; exportScale := 10 |}.
End Inputs64.

(** * Small inputs in exact arithmetic *)

Module Inputs.
Import RealArith.
Local Open Scope R_scope.
#[local] Existing Instance RNumber.

(** The value of the linear form [(a, b, c)] at a position: the signed
    distance, up to scale, along that direction. *)
Definition along (a b c : R) (v : Vector3 R) : R := a * vx v + b * vy v + c * vz v.

(** Running sums whose weighted mean, along [(a, b, c)], lies in [lo, hi]. *)
Definition sumsWithin (a b c lo hi : R) (s : Sums R) : Prop :=
  0 < totalWeight s
  /\ lo * totalWeight s <= a * sumX s + b * sumY s + c * sumZ s <= hi * totalWeight s.

(** The two handles of an anchor are opposite vectors. *)
Definition oppositeHandles (anchor : LoftBezierAnchor R) : Prop :=
  vx (handleIn anchor) + vx (handleOut anchor) = 0
  /\ vy (handleIn anchor) + vy (handleOut anchor) = 0
  /\ vz (handleIn anchor) + vz (handleOut anchor) = 0.

(** What the editor keeps of a profile: every radius is at least 0.1, and
    every smooth anchor has opposite handles. *)
Definition wellFormedAnchor (anchor : LoftBezierAnchor R) : Prop :=
  1 / 10 <= vx (a_position anchor)
  /\ (isSmooth anchor = true -> oppositeHandles anchor).

(** What a session keeps of the profile: well-formed anchors, and a last
    anchor at the height [h]. *)
Definition profileKept (h : R) (st : Editor R) : Prop :=
  Forall wellFormedAnchor (loftBezierAnchors st)
  /\ exists a, lastAnchor (loftBezierAnchors st) = Some a /\ vy (a_position a) = h.

(** One vertex at (1, 0, 0) whose normal points at the axis. *)
Definition inwardVertex : BufferGeometry R :=
  mkGeometry [1; 0; 0] [-1; 0; 0] [0; 0] (Some [0%nat; 0%nat; 0%nat]).
End Inputs.

(** * Properties *)

(** ** Flat arrays *)

Section ArrayFacts.
Context {A : Type}.

Lemma upd_length (l : list A) i x : length (upd l i x) = length l.
Proof.
  revert i; induction l as [|h t IH]; intros [|j]; simpl; auto.
Qed.

Lemma nth_upd_same (l : list A) i x d :
  i < length l -> nth i (upd l i x) d = x.
Proof.
  revert i; induction l as [|h t IH]; intros [|j] Hi; simpl in *; try lia; auto.
  apply IH; lia.
Qed.

Lemma nth_upd_other (l : list A) i j x d :
  i <> j -> nth j (upd l i x) d = nth j l d.
Proof.
  revert i j; induction l as [|h t IH]; intros [|i] [|j] Hij; simpl; auto; try lia.
Qed.

Lemma upd_out (l : list A) i x : length l <= i -> upd l i x = l.
Proof.
  revert i; induction l as [|h t IH]; intros [|j] Hi; simpl in *; auto; try lia.
  f_equal; apply IH; lia.
Qed.
End ArrayFacts.

(** ** Flat arrays built by nested loops *)

Section ChunkFacts.
Context {A : Type}.

Lemma flat_map_length_const (f : nat -> list A) m l :
  (forall i, length (f i) = m) -> length (flat_map f l) = length l * m.
Proof.
  intros Hf. induction l as [|x l IH]; [reflexivity|].
  cbn. rewrite length_app, Hf, IH. reflexivity.
Qed.

(** Element [c] of the [k]-th chunk pushed by a loop with chunks of size [m]. *)
Lemma nth_flat_map_chunk (f : nat -> list A) m s n k c d :
  (forall i, length (f i) = m) -> k < n -> c < m ->
  nth (k * m + c) (flat_map f (seq s n)) d = nth c (f (s + k)) d.
Proof.
  intros Hf. revert s k. induction n as [|n IH]; intros s k Hk Hc; [lia|].
  cbn [seq flat_map]. destruct k as [|k].
  - rewrite app_nth1 by (rewrite Hf; lia). rewrite Nat.add_0_r. reflexivity.
  - rewrite app_nth2 by (rewrite Hf; lia). rewrite Hf.
    replace (S k * m + c - m) with (k * m + c) by lia.
    rewrite IH by lia. f_equal. f_equal. lia.
Qed.
End ChunkFacts.

(** ** Vertex attributes *)

Section AttributeFacts.
Context {num : Type} `{Number num}.

Lemma setXYZ_length (a : list num) i x y z : length (setXYZ a i x y z) = length a.
Proof. unfold setXYZ. rewrite !upd_length. reflexivity. Qed.

Lemma count_setXYZ (a : list num) i x y z : count (setXYZ a i x y z) = count a.
Proof. unfold count. rewrite setXYZ_length. reflexivity. Qed.

Lemma count_bound (a : list num) i : i < count a -> i * 3 + 2 < length a.
Proof.
  unfold count. intros Hi.
  pose proof (Nat.div_mod_eq (length a) 3) as E.
  pose proof (Nat.mod_upper_bound (length a) 3 ltac:(lia)). nia.
Qed.

Lemma get_setXYZ_same (a : list num) i x y z :
  i < count a ->
  fromBufferAttribute (setXYZ a i x y z) i = vec3 (fround x) (fround y) (fround z).
Proof.
  intros Hi. apply count_bound in Hi.
  unfold fromBufferAttribute, getX, getY, getZ, setXYZ.
  f_equal.
  - rewrite !nth_upd_other by lia. apply nth_upd_same. lia.
  - rewrite nth_upd_other by lia. apply nth_upd_same. rewrite upd_length. lia.
  - apply nth_upd_same. rewrite !upd_length. lia.
Qed.

Lemma get_setXYZ_other (a : list num) i j x y z :
  i <> j -> fromBufferAttribute (setXYZ a i x y z) j = fromBufferAttribute a j.
Proof.
  intros Hij. unfold fromBufferAttribute, getX, getY, getZ, setXYZ.
  f_equal; rewrite !nth_upd_other by lia; reflexivity.
Qed.

Lemma setXYZ_out (a : list num) i x y z :
  length a <= i * 3 -> setXYZ a i x y z = a.
Proof.
  intros Hi. unfold setXYZ. rewrite !upd_out; auto; rewrite ?upd_length; lia.
Qed.

(** A loop that rewrites vertex [i] from vertex [i] alone acts vertex by
    vertex. *)
Lemma fold_setV_pointwise (F : nat -> Vector3 num -> Vector3 num) (a : list num) n j :
  n <= count a ->
  fromBufferAttribute
    (fold_left (fun p i => setV p i (F i (fromBufferAttribute p i))) (seq 0 n) a) j
  = if j <? n then roundV (F j (fromBufferAttribute a j)) else fromBufferAttribute a j.
Proof.
  revert j. induction n as [|n IH]; intros j Hn.
  - reflexivity.
  - rewrite seq_S, fold_left_app. cbn [fold_left Nat.add].
    pose proof (IH j ltac:(lia)) as IHj. pose proof (IH n ltac:(lia)) as IHn.
    rewrite (proj2 (Nat.ltb_ge n n)) in IHn by lia.
    set (p := fold_left _ (seq 0 n) a) in *.
    assert (Hc : count p = count a).
    { subst p. clear. generalize (seq 0 n) as l. intros l. revert a.
      induction l as [|i l IHl]; intros a; [reflexivity|].
      cbn [fold_left]. rewrite IHl. apply count_setXYZ. }
    destruct (Nat.eq_dec j n) as [->|Hj].
    + unfold setV. rewrite get_setXYZ_same by lia.
      rewrite (proj2 (Nat.ltb_lt n (S n))) by lia. rewrite IHn. reflexivity.
    + unfold setV. rewrite get_setXYZ_other by lia. rewrite IHj.
      destruct (Nat.ltb_spec j n); destruct (Nat.ltb_spec j (S n)); try lia; reflexivity.
Qed.

Lemma fold_setV_count (F : nat -> Vector3 num -> Vector3 num) (l : list nat) (a : list num) :
  count (fold_left (fun p i => setV p i (F i (fromBufferAttribute p i))) l a) = count a.
Proof.
  revert a. induction l as [|i l IH]; intros a; [reflexivity|].
  cbn [fold_left]. rewrite IH. apply count_setXYZ.
Qed.

Lemma fold_setV_length (F : nat -> Vector3 num -> Vector3 num) (l : list nat) (a : list num) :
  length (fold_left (fun p i => setV p i (F i (fromBufferAttribute p i))) l a) = length a.
Proof.
  revert a. induction l as [|i l IH]; intros a; [reflexivity|].
  cbn [fold_left]. rewrite IH. apply setXYZ_length.
Qed.
End AttributeFacts.

(** ** Comparisons of the real instance *)

Module RealFacts.
Import RealArith.
Local Open Scope R_scope.

Lemma Rleb_true a b : a <= b -> Rleb a b = true.
Proof. unfold Rleb; destruct (Rle_dec a b); tauto. Qed.

Lemma Rleb_false a b : b < a -> Rleb a b = false.
Proof. unfold Rleb; destruct (Rle_dec a b); auto; lra. Qed.

Lemma Rltb_true a b : a < b -> Rltb a b = true.
Proof. unfold Rltb; destruct (Rlt_dec a b); tauto. Qed.

Lemma Rltb_false a b : b <= a -> Rltb a b = false.
Proof. unfold Rltb; destruct (Rlt_dec a b); auto; lra. Qed.

Lemma Rleb_spec a b : Rleb a b = true <-> a <= b.
Proof. unfold Rleb; destruct (Rle_dec a b); split; auto; discriminate. Qed.

Lemma Rltb_spec a b : Rltb a b = true <-> a < b.
Proof. unfold Rltb; destruct (Rlt_dec a b); split; auto; discriminate. Qed.
End RealFacts.

(** ** Profile evaluator *)

Module Profile.
Import RealArith RealFacts Spec.
Local Open Scope R_scope.
#[local] Existing Instance RNumber.

Lemma findSegment_unbracketed anchors h :
  unbracketed anchors h -> findSegment anchors h = None.
Proof.
  induction anchors as [|a [|b rest] IH]; intros Hu; try reflexivity.
  cbn [findSegment].
  assert (Hab : ~ (vy (a_position a) <= h <= vy (a_position b)))
    by (apply (Hu 0%nat a b); reflexivity).
  replace ((vy (a_position a) <=? h)%js && (h <=? vy (a_position b))%js) with false.
  - apply IH. intros i x y Hx Hy. apply (Hu (S i) x y); assumption.
  - symmetry. apply andb_false_iff. cbn.
    destruct (Rle_dec (vy (a_position a)) h) as [H1|H1].
    + right. apply Rleb_false. lra.
    + left. apply Rleb_false. lra.
Qed.

Lemma last_cons_default (l : list (LoftBezierAnchor R)) c a b :
  last (c :: l) a = last (c :: l) b.
Proof.
  revert c; induction l as [|x t IH]; intros c; [reflexivity|].
  change (last (x :: t) a = last (x :: t) b). apply IH.
Qed.

Lemma nth_error_last_cons (a0 : LoftBezierAnchor R) rest :
  nth_error (a0 :: rest) (length (a0 :: rest) - 1) = Some (last rest a0).
Proof.
  simpl. rewrite Nat.sub_0_r.
  revert a0; induction rest as [|b t IH]; intros a0; [reflexivity|].
  change (nth_error (b :: t) (length t) = Some (last (b :: t) a0)).
  rewrite IH. destruct t as [|c t']; [reflexivity|].
  f_equal. change (last (b :: c :: t') a0) with (last (c :: t') a0).
  apply last_cons_default.
Qed.

(** C5: with at least one anchor and a positive total height, the evaluator
    returns [max(0.1, first radius)] at or below height 0,
    [max(0.1, last radius)] at or above the total height, and, strictly
    between, the nominal radius parameter whenever no segment brackets the
    height; in each case it returns (no exception). *)
Theorem getRadiusAtHeight_contract
    (a0 : LoftBezierAnchor R) (rest : list (LoftBezierAnchor R)) (params : LoftParams R) :
  0 < height params ->
  (forall h, h <= 0 ->
     getRadiusAtHeight (a0 :: rest) params h
       = Some (Rmax (1 / 10) (vx (a_position a0))))
  /\ (forall h, height params <= h ->
     getRadiusAtHeight (a0 :: rest) params h
       = Some (Rmax (1 / 10) (vx (a_position (last rest a0)))))
  /\ (forall h, 0 < h < height params -> unbracketed (a0 :: rest) h ->
     getRadiusAtHeight (a0 :: rest) params h = Some (radius params)).
Proof.
  intros Hpos. unfold getRadiusAtHeight, zero. cbn [num_leb RNumber ofZ].
  repeat split; intros h Hh.
  - rewrite Rleb_true by lra. reflexivity.
  - rewrite Rleb_false by lra. rewrite Rleb_true by lra.
    rewrite nth_error_last_cons. reflexivity.
  - intros Hu. rewrite Rleb_false by lra. rewrite Rleb_false by lra.
    rewrite (findSegment_unbracketed Hu). reflexivity.
Qed.

Lemma getRadiusAtHeight_contract_witness :
  getRadiusAtHeight unsortedAnchors loftParams (-1) = Some 3
  /\ getRadiusAtHeight unsortedAnchors loftParams 6 = Some 4
  /\ getRadiusAtHeight unsortedAnchors loftParams 2 = Some 2.
Proof.
  assert (Hpos : 0 < height (@loftParams R RNumber)) by (cbn; lra).
  destruct (getRadiusAtHeight_contract (cornerAnchor 3 3) [cornerAnchor 4 1]
              loftParams Hpos) as (Hlow & Hhigh & Hmid).
  assert (Hu : unbracketed unsortedAnchors 2).
  { intros [|[|i]] a b Ha Hb; cbn in Ha, Hb.
    - injection Ha as <-. injection Hb as <-. cbn. lra.
    - discriminate Hb.
    - discriminate Hb. }
  repeat split.
  - unfold unsortedAnchors. rewrite Hlow by lra. cbn. rewrite Rmax_right by lra. reflexivity.
  - unfold unsortedAnchors. rewrite Hhigh by (cbn; lra). cbn.
    rewrite Rmax_right by lra. reflexivity.
  - unfold unsortedAnchors in *. rewrite Hmid; [reflexivity | cbn; lra | exact Hu].
Defined.
End Profile.

(** ** Falloff multiplier *)

Module Falloff.
Import RealArith RealFacts Spec.
Local Open Scope R_scope.
#[local] Existing Instance RNumber.

Lemma Rpower_base_1 p : Rpower 1 p = 1.
Proof. unfold Rpower. rewrite ln_1, Rmult_0_r. apply exp_0. Qed.

Lemma Rpow_1 p : Rpow 1 p = 1.
Proof.
  unfold Rpow. destruct (Req_dec_T p 0); [reflexivity|].
  destruct (Rlt_dec 0 1); [apply Rpower_base_1 | lra].
Qed.

Lemma Rpow_0 p : 0 < p -> Rpow 0 p = 0.
Proof.
  intros Hp. unfold Rpow. destruct (Req_dec_T p 0); [lra|].
  destruct (Rlt_dec 0 0); [lra | reflexivity].
Qed.

Lemma Rpow_nonneg x p : 0 <= Rpow x p.
Proof.
  unfold Rpow. destruct (Req_dec_T p 0); [lra|].
  destruct (Rlt_dec 0 x); [|lra].
  unfold Rpower. left. apply exp_pos.
Qed.

Lemma Rpow_mono x y p : 0 < p -> 0 <= x <= y -> Rpow x p <= Rpow y p.
Proof.
  intros Hp [Hx Hxy]. unfold Rpow. destruct (Req_dec_T p 0); [lra|].
  destruct (Rlt_dec 0 x) as [Hx0|Hx0]; destruct (Rlt_dec 0 y) as [Hy0|Hy0]; try lra.
  - apply Rle_Rpower_l; lra.
  - unfold Rpower. left. apply exp_pos.
Qed.

Lemma Rpow_square x : 0 < x -> Rpow x 2 = x * x.
Proof.
  intros Hx. unfold Rpow. destruct (Req_dec_T 2 0); [lra|].
  destruct (Rlt_dec 0 x); [|lra].
  replace 2 with (INR 2) by (simpl; lra).
  rewrite Rpower_pow by assumption. simpl. lra.
Qed.

Lemma div_le_mono a b c : 0 < c -> 0 <= a <= b -> 0 <= a / c <= b / c.
Proof.
  intros Hc [Ha Hab].
  assert (Hi : 0 < / c) by (apply Rinv_0_lt_compat; assumption).
  unfold Rdiv. split.
  - apply Rmult_le_pos; lra.
  - apply Rmult_le_compat_r; lra.
Qed.

Ltac falloff_unfold :=
  unfold calculateDisplacementFalloff, one;
  cbn [num_ltb num_sub num_div Math_pow RNumber ofZ negb].

(** C4 as stated fails: with an empty bottom zone ([falloffBottom = 0], the
    low end of its slider) and falloff enabled, the multiplier at [v = 0] is
    1, not 0. *)
Lemma falloff_at_zero_counterexample :
  falloffEnabled (withFalloff true (2 / 10) 0 2) = true
  /\ calculateDisplacementFalloff 0 (withFalloff true (2 / 10) 0 2) = 1
  /\ calculateDisplacementFalloff 0 (withFalloff true (2 / 10) 0 2) <> 0.
Proof.
  assert (E : calculateDisplacementFalloff 0 (withFalloff true (2 / 10) 0 2) = 1).
  { falloff_unfold. cbn.
    rewrite Rltb_false by lra. rewrite Rltb_false by lra. reflexivity. }
  repeat split; [exact E | rewrite E; lra].
Qed.

Lemma Int_part_0 : Int_part 0 = 0%Z.
Proof. symmetry. apply Int_part_spec. simpl. lra. Qed.

Lemma sample_whitePixel (params : LoftParams R) u v :
  sampleDisplacement whitePixel params 1 0 u v = 1.
Proof.
  unfold sampleDisplacement, pixel, one, ofNat.
  cbn [width i_height data whitePixel].
  change (Z.of_nat 1 - 1)%Z with 0%Z. change (Z.of_nat 1) with 1%Z.
  cbn [num_mul num_add num_sub num_div num_rem Math_floor toIndex RNumber ofZ].
  rewrite !Rmult_0_r, Int_part_0.
  replace ((0 * 1 + 0) * 4) with 0 by lra.
  unfold RtoIndex. rewrite Int_part_0.
  destruct (Req_dec_T 0 0) as [_|N]; [|exfalso; apply N; reflexivity].
  destruct (Rle_dec 0 0) as [_|N]; [|exfalso; lra].
  cbn. lra.
Qed.

Lemma scenarioB_falloff : calculateDisplacementFalloff (9 / 10) scenarioB = 25 / 100.
Proof.
  falloff_unfold. cbn.
  rewrite Rltb_false by lra. rewrite Rltb_true by lra.
  replace ((1 - 9 / 10) / (2 / 10)) with (1 / 2) by lra.
  rewrite Rpow_square by lra. lra.
Qed.

(** C4, amended: for non-empty, non-overlapping zones and a positive power,
    the multiplier agrees with the piecewise reference on normalized heights
    [0 <= v <= 1]; it is 1 at [v = falloffBottom] and 0 at [v = 0]; it is
    non-decreasing over the bottom zone and non-increasing over the top zone;
    with falloff disabled it is 1 everywhere; and in scenario B the
    displacement at [v = 0.9] is [1 * 0.25 = 0.25]. *)
Theorem calculateDisplacementFalloff_reference (params : LoftParams R) :
  0 < falloffBottom params -> 0 < falloffTop params ->
  falloffBottom params + falloffTop params <= 1 ->
  0 < falloffPower params ->
  (falloffEnabled params = false ->
     forall v, calculateDisplacementFalloff v params = 1)
  /\ (falloffEnabled params = true ->
      (forall v, 0 <= v <= 1 ->
         calculateDisplacementFalloff v params = referenceFalloff params v)
      /\ calculateDisplacementFalloff (falloffBottom params) params = 1
      /\ calculateDisplacementFalloff 0 params = 0
      /\ (forall v w, 0 <= v <= w -> w <= falloffBottom params ->
            calculateDisplacementFalloff v params
              <= calculateDisplacementFalloff w params)
      /\ (forall v w, 1 - falloffTop params <= v -> v <= w <= 1 ->
            calculateDisplacementFalloff w params
              <= calculateDisplacementFalloff v params))
  /\ (forall u,
        sampleDisplacement whitePixel scenarioB 1 0 u (9 / 10)
          * calculateDisplacementFalloff (9 / 10) scenarioB = 25 / 100).
Proof.
  intros Hb Ht Hsum Hp.
  assert (HB : forall u,
        sampleDisplacement whitePixel scenarioB 1 0 u (9 / 10)
          * calculateDisplacementFalloff (9 / 10) scenarioB = 25 / 100).
  { intros u. rewrite sample_whitePixel, scenarioB_falloff. lra. }

  set (fb := falloffBottom params) in *. set (ft := falloffTop params) in *.
  set (pw := falloffPower params) in *.
  assert (Hcode : falloffEnabled params = true -> forall v,
            calculateDisplacementFalloff v params
              = if Rlt_dec v fb then Rpow (v / fb) pw
                else if Rlt_dec (1 - ft) v then Rpow ((1 - v) / ft) pw else 1).
  { intros He v. falloff_unfold. rewrite He. cbn [negb].
    fold fb ft pw. unfold Rltb.
    destruct (Rlt_dec v fb); [reflexivity|].
    destruct (Rlt_dec (1 - ft) v); reflexivity. }
  split.
  { intros He v. falloff_unfold. rewrite He. reflexivity. }
  split; [|exact HB]. clear HB.
  intros He. specialize (Hcode He).
  assert (Hfb1 : fb / fb = 1) by (field; lra).
  assert (Hft1 : ft / ft = 1) by (field; lra).
  repeat split.
  - intros v Hv. rewrite Hcode. unfold referenceFalloff. fold fb ft pw.
    destruct (Rlt_dec v fb) as [H1|H1]; destruct (Rle_dec v fb) as [H2|H2];
      [reflexivity | exfalso; lra | | ].
    + assert (v = fb) by lra. subst v. rewrite Hfb1, Rpow_1.
      destruct (Rlt_dec (1 - ft) fb); [lra | reflexivity].
    + destruct (Rlt_dec (1 - ft) v) as [H3|H3];
        destruct (Rle_dec (1 - ft) v) as [H4|H4];
        [reflexivity | exfalso; lra | | reflexivity].
      assert (E : (1 - v) / ft = 1) by (replace (1 - v) with ft by lra; exact Hft1).
      rewrite E, Rpow_1. reflexivity.
  - rewrite Hcode. destruct (Rlt_dec fb fb); [lra|].
    destruct (Rlt_dec (1 - ft) fb); [lra | reflexivity].
  - rewrite Hcode. destruct (Rlt_dec 0 fb); [|lra].
    replace (0 / fb) with 0 by (field; lra). apply Rpow_0; assumption.
  - intros v w Hvw Hw. rewrite !Hcode.
    assert (Hdiv : 0 <= v / fb <= w / fb) by (apply div_le_mono; lra).
    destruct (Rlt_dec v fb) as [H1|H1]; destruct (Rlt_dec w fb) as [H2|H2];
      [ | | exfalso; lra | ].
    + apply Rpow_mono; assumption.
    + assert (w = fb) by lra. subst w.
      destruct (Rlt_dec (1 - ft) fb); [exfalso; lra|].
      rewrite <- (Rpow_1 pw), <- Hfb1. apply Rpow_mono; assumption.
    + assert (v = fb) by lra. assert (w = fb) by lra. subst v w. apply Rle_refl.
  - intros v w Hv Hvw. rewrite !Hcode.
    assert (Hdiv : 0 <= (1 - w) / ft <= (1 - v) / ft) by (apply div_le_mono; lra).
    assert (Hwv : forall x, 1 - ft <= x -> x <= 1 ->
              (if Rlt_dec x fb then Rpow (x / fb) pw
               else if Rlt_dec (1 - ft) x then Rpow ((1 - x) / ft) pw else 1)
              = Rpow ((1 - x) / ft) pw).
    { intros x Hx1 Hx2.
      destruct (Rlt_dec x fb); [exfalso; lra|].
      destruct (Rlt_dec (1 - ft) x); [reflexivity|].
      assert (E : (1 - x) / ft = 1) by (replace (1 - x) with ft by lra; exact Hft1).
      rewrite E, Rpow_1. reflexivity. }
    rewrite (Hwv v), (Hwv w) by lra. apply Rpow_mono; assumption.
Qed.

Lemma calculateDisplacementFalloff_reference_witness :
  calculateDisplacementFalloff (2 / 10) scenarioB = 1
  /\ calculateDisplacementFalloff 0 scenarioB = 0
  /\ calculateDisplacementFalloff (5 / 100) scenarioB
       <= calculateDisplacementFalloff (1 / 10) scenarioB.
Proof.
  assert (H1 : 0 < falloffBottom scenarioB) by (cbn; lra).
  assert (H2 : 0 < falloffTop scenarioB) by (cbn; lra).
  assert (H3 : falloffBottom scenarioB + falloffTop scenarioB <= 1) by (cbn; lra).
  assert (H4 : 0 < falloffPower scenarioB) by (cbn; lra).
  destruct (calculateDisplacementFalloff_reference scenarioB H1 H2 H3 H4)
    as [_ [He _]].
  destruct (He eq_refl) as (_ & Hb & H0 & Hm & _).
  repeat split; [exact Hb | exact H0 | apply Hm; cbn; lra].
Defined.
End Falloff.

(** ** Rounding in binary64: how large a result can be *)

Module Rounding.
Import Binary64 FloatAxioms FloatLemmas.
Import FloatArith.
Local Open Scope Z_scope.

Lemma digits2_pos_size (p : positive) : digits2_pos p = Pos.size p.
Proof. induction p as [p IH|p IH|]; cbn; [rewrite IH| rewrite IH|]; reflexivity. Qed.

Lemma Zdigits2_log2 (m : Z) : 0 < m -> Zdigits2 m = Z.log2 m + 1.
Proof.
  destruct m as [|p|p]; try lia. intros _. cbn [Zdigits2].
  rewrite digits2_pos_size. destruct p as [p|p|]; cbn [Z.log2 Pos.size]; lia.
Qed.

Lemma Zdigits2_nonneg (m : Z) : 0 <= Zdigits2 m.
Proof. destruct m; cbn; lia. Qed.

Lemma Zdigits2_pos (m : Z) : 0 < m -> 0 < Zdigits2 m.
Proof. destruct m; cbn; lia. Qed.

Lemma Zdigits2_0 (m : Z) : 0 <= m -> Zdigits2 m = 0 -> m = 0.
Proof. destruct m; cbn; lia. Qed.

Lemma Zdigits2_mono (a b : Z) : 0 <= a <= b -> Zdigits2 a <= Zdigits2 b.
Proof.
  intros [Ha Hab]. destruct (Z.eq_dec a 0) as [->|Na].
  - apply Zdigits2_nonneg.
  - rewrite !Zdigits2_log2 by lia. pose proof (Z.log2_le_mono a b Hab). lia.
Qed.

Lemma Zdigits2_succ (m : Z) : 0 <= m -> Zdigits2 (m + 1) <= Zdigits2 m + 1.
Proof.
  intros Hm. destruct (Z.eq_dec m 0) as [->|Nm]; [cbn; lia|].
  rewrite !Zdigits2_log2 by lia. pose proof (Z.log2_succ_le m). unfold Z.succ in *. lia.
Qed.

Lemma Zdigits2_shiftr (m n : Z) :
  0 <= m -> 0 <= n -> Zdigits2 (Z.shiftr m n) = Z.max 0 (Zdigits2 m - n).
Proof.
  intros Hm Hn. destruct (Z.eq_dec m 0) as [->|Nm].
  - rewrite Z.shiftr_0_l. cbn. lia.
  - assert (Hs : 0 <= Z.shiftr m n) by (apply Z.shiftr_nonneg; exact Hm).
    destruct (Z.eq_dec (Z.shiftr m n) 0) as [E|N].
    + rewrite E. apply Z.shiftr_eq_0_iff in E. rewrite (Zdigits2_log2 (m := m)) by lia.
      cbn. destruct E as [E|[_ E]]; lia.
    + rewrite (Zdigits2_log2 (m := Z.shiftr m n)) by lia.
      rewrite Z.log2_shiftr by lia. rewrite (Zdigits2_log2 (m := m)) by lia.
      assert (~ Z.log2 m < n).
      { intros L. apply N. apply Z.shiftr_eq_0_iff. right. lia. }
      lia.
Qed.

Lemma Zdigits2_shiftl (m n : Z) :
  0 < m -> 0 <= n -> Zdigits2 (Z.shiftl m n) = Zdigits2 m + n.
Proof.
  intros Hm Hn.
  assert (0 < Z.shiftl m n).
  { rewrite Z.shiftl_mul_pow2 by exact Hn. pose proof (Z.pow_pos_nonneg 2 n ltac:(lia) Hn). nia. }
  rewrite !Zdigits2_log2 by lia. rewrite Z.log2_shiftl by lia. lia.
Qed.

Lemma Zdigits2_mul (a b : Z) :
  0 < a -> 0 < b ->
  Zdigits2 a + Zdigits2 b - 1 <= Zdigits2 (a * b) <= Zdigits2 a + Zdigits2 b.
Proof.
  intros Ha Hb. rewrite !Zdigits2_log2 by nia.
  pose proof (Z.log2_mul_below a b Ha Hb).
  pose proof (Z.log2_mul_above a b ltac:(lia) ltac:(lia)). lia.
Qed.

Lemma Zdigits2_bounds (m : Z) : 0 < m -> 2 ^ (Zdigits2 m - 1) <= m < 2 ^ Zdigits2 m.
Proof.
  intros Hm. rewrite Zdigits2_log2 by exact Hm.
  replace (Z.log2 m + 1 - 1) with (Z.log2 m) by lia.
  pose proof (Z.log2_spec m Hm). unfold Z.succ in *. lia.
Qed.

Lemma digits2_pos_iter (m d : positive) :
  Zpos (digits2_pos (Pos.iter xO m d)) = Zpos (digits2_pos m) + Zpos d.
Proof.
  induction d as [|d IH] using Pos.peano_ind.
  - cbn. lia.
  - rewrite Pos.iter_succ. cbn [digits2_pos]. lia.
Qed.

(** ** The right shifts of the rounding *)

Lemma shr_1_m (mrs : shr_record) :
  0 <= shr_m mrs -> shr_m (shr_1 mrs) = Z.div2 (shr_m mrs).
Proof.
  destruct mrs as [m r s]. cbn [shr_m]. intros Hm.
  destruct m as [|[p|p|]|p]; try lia; reflexivity.
Qed.

Lemma iter_pos_shr_1 (p : positive) (mrs : shr_record) :
  0 <= shr_m mrs ->
  shr_m (iter_pos shr_1 p mrs) = Z.shiftr (shr_m mrs) (Zpos p).
Proof.
  revert mrs. induction p as [p IH|p IH|]; intros mrs Hm; cbn [iter_pos].
  - assert (H1 : 0 <= shr_m (shr_1 mrs)).
    { rewrite shr_1_m by exact Hm. apply Z.div2_nonneg. exact Hm. }
    assert (H2 : 0 <= shr_m (iter_pos shr_1 p (shr_1 mrs))).
    { rewrite IH by exact H1. apply Z.shiftr_nonneg. exact H1. }
    rewrite IH by exact H2. rewrite IH by exact H1. rewrite shr_1_m by exact Hm.
    rewrite Z.div2_spec. rewrite !Z.shiftr_shiftr by lia. f_equal. lia.
  - assert (H2 : 0 <= shr_m (iter_pos shr_1 p mrs)).
    { rewrite IH by exact Hm. apply Z.shiftr_nonneg. exact Hm. }
    rewrite IH by exact H2. rewrite IH by exact Hm.
    rewrite !Z.shiftr_shiftr by lia. f_equal. lia.
  - rewrite shr_1_m by exact Hm. apply Z.div2_spec.
Qed.

Lemma shr_record_of_loc_m (m : Z) (l : location) : shr_m (shr_record_of_loc m l) = m.
Proof. destruct l as [|[| |]]; reflexivity. Qed.

Lemma shr_spec (mrs : shr_record) (e n : Z) :
  0 <= shr_m mrs ->
  shr_m (fst (shr mrs e n)) = (if 0 <? n then Z.shiftr (shr_m mrs) n else shr_m mrs)
  /\ snd (shr mrs e n) = (if 0 <? n then e + n else e).
Proof.
  intros Hm. destruct n as [|p|p]; cbn [shr fst snd Z.ltb Z.compare]; try (split; reflexivity).
  split; [apply iter_pos_shr_1; exact Hm | reflexivity].
Qed.

Lemma round_nearest_even_bounds (m : Z) (l : location) :
  m <= round_nearest_even m l <= m + 1.
Proof.
  destruct l as [|[| |]]; cbn [round_nearest_even]; try lia.
  destruct (Z.even m); lia.
Qed.

Section Format.
Variables prec emax : Z.
Hypothesis Hprec : 0 < prec.

Local Notation "'fexp'" := (SpecFloat.fexp prec emax).
Local Notation "'emin'" := (SpecFloat.emin prec emax).

Lemma fexp_max (e : Z) : fexp e = Z.max (e - prec) emin.
Proof. reflexivity. Qed.

(** What [shr_fexp] leaves: mantissa and exponent. *)
Lemma shr_fexp_spec (m e : Z) (l : location) :
  0 <= m ->
  let n := fexp (Zdigits2 m + e) - e in
  shr_m (fst (shr_fexp prec emax m e l)) = (if 0 <? n then Z.shiftr m n else m)
  /\ snd (shr_fexp prec emax m e l) = (if 0 <? n then e + n else e).
Proof.
  intros Hm n. unfold shr_fexp. fold n.
  destruct (@shr_spec (shr_record_of_loc m l) e n) as [E1 E2].
  - rewrite shr_record_of_loc_m. exact Hm.
  - rewrite shr_record_of_loc_m in E1. split; assumption.
Qed.

(** The sum of the number of digits and of the exponent after [shr_fexp]. *)
Lemma shr_fexp_magnitude (m e : Z) (l : location) :
  0 <= m ->
  let M := Zdigits2 m + e in
  let m' := shr_m (fst (shr_fexp prec emax m e l)) in
  let e' := snd (shr_fexp prec emax m e l) in
  0 <= m'
  /\ Zdigits2 m' + e' = (if 0 <? fexp M - e then Z.max (fexp M) M else M).
Proof.
  intros Hm M m' e'. destruct (shr_fexp_spec e l Hm) as [E1 E2]. cbv zeta in E1, E2.
  fold M in E1, E2. fold m' in E1. fold e' in E2.
  destruct (Z.ltb_spec 0 (fexp M - e)) as [L|L].
  - rewrite E1, E2. split; [apply Z.shiftr_nonneg; exact Hm|].
    rewrite Zdigits2_shiftr by lia. unfold M. lia.
  - rewrite E1, E2. split; [exact Hm | reflexivity].
Qed.

(** The result of [binary_round_aux], by the last mantissa and exponent. *)
Lemma binary_round_aux_spec (s : bool) (mx ex : Z) (lx : location) :
  0 <= mx ->
  let M := Zdigits2 mx + ex in
  exists m'' e'',
    0 <= m''
    /\ binary_round_aux prec emax s mx ex lx
       = match m'' with
         | Z0 => S754_zero s
         | Zpos m => if e'' <=? emax - prec then S754_finite s m e'' else S754_infinity s
         | Zneg _ => S754_nan
         end
    /\ (0 < m'' -> Zdigits2 m'' + e'' <= Z.max M emin + 1)
    /\ (0 < mx -> 0 < m'' -> M <= Zdigits2 m'' + e'')
    /\ (0 < mx -> m'' = 0 -> M <= emin).
Proof.
  intros Hm M. unfold binary_round_aux.
  destruct (shr_fexp_magnitude ex lx Hm) as [Hm' E1]. cbv zeta in Hm', E1. fold M in E1.
  destruct (shr_fexp prec emax mx ex lx) as [mrs' e'] eqn:S1. cbn [fst snd] in Hm', E1.
  set (m1 := round_nearest_even (shr_m mrs') (loc_of_shr_record mrs')).
  pose proof (round_nearest_even_bounds (shr_m mrs') (loc_of_shr_record mrs')) as Hr.
  fold m1 in Hr.
  assert (Hm1 : 0 <= m1) by lia.
  destruct (shr_fexp_magnitude e' loc_Exact Hm1) as [Hm2 E2]. cbv zeta in Hm2, E2.
  destruct (shr_fexp_spec e' loc_Exact Hm1) as [F1 F2]. cbv zeta in F1, F2.
  destruct (shr_fexp_spec ex lx Hm) as [G1 G2]. cbv zeta in G1, G2.
  rewrite S1 in G1, G2. cbn [fst snd] in G1, G2. fold M in G1, G2.
  destruct (shr_fexp prec emax m1 e' loc_Exact) as [mrs'' e''] eqn:S2.
  cbn [fst snd] in Hm2, E2, F1, F2.
  exists (shr_m mrs''), e''. split; [exact Hm2|]. split; [reflexivity|].
  pose proof (@Zdigits2_mono (shr_m mrs') m1 ltac:(lia)) as D1.
  pose proof (@Zdigits2_succ (shr_m mrs') Hm') as D2.
  pose proof (@Zdigits2_mono m1 (shr_m mrs' + 1) ltac:(lia)) as D3.
  pose proof (Zdigits2_nonneg (shr_m mrs')) as D4.
  pose proof (Zdigits2_nonneg m1) as D5.
  pose proof (Zdigits2_nonneg mx) as D6.
  set (T := Zdigits2 m1 + e') in *.
  rewrite !fexp_max in *.
  assert (HT : T <= Z.max M emin + 1 /\ (0 < mx -> 0 < shr_m mrs' -> M <= T)
               /\ (0 < mx -> shr_m mrs' = 0 -> M <= emin /\ emin <= e')).
  { destruct (Z.ltb_spec 0 (Z.max (M - prec) emin - ex)) as [L|L].
    - split; [unfold T; lia|]. split; [unfold T; lia|].
      intros Hx E0. rewrite E0 in E1. cbn [Zdigits2] in E1.
      rewrite G1 in E0. pose proof (@Zdigits2_shiftr mx (Z.max (M - prec) emin - ex) Hm ltac:(lia)) as Q.
      rewrite E0 in Q. cbn [Zdigits2] in Q. unfold M in *. lia.
    - split; [unfold T; lia|]. split; [unfold T; lia|].
      intros Hx E0. rewrite G1 in E0. lia. }
  destruct HT as (HT1 & HT2 & HT3).
  destruct (Z.ltb_spec 0 (Z.max (T - prec) emin - e')) as [L|L].
  - split; [|split].
    + intros P. pose proof (Zdigits2_pos P).
      rewrite F1 in H. rewrite Zdigits2_shiftr in H by lia.
      rewrite F1. rewrite Zdigits2_shiftr by lia. rewrite F2. fold T. lia.
    + intros Hx P. pose proof (Zdigits2_pos P) as Q.
      rewrite F1 in Q. rewrite Zdigits2_shiftr in Q by lia.
      rewrite F1. rewrite Zdigits2_shiftr by lia. rewrite F2.
      destruct (Z.eq_dec (shr_m mrs') 0) as [Z0|NZ].
      * destruct (HT3 Hx Z0). pose proof (Zdigits2_nonneg (Z.shiftr m1 (Z.max (T - prec) emin - e'))).
        unfold T in *. lia.
      * pose proof (HT2 Hx ltac:(lia)). unfold T in *. lia.
    + intros Hx E0.
      destruct (Z.eq_dec (shr_m mrs') 0) as [Z0|NZ]; [apply (HT3 Hx Z0)|].
      pose proof (HT2 Hx ltac:(lia)).
      rewrite F1 in E0.
      pose proof (@Zdigits2_shiftr m1 (Z.max (T - prec) emin - e') Hm1 ltac:(lia)) as Q.
      rewrite E0 in Q. cbn [Zdigits2] in Q. unfold T in *. lia.
  - rewrite F1, F2. split; [|split].
    + intros P. fold T. lia.
    + intros Hx P. fold T.
      destruct (Z.eq_dec (shr_m mrs') 0) as [Z0|NZ].
      * destruct (HT3 Hx Z0). pose proof (Zdigits2_pos P). unfold T in *. lia.
      * apply HT2; [exact Hx | lia].
    + intros Hx E0. assert (Z0 : shr_m mrs' = 0) by lia. apply (HT3 Hx Z0).
Qed.

(** The three results of [binary_round_aux] on a non-negative mantissa, with
    the sum [digits + exponent] of the result against that of the input. *)
Lemma binary_round_aux_cases (s : bool) (mx ex : Z) (lx : location) :
  0 <= mx ->
  let M := Zdigits2 mx + ex in
  let res := binary_round_aux prec emax s mx ex lx in
  (res = S754_zero s /\ (0 < mx -> M <= emin))
  \/ (exists m e, res = S754_finite s m e
        /\ (0 < mx -> M <= Zpos (digits2_pos m) + e)
        /\ Zpos (digits2_pos m) + e <= Z.max M emin + 1)
  \/ (res = S754_infinity s /\ emax - prec < Z.max M emin).
Proof.
  intros Hm M res.
  destruct (binary_round_aux_spec s ex lx Hm) as (m'' & e'' & H0 & E & Hu & Hl & Hz).
  fold M in Hu, Hl, Hz. fold res in E.
  destruct m'' as [|m|m]; [| |lia].
  - left. split; [exact E|]. intros Hx. apply Hz; [exact Hx | reflexivity].
  - cbn [Zdigits2] in Hu, Hl. specialize (Hu ltac:(lia)).
    destruct (Z.leb_spec e'' (emax - prec)) as [L|L].
    + right. left. exists m, e''. split; [exact E|]. split; [|exact Hu].
      intros Hx. apply Hl; [exact Hx | lia].
    + right. right. split; [exact E|]. lia.
Qed.

Lemma shl_align_magnitude (mx : positive) (ex ex' : Z) :
  Zpos (digits2_pos (fst (shl_align mx ex ex'))) + snd (shl_align mx ex ex')
  = Zpos (digits2_pos mx) + ex.
Proof.
  unfold shl_align. destruct (ex' - ex) as [|d|d] eqn:E; cbn [fst snd]; try reflexivity.
  rewrite digits2_pos_iter. lia.
Qed.

Lemma shl_align_le (mx : positive) (ex ex' : Z) :
  ex' <= ex -> snd (shl_align mx ex ex') = ex'.
Proof.
  intros L. unfold shl_align. destruct (ex' - ex) as [|d|d] eqn:E; cbn [fst snd]; lia.
Qed.

(** [binary_round]: as [binary_round_aux], the mantissa being positive. *)
Lemma binary_round_cases (s : bool) (mx : positive) (ex : Z) :
  let M := Zpos (digits2_pos mx) + ex in
  let res := binary_round prec emax s mx ex in
  (res = S754_zero s /\ M <= emin)
  \/ (exists m e, res = S754_finite s m e
        /\ M <= Zpos (digits2_pos m) + e
        /\ Zpos (digits2_pos m) + e <= Z.max M emin + 1)
  \/ (res = S754_infinity s /\ emax - prec < Z.max M emin).
Proof.
  intros M res. unfold res, binary_round.
  pose proof (shl_align_magnitude mx ex (fexp (Zpos (digits2_pos mx) + ex))) as Ea.
  destruct (shl_align mx ex (fexp (Zpos (digits2_pos mx) + ex))) as [mz ez].
  cbn [fst snd] in Ea.
  pose proof (@binary_round_aux_cases s (Zpos mz) ez loc_Exact ltac:(lia)) as C.
  cbv zeta in C. cbn [Zdigits2] in C. rewrite Ea in C. fold M in C.
  destruct C as [[E Hz]|[(m & e & E & Hl & Hu)|[E Ho]]].
  - left. split; [exact E | apply Hz; lia].
  - right. left. exists m, e. split; [exact E|]. split; [apply Hl; lia | exact Hu].
  - right. right. split; assumption.
Qed.

(** ** The operations on finite numbers *)

Lemma SFmul_finite (sx sy : bool) (mx my : positive) (ex ey : Z) :
  let P := Zpos (digits2_pos mx) + ex + (Zpos (digits2_pos my) + ey) in
  let res := SFmul prec emax (S754_finite sx mx ex) (S754_finite sy my ey) in
  (res = S754_zero (xorb sx sy) /\ P - 1 <= emin)
  \/ (exists m e, res = S754_finite (xorb sx sy) m e
        /\ P - 1 <= Zpos (digits2_pos m) + e
        /\ Zpos (digits2_pos m) + e <= Z.max P emin + 1)
  \/ (res = S754_infinity (xorb sx sy) /\ emax - prec < Z.max P emin).
Proof.
  intros P res. unfold res. cbn [SFmul].
  pose proof (@binary_round_aux_cases (xorb sx sy) (Zpos (mx * my)) (ex + ey) loc_Exact
                ltac:(lia)) as C.
  cbv zeta in C.
  pose proof (@Zdigits2_mul (Zpos mx) (Zpos my) ltac:(lia) ltac:(lia)) as D.
  rewrite <- Pos2Z.inj_mul in D. cbn [Zdigits2] in C, D.
  destruct C as [[E Hz]|[(m & e & E & Hl & Hu)|[E Ho]]].
  - left. split; [exact E|]. specialize (Hz ltac:(lia)). unfold P. lia.
  - right. left. exists m, e. split; [exact E|]. specialize (Hl ltac:(lia)).
    unfold P. lia.
  - right. right. split; [exact E|]. unfold P. lia.
Qed.

(** The sum of two positive finite numbers is at least as large as each. *)
Lemma SFadd_finite (mx my : positive) (ex ey : Z) :
  let Mx := Zpos (digits2_pos mx) + ex in
  let My := Zpos (digits2_pos my) + ey in
  let res := SFadd prec emax (S754_finite false mx ex) (S754_finite false my ey) in
  (res = S754_zero false /\ Z.max Mx My <= emin)
  \/ (exists m e, res = S754_finite false m e /\ Z.max Mx My <= Zpos (digits2_pos m) + e)
  \/ res = S754_infinity false.
Proof.
  intros Mx My res. unfold res. cbn [SFadd cond_Zopp].
  set (ez := Z.min ex ey).
  pose proof (shl_align_magnitude mx ex ez) as Ax.
  pose proof (shl_align_magnitude my ey ez) as Ay.
  pose proof (@shl_align_le mx ex ez ltac:(unfold ez; lia)) as Lx.
  pose proof (@shl_align_le my ey ez ltac:(unfold ez; lia)) as Ly.
  rewrite Lx in Ax. rewrite Ly in Ay.
  set (a := fst (shl_align mx ex ez)) in *. set (b := fst (shl_align my ey ez)) in *.
  change (Zpos a + Zpos b) with (Zpos (a + b)). cbn [binary_normalize].
  pose proof (@Zdigits2_mono (Zpos a) (Zpos (a + b)) ltac:(lia)) as Da.
  pose proof (@Zdigits2_mono (Zpos b) (Zpos (a + b)) ltac:(lia)) as Db.
  cbn [Zdigits2] in Da, Db.
  destruct (binary_round_cases false (a + b) ez) as [[E Hz]|[(m & e & E & Hl & Hu)|[E Ho]]].
  - left. split; [exact E|]. unfold Mx, My. lia.
  - right. left. exists m, e. split; [exact E|]. unfold Mx, My. lia.
  - right. right. exact E.
Qed.

Lemma Zdigits2_sqrt (m : Z) : 0 < m -> (Zdigits2 m + 1) / 2 <= Zdigits2 (Z.sqrt m).
Proof.
  intros Hm. set (L := Z.log2 m).
  assert (HL : 0 <= L) by apply Z.log2_nonneg.
  assert (H2 : 2 ^ (L / 2) <= Z.sqrt m).
  { apply Z.sqrt_le_square; [lia | apply Z.pow_nonneg; lia |].
    rewrite <- Z.pow_add_r by (apply Z.div_pos; lia).
    pose proof (Z.log2_spec m Hm) as [Hlo _]. fold L in Hlo.
    assert (2 ^ (L / 2 + L / 2) <= 2 ^ L).
    { apply Z.pow_le_mono_r; [lia|]. pose proof (Z.mul_div_le L 2 ltac:(lia)). lia. }
    lia. }
  assert (Hs : 0 < Z.sqrt m).
  { pose proof (Z.pow_pos_nonneg 2 (L / 2) ltac:(lia) ltac:(apply Z.div_pos; lia)). lia. }
  apply Z.log2_le_pow2 in H2; [|exact Hs].
  rewrite !Zdigits2_log2 by assumption. fold L.
  replace (L + 1 + 1) with (L + 1 * 2) by lia. rewrite Z.div_add by lia. lia.
Qed.

Lemma SFsqrt_finite (mx : positive) (ex : Z) :
  let M := Zpos (digits2_pos mx) + ex in
  let res := SFsqrt prec emax (S754_finite false mx ex) in
  (res = S754_zero false /\ (M + 1) / 2 <= emin)
  \/ (exists m e, res = S754_finite false m e /\ (M + 1) / 2 <= Zpos (digits2_pos m) + e)
  \/ res = S754_infinity false.
Proof.
  intros M res. unfold res. cbn [SFsqrt]. unfold SFsqrt_core_binary.
  cbn [Zdigits2]. fold M.
  set (e' := Z.min (fexp (Z.div2 (M + 1))) (Z.div2 ex)).
  assert (He : 2 * e' <= ex).
  { unfold e'. rewrite (Z.div2_div ex). pose proof (Z.mul_div_le ex 2 ltac:(lia)). lia. }
  set (m' := match ex - 2 * e' with
             | 0 => Zpos mx
             | Zpos _ => Z.shiftl (Zpos mx) (ex - 2 * e')
             | Zneg _ => 0
             end).
  assert (Em : m' = Z.shiftl (Zpos mx) (ex - 2 * e')).
  { unfold m'. destruct (ex - 2 * e') as [|p|p] eqn:E; [reflexivity | reflexivity | lia]. }
  assert (Hm' : 0 < m').
  { rewrite Em, Z.shiftl_mul_pow2 by lia.
    pose proof (Z.pow_pos_nonneg 2 (ex - 2 * e') ltac:(lia) ltac:(lia)). nia. }
  assert (Dm : Zdigits2 m' = Zpos (digits2_pos mx) + (ex - 2 * e')).
  { rewrite Em. rewrite Zdigits2_shiftl by lia. reflexivity. }
  pose proof (Z.sqrtrem_sqrt m') as Eq.
  destruct (Z.sqrtrem m') as [q r]. cbn [fst] in Eq. subst q.
  pose proof (Zdigits2_sqrt Hm') as Dq. rewrite Dm in Dq.
  assert (Hq : 0 < Z.sqrt m') by (apply Z.sqrt_pos; exact Hm').
  assert (Dq' : (M + 1) / 2 <= Zdigits2 (Z.sqrt m') + e').
  { replace (Zpos (digits2_pos mx) + (ex - 2 * e') + 1) with (M + 1 + (- e') * 2) in Dq
      by (unfold M; lia).
    rewrite Z.div_add in Dq by lia. lia. }
  match goal with
  | |- context [binary_round_aux prec emax false (Z.sqrt m') e' ?l] =>
      pose proof (@binary_round_aux_cases false (Z.sqrt m') e' l ltac:(lia)) as C
  end.
  cbv zeta in C.
  destruct C as [[E Hz]|[(m & e & E & Hl & Hu)|[E Ho]]].
  - left. split; [exact E|]. specialize (Hz Hq). lia.
  - right. left. exists m, e. split; [exact E|]. specialize (Hl Hq). lia.
  - right. right. exact E.
Qed.

Lemma SFdiv_finite (sx sy : bool) (mx my : positive) (ex ey : Z) :
  let B := Zpos (digits2_pos mx) + ex - (Zpos (digits2_pos my) + ey)
           + Zpos (digits2_pos my) in
  let res := SFdiv prec emax (S754_finite sx mx ex) (S754_finite sy my ey) in
  res = S754_zero (xorb sx sy)
  \/ (exists m e, res = S754_finite (xorb sx sy) m e
        /\ Zpos (digits2_pos m) + e <= Z.max B emin + 1)
  \/ (res = S754_infinity (xorb sx sy) /\ emax - prec < Z.max B emin).
Proof.
  intros B res. unfold res. cbn [SFdiv]. unfold SFdiv_core_binary. cbn [Zdigits2].
  set (dx := Zpos (digits2_pos mx)) in *. set (dy := Zpos (digits2_pos my)) in *.
  set (e' := Z.min (fexp (dx + ex - (dy + ey))) (ex - ey)).
  assert (He : 0 <= ex - ey - e') by (unfold e'; lia).
  set (m' := match ex - ey - e' with
             | 0 => Zpos mx
             | Zpos _ => Z.shiftl (Zpos mx) (ex - ey - e')
             | Zneg _ => 0
             end).
  assert (Em : m' = Z.shiftl (Zpos mx) (ex - ey - e')).
  { unfold m'. destruct (ex - ey - e') as [|p|p] eqn:E; [reflexivity | reflexivity | lia]. }
  assert (Hm' : 0 < m').
  { rewrite Em, Z.shiftl_mul_pow2 by lia.
    pose proof (Z.pow_pos_nonneg 2 (ex - ey - e') ltac:(lia) ltac:(lia)). nia. }
  assert (Dm : Zdigits2 m' = dx + (ex - ey - e')).
  { rewrite Em. rewrite Zdigits2_shiftl by lia. reflexivity. }
  assert (Eq : fst (Z.div_eucl m' (Zpos my)) = m' / Zpos my) by reflexivity.
  destruct (Z.div_eucl m' (Zpos my)) as [q r]. cbn [fst] in Eq. subst q.
  set (q := m' / Zpos my).
  assert (Hq : 0 <= q) by (apply Z.div_pos; lia).
  assert (Dq : Zdigits2 q + e' <= B).
  { destruct (Z.eq_dec q 0) as [->|Nq].
    - cbn [Zdigits2]. unfold B. fold dx dy. pose proof (Zdigits2_pos (m := Zpos mx) ltac:(lia)).
      cbn [Zdigits2] in H. fold dx in H. lia.
    - pose proof (Z.mul_div_le m' (Zpos my) ltac:(lia)) as Hle. fold q in Hle.
      pose proof (@Zdigits2_mul (Zpos my) q ltac:(lia) ltac:(lia)) as [Dlo _].
      pose proof (@Zdigits2_mono (Zpos my * q) m' ltac:(nia)) as Dmo.
      cbn [Zdigits2] in Dlo. fold dy in Dlo. unfold B. fold dx dy. lia. }
  match goal with
  | |- context [binary_round_aux prec emax ?s q e' ?l] =>
      pose proof (@binary_round_aux_cases s q e' l Hq) as C
  end.
  cbv zeta in C.
  destruct C as [[E Hz]|[(m & e & E & Hl & Hu)|[E Ho]]].
  - left. exact E.
  - right. left. exists m, e. split; [exact E|]. lia.
  - right. right. split; [exact E|]. lia.
Qed.
End Format.

Section Double.

Lemma prec_pos : 0 < prec.
Proof. reflexivity. Qed.

Lemma valid_finite (s : bool) (m : positive) (e : Z) :
  valid_binary (S754_finite s m e) = true ->
  -1074 <= e <= 971 /\ Zpos (digits2_pos m) <= 53.
Proof.
  unfold valid_binary, SpecFloat.valid_binary, bounded, canonical_mantissa.
  intros H. apply andb_true_iff in H. destruct H as [H1 H2].
  apply Z.eqb_eq in H1. apply Z.leb_le in H2. rewrite fexp_max in H1.
  change (SpecFloat.emin prec emax) with (-1074) in H1.
  change prec with 53 in *. change emax with 1024 in *. lia.
Qed.

Lemma is_finite_spec (f : float) : is_finite f = SFfinite (Prim2SF f).
Proof.
  unfold is_finite, is_nan, is_infinity. rewrite !eqb_spec, abs_spec.
  change (Prim2SF infinity) with (S754_infinity false).
  destruct (Prim2SF f) as [s|s| |s m e]; try (destruct s; reflexivity); try reflexivity.
  unfold SFeqb, SFabs, SFcompare.
  rewrite Z.compare_refl, Pos.compare_cont_refl.
  destruct s; reflexivity.
Qed.

(** The square of a number: never negative, and not below the number's own
    size. *)
Lemma SFmul_square (x : spec_float) :
  match SF64mul x x with
  | S754_nan => True
  | S754_infinity s => s = false
  | S754_zero s => s = false /\ squareBelow x (-1074)
  | S754_finite s m e => s = false /\ squareBelow x (magnitude m e)
  end.
Proof.
  destruct x as [s|s| |s mx ex]; unfold SF64mul.
  - cbn [SFmul]. rewrite xorb_nilpotent. split; [reflexivity | exact I].
  - cbn [SFmul]. apply xorb_nilpotent.
  - exact I.
  - pose proof (@SFmul_finite prec emax prec_pos s s mx mx ex ex) as C. cbv zeta in C.
    rewrite xorb_nilpotent in C.
    change (SpecFloat.emin prec emax) with (-1074) in C.
    destruct C as [[E H]|[(m & e & E & Hl & Hu)|[E _]]]; rewrite E.
    + split; [reflexivity|]. unfold squareBelow, magnitude. lia.
    + split; [reflexivity|]. unfold squareBelow, magnitude. lia.
    + reflexivity.
Qed.

Lemma SFmul_square_nonneg (x : spec_float) : SFnonneg (SF64mul x x).
Proof.
  pose proof (SFmul_square x) as H. destruct (SF64mul x x); cbn; tauto.
Qed.

(** A finite sum of two numbers that are not negative is not smaller than
    either. *)
Lemma SFadd_nonneg (a b : spec_float) :
  SFnonneg a -> SFnonneg b ->
  match SF64add a b with
  | S754_nan => True
  | S754_infinity s => s = false
  | S754_zero s => s = false /\ sizeBelow a (-1074) /\ sizeBelow b (-1074)
  | S754_finite s m e =>
      s = false /\ sizeBelow a (magnitude m e) /\ sizeBelow b (magnitude m e)
  end.
Proof.
  intros Ha Hb. unfold SF64add.
  destruct a as [sa|sa| |sa ma ea]; destruct b as [sb|sb| |sb mb eb];
    cbn [SFnonneg] in Ha, Hb; subst; try exact I;
    try (cbn; repeat split; unfold magnitude; lia).
  pose proof (@SFadd_finite prec emax prec_pos ma mb ea eb) as C. cbv zeta in C.
  change (SpecFloat.emin prec emax) with (-1074) in C.
  destruct C as [[E H]|[(m & e & E & Hl)|E]]; rewrite E.
  - split; [reflexivity|]. cbn [sizeBelow]. unfold magnitude. lia.
  - split; [reflexivity|]. cbn [sizeBelow]. unfold magnitude. lia.
  - reflexivity.
Qed.

Lemma squareBelow_sizeBelow (x : spec_float) (M M' : Z) :
  M <= M' ->
  match SF64mul x x with
  | S754_zero _ => -1074 <= M'
  | S754_finite _ _ _ => True
  | _ => False
  end ->
  sizeBelow (SF64mul x x) M -> squareBelow x M'.
Proof.
  intros HM. pose proof (SFmul_square x) as H.
  destruct (SF64mul x x) as [s|s| |s m e]; cbn [sizeBelow]; try tauto.
  - intros L _. destruct H as [_ H]. destruct x; cbn [squareBelow] in *; try tauto. lia.
  - intros _ L. destruct H as [_ H]. destruct x; cbn [squareBelow] in *; try tauto. lia.
Qed.

(** The square root of a number that is not negative. *)
Lemma SFsqrt_nonneg (a : spec_float) :
  SFnonneg a -> valid_binary a = true ->
  match SF64sqrt a with
  | S754_nan => True
  | S754_infinity s => s = false
  | S754_zero s => s = false /\ exists s', a = S754_zero s'
  | S754_finite s m e =>
      s = false
      /\ exists ma ea, a = S754_finite false ma ea
                       /\ (magnitude ma ea + 1) / 2 <= magnitude m e
  end.
Proof.
  intros Ha Hv. unfold SF64sqrt.
  destruct a as [sa|sa| |sa ma ea]; cbn [SFnonneg] in Ha; subst; try exact I.
  - cbn. split; [reflexivity|]. eexists. reflexivity.
  - reflexivity.
  - pose proof (@SFsqrt_finite prec emax prec_pos ma ea) as C. cbv zeta in C.
    change (SpecFloat.emin prec emax) with (-1074) in C.
    destruct (valid_finite _ _ _ Hv) as [He Hd].
    pose proof (Pos2Z.is_pos (digits2_pos ma)) as Dp.
    destruct C as [[E H]|[(m & e & E & Hl)|E]]; rewrite E.
    + exfalso. Z.div_mod_to_equations. lia.
    + split; [reflexivity|]. exists ma, ea. split; [reflexivity|]. exact Hl.
    + reflexivity.
Qed.

Lemma Prim2SF_c64 : Prim2SF c64 = S754_finite false 7205759403792794 (-56).
Proof. reflexivity. Qed.

(** The radius [sqrt (x*x + z*z)] in the format of the specification. *)
Lemma radius_spec (x z : float) :
  Prim2SF (sqrt (x * x + z * z))
  = SF64sqrt (SF64add (SF64mul (Prim2SF x) (Prim2SF x)) (SF64mul (Prim2SF z) (Prim2SF z))).
Proof. rewrite sqrt_spec, add_spec, !mul_spec. reflexivity. Qed.

(** A radius that tests positive and below the minimum is a positive finite
    number, not smaller than either coordinate and at least [2^-537]. *)
Lemma radius_dominates (x z : float) :
  let r := sqrt (x * x + z * z) in
  (0 <? r)%float = true -> (r <? c64)%float = true ->
  exists m e,
    Prim2SF r = S754_finite false m e
    /\ -536 <= magnitude m e
    /\ sizeBelow (Prim2SF x) (magnitude m e)
    /\ sizeBelow (Prim2SF z) (magnitude m e).
Proof.
  intros r H0 H1. rewrite ltb_spec in H0, H1. rewrite Prim2SF_c64 in H1.
  change (Prim2SF 0) with (S754_zero false) in H0.
  pose proof (radius_spec x z) as Er. fold r in Er.
  set (X := Prim2SF x) in *. set (Z' := Prim2SF z) in *.
  pose proof (SFmul_square_nonneg X) as Nx. pose proof (SFmul_square_nonneg Z') as Nz.
  pose proof (SFadd_nonneg _ _ Nx Nz) as Ha.
  assert (Vs : valid_binary (SF64add (SF64mul X X) (SF64mul Z' Z')) = true).
  { unfold X, Z'. rewrite <- !mul_spec, <- add_spec. apply Prim2SF_valid. }
  assert (Ns : SFnonneg (SF64add (SF64mul X X) (SF64mul Z' Z'))).
  { destruct (SF64add (SF64mul X X) (SF64mul Z' Z')); cbn; tauto. }
  pose proof (SFsqrt_nonneg _ Ns Vs) as Hs. rewrite <- Er in Hs.
  destruct (Prim2SF r) as [s|s| |s m e]; try discriminate.
  - destruct s; discriminate.
  - destruct Hs as [-> (ms & es & Es & Hm)]. rewrite Es in Ha, Vs.
    destruct (valid_finite _ _ _ Vs) as [He Hd].
    pose proof (Pos2Z.is_pos (digits2_pos ms)) as Dp.
    destruct Ha as (_ & Sx & Sz).
    exists m, e. split; [reflexivity|].
    split; [unfold magnitude in *; Z.div_mod_to_equations; lia|].
    assert (Q : forall y, sizeBelow (SF64mul y y) (magnitude ms es) ->
                          sizeBelow y (magnitude m e)).
    { intros y Sy. pose proof (SFmul_square y) as Hy.
      destruct (SF64mul y y) as [sy|sy| |sy my ey]; cbn [sizeBelow] in Sy; try tauto.
      - destruct Hy as [_ Hy]. destruct y; cbn [squareBelow sizeBelow] in *; try tauto.
        unfold magnitude in *. Z.div_mod_to_equations. lia.
      - destruct Hy as [_ Hy]. destruct y; cbn [squareBelow sizeBelow] in *; try tauto.
        unfold magnitude in *. Z.div_mod_to_equations. lia. }
    split; apply Q; assumption.
Qed.

(** The rescaled coordinate [x * (0.1 / r)] is zero or finite, and below
    [2^52], when the radius [r] is as above. *)
Lemma rescaled_size (x : float) (r : float) (m : positive) (e : Z) :
  Prim2SF r = S754_finite false m e ->
  -536 <= magnitude m e ->
  sizeBelow (Prim2SF x) (magnitude m e) ->
  sizeBelow (Prim2SF (x * (c64 / r))) 52.
Proof.
  intros Er Hr Hx. rewrite mul_spec, div_spec, Er, Prim2SF_c64.
  pose proof (Prim2SF_valid r) as Vr. rewrite Er in Vr.
  destruct (valid_finite _ _ _ Vr) as [He Hd].
  pose proof (@SFdiv_finite prec emax prec_pos false false 7205759403792794 m (-56) e) as C.
  cbv zeta in C. change (SpecFloat.emin prec emax) with (-1074) in C.
  change (Zpos (digits2_pos 7205759403792794)) with 53 in C.
  change (emax - prec) with 971 in C. cbn [xorb] in C.
  unfold SF64div. unfold magnitude in *.
  destruct C as [E|[(mq & eq & E & Hu)|[E Ho]]]; rewrite E.
  - destruct (Prim2SF x); cbn [sizeBelow] in Hx; [exact I | tauto | tauto | exact I].
  - destruct (Prim2SF x) as [s|s| |s mx ex]; cbn [sizeBelow] in Hx;
      [exact I | tauto | tauto |].
    pose proof (@SFmul_finite prec emax prec_pos s false mx mq ex eq) as C. cbv zeta in C.
    change (SpecFloat.emin prec emax) with (-1074) in C.
    change (emax - prec) with 971 in C. unfold SF64mul.
    destruct C as [[E' _]|[(mo & eo & E' & _ & Hu')|[E' Ho]]]; rewrite E'.
    + exact I.
    + cbn [sizeBelow]. unfold magnitude in *. lia.
    + exfalso. unfold magnitude in *. lia.
  - exfalso. lia.
Qed.

Lemma sizeBelow_finite (x : float) (M : Z) : sizeBelow (Prim2SF x) M -> is_finite x = true.
Proof.
  intros H. rewrite is_finite_spec. destruct (Prim2SF x); cbn in *; tauto.
Qed.

(** ** Storing in a Float32Array *)

Lemma SFfinite_opp (x : spec_float) : SFfinite (SFopp x) = SFfinite x.
Proof. destruct x; reflexivity. Qed.

Lemma Zdigits2_63 (p : positive) : Zpos p < 2 ^ 63 -> Zpos (digits2_pos p) <= 63.
Proof.
  intros Hp. pose proof (@Zdigits2_bounds (Zpos p) ltac:(lia)) as [Hlo _].
  cbn [Zdigits2] in Hlo.
  destruct (Z_le_gt_dec (Zpos (digits2_pos p)) 63) as [L|G]; [exact L|].
  exfalso. assert (2 ^ 63 <= 2 ^ (Zpos (digits2_pos p) - 1))
    by (apply Z.pow_le_mono_r; lia). lia.
Qed.

(** [SF2Prim] of a number whose exponent is at most 104 is finite, whether
    or not the number is in the format. *)
Lemma SF2Prim_finite (s : bool) (m : positive) (e : Z) :
  e <= 104 -> is_finite (SF2Prim (S754_finite s m e)) = true.
Proof.
  intros He. cbn [SF2Prim].
  set (f := Z.ldexp (of_uint63 (Uint63Axioms.of_Z (Zpos m))) e).
  assert (Hf : SFfinite (Prim2SF f) = true).
  { unfold f. rewrite Z_ldexp_spec, of_uint63_spec.
    pose proof (Uint63.to_Z_bounded (Uint63Axioms.of_Z (Zpos m))) as Hb.
    change Uint63.wB with (2 ^ 63) in Hb.
    destruct (Uint63Axioms.to_Z (Uint63Axioms.of_Z (Zpos m))) as [|p|p]; [reflexivity | | lia].
    cbn [binary_normalize].
    pose proof (@Zdigits2_63 p ltac:(lia)) as Dp.
    pose proof (@binary_round_cases prec emax prec_pos false p 0) as C. cbv zeta in C.
    change (SpecFloat.emin prec emax) with (-1074) in C.
    change (emax - prec) with 971 in C.
    destruct C as [[E _]|[(m1 & e1 & E & _ & Hu)|[E Ho]]]; rewrite E; [reflexivity | | lia].
    cbn [SFldexp].
    pose proof (@binary_round_cases prec emax prec_pos false m1 (e1 + e)) as C. cbv zeta in C.
    change (SpecFloat.emin prec emax) with (-1074) in C.
    change (emax - prec) with 971 in C.
    destruct C as [[E' _]|[(m2 & e2 & E' & _)|[E' Ho]]]; rewrite E'; [reflexivity | reflexivity | lia]. }
  destruct s.
  - rewrite is_finite_spec, opp_spec, SFfinite_opp. exact Hf.
  - rewrite is_finite_spec. exact Hf.
Qed.

(** A number below [2^104] is stored as a finite number. *)
Lemma ffround_finite (v : float) :
  sizeBelow (Prim2SF v) 104 -> is_finite (ffround v) = true.
Proof.
  intros Hv. unfold ffround. pose proof (sizeBelow_finite _ _ Hv) as Fv.
  destruct (Prim2SF v) as [s|s| |s m e]; cbn [sizeBelow] in Hv; try exact Fv.
  assert (E : binary_normalize 24 128 (mantissa s m) e s = binary_round 24 128 s m e)
    by (destruct s; reflexivity).
  rewrite E.
  pose proof (@binary_round_cases 24 128 ltac:(lia) s m e) as C. cbv zeta in C.
  change (SpecFloat.emin 24 128) with (-149) in C. change (128 - 24) with 104 in C.
  unfold magnitude in Hv.
  destruct C as [[E' _]|[(m' & e' & E' & _ & Hu)|[E' Ho]]]; rewrite E'.
  - destruct s; reflexivity.
  - apply SF2Prim_finite. pose proof (Pos2Z.is_pos (digits2_pos m')). lia.
  - exfalso. lia.
Qed.

(** A number that is not finite is stored as it is. *)
Lemma ffround_not_finite (v : float) : is_finite v = false -> ffround v = v.
Proof.
  rewrite is_finite_spec. unfold ffround. destruct (Prim2SF v); cbn; try discriminate; reflexivity.
Qed.

(** ** The radius that is zero *)

Lemma Prim2SF_inj (x y : float) : Prim2SF x = Prim2SF y -> x = y.
Proof. intros E. rewrite <- (SF2Prim_Prim2SF x), <- (SF2Prim_Prim2SF y), E. reflexivity. Qed.

Lemma zero_radius (x z : float) :
  let r := sqrt (x * x + z * z) in
  (r =? 0)%float = true -> r = 0%float.
Proof.
  intros r H. rewrite eqb_spec in H. change (Prim2SF 0) with (S754_zero false) in H.
  pose proof (radius_spec x z) as Er. fold r in Er.
  set (X := Prim2SF x) in *. set (Z' := Prim2SF z) in *.
  pose proof (SFmul_square_nonneg X) as Nx. pose proof (SFmul_square_nonneg Z') as Nz.
  pose proof (SFadd_nonneg _ _ Nx Nz) as Ha.
  assert (Vs : valid_binary (SF64add (SF64mul X X) (SF64mul Z' Z')) = true).
  { unfold X, Z'. rewrite <- !mul_spec, <- add_spec. apply Prim2SF_valid. }
  assert (Ns : SFnonneg (SF64add (SF64mul X X) (SF64mul Z' Z'))).
  { destruct (SF64add (SF64mul X X) (SF64mul Z' Z')); cbn; tauto. }
  pose proof (SFsqrt_nonneg _ Ns Vs) as Hs. rewrite <- Er in Hs.
  apply Prim2SF_inj. change (Prim2SF 0) with (S754_zero false).
  destruct (Prim2SF r) as [s|s| |s m e]; try discriminate.
  - destruct Hs as [-> _]. reflexivity.
  - destruct s; discriminate.
  - destruct s; discriminate.
Qed.

(** A radius that tests below the minimum is positive or zero. *)
Lemma radius_cases (x z : float) :
  let r := sqrt (x * x + z * z) in
  (r <? c64)%float = true -> (0 <? r)%float = true \/ (r =? 0)%float = true.
Proof.
  intros r H. rewrite ltb_spec in H. rewrite ltb_spec, eqb_spec.
  rewrite Prim2SF_c64 in H. change (Prim2SF 0) with (S754_zero false).
  pose proof (radius_spec x z) as Er. fold r in Er.
  set (X := Prim2SF x) in *. set (Z' := Prim2SF z) in *.
  pose proof (SFmul_square_nonneg X) as Nx. pose proof (SFmul_square_nonneg Z') as Nz.
  pose proof (SFadd_nonneg _ _ Nx Nz) as Ha.
  assert (Vs : valid_binary (SF64add (SF64mul X X) (SF64mul Z' Z')) = true).
  { unfold X, Z'. rewrite <- !mul_spec, <- add_spec. apply Prim2SF_valid. }
  assert (Ns : SFnonneg (SF64add (SF64mul X X) (SF64mul Z' Z'))).
  { destruct (SF64add (SF64mul X X) (SF64mul Z' Z')); cbn; tauto. }
  pose proof (SFsqrt_nonneg _ Ns Vs) as Hs. rewrite <- Er in Hs.
  destruct (Prim2SF r) as [s|s| |s m e]; try discriminate.
  - right. reflexivity.
  - subst s. discriminate.
  - destruct Hs as [-> _]. left. reflexivity.
Qed.

(** A product by [Infinity] is not finite, and it is NaN for a factor zero. *)
Lemma mul_infinity (x : float) :
  is_finite (x * infinity)%float = false
  /\ ((x =? 0)%float = true -> (x * infinity)%float = nan).
Proof.
  split.
  - rewrite is_finite_spec, mul_spec. change (Prim2SF infinity) with (S754_infinity false).
    destruct (Prim2SF x); reflexivity.
  - intros H. rewrite eqb_spec in H. change (Prim2SF 0) with (S754_zero false) in H.
    apply Prim2SF_inj. rewrite mul_spec.
    change (Prim2SF infinity) with (S754_infinity false).
    change (Prim2SF nan) with S754_nan.
    destruct (Prim2SF x) as [s|s| |s m e]; try discriminate; try reflexivity.
    + destruct s; discriminate.
    + destruct s; discriminate.
Qed.
End Double.
End Rounding.

(** ** The minimum-radius clamp *)

Module Clamp.
Import RealArith RealFacts Spec.

Section Reals.
Local Open Scope R_scope.
#[local] Existing Instance RNumber.

Lemma clampRadius_real (new : Vector3 R) :
  clampRadius new
  = if Rlt_dec (radial new) (1 / 10)
    then vec3 (vx new * (1 / 10 / radial new)) (vy new)
              (vz new * (1 / 10 / radial new))
    else new.
Proof.
  unfold clampRadius, radial, minRadius, lit.
  cbn [num_ltb num_mul num_add num_div Math_sqrt RNumber ofZ]. unfold Rltb.
  destruct (Rlt_dec _ _); reflexivity.
Qed.

Lemma radial_pos (new : Vector3 R) :
  vx new <> 0 \/ vz new <> 0 -> 0 < radial new.
Proof.
  intros Hnz. unfold radial. apply sqrt_lt_R0.
  destruct Hnz as [Hx|Hz]; nra.
Qed.

Lemma radial_scaled (new : Vector3 R) k :
  0 <= k ->
  radial (vec3 (vx new * k) (vy new) (vz new * k)) = k * radial new.
Proof.
  intros Hk. unfold radial. cbn [vx vz].
  replace (vx new * k * (vx new * k) + vz new * k * (vz new * k))
    with (k * k * (vx new * vx new + vz new * vz new)) by ring.
  rewrite sqrt_mult by nra.
  rewrite sqrt_square by assumption. reflexivity.
Qed.

Lemma clampRadius_exact (new : Vector3 R) :
  vx new <> 0 \/ vz new <> 0 -> radial new < 1 / 10 ->
  clampRadius new
    = vec3 (vx new * (1 / 10 / radial new)) (vy new) (vz new * (1 / 10 / radial new))
  /\ radial (clampRadius new) = 1 / 10.
Proof.
  intros Hnz Hlt. pose proof (radial_pos new Hnz) as Hpos.
  rewrite clampRadius_real. destruct (Rlt_dec _ _) as [_|N]; [|exfalso; lra].
  split; [reflexivity|].
  rewrite radial_scaled.
  - field. lra.
  - apply Rlt_le. apply Rdiv_lt_0_compat; lra.
Qed.

(** Scenario C: at radius 0.05 the horizontal components are doubled. *)
Lemma scenarioC_clamped :
  clampRadius scenarioC = vec3 (5 / 100 * 2) 1 (0 * 2)
  /\ radial (clampRadius scenarioC) = 1 / 10.
Proof.
  assert (Hr : radial scenarioC = 5 / 100).
  { unfold radial, scenarioC. cbn [vx vz].
    replace (5 / 100 * (5 / 100) + 0 * 0) with (5 / 100 * (5 / 100)) by lra.
    apply sqrt_square. lra. }
  destruct (clampRadius_exact scenarioC) as [E1 E2].
  - left. cbn. lra.
  - rewrite Hr. lra.
  - split; [|exact E2]. rewrite E1, Hr. cbn [vx vy vz scenarioC]. f_equal; lra.
Qed.

Lemma clampRadius_keeps (new : Vector3 R) :
  1 / 10 <= radial new -> clampRadius new = new.
Proof.
  intros Hge. rewrite clampRadius_real.
  destruct (Rlt_dec _ _) as [L|_]; [exfalso; lra | reflexivity].
Qed.

(** Off the axis the clamp does its work: the radius is at least the minimum. *)
Lemma clampRadius_min_radius (new : Vector3 R) :
  vx new <> 0 \/ vz new <> 0 -> 1 / 10 <= radial (clampRadius new).
Proof.
  intros Hnz. destruct (Rlt_dec (radial new) (1 / 10)) as [L|G].
  - destruct (clampRadius_exact new Hnz L) as [_ ->]. lra.
  - rewrite clampRadius_keeps by lra. lra.
Qed.
End Reals.

Section Floats.
Variables (fcos fsin : float -> float) (fatan2 fpow : float -> float -> float).

(** The whole displacement of a cylinder of radius 0.5 by -0.5: every vertex
    lands on the axis. *)
Lemma displaced_prism_vertex :
  let N := FloatArith.FloatNumber fcos fsin fatan2 fpow in
  let g := applyDisplacementToGeometry FloatInputs.biasedParams64
             FloatInputs.prismGeometry64 (Some blackTexture) 1%float (-0.5)%float true in
  fromBufferAttribute (position g) 5 = vec3 PrimFloat.nan 2.5%float PrimFloat.nan.
Proof. vm_compute. reflexivity. Qed.
End Floats.

(** C3: the clamp misses the vertex that the offset puts on the axis.  On a
    cylinder of radius 0.5 displaced by -0.5 (horizontal mode, binary64), the
    written position has NaN horizontal coordinates, so its radial distance
    is not at least the minimum radius. *)
Theorem displaced_vertex_on_axis_below_minimum
    (fcos fsin : float -> float) (fatan2 fpow : float -> float -> float) :
  let N := FloatArith.FloatNumber fcos fsin fatan2 fpow in
  let g := applyDisplacementToGeometry FloatInputs.biasedParams64 FloatInputs.prismGeometry64
             (Some blackTexture) 1%float (-0.5)%float true in
  let p := fromBufferAttribute (position g) 5 in
  p = vec3 PrimFloat.nan 2.5%float PrimFloat.nan
  /\ (minRadius <=? Math_sqrt (vx p * vx p + vz p * vz p))%js = false.
Proof.
  intros N g p. subst p g N.
  pose proof (displaced_prism_vertex fcos fsin fatan2 fpow) as E. cbn zeta in E.
  rewrite E. split; reflexivity.
Qed.

Section Binary64Clamp.
Import Binary64.
Variables (fcos fsin : float -> float) (fatan2 fpow : float -> float -> float).

(** The literal [0.1] of [minRadius] and the literal [0], in binary64. *)
Lemma minRadius_c64 :
  @minRadius float (FloatArith.FloatNumber fcos fsin fatan2 fpow) = c64
  /\ @zero float (FloatArith.FloatNumber fcos fsin fatan2 fpow) = 0%float.
Proof. split; reflexivity. Qed.

(** The clamp in binary64, by the computed radius. *)
Lemma clampRadius_binary64 (new : Vector3 float) :
  let newRadius := PrimFloat.sqrt (vx new * vx new + vz new * vz new)%float in
  let clamped := @clampRadius float (FloatArith.FloatNumber fcos fsin fatan2 fpow) new in
  ((0 <? newRadius)%float = true -> (newRadius <? c64)%float = true ->
     clamped = vec3 (vx new * (c64 / newRadius))%float (vy new)
                    (vz new * (c64 / newRadius))%float
     /\ is_finite (vx clamped) = true /\ is_finite (vz clamped) = true
     /\ is_finite (FloatArith.ffround (vx clamped)) = true
     /\ is_finite (FloatArith.ffround (vz clamped)) = true)
  /\ ((newRadius =? 0)%float = true ->
        (c64 / newRadius)%float = infinity
        /\ clamped = vec3 (vx new * infinity)%float (vy new) (vz new * infinity)%float
        /\ is_finite (vx clamped) = false /\ is_finite (vz clamped) = false
        /\ FloatArith.ffround (vx clamped) = vx clamped
        /\ FloatArith.ffround (vz clamped) = vz clamped
        /\ ((vx new =? 0)%float = true -> vx clamped = nan)
        /\ ((vz new =? 0)%float = true -> vz clamped = nan))
  /\ ((newRadius <? c64)%float = true ->
        (0 <? newRadius)%float = true \/ (newRadius =? 0)%float = true)
  /\ ((newRadius <? c64)%float = false -> clamped = new).
Proof.
  intros newRadius clamped.
  assert (Ec : clamped = if (newRadius <? c64)%float
                         then vec3 (vx new * (c64 / newRadius))%float (vy new)
                                   (vz new * (c64 / newRadius))%float
                         else new) by reflexivity.
  split; [|split; [|split]].
  - intros H0 H1. rewrite H1 in Ec.
    destruct (@Rounding.radius_dominates (vx new) (vz new) H0 H1)
      as (m & e & Er & Hm & Sx & Sz).
    fold newRadius in Er.
    pose proof (@Rounding.rescaled_size (vx new) newRadius m e Er Hm Sx) as Bx.
    pose proof (@Rounding.rescaled_size (vz new) newRadius m e Er Hm Sz) as Bz.
    assert (Lx : sizeBelow (Prim2SF (vx new * (c64 / newRadius))%float) 104)
      by (destruct (Prim2SF (vx new * (c64 / newRadius))%float); cbn in *; tauto || lia).
    assert (Lz : sizeBelow (Prim2SF (vz new * (c64 / newRadius))%float) 104)
      by (destruct (Prim2SF (vz new * (c64 / newRadius))%float); cbn in *; tauto || lia).
    rewrite Ec. cbn [vx vy vz]. split; [reflexivity|].
    split; [exact (@Rounding.sizeBelow_finite _ _ Bx)|].
    split; [exact (@Rounding.sizeBelow_finite _ _ Bz)|].
    split; [exact (@Rounding.ffround_finite _ Lx) | exact (@Rounding.ffround_finite _ Lz)].
  - intros H0. pose proof (@Rounding.zero_radius (vx new) (vz new) H0) as E0.
    fold newRadius in E0.
    assert (Ef : (c64 / newRadius)%float = infinity) by (rewrite E0; reflexivity).
    assert (Hlt : (newRadius <? c64)%float = true) by (rewrite E0; reflexivity).
    rewrite Hlt, Ef in Ec. rewrite Ec. cbn [vx vy vz].
    destruct (Rounding.mul_infinity (vx new)) as [Fx Nx].
    destruct (Rounding.mul_infinity (vz new)) as [Fz Nz].
    split; [exact Ef|]. split; [reflexivity|].
    split; [exact Fx|]. split; [exact Fz|].
    split; [exact (@Rounding.ffround_not_finite _ Fx)|].
    split; [exact (@Rounding.ffround_not_finite _ Fz)|].
    split; assumption.
  - apply Rounding.radius_cases.
  - intros H. rewrite H in Ec. exact Ec.
Qed.
End Binary64Clamp.

(** C10, amended: the rescale factor [minRadius / newRadius] is computed
    without a test of [newRadius], and the clamp needs [newRadius > 0], the
    radius as computed.  In exact arithmetic, an offset position with
    [0 < newRadius < minRadius] is rescaled by that factor and ends at radius
    exactly [minRadius].  In binary64, whenever the computed radius tests
    [0 < newRadius] and [newRadius < minRadius], the factor is applied and
    the two rescaled coordinates are finite, also once stored in the
    Float32Array; whenever the computed radius is 0 (on the axis, or so
    close to it that the squares underflow) the factor is [0.1 / 0 =
    Infinity] and the two written coordinates are not finite: NaN for a
    coordinate that is zero, an infinity otherwise.  A radius that tests
    below the minimum is in one of the two cases, and otherwise the position
    is written as it is. *)
Theorem clampRadius_needs_positive_radius :
  (forall new : Vector3 R,
     (0 < radial new)%R -> (radial new < 1 / 10)%R ->
     @clampRadius R RNumber new
       = vec3 (vx new * (1 / 10 / radial new))%R (vy new)
              (vz new * (1 / 10 / radial new))%R
     /\ (radial (@clampRadius R RNumber new) = 1 / 10)%R)
  /\ (forall (fcos fsin : float -> float) (fatan2 fpow : float -> float -> float)
             (new : Vector3 float),
       let N := FloatArith.FloatNumber fcos fsin fatan2 fpow in
       let newRadius := Math_sqrt (vx new * vx new + vz new * vz new)%js in
       let clamped := clampRadius new in
       ((zero <? newRadius)%js = true -> (newRadius <? minRadius)%js = true ->
          clamped = vec3 (vx new * (minRadius / newRadius))%js (vy new)
                         (vz new * (minRadius / newRadius))%js
          /\ is_finite (vx clamped) = true /\ is_finite (vz clamped) = true
          /\ is_finite (fround (vx clamped)) = true
          /\ is_finite (fround (vz clamped)) = true)
       /\ ((newRadius =? 0)%float = true ->
             (minRadius / newRadius)%js = infinity
             /\ clamped = vec3 (vx new * infinity)%float (vy new)
                               (vz new * infinity)%float
             /\ is_finite (vx clamped) = false /\ is_finite (vz clamped) = false
             /\ fround (vx clamped) = vx clamped /\ fround (vz clamped) = vz clamped
             /\ ((vx new =? 0)%float = true -> vx clamped = nan)
             /\ ((vz new =? 0)%float = true -> vz clamped = nan))
       /\ ((newRadius <? minRadius)%js = true ->
             (zero <? newRadius)%js = true \/ (newRadius =? 0)%float = true)
       /\ ((newRadius <? minRadius)%js = false -> clamped = new)).
Proof.
  split.
  - intros new Hpos Hlt. apply clampRadius_exact; [|exact Hlt].
    destruct (Req_dec (vx new) 0) as [Ex|Nx]; [|left; exact Nx].
    destruct (Req_dec (vz new) 0) as [Ez|Nz]; [|right; exact Nz].
    exfalso. unfold radial in Hpos. rewrite Ex, Ez in Hpos.
    replace (0 * 0 + 0 * 0)%R with 0%R in Hpos by ring.
    rewrite sqrt_0 in Hpos. lra.
  - intros fcos fsin fatan2 fpow new N newRadius clamped.
    exact (clampRadius_binary64 fcos fsin fatan2 fpow new).
Qed.

Lemma clampRadius_needs_positive_radius_witness :
  (radial (@clampRadius R RNumber scenarioC) = 1 / 10)%R
  /\ is_finite (vx (@clampRadius float (FloatArith.FloatNumber (fun a => a) (fun a => a)
                                          (fun a _ => a) (fun a _ => a))
                      Binary64.inside64)) = true.
Proof.
  split.
  - apply (proj1 clampRadius_needs_positive_radius scenarioC).
    + unfold radial, scenarioC. cbn [vx vz].
      replace (5 / 100 * (5 / 100) + 0 * 0)%R with (5 / 100 * (5 / 100))%R by lra.
      rewrite sqrt_square by lra. lra.
    + unfold radial, scenarioC. cbn [vx vz].
      replace (5 / 100 * (5 / 100) + 0 * 0)%R with (5 / 100 * (5 / 100))%R by lra.
      rewrite sqrt_square by lra. lra.
  - apply (proj1 (proj2 clampRadius_needs_positive_radius
                    (fun a => a) (fun a => a) (fun a _ => a) (fun a _ => a)
                    Binary64.inside64)); reflexivity.
Defined.

(** C10: a position off the axis that the clamp sends to infinity.  In
    binary64 the position [(2^-600, 1, 0)] has a non-zero [x], but its
    squares underflow: the computed radius is 0, the factor is [Infinity],
    and the clamp writes [(Infinity, 1, NaN)]. *)
Lemma clampRadius_underflow_counterexample :
  (vx Binary64.underflowing =? 0)%float = false
  /\ (forall (fcos fsin : float -> float) (fatan2 fpow : float -> float -> float),
        let N := FloatArith.FloatNumber fcos fsin fatan2 fpow in
        Math_sqrt (vx Binary64.underflowing * vx Binary64.underflowing
                   + vz Binary64.underflowing * vz Binary64.underflowing)%js = 0%float
        /\ clampRadius Binary64.underflowing = vec3 infinity 1%float nan
        /\ is_finite (vx (clampRadius Binary64.underflowing)) = false
        /\ is_finite (vz (clampRadius Binary64.underflowing)) = false).
Proof.
  split; [reflexivity|]. intros fcos fsin fatan2 fpow N. repeat split.
Qed.
End Clamp.

(** ** Export transform *)

Module ExportTransform.
Section Generic.
Context {num : Type} `{Number num}.

Lemma Object3D_nested_ind (P : Object3D -> Prop) :
  (forall a, P (Mesh a)) ->
  (forall cs, Forall P cs -> P (Group cs)) ->
  forall o, P o.
Proof.
  intros HM HG. fix IH 1. intros [a|cs].
  - apply HM.
  - apply HG. induction cs as [|c cs IHcs]; constructor; [apply IH | exact IHcs].
Qed.

Lemma exportPositionStep_setV scale swapYZ (p : list num) i :
  exportPositionStep scale swapYZ p i
  = setV p i (exportedPosition scale swapYZ (fromBufferAttribute p i)).
Proof. unfold exportPositionStep, exportedPosition, setV. destruct swapYZ; reflexivity. Qed.

Lemma exportNormalStep_setV (p : list num) i :
  exportNormalStep p i = setV p i (swappedNormal (fromBufferAttribute p i)).
Proof. reflexivity. Qed.

Lemma fold_ext {A B : Type} (f g : A -> B -> A) (l : list B) (a : A) :
  (forall x y, f x y = g x y) -> fold_left f l a = fold_left g l a.
Proof.
  intros E. revert a. induction l as [|y l IH]; intros a; [reflexivity|].
  cbn. rewrite E. apply IH.
Qed.

Lemma transformForExport_exported (g : BufferGeometry num) scale swapYZ :
  exportedFrom scale swapYZ g (transformForExport g scale swapYZ).
Proof.
  unfold exportedFrom, transformForExport. cbn [position normal uv].
  rewrite (fold_ext _ _ _ _ (exportPositionStep_setV scale swapYZ)).
  repeat split.
  - intros i Hi.
    rewrite (fold_setV_pointwise (fun _ v => exportedPosition scale swapYZ v)) by lia.
    rewrite (proj2 (Nat.ltb_lt _ _) Hi). reflexivity.
  - intros i Hi. destruct swapYZ; [|reflexivity].
    rewrite (fold_ext _ _ _ _ exportNormalStep_setV).
    rewrite (fold_setV_pointwise (fun _ v => swappedNormal v)) by lia.
    rewrite (proj2 (Nat.ltb_lt _ _) Hi). reflexivity.
  - apply (fold_setV_length (fun _ v => exportedPosition scale swapYZ v)).
Qed.

Lemma upd_app_last {A : Type} (h : list A) (x y : A) :
  upd (h ++ [x]) (length h) y = h ++ [y].
Proof. induction h as [|a h IH]; [reflexivity|]. cbn. rewrite IH. reflexivity. Qed.

Lemma nth_error_app_last {A : Type} (h : list A) (x : A) :
  nth_error (h ++ [x]) (length h) = Some x.
Proof. induction h as [|a h IH]; [reflexivity | exact IH]. Qed.

(** The geometry the clone of a mesh ends with. *)
Lemma createExportClone_mesh (h : Heap num) a g scale swapYZ :
  nth_error h a = Some g -> 0 < count (position g) ->
  exists g',
    createExportClone (Mesh a) scale swapYZ h = (Ok (Mesh (length h)), h ++ [g'])
    /\ exportedFrom scale swapYZ g g'.
Proof.
  intros Ha Hc.
  pose proof (transformForExport_exported g scale swapYZ) as Hex.
  set (t := transformForExport g scale swapYZ) in *.
  exists (mkGeometry (position t) (normal t) (uv t)
            (match index t with Some idx => Some idx
                           | None => Some (seq 0 (count (position t))) end)).
  split.
  - cbn [createExportClone]. unfold bind at 1. unfold load at 1. rewrite Ha.
    unfold bind at 1, alloc at 1.
    unfold processGeometryForExport, bind at 1. unfold bind at 1, load at 1.
    rewrite nth_error_app_last.
    unfold bind at 1, store at 1. rewrite upd_app_last. fold t.
    unfold prepareGeometryForSTL, bind at 1, load at 1.
    rewrite nth_error_app_last.
    unfold bind at 1, store at 1. rewrite upd_app_last.
    assert (Hct : count (position t) = count (position g)).
    { unfold count. destruct Hex as (_ & _ & _ & ->). reflexivity. }
    rewrite Hct. destruct (Nat.eqb_spec (count (position g)) 0) as [E|_]; [lia|].
    unfold ret. reflexivity.
  - exact Hex.
Qed.

Lemma process_last (h : Heap num) g scale swapYZ :
  exists r g',
    processGeometryForExport (length h) scale swapYZ (h ++ [g]) = (r, h ++ [g']).
Proof.
  assert (E : forall k : option (BufferGeometry num) -> M num unit,
            bind (load (length h)) k (h ++ [g]) = k (Some g) (h ++ [g])).
  { intros k. unfold bind, load. rewrite nth_error_app_last. reflexivity. }
  unfold processGeometryForExport. rewrite E.
  unfold bind at 1, store at 1. rewrite upd_app_last.
  unfold prepareGeometryForSTL.
  assert (E' : forall (g0 : BufferGeometry num)
                      (k : option (BufferGeometry num) -> M num unit),
            bind (load (length h)) k (h ++ [g0]) = k (Some g0) (h ++ [g0])).
  { intros g0 k. unfold bind, load. rewrite nth_error_app_last. reflexivity. }
  rewrite E'.
  unfold bind at 1, store at 1. rewrite upd_app_last.
  destruct (count (position (transformForExport g scale swapYZ)) =? 0)%nat;
    eexists; eexists; reflexivity.
Qed.

(** The clone only ever extends the store: whatever the outcome, the
    geometries that were there are still there, unchanged. *)
Lemma createExportClone_extends scale swapYZ (o : Object3D) :
  forall h : Heap num, exists ext, snd (createExportClone o scale swapYZ h) = h ++ ext.
Proof.
  induction o as [a|cs IH] using Object3D_nested_ind; intros h.
  - cbn [createExportClone]. unfold bind at 1, load at 1.
    destruct (nth_error h a) as [g|].
    + unfold bind at 1, alloc at 1.
      destruct (process_last h g scale swapYZ) as (r & g' & E).
      unfold bind at 1. rewrite E.
      exists [g']. destruct r; reflexivity.
    + exists []. cbn. rewrite app_nil_r. reflexivity.
  - cbn [createExportClone]. unfold bind at 1.
    set (f := fun child => createExportClone child scale swapYZ).
    assert (Htr : forall h0, exists ext, snd (traverse f cs h0) = h0 ++ ext).
    { clear h. induction IH as [|c cs Hc Hcs IHcs]; intros h0.
      - exists []. cbn. rewrite app_nil_r. reflexivity.
      - cbn [traverse]. unfold bind at 1.
        destruct (Hc h0) as [e1 E1]. fold (f c) in E1.
        destruct (f c h0) as [[c'|] h1]; cbn [snd] in E1; subst h1.
        + unfold bind at 1. destruct (IHcs (h0 ++ e1)) as [e2 E2].
          fold (traverse f) in *.
          destruct (traverse f cs (h0 ++ e1)) as [[r|] h2]; cbn [snd] in E2; subst h2;
            exists (e1 ++ e2); cbn; rewrite app_assoc; reflexivity.
        + exists e1. reflexivity. }
    destruct (Htr h) as [ext E].
    destruct (traverse f cs h) as [[r|] h1]; cbn [snd] in E; subst h1; exists ext;
      reflexivity.
Qed.

(** A group of meshes, as the export functions build it from the body and
    the caps: one fresh geometry per mesh, in order. *)
Lemma traverse_meshes scale swapYZ addrs gs :
  forall h : Heap num,
  Forall2 (fun a g => nth_error h a = Some g /\ 0 < count (position g)) addrs gs ->
  exists gs',
    traverse (fun child => createExportClone child scale swapYZ) (map Mesh addrs) h
    = (Ok (map Mesh (seq (length h) (length addrs))), h ++ gs')
    /\ Forall2 (exportedFrom scale swapYZ) gs gs'.
Proof.
  revert gs. induction addrs as [|a addrs IH]; intros gs h Hall.
  - inversion Hall; subst. exists []. split; [|constructor].
    cbn. unfold ret. rewrite app_nil_r. reflexivity.
  - inversion Hall as [|a0 g l l' [Ha Hc] Hrest]; subst.
    destruct (createExportClone_mesh h a scale swapYZ Ha Hc) as (g' & E & Hex).
    assert (Hrest' : Forall2 (fun a g => nth_error (h ++ [g']) a = Some g
                                         /\ 0 < count (position g)) addrs l').
    { clear -Hrest. induction Hrest as [|x y xs ys [Hx Hy] _ IHr]; constructor.
      - split; [|exact Hy]. rewrite nth_error_app1; [exact Hx|].
        apply nth_error_Some. rewrite Hx. discriminate.
      - exact IHr. }
    destruct (IH l' (h ++ [g']) Hrest') as (gs' & E' & Hex').
    exists (g' :: gs'). split; [|constructor; assumption].
    cbn [map traverse]. unfold bind at 1. rewrite E.
    unfold bind at 1.
    change ((fix visit (l : list Object3D) : M num (list Object3D) :=
               match l with
               | [] => ret []
               | child :: rest =>
                   bind (createExportClone child scale swapYZ)
                        (fun c => bind (visit rest) (fun r => ret (c :: r)))
               end) (map Mesh addrs))
      with (traverse (fun child => createExportClone child scale swapYZ)
                     (map Mesh addrs)).
    rewrite E'. unfold ret. rewrite length_app. cbn [length seq map].
    rewrite Nat.add_1_r, <- app_assoc. reflexivity.
Qed.

Lemma createExportClone_group scale swapYZ addrs gs (h : Heap num) :
  Forall2 (fun a g => nth_error h a = Some g /\ 0 < count (position g)) addrs gs ->
  exists gs',
    createExportClone (Group (map Mesh addrs)) scale swapYZ h
    = (Ok (Group (map Mesh (seq (length h) (length addrs)))), h ++ gs')
    /\ Forall2 (exportedFrom scale swapYZ) gs gs'.
Proof.
  intros Hall. destruct (traverse_meshes scale swapYZ h Hall) as (gs' & E & Hex).
  exists gs'. split; [|exact Hex].
  cbn [createExportClone]. unfold bind. rewrite E. reflexivity.
Qed.

Lemma createExportClone_frame scale swapYZ (o : Object3D) (h : Heap num) a g :
  nth_error h a = Some g ->
  nth_error (snd (createExportClone o scale swapYZ h)) a = Some g.
Proof.
  intros Ha. destruct (createExportClone_extends scale swapYZ o h) as [ext ->].
  rewrite nth_error_app1; [exact Ha|].
  apply nth_error_Some. rewrite Ha. discriminate.
Qed.
End Generic.

(** C9: the export works on a clone.  Whatever the object exported, every
    geometry of the store is unchanged afterwards; a mesh with a non-empty
    geometry yields a mesh on a fresh geometry whose positions are the
    original ones times the scale, with Y and Z exchanged when [swapYZ] is
    set, and whose normals have Y and Z exchanged when [swapYZ] is set (as
    stored in a Float32Array); so does every mesh of a group of meshes (the
    body and its caps).  With scale 10 and [swapYZ], the vertex (1, 2, 3) is
    exported as (10, 30, 20), in binary64 arithmetic. *)
Theorem createExportClone_transform
    {num : Type} `{Number num} (h : Heap num) (scale : num) (swapYZ : bool) :
  (forall a g,
     nth_error h a = Some g -> 0 < count (position g) ->
     exists g',
       createExportClone (Mesh a) scale swapYZ h = (Ok (Mesh (length h)), h ++ [g'])
       /\ exportedFrom scale swapYZ g g')
  /\ (forall addrs gs,
       Forall2 (fun a g => nth_error h a = Some g /\ 0 < count (position g)) addrs gs ->
       exists gs',
         createExportClone (Group (map Mesh addrs)) scale swapYZ h
         = (Ok (Group (map Mesh (seq (length h) (length addrs)))), h ++ gs')
         /\ Forall2 (exportedFrom scale swapYZ) gs gs')
  /\ (forall (o : Object3D) b gb,
       nth_error h b = Some gb ->
       nth_error (snd (createExportClone o scale swapYZ h)) b = Some gb)
  /\ (forall fcos fsin fatan2 fpow,
       let N := FloatArith.FloatNumber fcos fsin fatan2 fpow in
       createExportClone (Mesh 0) 10%float true [FloatInputs.scenarioD64]
       = (Ok (Mesh 1),
          [FloatInputs.scenarioD64;
           mkGeometry [10; 30; 20]%float [0; 0; 1]%float [0; 0]%float
                      (Some [0; 0; 0])])).
Proof.
  split; [|split; [|split]].
  - intros a g Ha Hc. apply createExportClone_mesh; assumption.
  - intros addrs gs Hall. apply createExportClone_group. exact Hall.
  - intros o b gb Hb. apply createExportClone_frame. exact Hb.
  - intros fcos fsin fatan2 fpow N. vm_compute. reflexivity.
Qed.

#[local] Existing Instance RealArith.RNumber.

(** Scenario D in exact arithmetic, as an instance of the theorem. *)
Lemma createExportClone_transform_witness :
  exists g',
    createExportClone (Mesh 0) 10%R true [Spec.scenarioD]
      = (Ok (Mesh 1), [Spec.scenarioD; g'])
    /\ fromBufferAttribute (position g') 0 = vec3 10%R 30%R 20%R
    /\ fromBufferAttribute (normal g') 0 = vec3 0%R 0%R 1%R.
Proof.
  destruct (proj1 (@createExportClone_transform R RealArith.RNumber [Spec.scenarioD]
                     10%R true) 0 Spec.scenarioD eq_refl)
    as (g' & E & Hp & Hn & _).
  - unfold count. simpl. lia.
  - exists g'. split; [exact E|]. split.
    + rewrite Hp by (unfold count; simpl; lia). unfold roundV. cbn.
      f_equal; lra.
    + rewrite Hn by (unfold count; simpl; lia). reflexivity.
Defined.
End ExportTransform.

(** ** Cap welding *)

Module Caps.
Section Generic.
Context {num : Type} `{Number num}.

Lemma nth_Float32 (l : list num) i :
  i < length l -> nth i (Float32BufferAttribute l) undef = fround (nth i l undef).
Proof.
  intros Hi. unfold Float32BufferAttribute.
  rewrite (nth_indep _ undef (fround undef)) by (rewrite length_map; exact Hi).
  apply map_nth.
Qed.

Lemma nth_ring (g : BufferGeometry num) r segs seg :
  seg <= segs ->
  nth seg (getDisplacedRingVertices g r segs) noVertex
  = fromBufferAttribute (position g) (r * (segs + 1) + seg).
Proof.
  intros Hseg. unfold getDisplacedRingVertices.
  set (f := fun s => fromBufferAttribute (position g) (r * (segs + 1) + s)).
  rewrite (nth_indep _ noVertex (f 0)) by (rewrite length_map, length_seq; lia).
  rewrite map_nth. rewrite seq_nth by lia. reflexivity.
Qed.

Lemma ringSum_bodySum coord (g : BufferGeometry num) r segs :
  ringSum coord (getDisplacedRingVertices g r segs) segs
  = bodySum coord (position g) r segs.
Proof.
  unfold ringSum, bodySum.
  assert (E : forall l acc, (forall i, In i l -> i <= segs) ->
            fold_left (fun a i => (a + coord (nth i (getDisplacedRingVertices g r segs)
                                                   noVertex))%js) l acc
            = fold_left (fun a i => (a + coord (fromBufferAttribute (position g)
                                                   (r * (segs + 1) + i)))%js) l acc).
  { induction l as [|i l IH]; intros acc Hl; [reflexivity|].
    cbn [fold_left]. rewrite nth_ring by (apply Hl; left; reflexivity).
    apply IH. intros j Hj. apply Hl. right. exact Hj. }
  apply E. intros i Hi. apply in_seq in Hi. lia.
Qed.

Lemma capGeometry_count ring segs ny tri :
  length (position (capGeometry ring segs ny tri)) = (segs + 2) * 3.
Proof.
  unfold capGeometry. cbn [position]. unfold Float32BufferAttribute.
  rewrite length_map, length_app.
  rewrite (flat_map_length_const _ (m := 3)) by reflexivity.
  rewrite length_seq. cbn. lia.
Qed.

(** The vertices of a cap: the centre, then the ring as read from the body. *)
Lemma capGeometry_vertices (g : BufferGeometry num) r segs ny tri :
  let cap := capGeometry (getDisplacedRingVertices g r segs) segs ny tri in
  fromBufferAttribute (position cap) 0 = roundV (ringCentroid (position g) r segs)
  /\ forall seg, seg <= segs ->
       fromBufferAttribute (position cap) (1 + seg)
       = roundV (fromBufferAttribute (position g) (r * (segs + 1) + seg)).
Proof.
  intros cap. pose proof (capGeometry_count (getDisplacedRingVertices g r segs)
                            segs ny tri) as Hlen. fold cap in Hlen.
  unfold cap, capGeometry in *. cbn [position] in *.
  set (ring := getDisplacedRingVertices g r segs) in *.
  set (chunk := fun seg => let v := nth seg ring noVertex in [vx v; vy v; vz v]).
  set (body := flat_map chunk (seq 0 (segs + 1))) in *.
  assert (Hbody : length (capCenter ring segs ++ body) = (segs + 2) * 3).
  { unfold Float32BufferAttribute in Hlen. rewrite length_map in Hlen. exact Hlen. }
  split.
  - unfold fromBufferAttribute, getX, getY, getZ.
    rewrite !nth_Float32 by (rewrite Hbody; lia).
    unfold capCenter, ringCentroid, roundV. cbn [app nth Nat.mul Nat.add vx vy vz].
    unfold ring. rewrite !ringSum_bodySum. reflexivity.
  - intros seg Hseg.
    assert (Hc : forall c, c < 3 ->
              nth ((1 + seg) * 3 + c) (capCenter ring segs ++ body) undef
              = nth c (chunk seg) undef).
    { intros c Hc. rewrite app_nth2 by (cbn; lia).
      replace ((1 + seg) * 3 + c - length (capCenter ring segs)) with (seg * 3 + c)
        by (cbn; lia).
      unfold body. rewrite (nth_flat_map_chunk chunk (m := 3)) by (auto; lia).
      reflexivity. }
    unfold fromBufferAttribute at 1. unfold getX, getY, getZ.
    rewrite !nth_Float32 by (rewrite Hbody; lia).
    pose proof (Hc 0 ltac:(lia)) as H0. rewrite Nat.add_0_r in H0.
    rewrite H0, (Hc 1), (Hc 2) by lia.
    unfold chunk. cbn [nth]. unfold ring. rewrite nth_ring by exact Hseg.
    reflexivity.
Qed.

Lemma createWeldedCapGeometries_vertices (g : BufferGeometry num) (params : LoftParams num) :
  0 < rings params ->
  (forall seg, seg <= segments params ->
     storedVertex (position g) seg
     /\ storedVertex (position g)
                     ((rings params - 1) * (segments params + 1) + seg)) ->
  let caps := createWeldedCapGeometries g params in
  let segs := segments params in
  let top := rings params - 1 in
  (forall seg, seg <= segs ->
     fromBufferAttribute (position (fst caps)) (1 + seg)
     = fromBufferAttribute (position g) seg)
  /\ (forall seg, seg <= segs ->
       fromBufferAttribute (position (snd caps)) (1 + seg)
       = fromBufferAttribute (position g) (top * (segs + 1) + seg))
  /\ fromBufferAttribute (position (fst caps)) 0
     = roundV (ringCentroid (position g) 0 segs)
  /\ fromBufferAttribute (position (snd caps)) 0
     = roundV (ringCentroid (position g) top segs)
  /\ count (position (fst caps)) = segs + 2
  /\ count (position (snd caps)) = segs + 2.
Proof.
  intros Hr Hs caps segs top.
  unfold caps, createWeldedCapGeometries, topRingVertices. cbn [fst snd].
  destruct (rings params) as [|r] eqn:Er; [lia|].
  assert (Et : top = r) by (unfold top; lia).
  rewrite Et. fold segs.
  destruct (capGeometry_vertices g 0 segs (ofZ (-1)) (fun seg => [0; seg + 2; seg + 1]))
    as [Hb0 Hb].
  destruct (capGeometry_vertices g r segs one (fun seg => [0; seg + 1; seg + 2]))
    as [Ht0 Ht].
  cbn zeta in *.
  repeat split.
  - intros seg Hseg. rewrite Hb by exact Hseg. cbn [Nat.mul Nat.add].
    apply (Hs seg Hseg).
  - intros seg Hseg. rewrite Ht by exact Hseg.
    destruct (Hs seg Hseg) as [_ Hst].
    replace (S r - 1) with r in Hst by lia. exact Hst.
  - exact Hb0.
  - exact Ht0.
  - unfold count. rewrite capGeometry_count. apply Nat.div_mul. lia.
  - unfold count. rewrite capGeometry_count. apply Nat.div_mul. lia.
Qed.

(** The caps of the rebuild are those welded to the body it returns. *)
Lemma updateLoftGeometry_caps anchors (params : LoftParams num) tex body caps :
  updateLoftGeometry anchors params tex = Some (body, caps) ->
  caps = createWeldedCapGeometries body params.
Proof.
  unfold updateLoftGeometry. destruct (createLoftGeometry anchors params); [|discriminate].
  intros E. injection E as <- <-. reflexivity.
Qed.
End Generic.

Section Mean.
Import RealArith Spec.
Local Open Scope R_scope.
#[local] Existing Instance RNumber.

Lemma fold_left_sum (f : nat -> R) l a :
  fold_left (fun acc i => acc + f i) l a = a + fold_right Rplus 0 (map f l).
Proof.
  revert a. induction l as [|i l IH]; intros a; cbn; [lra|].
  rewrite IH. lra.
Qed.

Lemma bodySum_mean coord (a : list R) r segs :
  bodySum coord a r segs / ofNat segs = meanOf (ringCoords coord a r segs).
Proof.
  unfold bodySum, meanOf, ringCoords, ofNat, zero.
  cbn [num_add num_div RNumber ofZ].
  rewrite (fold_left_sum (fun i => coord (fromBufferAttribute a (r * (segs + 1) + i)))).
  rewrite length_map, length_seq, INR_IZR_INZ. f_equal. lra.
Qed.

Lemma ringCentroid_mean (a : list R) r segs :
  ringCentroid a r segs
  = vec3 (meanOf (ringCoords vx a r segs)) (meanOf (ringCoords vy a r segs))
         (meanOf (ringCoords vz a r segs)).
Proof.
  unfold ringCentroid. rewrite <- !bodySum_mean. reflexivity.
Qed.
End Mean.

(** C2: the caps are welded to the body.  In any arithmetic, for a body whose
    first and last rings hold Float32 values, every boundary vertex of the
    bottom (top) cap equals the vertex of body ring 0 (ring [rings - 1]) it was
    read from; the caps are arrays of their own, of [segments + 2] vertices;
    the first vertex of each cap is the centroid of its ring, the sum over the
    first [segments] vertices divided by [segments] (as stored).  In exact
    arithmetic that centroid is the arithmetic mean of the ring, the seam
    duplicate left out. *)
Theorem createWeldedCapGeometries_weld :
  (forall (num : Type) (N : Number num) (g : BufferGeometry num)
          (params : LoftParams num),
     0 < rings params ->
     (forall seg, seg <= segments params ->
        storedVertex (position g) seg
        /\ storedVertex (position g)
                        ((rings params - 1) * (segments params + 1) + seg)) ->
     let caps := createWeldedCapGeometries g params in
     let segs := segments params in
     let top := rings params - 1 in
     (forall seg, seg <= segs ->
        fromBufferAttribute (position (fst caps)) (1 + seg)
        = fromBufferAttribute (position g) seg)
     /\ (forall seg, seg <= segs ->
          fromBufferAttribute (position (snd caps)) (1 + seg)
          = fromBufferAttribute (position g) (top * (segs + 1) + seg))
     /\ fromBufferAttribute (position (fst caps)) 0
        = roundV (ringCentroid (position g) 0 segs)
     /\ fromBufferAttribute (position (snd caps)) 0
        = roundV (ringCentroid (position g) top segs)
     /\ count (position (fst caps)) = segs + 2
     /\ count (position (snd caps)) = segs + 2)
  /\ (forall (a : list R) r segs,
        @ringCentroid R RealArith.RNumber a r segs
        = vec3 (Spec.meanOf (Spec.ringCoords vx a r segs))
               (Spec.meanOf (Spec.ringCoords vy a r segs))
               (Spec.meanOf (Spec.ringCoords vz a r segs))).
Proof.
  split.
  - intros num N g params. apply createWeldedCapGeometries_vertices.
  - apply ringCentroid_mean.
Qed.

Lemma createWeldedCapGeometries_weld_witness :
  let caps := @createWeldedCapGeometries R RealArith.RNumber
                Spec.squareRing Spec.squareParams in
  @fromBufferAttribute R RealArith.RNumber (position (fst caps)) 1
    = vec3 (1 / 2)%R 5%R 0%R
  /\ @fromBufferAttribute R RealArith.RNumber (position (snd caps)) 5
     = vec3 (1 / 2)%R 5%R 0%R
  /\ @fromBufferAttribute R RealArith.RNumber (position (snd caps)) 0
     = vec3 0%R 5%R 0%R.
Proof.
  intros caps.
  destruct (proj1 createWeldedCapGeometries_weld R RealArith.RNumber
              Spec.squareRing Spec.squareParams) as (Hb & Ht & Hb0 & Ht0 & _).
  - cbn. lia.
  - intros seg Hseg. split; reflexivity.
  - fold caps in Hb, Ht, Hb0, Ht0. split; [|split].
    + pose proof (Hb 0%nat ltac:(cbn; lia)) as E. cbn [Nat.add] in E.
      rewrite E. reflexivity.
    + pose proof (Ht 4%nat ltac:(cbn; lia)) as E. cbn [Nat.add] in E.
      rewrite E. reflexivity.
    + rewrite Ht0. unfold roundV, ringCentroid, bodySum, ofNat, zero.
      cbn. f_equal; lra.
Defined.
End Caps.

(** ** Lathe grid synthesis *)

Module Lathe.
Section Generic.
Context {num : Type} `{Number num}.

Lemma mapM_Some {A B : Type} (f : A -> option B) (l : list A) (ys : list B) :
  mapM f l = Some ys ->
  length ys = length l
  /\ forall i a b, i < length l -> f (nth i l a) = Some (nth i ys b).
Proof.
  revert ys. induction l as [|x l IH]; intros ys E; cbn in E.
  - injection E as <-. split; [reflexivity|]. cbn. intros; lia.
  - destruct (f x) as [y|] eqn:Ex; [|discriminate].
    destruct (mapM f l) as [ys'|]; [|discriminate].
    injection E as <-. destruct (IH ys' eq_refl) as [Hl Hn].
    split; [cbn; rewrite Hl; reflexivity|].
    intros [|i] a b Hi; cbn in *; [exact Ex | apply Hn; lia].
Qed.

Lemma perVertex_length (params : LoftParams num) (f : nat -> nat -> list num) :
  (forall r s, length (f r s) = 3) ->
  length (perVertex params f) = rings params * ((segments params + 1) * 3).
Proof.
  intros Hf. unfold perVertex.
  rewrite (flat_map_length_const _ (m := (segments params + 1) * 3)).
  - rewrite length_seq. reflexivity.
  - intros r. rewrite (flat_map_length_const _ (m := 3)) by (intros; apply Hf).
    rewrite length_seq. reflexivity.
Qed.

(** The vertex pushed for ring [r] and segment [s] sits at index
    [r * (segments + 1) + s]. *)
Lemma perVertex_get (params : LoftParams num) (f : nat -> nat -> list num) r s :
  (forall r s, length (f r s) = 3) ->
  r < rings params -> s <= segments params ->
  fromBufferAttribute (Float32BufferAttribute (perVertex params f))
                      (r * (segments params + 1) + s)
  = roundV (vec3 (nth 0 (f r s) undef) (nth 1 (f r s) undef) (nth 2 (f r s) undef)).
Proof.
  intros Hf Hr Hs.
  assert (Hc : forall c, c < 3 ->
            nth ((r * (segments params + 1) + s) * 3 + c) (perVertex params f) undef
            = nth c (f r s) undef).
  { intros c Hc. unfold perVertex.
    replace ((r * (segments params + 1) + s) * 3 + c)
      with (r * ((segments params + 1) * 3) + (s * 3 + c)) by lia.
    rewrite (nth_flat_map_chunk _ (m := (segments params + 1) * 3)); try lia.
    - cbn [Nat.add]. rewrite (nth_flat_map_chunk (f r) (m := 3)); auto; lia.
    - intros i. rewrite (flat_map_length_const _ (m := 3)) by (intros; apply Hf).
      rewrite length_seq. reflexivity. }
  pose proof (perVertex_length params f Hf) as Hlen.
  unfold fromBufferAttribute, getX, getY, getZ, roundV. cbn [vx vy vz].
  assert (Hin : (r * (segments params + 1) + s) * 3 + 2 < length (perVertex params f))
    by (rewrite Hlen; nia).
  unfold Float32BufferAttribute.
  rewrite !(nth_indep (map fround _) undef (fround undef))
    by (rewrite length_map; lia).
  rewrite !map_nth.
  pose proof (Hc 0 ltac:(lia)) as H0. rewrite Nat.add_0_r in H0.
  rewrite H0, (Hc 1), (Hc 2) by lia. reflexivity.
Qed.

Lemma createLoftGeometry_grid anchors (params : LoftParams num) g :
  createLoftGeometry anchors params = Some g ->
  exists radii,
    ringRadii anchors params = Some radii
    /\ length radii = rings params
    /\ (forall r, r < rings params ->
          exists base,
            getRadiusAtHeight anchors params
              (ofNat r * (height params / ofZ (Z.of_nat (rings params) - 1)))%js
              = Some base
            /\ nth r radii undef
               = Math_max (lit 1 10) (base * ringTaper params r)%js)
    /\ (forall r s, r < rings params -> s <= segments params ->
          fromBufferAttribute (position g) (r * (segments params + 1) + s)
          = roundV (vec3 (nth r radii undef * Math_cos (theta params r s))%js
                         (ofNat r * (height params / ofZ (Z.of_nat (rings params) - 1)))%js
                         (nth r radii undef * Math_sin (theta params r s))%js))
    /\ length (position g) = rings params * (segments params + 1) * 3.
Proof.
  unfold createLoftGeometry. intros E.
  destruct (ringRadii anchors params) as [radii|] eqn:Er; [|discriminate].
  injection E as <-. exists radii. split; [reflexivity|].
  destruct (mapM_Some _ _ Er) as [Hl Hn]. rewrite length_seq in Hl, Hn.
  split; [exact Hl|]. split; [|split].
  - intros r Hr. specialize (Hn r 0 undef Hr). rewrite seq_nth in Hn by exact Hr.
    cbn [Nat.add] in Hn. unfold ringRadius in Hn.
    destruct (getRadiusAtHeight anchors params (ringHeight params r)) as [base|] eqn:Eb;
      [|discriminate].
    exists base. split; [exact Eb|]. cbn in Hn. injection Hn as Hn. symmetry. exact Hn.
  - intros r s Hr Hs. cbn [position].
    rewrite perVertex_get by (auto; lia). reflexivity.
  - cbn [position]. unfold Float32BufferAttribute. rewrite length_map.
    rewrite perVertex_length by reflexivity. lia.
Qed.
End Generic.

Section Reals.
Import RealArith RealFacts Spec.
Local Open Scope R_scope.
#[local] Existing Instance RNumber.

Lemma ringTaper_linear (params : LoftParams R) r :
  ringTaper params r
  = 1 + (taper params - 1) * (IZR (Z.of_nat r) / (IZR (Z.of_nat (rings params)) - 1)).
Proof.
  unfold ringTaper, ringsMinus1, ofNat, one. cbn [num_sub num_mul num_div RNumber ofZ].
  rewrite minus_IZR. lra.
Qed.

Lemma ringTaper_ends (params : LoftParams R) :
  (2 <= rings params)%nat ->
  ringTaper params 0 = 1 /\ ringTaper params (rings params - 1) = taper params.
Proof.
  intros Hr. rewrite !ringTaper_linear. split.
  - cbn [Z.of_nat]. lra.
  - rewrite Nat2Z.inj_sub by lia. cbn [Z.of_nat]. rewrite minus_IZR.
    assert (Hn : 2 <= IZR (Z.of_nat (rings params))).
    { apply (IZR_le 2). lia. }
    field. lra.
Qed.

Lemma theta_formula (params : LoftParams R) r s :
  theta params r s
  = IZR (Z.of_nat s) / IZR (Z.of_nat (segments params)) * (2 * PI)
    + IZR (Z.of_nat r)
      * (twist params * PI / 180 / (IZR (Z.of_nat (rings params)) - 1)).
Proof.
  unfold theta, twistStep, ringsMinus1, ofNat, two.
  cbn [num_add num_mul num_div Math_PI RNumber ofZ]. rewrite minus_IZR. lra.
Qed.

Lemma CubicBezier_constant t c : CubicBezier t c c c c = c.
Proof.
  unfold CubicBezier, one, three. cbn [num_add num_sub num_mul RNumber ofZ]. ring.
Qed.

Lemma bisect_constant (curve : CubicBezierCurve3 R) c h iters tMin tMax t :
  (forall u, vx (getPoint curve u) = c) ->
  bisect curve h iters tMin tMax t = Rmax (1 / 10) c.
Proof.
  intros Hc. revert tMin tMax t.
  induction iters as [|n IH]; intros tMin tMax t; cbn [bisect].
  - rewrite Hc. reflexivity.
  - destruct (_ <? _)%js; [rewrite Hc; reflexivity | apply IH].
Qed.

(** On the profile of scenario A the evaluator answers 2 at every height. *)
Lemma scenarioA_profile h :
  getRadiusAtHeight scenarioA_anchors scenarioA h = Some 2.
Proof.
  assert (Hmax : Rmax (1 / 10) 2 = 2) by (apply Rmax_right; lra).
  unfold getRadiusAtHeight, zero. cbn [num_leb RNumber ofZ].
  destruct (Rle_dec h 0) as [H0|H0].
  { rewrite Rleb_true by exact H0. cbn. rewrite Hmax. reflexivity. }
  rewrite Rleb_false by lra.
  change (height scenarioA) with 5.
  destruct (Rle_dec 5 h) as [H5|H5].
  { rewrite Rleb_true by exact H5. cbn. rewrite Hmax. reflexivity. }
  rewrite Rleb_false by lra.
  unfold scenarioA_anchors. cbn [findSegment].
  change (vy (a_position (cornerAnchor 2 0))) with 0.
  change (vy (a_position (cornerAnchor 2 5))) with 5.
  cbn [num_leb RNumber]. rewrite !Rleb_true by lra. cbn [andb].
  rewrite (bisect_constant (c := 2)); [rewrite Hmax; reflexivity|].
  intros u. unfold getPoint, segmentCurve, cornerAnchor, v_add.
  cbn [vx v0 v1 v2 v3 a_position handleOut handleIn num_add RNumber].
  replace (2 + 0) with 2 by lra. apply CubicBezier_constant.
Qed.

Lemma scenarioA_ringRadius r : ringRadius scenarioA_anchors scenarioA r = Some 2.
Proof.
  unfold ringRadius. rewrite scenarioA_profile. cbn [option_map]. f_equal.
  rewrite ringTaper_linear. change (taper scenarioA) with 1.
  unfold minRadius, lit. cbn [num_mul num_div Math_max RNumber ofZ].
  replace (2 * (1 + (1 - 1) * _)) with 2 by lra.
  apply Rmax_right. lra.
Qed.

Lemma mapM_const {A B : Type} (f : A -> option B) c l :
  (forall x, f x = Some c) -> mapM f l = Some (repeat c (length l)).
Proof.
  intros Hf. induction l as [|x l IH]; [reflexivity|].
  cbn. rewrite Hf, IH. reflexivity.
Qed.

Lemma scenarioA_ringRadii :
  ringRadii scenarioA_anchors scenarioA = Some (repeat 2 10).
Proof.
  unfold ringRadii. rewrite (mapM_const _ (c := 2)) by apply scenarioA_ringRadius.
  reflexivity.
Qed.
End Reals.

(** C6: the lathe grid.  In any arithmetic, a grid that [createLoftGeometry]
    returns has one radius per ring, [max(0.1, radiusAtHeight(y) * taper(r))]
    at the ring height [y = r * (height / (rings - 1))], and its vertex
    [(r, s)], for [r < rings] and [s <= segments], is
    [(radius cos t, y, radius sin t)] at the angle [t = theta r s] (as stored).
    In exact arithmetic the taper factor is linear in [r], 1 on ring 0 and the
    configured taper on the last ring, and the angle is
    [(s / segments) 2 pi] plus [r] times the twist step.  In scenario A every
    ring radius is 2, in exact arithmetic and in binary64. *)
Theorem createLoftGeometry_lathe :
  (forall (num : Type) (N : Number num) anchors (params : LoftParams num) g,
     createLoftGeometry anchors params = Some g ->
     exists radii,
       ringRadii anchors params = Some radii
       /\ length radii = rings params
       /\ (forall r, r < rings params ->
             exists base,
               getRadiusAtHeight anchors params
                 (ofNat r * (height params / ofZ (Z.of_nat (rings params) - 1)))%js
                 = Some base
               /\ nth r radii undef
                  = Math_max (lit 1 10) (base * ringTaper params r)%js)
       /\ (forall r s, r < rings params -> s <= segments params ->
             fromBufferAttribute (position g) (r * (segments params + 1) + s)
             = roundV (vec3 (nth r radii undef * Math_cos (theta params r s))%js
                            (ofNat r
                             * (height params / ofZ (Z.of_nat (rings params) - 1)))%js
                            (nth r radii undef * Math_sin (theta params r s))%js))
       /\ length (position g) = rings params * (segments params + 1) * 3)
  /\ (forall params : LoftParams R,
        2 <= rings params ->
        @ringTaper R RealArith.RNumber params 0 = 1%R
        /\ @ringTaper R RealArith.RNumber params (rings params - 1) = taper params
        /\ (forall r,
              @ringTaper R RealArith.RNumber params r
              = (1 + (taper params - 1)
                     * (IZR (Z.of_nat r) / (IZR (Z.of_nat (rings params)) - 1)))%R)
        /\ (forall r s,
              @theta R RealArith.RNumber params r s
              = (IZR (Z.of_nat s) / IZR (Z.of_nat (segments params)) * (2 * PI)
                 + IZR (Z.of_nat r)
                   * (twist params * PI / 180
                      / (IZR (Z.of_nat (rings params)) - 1)))%R))
  /\ @ringRadii R RealArith.RNumber Spec.scenarioA_anchors Spec.scenarioA
     = Some (repeat 2%R 10)
  /\ (forall fcos fsin fatan2 fpow,
        let N := FloatArith.FloatNumber fcos fsin fatan2 fpow in
        ringRadii FloatInputs.scenarioA_anchors64 (withGrid loftParams 10 16)
        = Some (repeat 2%float 10)).
Proof.
  split; [|split; [|split]].
  - intros num N anchors params g. apply createLoftGeometry_grid.
  - intros params Hr. destruct (ringTaper_ends params Hr) as [H0 H1].
    split; [exact H0|]. split; [exact H1|]. split.
    + apply ringTaper_linear.
    + apply theta_formula.
  - exact scenarioA_ringRadii.
  - intros fcos fsin fatan2 fpow N. vm_compute. reflexivity.
Qed.

Lemma createLoftGeometry_lathe_witness :
  exists g,
    @createLoftGeometry R RealArith.RNumber Spec.scenarioA_anchors Spec.scenarioA = Some g
    /\ @fromBufferAttribute R RealArith.RNumber (position g) 0 = vec3 2%R 0%R 0%R
    /\ length (position g) = 510.
Proof.
  destruct (@createLoftGeometry R RealArith.RNumber Spec.scenarioA_anchors
              Spec.scenarioA) as [g|] eqn:Eg.
  - exists g. split; [reflexivity|].
    destruct (proj1 createLoftGeometry_lathe R RealArith.RNumber _ _ g Eg)
      as (radii & Er & _ & _ & Hv & Hl).
    rewrite scenarioA_ringRadii in Er. injection Er as <-.
    split; [|exact Hl].
    pose proof (Hv 0 0 ltac:(cbn; lia) ltac:(cbn; lia)) as E.
    cbn [Nat.mul Nat.add] in E. rewrite E.
    rewrite theta_formula. unfold roundV, ofNat.
    cbn [vx vy vz fround num_mul num_div Math_cos Math_sin RealArith.RNumber ofZ
         Z.of_nat nth repeat].
    replace (0 / IZR (Z.of_nat (segments Spec.scenarioA)) * (2 * PI)
             + 0 * (twist Spec.scenarioA * PI / 180
                    / (IZR (Z.of_nat (rings Spec.scenarioA)) - 1)))%R with 0%R
      by (unfold Rdiv; ring).
    rewrite cos_0, sin_0. f_equal; lra.
  - exfalso. unfold createLoftGeometry in Eg. rewrite scenarioA_ringRadii in Eg.
    discriminate Eg.
Defined.
End Lathe.

(** ** Displacement and smoothing *)

Module Displacement.
Section Generic.
Context {num : Type} `{Number num}.

Lemma roundV_idem (v : Vector3 num) :
  froundIdempotent -> roundV (roundV v) = roundV v.
Proof. intros Hi. unfold roundV. cbn [vx vy vz]. rewrite !Hi. reflexivity. Qed.

Lemma numRings_bound segs (a : list num) r :
  r < numRingsOf segs a -> r * (segs + 1) + segs < count a.
Proof.
  unfold numRingsOf. intros Hr.
  pose proof (Nat.div_mod_eq (count a) (segs + 1)) as E.
  assert (Hle : (segs + 1) * (count a / (segs + 1)) <= count a) by lia.
  nia.
Qed.

(** *** The seam-closing loop *)

Lemma matchSeam_count segs n (a : list num) : count (matchSeam segs n a) = count a.
Proof.
  unfold matchSeam. generalize (seq 0 n) as l. intros l. revert a.
  induction l as [|r l IH]; intros a; [reflexivity|].
  cbn [fold_left]. rewrite IH. apply count_setXYZ.
Qed.

Lemma matchSeam_S segs n (a : list num) :
  matchSeam segs (S n) a
  = setV (matchSeam segs n a) (n * (segs + 1) + segs)
         (fromBufferAttribute (matchSeam segs n a) (n * (segs + 1))).
Proof.
  unfold matchSeam. rewrite seq_S, fold_left_app. reflexivity.
Qed.

(** After the loop a last-column vertex holds (the rounding of) the first
    vertex of its ring, and every other vertex is as before. *)
Lemma matchSeam_vertex segs n (a : list num) j :
  n * (segs + 1) <= count a ->
  fromBufferAttribute (matchSeam segs n a) j
  = if (j mod (segs + 1) =? segs) && (j / (segs + 1) <? n)
    then roundV (fromBufferAttribute a (j / (segs + 1) * (segs + 1)))
    else fromBufferAttribute a j.
Proof.
  revert j. induction n as [|n IH]; intros j Hn.
  - rewrite andb_false_r. reflexivity.
  - rewrite matchSeam_S.
    assert (Hfirst : fromBufferAttribute (matchSeam segs n a) (n * (segs + 1))
                     = fromBufferAttribute a (n * (segs + 1))).
    { rewrite IH by lia. rewrite Nat.div_mul by lia.
      rewrite (proj2 (Nat.ltb_ge n n)) by lia. rewrite andb_false_r. reflexivity. }
    rewrite Hfirst.
    assert (Hdiv : (n * (segs + 1) + segs) / (segs + 1) = n).
    { rewrite Nat.div_add_l by lia. rewrite Nat.div_small by lia. lia. }
    assert (Hmod : (n * (segs + 1) + segs) mod (segs + 1) = segs).
    { rewrite Nat.add_comm, Nat.Div0.mod_add. apply Nat.mod_small. lia. }
    destruct (Nat.eq_dec j (n * (segs + 1) + segs)) as [->|Hj].
    + unfold setV. rewrite get_setXYZ_same by (rewrite matchSeam_count; lia).
      rewrite Hmod, Hdiv, Nat.eqb_refl.
      rewrite (proj2 (Nat.ltb_lt n (S n))) by lia. reflexivity.
    + unfold setV. rewrite get_setXYZ_other by lia. rewrite IH by lia.
      destruct (Nat.eqb_spec (j mod (segs + 1)) segs) as [Em|Em]; [|reflexivity].
      cbn [andb].
      destruct (Nat.ltb_spec (j / (segs + 1)) n) as [L|L];
        destruct (Nat.ltb_spec (j / (segs + 1)) (S n)) as [L'|L'];
        try reflexivity; try lia.
      exfalso. apply Hj.
      pose proof (Nat.div_mod_eq j (segs + 1)) as E.
      assert (j / (segs + 1) = n) by lia. nia.
Qed.

Lemma matchSeam_closes segs n (a : list num) :
  n * (segs + 1) <= count a -> storedAll a ->
  seamsClosed segs n (matchSeam segs n a).
Proof.
  intros Hn Hst r Hr. unfold seamClosed.
  assert (Hdiv : (r * (segs + 1) + segs) / (segs + 1) = r).
  { rewrite Nat.div_add_l by lia. rewrite Nat.div_small by lia. lia. }
  assert (Hmod : (r * (segs + 1) + segs) mod (segs + 1) = segs).
  { rewrite Nat.add_comm, Nat.Div0.mod_add. apply Nat.mod_small. lia. }
  rewrite !matchSeam_vertex by exact Hn.
  rewrite Hmod, Hdiv, Nat.eqb_refl, (proj2 (Nat.ltb_lt r n)) by lia. cbn [andb].
  rewrite Nat.div_mul by lia. rewrite Nat.Div0.mod_mul.
  rewrite (proj2 (Nat.ltb_lt r n)) by lia.
  assert (Hs : roundV (fromBufferAttribute a (r * (segs + 1)))
               = fromBufferAttribute a (r * (segs + 1))).
  { apply Hst. nia. }
  destruct (Nat.eqb_spec 0 segs); cbn [andb]; rewrite ?Hs; reflexivity.
Qed.

Lemma matchSeam_stored segs n (a : list num) :
  froundIdempotent -> n * (segs + 1) <= count a -> storedAll a ->
  storedAll (matchSeam segs n a).
Proof.
  intros Hi Hn Hst j Hj. rewrite matchSeam_count in Hj. unfold storedVertex.
  rewrite matchSeam_vertex by exact Hn.
  destruct (_ && _); [apply roundV_idem; exact Hi | apply Hst; exact Hj].
Qed.

(** *** One smoothing pass *)

Lemma accumulate_ext (p : list num) s i j w :
  fromBufferAttribute p i = fromBufferAttribute p j ->
  accumulate p s i w = accumulate p s j w.
Proof.
  intros E. unfold accumulate.
  change (getX p i) with (vx (fromBufferAttribute p i)).
  change (getY p i) with (vy (fromBufferAttribute p i)).
  change (getZ p i) with (vz (fromBufferAttribute p i)).
  rewrite E. reflexivity.
Qed.

Lemma verticalStep_seam (p : list num) segs n ring s off :
  seamsClosed segs n p ->
  verticalStep p segs n ring segs s off = verticalStep p segs n ring 0 s off.
Proof.
  intros Hc. unfold verticalStep.
  destruct ((0 <=? Z.of_nat ring + off)%Z && (Z.of_nat ring + off <? Z.of_nat n)%Z)
    eqn:Er; [|reflexivity].
  apply andb_prop in Er. destruct Er as [E1 E2].
  apply Z.leb_le in E1. apply Z.ltb_lt in E2.
  apply accumulate_ext. rewrite Nat.add_0_r. apply Hc. lia.
Qed.

Lemma horizontalStep_seam (p : list num) segs ring s off :
  (off = -1 \/ off = 1)%Z ->
  horizontalStep p segs ring segs s off = horizontalStep p segs ring 0 s off.
Proof.
  intros Ho. unfold horizontalStep. f_equal. f_equal. f_equal.
  destruct Ho as [-> | ->].
  - destruct (Z.ltb_spec (Z.of_nat segs + -1) 0); cbn [Z.of_nat Z.add Z.ltb Z.compare];
      [reflexivity|].
    destruct (Z.ltb_spec (Z.of_nat segs) (Z.of_nat segs + -1)); [lia|].
    destruct (Z.ltb_spec (Z.of_nat segs) (Z.of_nat segs - 1)); lia.
  - destruct (Z.ltb_spec (Z.of_nat segs + 1) 0); [lia|].
    destruct (Z.ltb_spec (Z.of_nat segs) (Z.of_nat segs + 1)); [|lia].
    cbn [Z.of_nat Z.add Z.ltb Z.compare].
    destruct (Z.ltb_spec (Z.of_nat segs) 1); reflexivity.
Qed.

(** On a grid whose seams are closed, the smoothed value of the last vertex
    of a ring is that of its first vertex: same position, same neighbours,
    same order of accumulation. *)
Lemma smoothedVertex_seam (p : list num) segs n r :
  seamsClosed segs n p -> r < n ->
  smoothedVertex p segs n (r, segs) = smoothedVertex p segs n (r, 0).
Proof.
  intros Hc Hr. unfold smoothedVertex. cbn [fst snd].
  assert (E : fromBufferAttribute p (cellIndex segs (r, segs))
              = fromBufferAttribute p (cellIndex segs (r, 0))).
  { unfold cellIndex. cbn [fst snd]. rewrite Nat.add_0_r. apply Hc. exact Hr. }
  change (getX p (cellIndex segs (r, segs)))
    with (vx (fromBufferAttribute p (cellIndex segs (r, segs)))).
  change (getY p (cellIndex segs (r, segs)))
    with (vy (fromBufferAttribute p (cellIndex segs (r, segs)))).
  change (getZ p (cellIndex segs (r, segs)))
    with (vz (fromBufferAttribute p (cellIndex segs (r, segs)))).
  rewrite E.
  destruct ((r =? 0) || (r =? n - 1)); [reflexivity|].
  cbn [fold_left].
  rewrite !(verticalStep_seam _ _ _ Hc).
  rewrite !horizontalStep_seam by (auto; lia).
  reflexivity.
Qed.

(** A loop of writes at pairwise distinct vertices. *)
Lemma fold_writes_count {C : Type} (key : C -> nat) (val : C -> Vector3 num) l
      (a : list num) :
  count (fold_left (fun sm c => setV sm (key c) (val c)) l a) = count a.
Proof.
  revert a. induction l as [|c l IH]; intros a; [reflexivity|].
  cbn [fold_left]. rewrite IH. apply count_setXYZ.
Qed.

Lemma fold_writes_other {C : Type} (key : C -> nat) (val : C -> Vector3 num) l
      (a : list num) j :
  ~ In j (map key l) ->
  fromBufferAttribute (fold_left (fun sm c => setV sm (key c) (val c)) l a) j
  = fromBufferAttribute a j.
Proof.
  revert a. induction l as [|c l IH]; intros a Hj; [reflexivity|].
  cbn [fold_left]. rewrite IH by (intros Hin; apply Hj; right; exact Hin).
  unfold setV. apply get_setXYZ_other. intros E. apply Hj. left. exact E.
Qed.

Lemma fold_writes_get {C : Type} (key : C -> nat) (val : C -> Vector3 num) l
      (a : list num) x :
  NoDup (map key l) -> In x l -> key x < count a ->
  fromBufferAttribute (fold_left (fun sm c => setV sm (key c) (val c)) l a) (key x)
  = roundV (val x).
Proof.
  revert a. induction l as [|c l IH]; intros a Hnd Hin Hk; [destruct Hin|].
  cbn [map] in Hnd. inversion Hnd as [|k ks Hnotin Hnd']; subst.
  cbn [fold_left]. destruct Hin as [->|Hin].
  - rewrite fold_writes_other by exact Hnotin.
    unfold setV. apply get_setXYZ_same. exact Hk.
  - apply IH; [exact Hnd' | exact Hin |]. unfold setV. rewrite count_setXYZ. exact Hk.
Qed.

Lemma map_add_seq k s m : map (Nat.add k) (seq s m) = seq (k + s) m.
Proof.
  revert s. induction m as [|m IH]; intros s; [reflexivity|].
  cbn [seq map]. rewrite IH. f_equal. f_equal. lia.
Qed.

(** The nest visits the vertices [0 .. n * (segs + 1) - 1], each once. *)
Lemma gridCells_indices segs n :
  map (cellIndex segs) (gridCells segs n) = seq 0 (n * (segs + 1)).
Proof.
  unfold gridCells. induction n as [|n IH]; [reflexivity|].
  rewrite seq_S, flat_map_app, map_app, IH. cbn [flat_map Nat.add].
  rewrite app_nil_r, map_map. unfold cellIndex. cbn [fst snd].
  change (fun x : nat => n * (segs + 1) + x) with (Nat.add (n * (segs + 1))).
  rewrite (map_add_seq (n * (segs + 1)) 0 (segs + 1)).
  replace (S n * (segs + 1)) with (n * (segs + 1) + (segs + 1)) by lia.
  rewrite (seq_app (n * (segs + 1)) (segs + 1) 0). f_equal. f_equal. lia.
Qed.

Lemma gridCells_In segs n r s :
  r < n -> s <= segs -> In (r, s) (gridCells segs n).
Proof.
  intros Hr Hs. unfold gridCells. apply in_flat_map. exists r. split.
  - apply in_seq. lia.
  - apply in_map. apply in_seq. lia.
Qed.

Lemma count_repeat_zero (p : list num) : count (repeat zero (length p)) = count p.
Proof. unfold count. rewrite repeat_length. reflexivity. Qed.

Lemma smoothedPositions_cell (p : list num) segs n r s :
  r < n -> s <= segs -> cellIndex segs (r, s) < count p ->
  fromBufferAttribute (smoothedPositions p segs n) (cellIndex segs (r, s))
  = roundV (smoothedVertex p segs n (r, s)).
Proof.
  intros Hr Hs Hc. unfold smoothedPositions.
  apply (fold_writes_get (cellIndex segs) (smoothedVertex p segs n)).
  - rewrite gridCells_indices. apply seq_NoDup.
  - apply gridCells_In; assumption.
  - rewrite count_repeat_zero. exact Hc.
Qed.

Lemma copyBack_fold (sm p : list num) :
  copyBack sm p
  = fold_left (fun pos i =>
                 setV pos i ((fun i (_ : Vector3 num) => fromBufferAttribute sm i)
                               i (fromBufferAttribute pos i)))
              (seq 0 (count p)) p.
Proof. reflexivity. Qed.

Lemma smoothPass_vertex segs n (p : list num) j :
  j < count p ->
  fromBufferAttribute (smoothPass segs n p) j
  = roundV (fromBufferAttribute (smoothedPositions p segs n) j).
Proof.
  intros Hj. unfold smoothPass. rewrite copyBack_fold.
  rewrite (fold_setV_pointwise
             (fun i (_ : Vector3 num) =>
                fromBufferAttribute (smoothedPositions p segs n) i)) by lia.
  rewrite (proj2 (Nat.ltb_lt _ _) Hj). reflexivity.
Qed.

Lemma smoothPass_count segs n (p : list num) : count (smoothPass segs n p) = count p.
Proof.
  unfold smoothPass. rewrite copyBack_fold.
  apply (fold_setV_count
           (fun i (_ : Vector3 num) =>
              fromBufferAttribute (smoothedPositions p segs n) i)).
Qed.

Lemma smoothPass_stored segs n (p : list num) :
  froundIdempotent -> storedAll (smoothPass segs n p).
Proof.
  intros Hi j Hj. rewrite smoothPass_count in Hj. unfold storedVertex.
  rewrite smoothPass_vertex by exact Hj. apply roundV_idem. exact Hi.
Qed.

(** A pass keeps closed seams closed. *)
Lemma smoothPass_seams segs n (p : list num) :
  n * (segs + 1) <= count p ->
  seamsClosed segs n p -> seamsClosed segs n (smoothPass segs n p).
Proof.
  intros Hn Hc r Hr. unfold seamClosed.
  assert (Hlast : r * (segs + 1) + segs < count p) by nia.
  assert (Hfirst : r * (segs + 1) < count p) by nia.
  rewrite !smoothPass_vertex by assumption.
  change (r * (segs + 1) + segs) with (cellIndex segs (r, segs)).
  replace (r * (segs + 1)) with (cellIndex segs (r, 0))
    by (unfold cellIndex; cbn [fst snd]; lia).
  rewrite !smoothedPositions_cell; try lia.
  - rewrite (smoothedVertex_seam Hc Hr). reflexivity.
  - unfold cellIndex. cbn [fst snd]. lia.
  - exact Hlast.
Qed.

Lemma iter_smoothPass segs n (p : list num) k :
  froundIdempotent -> n * (segs + 1) <= count p ->
  seamsClosed segs n p -> storedAll p ->
  count (Nat.iter k (smoothPass segs n) p) = count p
  /\ seamsClosed segs n (Nat.iter k (smoothPass segs n) p)
  /\ storedAll (Nat.iter k (smoothPass segs n) p).
Proof.
  intros Hi Hn Hc Hst. induction k as [|k IH].
  - cbn. split; [reflexivity|]. split; assumption.
  - rewrite !Nat.iter_succ. destruct IH as (Hq & Hcq & Hsq).
    split; [|split].
    + rewrite smoothPass_count. exact Hq.
    + apply smoothPass_seams; [rewrite Hq; exact Hn | exact Hcq].
    + apply smoothPass_stored. exact Hi.
Qed.

(** *** The displacement loops *)

Lemma displaceStep_fold img (params : LoftParams num) scale bias normals uvs seam fnm n
      (p : list num) m :
  fold_left (displaceStep img params scale bias normals uvs seam fnm n) (seq 0 m) p
  = fold_left (fun pos i =>
                 setV pos i ((fun i v => displacedVertex img params scale bias normals
                                           uvs seam fnm n v i)
                               i (fromBufferAttribute pos i)))
              (seq 0 m) p.
Proof. reflexivity. Qed.

Lemma displaceLoop_vertex img (params : LoftParams num) scale bias normals uvs seam fnm n
      (p : list num) j :
  j < count p ->
  fromBufferAttribute
    (fold_left (displaceStep img params scale bias normals uvs seam fnm n)
               (seq 0 (count p)) p) j
  = roundV (displacedVertex img params scale bias normals uvs seam fnm n
                            (fromBufferAttribute p j) j).
Proof.
  intros Hj. rewrite displaceStep_fold.
  rewrite (fold_setV_pointwise
             (fun i v => displacedVertex img params scale bias normals uvs seam fnm n v i))
    by lia.
  rewrite (proj2 (Nat.ltb_lt _ _) Hj). reflexivity.
Qed.

Lemma displaceLoop_count img (params : LoftParams num) scale bias normals uvs seam fnm n
      (p : list num) m :
  count (fold_left (displaceStep img params scale bias normals uvs seam fnm n)
                   (seq 0 m) p) = count p.
Proof.
  rewrite displaceStep_fold.
  apply (fold_setV_count
           (fun i v => displacedVertex img params scale bias normals uvs seam fnm n v i)).
Qed.

Lemma numRings_le segs (a : list num) : numRingsOf segs a * (segs + 1) <= count a.
Proof.
  unfold numRingsOf. rewrite Nat.mul_comm. apply Nat.Div0.mul_div_le.
Qed.

Lemma displacePositions_props img (params : LoftParams num) scale bias
      (g : BufferGeometry num) fnm :
  froundIdempotent ->
  count (displacePositions img params scale bias g fnm) = count (position g)
  /\ storedAll (displacePositions img params scale bias g fnm)
  /\ seamsClosed (segments params) (numRingsOf (segments params) (position g))
                 (displacePositions img params scale bias g fnm).
Proof.
  intros Hi. unfold displacePositions.
  fold (numRingsOf (segments params) (position g)).
  set (n := numRingsOf (segments params) (position g)).
  set (loop := fold_left _ (seq 0 (count (position g))) (position g)).
  assert (Hc : count loop = count (position g)) by apply displaceLoop_count.
  assert (Hst : storedAll loop).
  { intros j Hj. rewrite Hc in Hj. unfold storedVertex, loop.
    rewrite displaceLoop_vertex by exact Hj. apply roundV_idem. exact Hi. }
  assert (Hn : n * (segments params + 1) <= count loop).
  { rewrite Hc. apply numRings_le. }
  split; [rewrite matchSeam_count; exact Hc|]. split.
  - apply matchSeam_stored; assumption.
  - apply matchSeam_closes; assumption.
Qed.

(** The positions the whole function leaves, when it runs to its end. *)
Lemma applyDisplacement_position (params : LoftParams num) (g : BufferGeometry num)
      tex scale bias useVN img fnm :
  displacementRuns g tex useVN img fnm ->
  let segs := segments params in
  let n := numRingsOf segs (position g) in
  let p1 := displacePositions img params scale bias (ensureNormalsPointOutward g) fnm in
  position (applyDisplacementToGeometry params g (Some tex) scale bias useVN)
  = if (Math_abs scale >? lit 1 100)%js && (0 <? smoothingIntensity params)
    then matchSeam segs n (Nat.iter (smoothingIntensity params) (smoothPass segs n) p1)
    else p1.
Proof.
  intros [Himg Hfn] segs n p1. unfold applyDisplacementToGeometry.
  rewrite Hfn, Himg. cbn [position ensureNormalsPointOutward].
  fold (numRingsOf (segments params) (position g)). fold segs. fold n.
  destruct ((Math_abs scale >? lit 1 100)%js && (0 <? smoothingIntensity params));
    reflexivity.
Qed.

Lemma rawDisplacement_seam img (params : LoftParams num) scale bias uvs seam r :
  rawDisplacement img params scale bias uvs seam
                  (r * (segments params + 1) + segments params)
  = nth r seam undef
  /\ rawDisplacement img params scale bias uvs seam (r * (segments params + 1))
     = nth r seam undef.
Proof.
  unfold rawDisplacement. set (segs := segments params).
  assert (Hdiv : (r * (segs + 1) + segs) / (segs + 1) = r).
  { rewrite Nat.div_add_l by lia. rewrite Nat.div_small by lia. lia. }
  assert (Hmod : (r * (segs + 1) + segs) mod (segs + 1) = segs).
  { rewrite Nat.add_comm, Nat.Div0.mod_add. apply Nat.mod_small. lia. }
  rewrite Hdiv, Hmod, Nat.eqb_refl, Nat.div_mul, Nat.Div0.mod_mul by lia.
  cbn [Nat.eqb]. split; [|reflexivity].
  destruct (segs =? 0); reflexivity.
Qed.

Lemma seamClosure (params : LoftParams num) (g : BufferGeometry num)
      tex scale bias useVN img fnm :
  froundIdempotent -> displacementRuns g tex useVN img fnm ->
  let segs := segments params in
  let n := numRingsOf segs (position g) in
  let p1 := displacePositions img params scale bias (ensureNormalsPointOutward g) fnm in
  seamsClosed segs n p1
  /\ (forall k, seamsClosed segs n (Nat.iter k (smoothPass segs n) p1))
  /\ seamsClosed segs n
       (position (applyDisplacementToGeometry params g (Some tex) scale bias useVN)).
Proof.
  intros Hi Hrun segs n p1.
  destruct (displacePositions_props img params scale bias
              (ensureNormalsPointOutward g) fnm Hi) as (Hc & Hst & Hs).
  cbn [position ensureNormalsPointOutward] in Hc, Hs. fold segs n p1 in Hc, Hst, Hs.
  assert (Hn : n * (segs + 1) <= count p1) by (rewrite Hc; apply numRings_le).
  assert (Hiter : forall k,
            count (Nat.iter k (smoothPass segs n) p1) = count p1
            /\ seamsClosed segs n (Nat.iter k (smoothPass segs n) p1)
            /\ storedAll (Nat.iter k (smoothPass segs n) p1))
    by (intros k; apply iter_smoothPass; assumption).
  split; [exact Hs|]. split; [intros k; apply (Hiter k)|].
  rewrite (applyDisplacement_position params scale bias Hrun).
  fold segs n p1.
  destruct (_ && _); [|exact Hs].
  destruct (Hiter (smoothingIntensity params)) as (Hck & _ & Hsk).
  apply matchSeam_closes; [rewrite Hck; exact Hn | exact Hsk].
Qed.

(** *** Heights of the cap rings *)

Lemma clampRadius_y (v : Vector3 num) : vy (clampRadius v) = vy v.
Proof. unfold clampRadius. destruct (_ <? _)%js; reflexivity. Qed.

Lemma offsetPosition_cap_y (params : LoftParams num) current nrm d :
  vy (offsetPosition params true current nrm d) = vy current.
Proof.
  unfold offsetPosition. destruct (normalType params); try reflexivity.
  destruct (_ <? _)%js; reflexivity.
Qed.

Lemma cell_div_mod segs r s :
  s <= segs ->
  (r * (segs + 1) + s) / (segs + 1) = r /\ (r * (segs + 1) + s) mod (segs + 1) = s.
Proof.
  intros Hs. split.
  - rewrite Nat.div_add_l by lia. rewrite Nat.div_small by lia. lia.
  - rewrite Nat.add_comm, Nat.Div0.mod_add. apply Nat.mod_small. lia.
Qed.

Lemma capRing_test n r : capRing n r -> (r =? 0) || (r =? n - 1) = true.
Proof.
  intros [[-> | ->] _]; [reflexivity|].
  rewrite Nat.eqb_refl. apply orb_true_r.
Qed.

Lemma displacedVertex_cap_y img (params : LoftParams num) scale bias normals uvs seam fnm
      n current r s :
  capRing n r -> s <= segments params ->
  vy (displacedVertex img params scale bias normals uvs seam fnm n current
                      (r * (segments params + 1) + s))
  = vy current.
Proof.
  intros Hcap Hs. unfold displacedVertex.
  destruct (cell_div_mod r Hs) as [-> _].
  rewrite (capRing_test Hcap). rewrite clampRadius_y. apply offsetPosition_cap_y.
Qed.

Lemma capRing_bound segs n (p : list num) r s :
  capRing n r -> s <= segs -> n * (segs + 1) <= count p ->
  r * (segs + 1) + s < count p.
Proof. intros [_ Hr] Hs Hn. nia. Qed.

Lemma matchSeam_cap_heights segs n (p0 q : list num) :
  n * (segs + 1) <= count q ->
  capHeightsStored segs n p0 -> capSeamsLevel segs n p0 ->
  sameCapHeights segs n p0 q -> sameCapHeights segs n p0 (matchSeam segs n q).
Proof.
  intros Hn Hst Hlev Hq r s Hcap Hs.
  rewrite matchSeam_vertex by exact Hn.
  destruct (cell_div_mod r Hs) as [Hd Hm]. rewrite Hd, Hm.
  destruct Hcap as [Hr Hlt].
  rewrite (proj2 (Nat.ltb_lt r n) Hlt), andb_true_r.
  destruct (Nat.eqb_spec s segs) as [->|Hne].
  - unfold roundV. cbn [vy].
    pose proof (Hq r 0 (conj Hr Hlt) ltac:(lia)) as E0. rewrite Nat.add_0_r in E0.
    rewrite E0.
    pose proof (Hst r 0 (conj Hr Hlt) ltac:(lia)) as S0. rewrite Nat.add_0_r in S0.
    rewrite S0. symmetry. apply Hlev. exact (conj Hr Hlt).
  - apply Hq; [exact (conj Hr Hlt) | exact Hs].
Qed.

Lemma smoothedVertex_cap (p : list num) segs n r s :
  capRing n r ->
  smoothedVertex p segs n (r, s) = fromBufferAttribute p (cellIndex segs (r, s)).
Proof.
  intros Hcap. unfold smoothedVertex. cbn [fst snd].
  rewrite (capRing_test Hcap). reflexivity.
Qed.

Lemma smoothPass_cap_heights segs n (p0 q : list num) :
  n * (segs + 1) <= count q ->
  capHeightsStored segs n p0 ->
  sameCapHeights segs n p0 q -> sameCapHeights segs n p0 (smoothPass segs n q).
Proof.
  intros Hn Hst Hq r s Hcap Hs.
  pose proof (capRing_bound q Hcap Hs Hn) as Hb.
  rewrite smoothPass_vertex by exact Hb.
  change (r * (segs + 1) + s) with (cellIndex segs (r, s)).
  rewrite smoothedPositions_cell; [|apply Hcap|exact Hs|exact Hb].
  rewrite (smoothedVertex_cap _ _ _ Hcap).
  unfold roundV, cellIndex. cbn [vy fst snd].
  rewrite (Hq r s Hcap Hs). rewrite !(Hst r s Hcap Hs). reflexivity.
Qed.

Lemma iter_cap_heights segs n (p0 q : list num) k :
  n * (segs + 1) <= count q ->
  capHeightsStored segs n p0 ->
  sameCapHeights segs n p0 q ->
  sameCapHeights segs n p0 (Nat.iter k (smoothPass segs n) q)
  /\ count (Nat.iter k (smoothPass segs n) q) = count q.
Proof.
  intros Hn Hst Hq. induction k as [|k [IH Hc]].
  - split; [exact Hq | reflexivity].
  - rewrite !Nat.iter_succ. split.
    + apply smoothPass_cap_heights; [rewrite Hc; exact Hn | exact Hst | exact IH].
    + rewrite smoothPass_count. exact Hc.
Qed.

Lemma displacePositions_cap_heights img (params : LoftParams num) scale bias
      (g : BufferGeometry num) fnm :
  let segs := segments params in
  let n := numRingsOf segs (position g) in
  capHeightsStored segs n (position g) -> capSeamsLevel segs n (position g) ->
  sameCapHeights segs n (position g) (displacePositions img params scale bias g fnm).
Proof.
  intros segs n Hst Hlev. unfold displacePositions.
  fold (numRingsOf (segments params) (position g)). fold segs. fold n.
  apply matchSeam_cap_heights; [ | exact Hst | exact Hlev | ].
  - rewrite displaceLoop_count. apply numRings_le.
  - intros r s Hcap Hs.
    pose proof (capRing_bound (position g) Hcap Hs (numRings_le segs (position g))) as Hb.
    rewrite displaceLoop_vertex by exact Hb.
    unfold roundV. cbn [vy]. unfold segs in *.
    rewrite (displacedVertex_cap_y _ _ _ _ _ _ _ _ _ Hcap Hs).
    apply Hst; assumption.
Qed.

Lemma applyDisplacement_cap_heights (params : LoftParams num) (g : BufferGeometry num)
      tex scale bias useVN :
  let segs := segments params in
  let n := numRingsOf segs (position g) in
  capHeightsStored segs n (position g) -> capSeamsLevel segs n (position g) ->
  sameCapHeights segs n (position g)
    (position (applyDisplacementToGeometry params g tex scale bias useVN)).
Proof.
  intros segs n Hst Hlev.
  assert (Hid : sameCapHeights segs n (position g) (position g))
    by (intros r s _ _; reflexivity).
  destruct tex as [tex|]; [|exact Hid].
  destruct (if useVN then Some None
            else option_map Some
                   (calculateFaceNormalsForVertices (ensureNormalsPointOutward g)))
    as [fnm|] eqn:Hfn.
  2:{ unfold applyDisplacementToGeometry. rewrite Hfn. exact Hid. }
  destruct (image tex) as [img|] eqn:Himg.
  2:{ unfold applyDisplacementToGeometry. rewrite Hfn, Himg. exact Hid. }
  rewrite (applyDisplacement_position params scale bias (conj Himg Hfn)).
  fold segs n.
  pose proof (displacePositions_cap_heights img params scale bias
                (ensureNormalsPointOutward g) fnm) as Hp.
  cbn [position ensureNormalsPointOutward] in Hp. fold segs n in Hp.
  specialize (Hp Hst Hlev).
  destruct (_ && _); [|exact Hp].
  set (p1 := displacePositions img params scale bias (ensureNormalsPointOutward g) fnm)
    in *.
  assert (Hc1 : n * (segs + 1) <= count p1).
  { unfold p1, displacePositions. rewrite matchSeam_count, displaceLoop_count.
    apply numRings_le. }
  destruct (iter_cap_heights (smoothingIntensity params) Hc1 Hst Hp) as [Hk Hck].
  apply matchSeam_cap_heights; [rewrite Hck; exact Hc1 | exact Hst | exact Hlev | exact Hk].
Qed.
End Generic.

(** The same on a run in binary64 with Float32 stores: a cylinder of radius
    0.5 displaced by -0.25 and smoothed five times ends with closed seams. *)
Lemma seam_closed_binary64
    (fcos fsin : float -> float) (fatan2 fpow : float -> float -> float) :
  let N := FloatArith.FloatNumber fcos fsin fatan2 fpow in
  let p := position (applyDisplacementToGeometry FloatInputs.biasedParams64
                       FloatInputs.prismGeometry64 (Some blackTexture)
                       1%float (-0.25)%float true) in
  fromBufferAttribute p 4 = fromBufferAttribute p 0
  /\ fromBufferAttribute p 9 = fromBufferAttribute p 5
  /\ fromBufferAttribute p 14 = fromBufferAttribute p 10
  /\ fromBufferAttribute p 0 = vec3 0.25%float 0%float 0%float.
Proof. vm_compute. repeat split. Qed.

(** C1: seam closure.  For a Float32 rounding that leaves Float32 values
    alone, when the displacement runs to its end, the first and the last
    vertex of every ring hold exactly the same position after the displacement
    loops, after any number of smoothing passes, and in the geometry the
    function returns; and the displacement of the last column is the one
    computed for column 0 of its ring, read from the same table entry. *)
Theorem applyDisplacementToGeometry_seam_closure
    {num : Type} `{Number num} (params : LoftParams num) (g : BufferGeometry num)
    (tex : Texture) (scale bias : num) (useVertexNormals : bool)
    (img : ImageData) (faceNormalsMap : option (list (Vector3 num))) :
  froundIdempotent ->
  displacementRuns g tex useVertexNormals img faceNormalsMap ->
  let segs := segments params in
  let n := numRingsOf segs (position g) in
  let p1 := displacePositions img params scale bias (ensureNormalsPointOutward g)
                              faceNormalsMap in
  let seam := seamDisplacements img params scale bias (uv g) n in
  seamsClosed segs n p1
  /\ (forall k, seamsClosed segs n (Nat.iter k (smoothPass segs n) p1))
  /\ seamsClosed segs n
       (position (applyDisplacementToGeometry params g (Some tex) scale bias
                                              useVertexNormals))
  /\ (forall r, r < n ->
        rawDisplacement img params scale bias (uv g) seam (r * (segs + 1) + segs)
        = nth r seam undef
        /\ rawDisplacement img params scale bias (uv g) seam (r * (segs + 1))
           = nth r seam undef).
Proof.
  intros Hi Hrun segs n p1 seam.
  destruct (seamClosure params scale bias Hi Hrun) as (H1 & H2 & H3).
  split; [exact H1|]. split; [exact H2|]. split; [exact H3|].
  intros r _. apply rawDisplacement_seam.
Qed.

Lemma applyDisplacementToGeometry_seam_closure_witness :
  @seamsClosed R RealArith.RNumber 4 3
    (position (@applyDisplacementToGeometry R RealArith.RNumber
                 Spec.prismParams Spec.prismGeometry (Some blackTexture)
                 1%R (- (1 / 4))%R true)).
Proof.
  assert (Hi : @froundIdempotent R RealArith.RNumber) by (intros x; reflexivity).
  assert (Hrun : @displacementRuns R RealArith.RNumber Spec.prismGeometry
                   blackTexture true blackPixel None)
    by (split; reflexivity).
  exact (proj1 (proj2 (proj2
           (@applyDisplacementToGeometry_seam_closure R RealArith.RNumber
              Spec.prismParams Spec.prismGeometry blackTexture 1%R
              (- (1 / 4))%R true _ _ Hi Hrun)))).
Defined.

Section Sampling.
Import RealArith RealFacts Spec.
Local Open Scope R_scope.
#[local] Existing Instance RNumber.

Lemma Int_part_of (z : Z) (x : R) : IZR z <= x < IZR z + 1 -> Int_part x = z.
Proof. intros Hx. symmetry. apply Int_part_spec. lra. Qed.

Lemma Rrem_small a : 0 <= a < 1 -> Rrem a 1 = a.
Proof.
  intros Ha. unfold Rrem, Rtrunc.
  destruct (Rle_dec 0 (a / 1)) as [_|N]; [|exfalso; apply N; lra].
  rewrite (Int_part_of 0) by (cbn; lra). lra.
Qed.

Lemma Rrem_1_1 : Rrem 1 1 = 0.
Proof.
  unfold Rrem, Rtrunc.
  destruct (Rle_dec 0 (1 / 1)) as [_|N]; [|exfalso; apply N; lra].
  rewrite (Int_part_of 1) by (cbn; lra). lra.
Qed.

Lemma RtoIndex_IZR (z : Z) : (0 <= z)%Z -> RtoIndex (IZR z) = Some (Z.to_nat z).
Proof.
  intros Hz. unfold RtoIndex.
  rewrite (Int_part_of z) by lra.
  destruct (Req_dec_T (IZR z) (IZR z)) as [_|N]; [|exfalso; apply N; reflexivity].
  destruct (Rle_dec 0 (IZR z)) as [_|N]; [reflexivity|].
  exfalso. apply N. apply (IZR_le 0). exact Hz.
Qed.

(** The sample of the striped image in the top row ([v = 1]) at the pixel
    column [k] that [u] falls in. *)
Lemma sample_stripes (u : R) (k : Z) :
  0 <= u < 1 -> IZR k <= u * 3 < IZR k + 1 -> (0 <= k)%Z ->
  sampleDisplacement stripes rotatedParams 1 0 u 1
  = match nth_error (data stripes) (Z.to_nat (k * 4)) with
    | Some b => IZR b
    | None => 0
    end / 255 * 1 + 0.
Proof.
  intros Hu Hk Hk0. unfold sampleDisplacement, pixel, one, ofNat.
  cbn [width i_height stripes textureRepeatU textureRepeatV rotatedParams].
  change (Z.of_nat 1 - 1)%Z with 0%Z. change (Z.of_nat 4 - 1)%Z with 3%Z.
  change (Z.of_nat 4) with 4%Z.
  cbn [num_mul num_add num_sub num_div num_rem Math_floor toIndex undef RNumber ofZ].
  replace (u * 1) with u by lra. rewrite (Rrem_small Hu).
  replace (1 * 1) with 1 by lra. rewrite Rrem_1_1.
  rewrite (Int_part_of k (x := u * 3)) by exact Hk.
  rewrite Rmult_0_r. rewrite (Int_part_of 0 (x := 0)) by (cbn; lra).
  replace ((0 * 4 + IZR k) * 4) with (IZR (k * 4)) by (rewrite mult_IZR; lra).
  rewrite RtoIndex_IZR by lia. reflexivity.
Qed.

Lemma rotated_seam_uv : loftUV rotatedParams 2 0 = [1 / 2; 1].
Proof.
  unfold loftUV, ringsMinus1, ofNat, zero, one, two.
  cbn [rings segments textureRotation rotatedParams].
  change (Z.of_nat 3 - 1)%Z with 2%Z. change (Z.of_nat 2) with 2%Z.
  change (Z.of_nat 0) with 0%Z. change (Z.of_nat 4) with 4%Z.
  cbn [num_mul num_add num_div num_rem num_ltb Math_PI RNumber ofZ].
  replace (0 / 4 + 180 * PI / 180 * (2 / 2) / (PI * 2)) with (1 / 2)
    by (field; apply PI_neq0).
  rewrite Rrem_small by lra. rewrite Rltb_false by lra.
  f_equal. f_equal. lra.
Qed.

(** A seam column does not take the sample at its own UV.  With the texture
    twisted by 180 degrees, the first vertex of the top ring has UV (1/2, 1);
    the image there is white (sample 1), yet the displacement of that vertex
    before the falloff multiplier is the seam value of its ring, sampled
    where the image is black: 0. *)
Lemma rawDisplacement_seam_counterexample :
  loftUV rotatedParams 2 0 = [getU rotatedUVs 10; getV rotatedUVs 10]
  /\ sampleDisplacement stripes rotatedParams 1 0
       (getU rotatedUVs 10) (getV rotatedUVs 10) = 1
  /\ rawDisplacement stripes rotatedParams 1 0 rotatedUVs
       (seamDisplacements stripes rotatedParams 1 0 rotatedUVs 3) 10 = 0
  /\ rawDisplacement stripes rotatedParams 1 0 rotatedUVs
       (seamDisplacements stripes rotatedParams 1 0 rotatedUVs 3) 10
     <> sampleDisplacement stripes rotatedParams 1 0
          (getU rotatedUVs 10) (getV rotatedUVs 10).
Proof.
  assert (Hown : sampleDisplacement stripes rotatedParams 1 0
                   (getU rotatedUVs 10) (getV rotatedUVs 10) = 1).
  { change (getU rotatedUVs 10) with (1 / 2). change (getV rotatedUVs 10) with 1.
    rewrite (sample_stripes (u := 1 / 2) (k := 1)) by (cbn; lra || lia).
    change (Z.to_nat (1 * 4)) with 4%nat. cbn [nth_error data stripes]. lra. }
  assert (Hraw : rawDisplacement stripes rotatedParams 1 0 rotatedUVs
                   (seamDisplacements stripes rotatedParams 1 0 rotatedUVs 3) 10 = 0).
  { unfold rawDisplacement. cbn [segments rotatedParams].
    change ((10 mod (4 + 1) =? 0)%nat) with true. cbn iota.
    change (10 / (4 + 1))%nat with 2%nat.
    unfold seamDisplacements. cbn [seq map nth segments rotatedParams].
    change (getV rotatedUVs (2 * (4 + 1))) with 1.
    unfold calculateDisplacementFalloff. cbn [falloffEnabled rotatedParams negb].
    unfold zero, one. cbn [ofZ RNumber num_mul].
    rewrite (sample_stripes (u := 0) (k := 0)) by (cbn; lra || lia).
    change (Z.to_nat (0 * 4)) with 0%nat. cbn [nth_error data stripes]. lra. }
  split; [exact rotated_seam_uv|]. split; [exact Hown|]. split; [exact Hraw|].
  rewrite Hraw, Hown. lra.
Qed.

Lemma redAt_unit (img : ImageData) x y :
  Forall (fun b => 0 <= b <= 255)%Z (data img) -> 0 <= redAt img x y <= 1.
Proof.
  intros Hd. unfold redAt, pixel. cbn [num_div toIndex undef RNumber ofZ].
  assert (Hp : 0 <= match RtoIndex ((y * ofNat (width img) + x) * 4)%js with
                    | Some n => match nth_error (data img) n with
                                | Some b => IZR b
                                | None => 0
                                end
                    | None => 0
                    end <= 255).
  { destruct (RtoIndex _) as [n|]; [|lra].
    destruct (nth_error (data img) n) as [b|] eqn:Eb; [|lra].
    apply nth_error_In in Eb. rewrite Forall_forall in Hd. specialize (Hd b Eb).
    split; [apply (IZR_le 0) | apply (IZR_le b 255)]; lia. }
  lra.
Qed.
End Sampling.

(** C7: the seam columns do not sample at their own UV.  In any arithmetic,
    a vertex off the seam columns takes the red channel sampled at its own
    UV, times the scale plus the bias; the two seam vertices of ring [r] take
    the entry of the seam table, which is the sample at [u = 0] and the [v] of
    the first vertex of the ring, already multiplied by the falloff there, and
    the main loop multiplies it by the falloff once more.  On the grid whose
    texture is twisted by 180 degrees the first vertex of the top ring has
    the UV (1/2, 1), where the striped image is white (sample 1), and its
    displacement before the falloff is 0, the sample at [u = 0]. *)
Theorem seam_columns_sample_at_u0
    {num : Type} `{Number num} (img : ImageData) (params : LoftParams num)
    (scale bias : num) (normals uvs : list num)
    (faceNormalsMap : option (list (Vector3 num))) (n : nat) :
  let segs := segments params in
  let seam := seamDisplacements img params scale bias uvs n in
  (forall i, offSeam segs i ->
     rawDisplacement img params scale bias uvs seam i
     = (sampledRed img params (getU uvs i) (getV uvs i) * scale + bias)%js)
  /\ (forall r, r < n ->
        let first := r * (segs + 1) in
        let entry :=
          (sampleDisplacement img params scale bias zero (getV uvs first)
           * calculateDisplacementFalloff (getV uvs first) params)%js in
        nth r seam undef = entry
        /\ rawDisplacement img params scale bias uvs seam first = entry
        /\ rawDisplacement img params scale bias uvs seam (first + segs) = entry
        /\ forall current,
             displacedVertex img params scale bias normals uvs seam faceNormalsMap n
                             current first
             = clampRadius
                 (offsetPosition params ((r =? 0) || (r =? n - 1)) current
                    match faceNormalsMap with
                    | None => fromBufferAttribute normals first
                    | Some m => match nth_error m first with
                                | Some faceNormal => faceNormal
                                | None => fromBufferAttribute normals first
                                end
                    end
                    (entry * calculateDisplacementFalloff (getV uvs first) params)%js))
  /\ (@loftUV R RealArith.RNumber Spec.rotatedParams 2 0
      = [@getU R RealArith.RNumber Spec.rotatedUVs 10;
         @getV R RealArith.RNumber Spec.rotatedUVs 10]
      /\ @getU R RealArith.RNumber Spec.rotatedUVs 10 = (1 / 2)%R
      /\ @sampleDisplacement R RealArith.RNumber stripes Spec.rotatedParams 1%R 0%R
           (@getU R RealArith.RNumber Spec.rotatedUVs 10)
           (@getV R RealArith.RNumber Spec.rotatedUVs 10) = 1%R
      /\ @rawDisplacement R RealArith.RNumber stripes Spec.rotatedParams 1%R 0%R
           Spec.rotatedUVs
           (@seamDisplacements R RealArith.RNumber stripes Spec.rotatedParams 1%R 0%R
              Spec.rotatedUVs 3) 10 = 0%R).
Proof.
  intros segs seam. split; [|split].
  - intros i [H0 Hs]. unfold rawDisplacement. fold segs.
    destruct (Nat.eqb_spec (i mod (segs + 1)) 0) as [E|_]; [contradiction|].
    destruct (Nat.eqb_spec (i mod (segs + 1)) segs) as [E|_]; [contradiction|].
    reflexivity.
  - intros r Hr first entry.
    assert (En : nth r seam undef = entry).
    { unfold seam, seamDisplacements.
      rewrite (nth_indep _ undef
                 ((fun ring =>
                     (sampleDisplacement img params scale bias zero
                        (getV uvs (ring * (segments params + 1)))
                      * calculateDisplacementFalloff
                          (getV uvs (ring * (segments params + 1))) params)%js) 0))
        by (rewrite length_map, length_seq; exact Hr).
      rewrite (map_nth (fun ring =>
                     (sampleDisplacement img params scale bias zero
                        (getV uvs (ring * (segments params + 1)))
                      * calculateDisplacementFalloff
                          (getV uvs (ring * (segments params + 1))) params)%js)).
      rewrite seq_nth by exact Hr. reflexivity. }
    destruct (rawDisplacement_seam img params scale bias uvs seam r) as [Hlast Hfirst].
    fold segs in Hlast, Hfirst. fold first in Hlast, Hfirst.
    split; [exact En|]. split; [rewrite Hfirst; exact En|].
    split; [rewrite Hlast; exact En|].
    intros current. unfold displacedVertex. fold segs. rewrite Hfirst, En.
    unfold first. rewrite Nat.div_mul by lia. reflexivity.
  - destruct rawDisplacement_seam_counterexample as (Hu & Hown & Hraw & _).
    split; [exact Hu|]. split; [reflexivity|]. split; [exact Hown | exact Hraw].
Qed.

(** C8: flat caps.  On a grid whose cap rings hold Float32 heights, level
    across the seam, [applyDisplacementToGeometry] leaves the [y] coordinate of
    every vertex of ring 0 and of the last ring as it was: whatever the normal
    mode, the texture, and whether or not the function runs to its end. *)
Theorem applyDisplacementToGeometry_cap_rings_keep_height
    {num : Type} `{Number num} (params : LoftParams num) (g : BufferGeometry num)
    (tex : option Texture) (scale bias : num) (useVertexNormals : bool) :
  let segs := segments params in
  let n := numRingsOf segs (position g) in
  capHeightsStored segs n (position g) -> capSeamsLevel segs n (position g) ->
  forall r s, (r = 0 \/ r = n - 1) -> r < n -> s <= segs ->
    vy (fromBufferAttribute
          (position (applyDisplacementToGeometry params g tex scale bias
                                                 useVertexNormals))
          (r * (segs + 1) + s))
    = vy (fromBufferAttribute (position g) (r * (segs + 1) + s)).
Proof.
  intros segs n Hst Hlev r s Hr Hlt Hs.
  apply (applyDisplacement_cap_heights params g tex scale bias useVertexNormals
           Hst Hlev (conj Hr Hlt) Hs).
Qed.

Lemma applyDisplacementToGeometry_cap_rings_keep_height_witness :
  vy (@fromBufferAttribute R RealArith.RNumber
        (position (@applyDisplacementToGeometry R RealArith.RNumber
                     (withNormalType Spec.prismParams vertex) Spec.prismGeometry
                     (Some blackTexture) 1%R (- (1 / 4))%R true))
        14)
  = 5%R.
Proof.
  pose proof (@applyDisplacementToGeometry_cap_rings_keep_height R RealArith.RNumber
                (withNormalType Spec.prismParams vertex) Spec.prismGeometry
                (Some blackTexture) 1%R (- (1 / 4))%R true) as T.
  cbn zeta in T.
  change (numRingsOf (segments (withNormalType Spec.prismParams vertex))
                     (position Spec.prismGeometry)) with 3 in T.
  change (segments (withNormalType Spec.prismParams vertex)) with 4 in T.
  assert (Hst : @capHeightsStored R RealArith.RNumber 4 3 (position Spec.prismGeometry))
    by (intros r s _ _; reflexivity).
  assert (Hlev : @capSeamsLevel R RealArith.RNumber 4 3 (position Spec.prismGeometry)).
  { intros r [[-> | ->] _]; reflexivity. }
  change 14 with (2 * (4 + 1) + 4).
  rewrite (T Hst Hlev 2 4); [reflexivity | right; reflexivity | lia | lia].
Defined.
End Displacement.
(** * Further properties of the engine *)

(** ** Loops that rewrite some vertices in place *)

Section ConditionalWrites.
Context {num : Type} `{Number num}.

(** A loop that, at vertex [i], either rewrites it from its own value or
    leaves the array alone, acts vertex by vertex. *)
Lemma fold_condV_pointwise (T : nat -> Vector3 num -> bool)
      (F : nat -> Vector3 num -> Vector3 num) (a : list num) n j :
  n <= count a ->
  fromBufferAttribute
    (fold_left (fun p i => if T i (fromBufferAttribute p i)
                           then setV p i (F i (fromBufferAttribute p i)) else p)
               (seq 0 n) a) j
  = if (j <? n) && T j (fromBufferAttribute a j)
    then roundV (F j (fromBufferAttribute a j)) else fromBufferAttribute a j.
Proof.
  revert j. induction n as [|n IH]; intros j Hn.
  - reflexivity.
  - rewrite seq_S, fold_left_app. cbn [fold_left Nat.add].
    pose proof (IH j ltac:(lia)) as IHj. pose proof (IH n ltac:(lia)) as IHn.
    rewrite (proj2 (Nat.ltb_ge n n)) in IHn by lia. cbn [andb] in IHn.
    set (p := fold_left _ (seq 0 n) a) in *.
    assert (Hc : count p = count a).
    { subst p. clear. generalize (seq 0 n) as l. intros l. revert a.
      induction l as [|i l IHl]; intros a; [reflexivity|].
      cbn [fold_left]. rewrite IHl.
      destruct (T i _); [apply count_setXYZ | reflexivity]. }
    rewrite IHn.
    destruct (Nat.eq_dec j n) as [->|Hj].
    + rewrite (proj2 (Nat.ltb_lt n (S n))) by lia. cbn [andb].
      destruct (T n (fromBufferAttribute a n)).
      * unfold setV. rewrite get_setXYZ_same by lia. reflexivity.
      * exact IHn.
    + assert (E : fromBufferAttribute
                    (if T n (fromBufferAttribute a n)
                     then setV p n (F n (fromBufferAttribute a n)) else p) j
                  = fromBufferAttribute p j).
      { destruct (T n _); [|reflexivity].
        unfold setV. apply get_setXYZ_other. lia. }
      rewrite E, IHj.
      destruct (Nat.ltb_spec j n); destruct (Nat.ltb_spec j (S n)); try lia; reflexivity.
Qed.

Lemma fold_condV_length (T : nat -> Vector3 num -> bool)
      (F : nat -> Vector3 num -> Vector3 num) (l : list nat) (a : list num) :
  length (fold_left (fun p i => if T i (fromBufferAttribute p i)
                                then setV p i (F i (fromBufferAttribute p i)) else p)
                    l a) = length a.
Proof.
  revert a. induction l as [|i l IH]; intros a; [reflexivity|].
  cbn [fold_left]. rewrite IH.
  destruct (T i _); [apply setXYZ_length | reflexivity].
Qed.

(** Two arrays of whole vertices that agree vertex by vertex are equal. *)
Lemma vertices_ext (a b : list num) :
  length a = length b -> length a = count a * 3 ->
  (forall j, j < count a -> fromBufferAttribute a j = fromBufferAttribute b j) ->
  a = b.
Proof.
  intros Hl Hm Hv. apply (nth_ext a b undef undef Hl).
  intros k Hk.
  pose proof (Nat.div_mod_eq k 3) as E.
  pose proof (Nat.mod_upper_bound k 3 ltac:(lia)) as Hr.
  assert (Hq : k / 3 < count a) by (apply Nat.Div0.div_lt_upper_bound; lia).
  specialize (Hv (k / 3) Hq).
  unfold fromBufferAttribute, getX, getY, getZ in Hv.
  injection Hv as Hx Hy Hz.
  destruct (k mod 3) as [|[|[|r]]] eqn:Em; try lia.
  - replace k with (k / 3 * 3) by lia. exact Hx.
  - replace k with (k / 3 * 3 + 1) by lia. exact Hy.
  - replace k with (k / 3 * 3 + 2) by lia. exact Hz.
Qed.
End ConditionalWrites.

(** ** Orientation of the normals *)

Module Normals.
Section Generic.
Context {num : Type} `{Number num}.

Lemma outwardStep_cond (positions normals : list num) i :
  outwardStep positions normals i
  = if pointsInward (fromBufferAttribute positions i) (fromBufferAttribute normals i)
    then setV normals i (negV (fromBufferAttribute normals i)) else normals.
Proof.
  unfold outwardStep, pointsInward, setV, negV, fromBufferAttribute. cbn [vx vy vz].
  destruct (_ >? _)%js; [destruct (_ <? _)%js|]; reflexivity.
Qed.

(** The loop flips the normals one by one: the normal of a vertex is the old
    one, or its opposite when the test holds at that vertex. *)
Lemma ensureNormalsPointOutward_normal (g : BufferGeometry num) j :
  count (position g) <= count (normal g) ->
  fromBufferAttribute (normal (ensureNormalsPointOutward g)) j
  = if (j <? count (position g))
       && pointsInward (fromBufferAttribute (position g) j)
                       (fromBufferAttribute (normal g) j)
    then roundV (negV (fromBufferAttribute (normal g) j))
    else fromBufferAttribute (normal g) j.
Proof.
  intros Hc. unfold ensureNormalsPointOutward. cbn [normal].
  rewrite (ExportTransform.fold_ext _ _ _ _ (outwardStep_cond (position g))).
  apply (fold_condV_pointwise
           (fun i v => pointsInward (fromBufferAttribute (position g) i) v)
           (fun _ v => negV v)).
  exact Hc.
Qed.

Lemma ensureNormalsPointOutward_length (g : BufferGeometry num) :
  length (normal (ensureNormalsPointOutward g)) = length (normal g).
Proof.
  unfold ensureNormalsPointOutward. cbn [normal].
  rewrite (ExportTransform.fold_ext _ _ _ _ (outwardStep_cond (position g))).
  apply (fold_condV_length
           (fun i v => pointsInward (fromBufferAttribute (position g) i) v)
           (fun _ v => negV v)).
Qed.
End Generic.

Section Reals.
Import RealArith RealFacts Spec.
Local Open Scope R_scope.
#[local] Existing Instance RNumber.

Lemma pointsInward_spec (p n : Vector3 R) :
  pointsInward p n = true
  <-> 1 / 1000 < radial p /\ vx n * vx p + vz n * vz p < 0.
Proof.
  unfold pointsInward, radial, lit, zero.
  cbn [num_ltb num_add num_mul num_div Math_sqrt RNumber ofZ].
  set (r := R_sqrt.sqrt (vx p * vx p + vz p * vz p)).
  destruct (Rlt_dec (1 / 1000) r) as [Hr|Hr].
  - rewrite (Rltb_true Hr).
    assert (E : vx n * (vx p / r) + vz n * (vz p / r)
                = (vx n * vx p + vz n * vz p) * / r) by (field; lra).
    rewrite E, Rltb_spec.
    assert (Hi : 0 < / r) by (apply Rinv_0_lt_compat; lra).
    split.
    + intros Hd. split; [exact Hr|]. nra.
    + intros [_ Hd]. nra.
  - rewrite Rltb_false by lra. split; [discriminate | intros [Hr' _]; contradiction].
Qed.

Lemma pointsInward_negV (p n : Vector3 R) :
  pointsInward p n = true -> pointsInward p (negV n) = false.
Proof.
  intros Hin. apply pointsInward_spec in Hin. destruct Hin as [Hr Hd].
  destruct (pointsInward p (negV n)) eqn:E; [|reflexivity].
  apply pointsInward_spec in E. destruct E as [_ E].
  unfold negV in E. cbn [vx vz num_neg RNumber] in E. lra.
Qed.
End Reals.

#[local] Existing Instance RealArith.RNumber.

(** In exact arithmetic, [ensureNormalsPointOutward] leaves positions, UVs
    and index alone and keeps the length of the normal array; every normal is
    the old one or its opposite; the normal of a vertex within 0.001 of the
    axis is kept; and afterwards no vertex farther than 0.001 from the axis
    has a normal with a negative component along its radial direction. *)
Theorem ensureNormalsPointOutward_outward (g : BufferGeometry R) :
  count (position g) <= count (normal g) ->
  let g' := ensureNormalsPointOutward g in
  position g' = position g /\ uv g' = uv g /\ index g' = index g
  /\ length (normal g') = length (normal g)
  /\ (forall i, i < count (position g) ->
        let p := fromBufferAttribute (position g) i in
        let n := fromBufferAttribute (normal g) i in
        let n' := fromBufferAttribute (normal g') i in
        (n' = n \/ n' = negV n)
        /\ (Spec.radial p <= 1 / 1000 -> n' = n)%R
        /\ (1 / 1000 < Spec.radial p -> 0 <= vx n' * vx p + vz n' * vz p)%R)
  /\ (forall i, count (position g) <= i ->
        fromBufferAttribute (normal g') i = fromBufferAttribute (normal g) i).
Proof.
  intros Hc g'.
  split; [reflexivity|]. split; [reflexivity|]. split; [reflexivity|].
  split; [apply ensureNormalsPointOutward_length|]. split.
  - intros i Hi p n n'. subst n' g'.
    rewrite (ensureNormalsPointOutward_normal g i Hc).
    rewrite (proj2 (Nat.ltb_lt _ _) Hi). cbn [andb]. fold p n.
    destruct (pointsInward p n) eqn:E.
    + apply pointsInward_spec in E. destruct E as [Hr Hd].
      change (roundV (negV n)) with (negV n).
      split; [right; reflexivity|]. split; [intros Hle; exfalso; lra|].
      intros _. unfold negV. cbn [vx vz num_neg RealArith.RNumber]. lra.
    + split; [left; reflexivity|]. split; [reflexivity|].
      intros Hr. destruct (Rle_dec 0 (vx n * vx p + vz n * vz p)) as [L|L]; [exact L|].
      exfalso. assert (Ht : pointsInward p n = true)
        by (apply pointsInward_spec; split; lra).
      rewrite Ht in E. discriminate E.
  - intros i Hi. subst g'. rewrite (ensureNormalsPointOutward_normal g i Hc).
    rewrite (proj2 (Nat.ltb_ge _ _) Hi). reflexivity.
Qed.

Lemma ensureNormalsPointOutward_outward_witness :
  let g' := ensureNormalsPointOutward Inputs.inwardVertex in
  position g' = [1; 0; 0]%R
  /\ (0 <= vx (fromBufferAttribute (normal g') 0) * 1
           + vz (fromBufferAttribute (normal g') 0) * 0)%R.
Proof.
  assert (Hc : count (position Inputs.inwardVertex) <= count (normal Inputs.inwardVertex))
    by (unfold count; simpl; lia).
  destruct (ensureNormalsPointOutward_outward Inputs.inwardVertex Hc)
    as (Hp & _ & _ & _ & Hn & _).
  split; [exact Hp|].
  destruct (Hn 0 ltac:(unfold count; simpl; lia)) as (_ & _ & Hout).
  apply Hout. unfold Spec.radial. cbn.
  replace (1 * 1 + 0 * 0)%R with 1%R by lra. rewrite sqrt_1. lra.
Defined.

(** In exact arithmetic the repair is idempotent: a second call, as the
    rebuild pipeline makes before displacing, changes nothing. *)
Theorem ensureNormalsPointOutward_idempotent (g : BufferGeometry R) :
  count (position g) <= count (normal g) ->
  length (normal g) = count (normal g) * 3 ->
  ensureNormalsPointOutward (ensureNormalsPointOutward g) = ensureNormalsPointOutward g.
Proof.
  intros Hc Hw.
  set (g' := ensureNormalsPointOutward g).
  assert (Hl : length (normal g') = length (normal g))
    by apply ensureNormalsPointOutward_length.
  assert (Hc' : count (position g') <= count (normal g')).
  { unfold count in *. rewrite Hl. exact Hc. }
  assert (En : normal (ensureNormalsPointOutward g') = normal g').
  { apply vertices_ext.
    - apply ensureNormalsPointOutward_length.
    - unfold count. rewrite ensureNormalsPointOutward_length, Hl. exact Hw.
    - intros j _. rewrite (ensureNormalsPointOutward_normal g' j Hc').
      destruct (Nat.ltb_spec j (count (position g'))) as [Hj|Hj]; [|reflexivity].
      cbn [andb]. change (position g') with (position g) in *.
      replace (pointsInward (fromBufferAttribute (position g) j)
                            (fromBufferAttribute (normal g') j)) with false;
        [reflexivity|].
      symmetry. unfold g'. rewrite (ensureNormalsPointOutward_normal g j Hc).
      rewrite (proj2 (Nat.ltb_lt _ _) Hj). cbn [andb].
      destruct (pointsInward _ (fromBufferAttribute (normal g) j)) eqn:E.
      + apply pointsInward_negV. exact E.
      + exact E. }
  unfold ensureNormalsPointOutward at 1. unfold ensureNormalsPointOutward at 1 in En.
  cbn [normal] in En. rewrite En. reflexivity.
Qed.

Lemma ensureNormalsPointOutward_idempotent_witness :
  ensureNormalsPointOutward (ensureNormalsPointOutward Inputs.inwardVertex)
  = ensureNormalsPointOutward Inputs.inwardVertex.
Proof.
  apply ensureNormalsPointOutward_idempotent; unfold count; simpl; lia.
Defined.
End Normals.

(** ** Shape of the lathe grid *)

Module LatheShape.
Section Generic.
Context {num : Type} `{Number num}.

Lemma getRadiusAtHeight_returns (a0 : LoftBezierAnchor num) rest (params : LoftParams num) h :
  exists r, getRadiusAtHeight (a0 :: rest) params h = Some r.
Proof.
  unfold getRadiusAtHeight.
  destruct (h <=? zero)%js; [eexists; reflexivity|].
  destruct (h >=? height params)%js.
  - destruct (nth_error (a0 :: rest) (length (a0 :: rest) - 1)) as [a|] eqn:E.
    + eexists; reflexivity.
    + apply nth_error_None in E. cbn [length] in E. lia.
  - destruct (findSegment (a0 :: rest) h); eexists; reflexivity.
Qed.

Lemma mapM_total {A B : Type} (f : A -> option B) (l : list A) :
  (forall x, exists y, f x = Some y) -> exists ys, mapM f l = Some ys.
Proof.
  intros Hf. induction l as [|x l [ys IH]]; [eexists; reflexivity|].
  destruct (Hf x) as [y Ey]. exists (y :: ys). cbn. rewrite Ey, IH. reflexivity.
Qed.

Lemma ringRadii_returns (a0 : LoftBezierAnchor num) rest (params : LoftParams num) :
  exists radii, ringRadii (a0 :: rest) params = Some radii.
Proof.
  unfold ringRadii. apply mapM_total. intros ring. unfold ringRadius.
  destruct (getRadiusAtHeight_returns a0 rest params (ringHeight params ring)) as [r ->].
  eexists; reflexivity.
Qed.

Lemma lathe_lengths anchors (params : LoftParams num) g :
  createLoftGeometry anchors params = Some g ->
  length (position g) = rings params * ((segments params + 1) * 3)
  /\ length (normal g) = rings params * ((segments params + 1) * 3)
  /\ index g = Some (quadIndices params).
Proof.
  unfold createLoftGeometry. destruct (ringRadii anchors params) as [radii|]; [|discriminate].
  intros E. injection E as <-. cbn [position normal index].
  unfold Float32BufferAttribute. rewrite !length_map.
  rewrite !Lathe.perVertex_length by reflexivity. auto.
Qed.

Lemma lathe_count anchors (params : LoftParams num) g :
  createLoftGeometry anchors params = Some g ->
  count (position g) = rings params * (segments params + 1)
  /\ count (normal g) = rings params * (segments params + 1).
Proof.
  intros E. destruct (lathe_lengths _ _ E) as (Hp & Hn & _).
  unfold count. rewrite Hp, Hn.
  replace (rings params * ((segments params + 1) * 3))
    with (rings params * (segments params + 1) * 3) by lia.
  rewrite Nat.div_mul by lia. auto.
Qed.

Lemma createLoftGeometry_returns (a0 : LoftBezierAnchor num) rest (params : LoftParams num) :
  exists g, createLoftGeometry (a0 :: rest) params = Some g.
Proof.
  destruct (ringRadii_returns a0 rest params) as [radii Er].
  unfold createLoftGeometry. rewrite Er. eexists; reflexivity.
Qed.

(** *** The triangles *)

Lemma quadIndices_length (params : LoftParams num) :
  length (quadIndices params) = (rings params - 1) * segments params * 6.
Proof.
  unfold quadIndices.
  rewrite (flat_map_length_const _ (m := segments params * 6)).
  - rewrite length_seq. lia.
  - intros ring. rewrite (flat_map_length_const _ (m := 6)) by reflexivity.
    rewrite length_seq. reflexivity.
Qed.

Lemma quadIndices_In (params : LoftParams num) i :
  In i (quadIndices params) <->
  exists ring seg, ring < rings params - 1 /\ seg < segments params
    /\ In i [ring * (segments params + 1) + seg;
             ring * (segments params + 1) + seg + 1;
             (ring + 1) * (segments params + 1) + seg + 1;
             ring * (segments params + 1) + seg;
             (ring + 1) * (segments params + 1) + seg + 1;
             (ring + 1) * (segments params + 1) + seg].
Proof.
  unfold quadIndices. rewrite in_flat_map. split.
  - intros (ring & Hr & Hi). apply in_flat_map in Hi. destruct Hi as (seg & Hs & Hi).
    apply in_seq in Hr, Hs. exists ring, seg. split; [lia|]. split; [lia|]. exact Hi.
  - intros (ring & seg & Hr & Hs & Hi). exists ring. split; [apply in_seq; lia|].
    apply in_flat_map. exists seg. split; [apply in_seq; lia | exact Hi].
Qed.

Lemma quadIndices_bound (params : LoftParams num) :
  Forall (fun i => i < rings params * (segments params + 1)) (quadIndices params).
Proof.
  apply Forall_forall. intros i Hi. apply quadIndices_In in Hi.
  destruct Hi as (ring & seg & Hr & Hs & Hi). cbn [In] in Hi.
  destruct Hi as [<-|[<-|[<-|[<-|[<-|[<-|[]]]]]]]; nia.
Qed.

Lemma quadIndices_cover (params : LoftParams num) r s :
  2 <= rings params -> 1 <= segments params ->
  r < rings params -> s <= segments params ->
  In (r * (segments params + 1) + s) (quadIndices params).
Proof.
  intros Hn Hm Hr Hs. apply quadIndices_In.
  destruct (Nat.lt_ge_cases r (rings params - 1)) as [Hr1|Hr1];
    destruct (Nat.lt_ge_cases s (segments params)) as [Hs1|Hs1].
  - exists r, s. split; [lia|]. split; [lia|]. left. reflexivity.
  - exists r, (s - 1). split; [lia|]. split; [lia|]. right. left. lia.
  - exists (r - 1), s. split; [lia|]. split; [lia|].
    do 5 right. left. replace (r - 1 + 1) with r by lia. reflexivity.
  - exists (r - 1), (s - 1). split; [lia|]. split; [lia|].
    do 2 right. left. replace (r - 1 + 1) with r by lia. lia.
Qed.

(** *** Normals and UVs of a grid vertex *)

Lemma lathe_normal anchors (params : LoftParams num) g :
  createLoftGeometry anchors params = Some g ->
  exists radii,
    ringRadii anchors params = Some radii
    /\ forall r s, r < rings params -> s <= segments params ->
         fromBufferAttribute (normal g) (r * (segments params + 1) + s)
         = roundV (vec3 (nth 0 (loftNormal params radii r s) undef)
                        (nth 1 (loftNormal params radii r s) undef)
                        (nth 2 (loftNormal params radii r s) undef)).
Proof.
  unfold createLoftGeometry. destruct (ringRadii anchors params) as [radii|]; [|discriminate].
  intros E. injection E as <-. exists radii. split; [reflexivity|].
  intros r s Hr Hs. cbn [normal]. apply Lathe.perVertex_get; auto.
Qed.

Lemma lathe_uv anchors (params : LoftParams num) g r s :
  createLoftGeometry anchors params = Some g ->
  r < rings params -> s <= segments params ->
  getU (uv g) (r * (segments params + 1) + s) = fround (nth 0 (loftUV params r s) undef)
  /\ getV (uv g) (r * (segments params + 1) + s) = fround (nth 1 (loftUV params r s) undef).
Proof.
  unfold createLoftGeometry. destruct (ringRadii anchors params) as [radii|]; [|discriminate].
  intros E Hr Hs. injection E as <-. cbn [uv].
  set (f := loftUV params).
  assert (Hlen : length (perVertex params f) = rings params * ((segments params + 1) * 2)).
  { unfold perVertex.
    rewrite (flat_map_length_const _ (m := (segments params + 1) * 2)).
    - rewrite length_seq. reflexivity.
    - intros i. rewrite (flat_map_length_const _ (m := 2)) by reflexivity.
      rewrite length_seq. reflexivity. }
  assert (Hc : forall c, c < 2 ->
            nth ((r * (segments params + 1) + s) * 2 + c) (perVertex params f) undef
            = nth c (f r s) undef).
  { intros c Hc. unfold perVertex.
    replace ((r * (segments params + 1) + s) * 2 + c)
      with (r * ((segments params + 1) * 2) + (s * 2 + c)) by lia.
    rewrite (nth_flat_map_chunk _ (m := (segments params + 1) * 2)); try lia.
    - cbn [Nat.add]. rewrite (nth_flat_map_chunk (f r) (m := 2)); auto; lia.
    - intros i. rewrite (flat_map_length_const _ (m := 2)) by reflexivity.
      rewrite length_seq. reflexivity. }
  unfold getU, getV.
  rewrite !Caps.nth_Float32 by (rewrite Hlen; nia).
  pose proof (Hc 0 ltac:(lia)) as H0. rewrite Nat.add_0_r in H0.
  rewrite H0, (Hc 1) by lia. auto.
Qed.
End Generic.

#[local] Existing Instance RealArith.RNumber.

Section Reals.
Import RealArith RealFacts Spec.
Local Open Scope R_scope.

Lemma radial_circle rho th y :
  0 <= rho -> radial (vec3 (rho * cos th) y (rho * sin th)) = rho.
Proof.
  intros Hr. unfold radial. cbn [vx vz].
  pose proof (sin2_cos2 th) as E. unfold Rsqr in E.
  replace (rho * cos th * (rho * cos th) + rho * sin th * (rho * sin th))
    with (rho * rho * (sin th * sin th + cos th * cos th)) by ring.
  rewrite E, Rmult_1_r. apply sqrt_square. exact Hr.
Qed.

(** The normal the lathe computes from the slope [k] at the angle [th]. *)
Lemma normalize_cross (th k : R) :
  normalize (crossVectors (vec3 (- sin th) 0 (cos th))
                          (vec3 (- k * cos th) 1 (- k * sin th)))
  = vec3 (- cos th / R_sqrt.sqrt (1 + k * k)) (- k / R_sqrt.sqrt (1 + k * k))
         (- sin th / R_sqrt.sqrt (1 + k * k)).
Proof.
  pose proof (sin2_cos2 th) as E. unfold Rsqr in E.
  set (c := cos th) in *. set (s := sin th) in *.
  assert (Ex : 0 * (- k * s) - c * 1 = - c) by ring.
  assert (Ey : c * (- k * c) - - s * (- k * s) = - k).
  { transitivity (- k * (s * s + c * c)); [ring | rewrite E; ring]. }
  assert (Ez : - s * 1 - 0 * (- k * c) = - s) by ring.
  unfold normalize, v_length, crossVectors, multiplyScalar, one.
  cbn [vx vy vz num_add num_sub num_mul num_div Math_sqrt truthy RNumber ofZ].
  rewrite Ex, Ey, Ez.
  replace (- c * - c + - k * - k + - s * - s) with (1 + k * k)
    by (transitivity (s * s + c * c + k * k); [rewrite E; ring | ring]).
  assert (Hl : 1 <= R_sqrt.sqrt (1 + k * k)).
  { rewrite <- sqrt_1 at 1. apply sqrt_le_1_alt. nra. }
  destruct (Req_dec_T (R_sqrt.sqrt (1 + k * k)) 0) as [Z|_]; [lra|].
  f_equal; field; lra.
Qed.

Lemma ringRadii_min anchors (params : LoftParams R) radii r :
  ringRadii anchors params = Some radii -> (r < rings params)%nat ->
  1 / 10 <= nth r radii 0.
Proof.
  intros Er Hr. unfold ringRadii in Er.
  destruct (Lathe.mapM_Some _ _ Er) as [_ Hn]. rewrite length_seq in Hn.
  specialize (Hn r 0%nat 0 Hr). rewrite seq_nth in Hn by exact Hr.
  cbn [Nat.add] in Hn. unfold ringRadius in Hn.
  destruct (getRadiusAtHeight anchors params (ringHeight params r)); [|discriminate].
  cbn in Hn. injection Hn as <-. unfold minRadius, lit. cbn [num_div RNumber ofZ].
  apply Rmax_l.
Qed.

Lemma lathe_vertex anchors (params : LoftParams R) g :
  createLoftGeometry anchors params = Some g ->
  exists radii,
    ringRadii anchors params = Some radii
    /\ forall r s, (r < rings params)%nat -> (s <= segments params)%nat ->
         fromBufferAttribute (position g) (r * (segments params + 1) + s)
         = vec3 (nth r radii 0 * cos (theta params r s)) (ringHeight params r)
                (nth r radii 0 * sin (theta params r s)).
Proof.
  intros E. destruct (Lathe.createLoftGeometry_grid _ _ E) as (radii & Er & _ & _ & Hv & _).
  exists radii. split; [exact Er|]. intros r s Hr Hs. rewrite (Hv r s Hr Hs). reflexivity.
Qed.

(** *** Wrapping of the [u] coordinate *)

Lemma Rrem_wrap a :
  (let u := Rrem a 1 in if Rltb u 0 then u + 1 else u) = frac_part a.
Proof.
  cbv zeta. unfold Rrem, Rtrunc. replace (a / 1) with a by field.
  destruct (Rle_dec 0 a) as [Ha|Ha].
  - replace (a - 1 * IZR (Int_part a)) with (frac_part a) by (unfold frac_part; ring).
    destruct (base_fp a) as [H0 _]. rewrite Rltb_false by lra. reflexivity.
  - rewrite opp_IZR.
    destruct (base_fp (- a)) as [H0 H1].
    assert (Ea : - a = IZR (Int_part (- a)) + frac_part (- a))
      by apply Rplus_Int_part_frac_part.
    set (k := Int_part (- a)) in *. set (f := frac_part (- a)) in *.
    replace (a - 1 * - IZR k) with (- f) by lra.
    destruct (Req_dec_T f 0) as [Z|NZ].
    + rewrite Z, Ropp_0. rewrite Rltb_false by lra.
      destruct (Int_part_frac_part_spec a (- k)%Z 0) as [_ <-];
        [lra | rewrite opp_IZR; lra | reflexivity].
    + rewrite Rltb_true by lra.
      destruct (Int_part_frac_part_spec a (- k - 1)%Z (- f + 1)) as [_ <-];
        [lra | rewrite minus_IZR, opp_IZR; lra | reflexivity].
Qed.

Lemma frac_part_succ c : frac_part (1 + c) = frac_part c.
Proof.
  destruct (base_fp c) as [H0 H1].
  destruct (Int_part_frac_part_spec (1 + c) (Int_part c + 1)%Z (frac_part c)) as [_ <-];
    [lra | | reflexivity].
  rewrite plus_IZR. pose proof (Rplus_Int_part_frac_part c). lra.
Qed.

Lemma frac_part_small a : 0 <= a < 1 -> frac_part a = a.
Proof.
  intros Ha. destruct (Int_part_frac_part_spec a 0%Z a) as [_ <-]; [lra | lra | reflexivity].
Qed.

(** The [u] the lathe stores: the fractional part of the unwrapped value. *)
Lemma loftUV_u (params : LoftParams R) r s :
  nth 0 (loftUV params r s) 0
  = frac_part (IZR (Z.of_nat s) / IZR (Z.of_nat (segments params))
               + textureRotation params * PI / 180
                 * (IZR (Z.of_nat r) / (IZR (Z.of_nat (rings params)) - 1)) / (PI * 2)).
Proof.
  unfold loftUV, ringsMinus1, ofNat, zero, one, two.
  cbn [nth num_add num_mul num_div num_rem num_ltb Math_PI RNumber ofZ].
  rewrite minus_IZR. apply Rrem_wrap.
Qed.

Lemma loftUV_v (params : LoftParams R) r s :
  nth 1 (loftUV params r s) 0 = IZR (Z.of_nat r) / (IZR (Z.of_nat (rings params)) - 1).
Proof.
  unfold loftUV, ringsMinus1, ofNat. cbn [nth num_div RNumber ofZ].
  rewrite minus_IZR. reflexivity.
Qed.

(** *** The initial profile *)

Lemma initAnchor_curve (params : LoftParams R) i j h iters tMin tMax t :
  bisect (segmentCurve (initAnchor params i) (initAnchor params j)) h iters tMin tMax t
  = Rmax (1 / 10) (radius params).
Proof.
  apply Lathe.bisect_constant. intros u.
  unfold getPoint, segmentCurve, initAnchor, v_add, zero.
  cbn [vx v0 v1 v2 v3 a_position handleOut handleIn num_add RNumber ofZ].
  assert (E1 : vx (if (i =? 4)%nat then vec3 0 0 0 else vec3 0 (lit 1 10) 0) = 0)
    by (destruct (i =? 4)%nat; reflexivity).
  assert (E2 : vx (if (j =? 0)%nat then vec3 0 0 0 else vec3 0 (lit (-1) 10) 0) = 0)
    by (destruct (j =? 0)%nat; reflexivity).
  rewrite E1, E2, Rplus_0_r. apply Lathe.CubicBezier_constant.
Qed.

Lemma initAnchor_height (params : LoftParams R) i :
  vy (a_position (initAnchor params i)) = IZR (Z.of_nat i) / 4 * height params.
Proof. reflexivity. Qed.

Lemma initLoftBezierAnchors_profile (params : LoftParams R) h :
  0 < height params ->
  getRadiusAtHeight (initLoftBezierAnchors params) params h
  = Some (Rmax (1 / 10) (radius params)).
Proof.
  intros Hh. unfold getRadiusAtHeight, zero. cbn [num_leb RNumber ofZ].
  destruct (Rle_dec h 0) as [H0|H0].
  { rewrite Rleb_true by exact H0. reflexivity. }
  rewrite Rleb_false by lra.
  destruct (Rle_dec (height params) h) as [H1|H1].
  { rewrite Rleb_true by exact H1. reflexivity. }
  rewrite Rleb_false by lra.
  unfold initLoftBezierAnchors. cbn [seq map findSegment].
  rewrite !initAnchor_curve, !initAnchor_height. cbn [Z.of_nat Pos.of_succ_nat Pos.succ].
  cbn [num_leb RNumber].
  set (H := height params) in *.
  destruct (Rle_dec h (1 / 4 * H)) as [L1|L1].
  { rewrite (Rleb_true (a := 0 / 4 * H)) by lra. rewrite (Rleb_true L1). reflexivity. }
  rewrite (Rleb_false (a := h) (b := 1 / 4 * H)) by lra. rewrite andb_false_r.
  destruct (Rle_dec h (2 / 4 * H)) as [L2|L2].
  { rewrite (Rleb_true (a := 1 / 4 * H)) by lra. rewrite (Rleb_true L2). reflexivity. }
  rewrite (Rleb_false (a := h) (b := 2 / 4 * H)) by lra. rewrite andb_false_r.
  destruct (Rle_dec h (3 / 4 * H)) as [L3|L3].
  { rewrite (Rleb_true (a := 2 / 4 * H)) by lra. rewrite (Rleb_true L3). reflexivity. }
  rewrite (Rleb_false (a := h) (b := 3 / 4 * H)) by lra. rewrite andb_false_r.
  rewrite (Rleb_true (a := 3 / 4 * H)) by lra.
  rewrite (Rleb_true (a := h) (b := 4 / 4 * H)) by lra. reflexivity.
Qed.
End Reals.

(** The lathe never fails once the profile has an anchor, in any arithmetic,
    and its arrays have one entry per grid vertex.  With no anchor at all it
    fails as soon as the height of the first ring tests at most 0 (the first
    ring then reads the missing first anchor): in exact arithmetic on every
    grid of at least two rings, and in binary64 on the grid of three rings.
    On a single ring the height step is [5 / 0] and the first height
    [0 * Infinity = NaN]: in binary64 no anchor is read, the one radius is
    [NaN] and a grid comes back. *)
Theorem createLoftGeometry_total :
  (forall (num : Type) (N : Number num) (a0 : LoftBezierAnchor num) rest
          (params : LoftParams num),
     exists g, createLoftGeometry (a0 :: rest) params = Some g
       /\ count (position g) = rings params * (segments params + 1)
       /\ count (normal g) = rings params * (segments params + 1)
       /\ length (uv g) = rings params * (segments params + 1) * 2)
  /\ (forall (num : Type) (N : Number num) (params : LoftParams num),
        0 < rings params ->
        (ringHeight params 0 <=? zero)%js = true ->
        createLoftGeometry [] params = None)
  /\ (forall params : LoftParams R,
        2 <= rings params ->
        @createLoftGeometry R RealArith.RNumber [] params = None)
  /\ (forall (fcos fsin : float -> float) (fatan2 fpow : float -> float -> float),
        let N := FloatArith.FloatNumber fcos fsin fatan2 fpow in
        createLoftGeometry [] FloatInputs.biasedParams64 = None
        /\ ringRadii [] Inputs64.singleRing64 = Some [nan]
        /\ exists g, createLoftGeometry [] Inputs64.singleRing64 = Some g).
Proof.
  assert (Hfail : forall (num : Type) (N : Number num) (params : LoftParams num),
             0 < rings params ->
             (ringHeight params 0 <=? zero)%js = true ->
             createLoftGeometry [] params = None).
  { intros num N params Hr Hy. unfold createLoftGeometry, ringRadii.
    destruct (rings params) as [|n]; [lia|].
    cbn [seq mapM]. unfold ringRadius at 1.
    unfold getRadiusAtHeight. rewrite Hy. reflexivity. }
  split; [|split; [exact Hfail|split]].
  - intros num N a0 rest params.
    destruct (createLoftGeometry_returns a0 rest params) as [g Eg].
    exists g. split; [exact Eg|].
    destruct (lathe_count _ _ Eg) as [Hp Hn]. split; [exact Hp|]. split; [exact Hn|].
    unfold createLoftGeometry in Eg.
    destruct (ringRadii (a0 :: rest) params) as [radii|]; [|discriminate].
    injection Eg as <-.
    cbn [uv]. unfold Float32BufferAttribute, perVertex. rewrite length_map.
    rewrite (flat_map_length_const _ (m := (segments params + 1) * 2)).
    + rewrite length_seq. lia.
    + intros r. rewrite (flat_map_length_const _ (m := 2)) by reflexivity.
      rewrite length_seq. reflexivity.
  - intros params Hr. apply Hfail; [lia|].
    unfold ringHeight, ofNat, zero.
    cbn [num_leb num_mul RealArith.RNumber ofZ Z.of_nat].
    rewrite Rmult_0_l. apply RealFacts.Rleb_true. lra.
  - intros fcos fsin fatan2 fpow N.
    assert (E : ringRadii [] Inputs64.singleRing64 = Some [nan])
      by (vm_compute; reflexivity).
    split; [|split; [exact E|]].
    + apply Hfail; [cbn; lia | vm_compute; reflexivity].
    + unfold createLoftGeometry. rewrite E. eexists. reflexivity.
Qed.

Lemma createLoftGeometry_total_witness :
  @createLoftGeometry R RealArith.RNumber [] (@loftParams R RealArith.RNumber) = None.
Proof.
  apply (proj1 (proj2 (proj2 createLoftGeometry_total))). cbn. lia.
Defined.

(** Every index of the lathe's triangles refers to a vertex of its position
    array; there are two triangles per quad; and on a grid of at least two
    rings and one segment every vertex belongs to some triangle. *)
Theorem createLoftGeometry_indices
    {num : Type} `{Number num} anchors (params : LoftParams num) g :
  createLoftGeometry anchors params = Some g ->
  exists idx,
    index g = Some idx
    /\ length idx = (rings params - 1) * segments params * 2 * 3
    /\ Forall (fun i => i < count (position g)) idx
    /\ (2 <= rings params -> 1 <= segments params ->
        forall v, v < count (position g) -> In v idx).
Proof.
  intros E. destruct (lathe_lengths _ _ E) as (_ & _ & Hi).
  destruct (lathe_count _ _ E) as [Hc _].
  exists (quadIndices params). split; [exact Hi|]. split; [|split].
  - rewrite quadIndices_length. lia.
  - rewrite Hc. apply quadIndices_bound.
  - intros Hn Hm v Hv. rewrite Hc in Hv.
    pose proof (Nat.div_mod_eq v (segments params + 1)) as Ev.
    pose proof (Nat.mod_upper_bound v (segments params + 1) ltac:(lia)) as Hs.
    assert (Hr : v / (segments params + 1) < rings params).
    { apply Nat.Div0.div_lt_upper_bound. lia. }
    replace v with (v / (segments params + 1) * (segments params + 1)
                    + v mod (segments params + 1)) by lia.
    apply quadIndices_cover; lia.
Qed.

Lemma createLoftGeometry_indices_witness :
  exists g idx,
    @createLoftGeometry R RealArith.RNumber Spec.scenarioA_anchors Spec.prismParams = Some g
    /\ index g = Some idx /\ length idx = (3 - 1) * 4 * 2 * 3
    /\ Forall (fun i => i < count (position g)) idx.
Proof.
  destruct (@createLoftGeometry_returns R RealArith.RNumber (Spec.cornerAnchor 2 0)
              [Spec.cornerAnchor 2 5] Spec.prismParams) as [g Eg].
  destruct (@createLoftGeometry_indices R RealArith.RNumber _ _ g Eg)
    as (idx & Hi & Hl & Hb & _).
  exists g, idx. split; [exact Eg|]. split; [exact Hi|]. split; [exact Hl | exact Hb].
Defined.

Section RealNormals.
Import RealArith RealFacts Spec.
Local Open Scope R_scope.

Lemma loftNormal_real (params : LoftParams R) radii r s :
  let k := radiusSlope params radii r in
  let th := theta params r s in
  loftNormal params radii r s
  = [- cos th / R_sqrt.sqrt (1 + k * k); - k / R_sqrt.sqrt (1 + k * k);
     - sin th / R_sqrt.sqrt (1 + k * k)].
Proof.
  intros k th.
  transitivity (let n := normalize (crossVectors (vec3 (- sin th) 0 (cos th))
                                                 (vec3 (- k * cos th) 1 (- k * sin th))) in
                [vx n; vy n; vz n]); [reflexivity|].
  cbv zeta. rewrite normalize_cross. reflexivity.
Qed.
End RealNormals.

(** In exact arithmetic, on a grid of at least two rings and one segment,
    every ring of the lathe is a circle around the axis: each of its vertices
    lies at the ring's height, at a distance from the axis equal to the
    ring's radius, which is never below the minimum radius 0.1.  (With a
    single ring or no segment the code divides zero by zero.) *)
Theorem createLoftGeometry_min_radius anchors (params : LoftParams R) g :
  createLoftGeometry anchors params = Some g ->
  2 <= rings params -> 1 <= segments params ->
  exists radii,
    ringRadii anchors params = Some radii
    /\ forall r s, r < rings params -> s <= segments params ->
         let p := fromBufferAttribute (position g) (r * (segments params + 1) + s) in
         Spec.radial p = nth r radii 0%R
         /\ (1 / 10 <= Spec.radial p)%R
         /\ vy p = ringHeight params r.
Proof.
  intros E _ _. destruct (lathe_vertex _ _ E) as (radii & Er & Hv).
  exists radii. split; [exact Er|]. intros r s Hr Hs p. subst p.
  rewrite (Hv r s Hr Hs).
  pose proof (@ringRadii_min _ _ _ r Er Hr) as Hmin.
  rewrite radial_circle by lra. cbn [vy]. split; [reflexivity|]. split; [exact Hmin | reflexivity].
Qed.

Lemma createLoftGeometry_min_radius_witness :
  exists g,
    createLoftGeometry Spec.scenarioA_anchors Spec.scenarioA = Some g
    /\ Spec.radial (fromBufferAttribute (position g) 20) = 2%R.
Proof.
  destruct (createLoftGeometry_returns (Spec.cornerAnchor 2 0) [Spec.cornerAnchor 2 5]
              Spec.scenarioA) as [g Eg].
  exists g. split; [exact Eg|].
  destruct (@createLoftGeometry_min_radius _ _ _ Eg ltac:(cbn; lia) ltac:(cbn; lia))
    as (radii & Er & Hv).
  change (Spec.cornerAnchor 2 0 :: [Spec.cornerAnchor 2 5]) with Spec.scenarioA_anchors in Er.
  rewrite Lathe.scenarioA_ringRadii in Er. injection Er as <-.
  destruct (Hv 1 3 ltac:(cbn; lia) ltac:(cbn; lia)) as (Hrad & _ & _).
  exact Hrad.
Defined.

(** In exact arithmetic, on a grid of at least two rings and one segment
    with a height other than 0 (so that no slope divides by zero), the normal
    the lathe computes at a grid vertex is a unit vector whose horizontal
    part points at the axis (its component along the vertex's radial
    direction is negative); [ensureNormalsPointOutward], which the rebuild
    runs next, replaces every one of them by its opposite. *)
Theorem createLoftGeometry_normals_inward anchors (params : LoftParams R) g :
  createLoftGeometry anchors params = Some g ->
  2 <= rings params -> 1 <= segments params -> height params <> 0%R ->
  forall r s, r < rings params -> s <= segments params ->
    let i := r * (segments params + 1) + s in
    let p := fromBufferAttribute (position g) i in
    let n := fromBufferAttribute (normal g) i in
    (vx n * vx n + vy n * vy n + vz n * vz n = 1)%R
    /\ (vx n * vx p + vz n * vz p < 0)%R
    /\ fromBufferAttribute (normal (ensureNormalsPointOutward g)) i = negV n.
Proof.
  intros E _ _ _ r s Hr Hs i p n.
  destruct (lathe_vertex _ _ E) as (radii & Er & Hv).
  destruct (lathe_normal _ _ E) as (radii' & Er' & Hn).
  rewrite Er in Er'. injection Er' as <-.
  pose proof (@ringRadii_min _ _ _ r Er Hr) as Hmin.
  destruct (lathe_count _ _ E) as [Hcp Hcn].
  assert (Ep : p = vec3 (nth r radii 0 * cos (theta params r s))%R (ringHeight params r)
                        (nth r radii 0 * sin (theta params r s))%R)
    by (apply Hv; assumption).
  set (k := radiusSlope params radii r) in *. set (th := theta params r s) in *.
  set (L := R_sqrt.sqrt (1 + k * k)).
  assert (En : n = vec3 (- cos th / L)%R (- k / L)%R (- sin th / L)%R).
  { subst n i. rewrite (Hn r s Hr Hs). rewrite loftNormal_real. reflexivity. }
  assert (HL : (L * L = 1 + k * k)%R) by (apply sqrt_sqrt; nra).
  assert (HL1 : (1 <= L)%R).
  { unfold L. rewrite <- sqrt_1 at 1. apply sqrt_le_1_alt. nra. }
  pose proof (sin2_cos2 th) as Esc. unfold Rsqr in Esc.
  set (rho := nth r radii 0%R) in *.
  assert (Hunit : (vx n * vx n + vy n * vy n + vz n * vz n = 1)%R).
  { rewrite En. cbn [vx vy vz].
    replace (- cos th / L * (- cos th / L) + - k / L * (- k / L)
             + - sin th / L * (- sin th / L))%R
      with ((sin th * sin th + cos th * cos th + k * k) / (L * L))%R by (field; lra).
    rewrite Esc, HL. field. nra. }
  assert (Hin : (vx n * vx p + vz n * vz p < 0)%R).
  { rewrite En, Ep. cbn [vx vy vz].
    replace (- cos th / L * (rho * cos th) + - sin th / L * (rho * sin th))%R
      with (- (rho * (sin th * sin th + cos th * cos th) / L))%R by (field; lra).
    rewrite Esc, Rmult_1_r.
    assert (0 < rho / L)%R by (apply Rdiv_lt_0_compat; lra). lra. }
  split; [exact Hunit|]. split; [exact Hin|].
  assert (Hc : count (position g) <= count (normal g)) by lia.
  rewrite (Normals.ensureNormalsPointOutward_normal g i Hc).
  assert (Hi : i < count (position g)) by (rewrite Hcp; unfold i; nia).
  rewrite (proj2 (Nat.ltb_lt _ _) Hi). cbn [andb]. fold p n.
  assert (Ht : pointsInward p n = true).
  { apply Normals.pointsInward_spec. split; [|exact Hin].
    rewrite Ep. rewrite radial_circle by lra. lra. }
  rewrite Ht. reflexivity.
Qed.

Lemma createLoftGeometry_normals_inward_witness :
  exists g,
    createLoftGeometry Spec.scenarioA_anchors Spec.scenarioA = Some g
    /\ fromBufferAttribute (normal (ensureNormalsPointOutward g)) 20
       = negV (fromBufferAttribute (normal g) 20).
Proof.
  destruct (createLoftGeometry_returns (Spec.cornerAnchor 2 0) [Spec.cornerAnchor 2 5]
              Spec.scenarioA) as [g Eg].
  exists g. split; [exact Eg|].
  destruct (@createLoftGeometry_normals_inward _ _ _ Eg ltac:(cbn; lia) ltac:(cbn; lia)
              ltac:(cbn; lra) 1 3 ltac:(cbn; lia) ltac:(cbn; lia))
    as (_ & _ & Hflip).
  exact Hflip.
Defined.

(** In exact arithmetic, on a grid of at least two rings and one segment,
    the stored [u] of every vertex lies in [0, 1) and its [v] is
    [ring / (rings - 1)]; the
    closing vertex of a ring carries the same [u] as its first vertex (it
    wraps to the start, it is not 1 more); and without texture rotation the
    vertex of segment [s < segments] has [u = s / segments]. *)
Theorem createLoftGeometry_uv anchors (params : LoftParams R) g :
  createLoftGeometry anchors params = Some g ->
  2 <= rings params -> 0 < segments params ->
  forall r s, r < rings params -> s <= segments params ->
    let i := r * (segments params + 1) + s in
    (0 <= getU (uv g) i < 1)%R
    /\ getV (uv g) i = (IZR (Z.of_nat r) / (IZR (Z.of_nat (rings params)) - 1))%R
    /\ getU (uv g) (r * (segments params + 1) + segments params)
       = getU (uv g) (r * (segments params + 1))
    /\ (textureRotation params = 0%R -> s < segments params ->
        getU (uv g) i = (IZR (Z.of_nat s) / IZR (Z.of_nat (segments params)))%R).
Proof.
  intros E _ Hm r s Hr Hs i.
  destruct (lathe_uv _ _ E Hr Hs) as [Hu Hv]. fold i in Hu, Hv.
  change (getU (uv g) i = nth 0 (loftUV params r s) 0%R) in Hu.
  change (getV (uv g) i = nth 1 (loftUV params r s) 0%R) in Hv.
  rewrite loftUV_u in Hu. rewrite loftUV_v in Hv.
  assert (Hsegs : (0 < IZR (Z.of_nat (segments params)))%R) by (apply (IZR_lt 0); lia).
  split; [|split; [exact Hv|split]].
  - rewrite Hu. destruct (base_fp (IZR (Z.of_nat s) / IZR (Z.of_nat (segments params))
        + textureRotation params * PI / 180
          * (IZR (Z.of_nat r) / (IZR (Z.of_nat (rings params)) - 1)) / (PI * 2))%R).
    lra.
  - destruct (@lathe_uv _ _ _ _ _ r (segments params) E Hr ltac:(lia)) as [Hl _].
    destruct (@lathe_uv _ _ _ _ _ r 0 E Hr ltac:(lia)) as [Hf _].
    rewrite Nat.add_0_r in Hf.
    change (getU (uv g) (r * (segments params + 1) + segments params)
            = nth 0 (loftUV params r (segments params)) 0%R) in Hl.
    change (getU (uv g) (r * (segments params + 1))
            = nth 0 (loftUV params r 0) 0%R) in Hf.
    rewrite Hl, Hf, !loftUV_u. cbn [Z.of_nat].
    replace (IZR (Z.of_nat (segments params)) / IZR (Z.of_nat (segments params)))%R
      with 1%R by (field; lra).
    replace (0 / IZR (Z.of_nat (segments params)))%R with 0%R by (unfold Rdiv; ring).
    rewrite Rplus_0_l. apply frac_part_succ.
  - intros Hrot Hlt. rewrite Hu, Hrot.
    replace (0 * PI / 180 * (IZR (Z.of_nat r) / (IZR (Z.of_nat (rings params)) - 1))
             / (PI * 2))%R with 0%R by (unfold Rdiv; ring).
    rewrite Rplus_0_r. apply frac_part_small.
    assert (0 <= IZR (Z.of_nat s))%R by (apply (IZR_le 0); lia).
    assert (IZR (Z.of_nat s) < IZR (Z.of_nat (segments params)))%R by (apply IZR_lt; lia).
    split.
    + apply Rmult_le_pos; [lra|]. left. apply Rinv_0_lt_compat. lra.
    + apply (Rmult_lt_reg_r (IZR (Z.of_nat (segments params)))); [lra|].
      unfold Rdiv. rewrite Rmult_assoc, Rinv_l by lra. lra.
Qed.

Lemma createLoftGeometry_uv_witness :
  exists g,
    createLoftGeometry Spec.scenarioA_anchors Spec.scenarioA = Some g
    /\ getU (uv g) 16 = getU (uv g) 0
    /\ (0 <= getU (uv g) 20 < 1)%R.
Proof.
  destruct (createLoftGeometry_returns (Spec.cornerAnchor 2 0) [Spec.cornerAnchor 2 5]
              Spec.scenarioA) as [g Eg].
  exists g. split; [exact Eg|].
  assert (Hm : 0 < segments Spec.scenarioA) by (cbn; lia).
  assert (Hn : 2 <= rings Spec.scenarioA) by (cbn; lia).
  destruct (@createLoftGeometry_uv _ _ _ Eg Hn Hm 0 0 ltac:(cbn; lia) ltac:(cbn; lia))
    as (_ & _ & Hseam & _).
  destruct (@createLoftGeometry_uv _ _ _ Eg Hn Hm 1 3 ltac:(cbn; lia) ltac:(cbn; lia))
    as (Hrange & _).
  split; [exact Hseam | exact Hrange].
Defined.

(** In exact arithmetic, with a positive total height, the profile the
    editor starts from answers [max(0.1, radius)] at every height; with a
    nominal radius of at least 0.1, no taper and at least two rings every
    ring of the lathe has the nominal radius: the initial shape is a
    cylinder.  (With a single ring the taper of the code is [0 / 0].) *)
Theorem initLoftBezierAnchors_cylinder (params : LoftParams R) :
  (0 < height params)%R ->
  length (initLoftBezierAnchors params) = 5
  /\ (forall h, getRadiusAtHeight (initLoftBezierAnchors params) params h
                = Some (Rmax (1 / 10) (radius params)))
  /\ ((1 / 10 <= radius params)%R -> taper params = 1%R -> 2 <= rings params ->
      ringRadii (initLoftBezierAnchors params) params
      = Some (repeat (radius params) (rings params))).
Proof.
  intros Hh. split; [reflexivity|]. split.
  - intros h. apply initLoftBezierAnchors_profile. exact Hh.
  - intros Hrad Htap _. unfold ringRadii.
    rewrite (Lathe.mapM_const _ (c := radius params)).
    + rewrite length_seq. reflexivity.
    + intros r. unfold ringRadius. rewrite initLoftBezierAnchors_profile by exact Hh.
      cbn [option_map]. f_equal. rewrite Lathe.ringTaper_linear, Htap.
      unfold minRadius, lit. cbn [num_mul num_div Math_max RealArith.RNumber ofZ].
      rewrite (Rmax_right (1 / 10) (radius params)) by exact Hrad.
      replace (radius params * (1 + (1 - 1) * _))%R with (radius params) by lra.
      apply Rmax_right. exact Hrad.
Qed.

Lemma initLoftBezierAnchors_cylinder_witness :
  getRadiusAtHeight (initLoftBezierAnchors loftParams) loftParams (7 / 3)%R = Some 2%R
  /\ ringRadii (initLoftBezierAnchors loftParams) loftParams = Some (repeat 2%R 300).
Proof.
  assert (Hh : (0 < height (@loftParams R RealArith.RNumber))%R) by (cbn; lra).
  destruct (initLoftBezierAnchors_cylinder loftParams Hh) as (_ & Hp & Hr).
  split.
  - rewrite Hp. cbn [radius loftParams ofZ RealArith.RNumber].
    rewrite Rmax_right by lra. reflexivity.
  - apply Hr; cbn; lra || lia.
Defined.
End LatheShape.

(** ** The rebuild pipeline, end to end *)

Module Rebuild.
Section Generic.
Context {num : Type} `{Number num}.

Lemma Float32_stored (l : list num) :
  froundIdempotent -> storedAll (Float32BufferAttribute l).
Proof.
  intros Hi j Hj. apply count_bound in Hj.
  unfold Float32BufferAttribute in Hj. rewrite length_map in Hj.
  unfold storedVertex, roundV, fromBufferAttribute, getX, getY, getZ. cbn [vx vy vz].
  rewrite !Caps.nth_Float32 by lia. rewrite !Hi. reflexivity.
Qed.

Lemma iter_smoothPass_stored segs n (p : list num) k :
  froundIdempotent -> storedAll p ->
  storedAll (Nat.iter k (smoothPass segs n) p)
  /\ count (Nat.iter k (smoothPass segs n) p) = count p.
Proof.
  intros Hi Hst. induction k as [|k [IH Hc]]; [split; [exact Hst | reflexivity]|].
  rewrite !Nat.iter_succ. split.
  - apply Displacement.smoothPass_stored. exact Hi.
  - rewrite Displacement.smoothPass_count. exact Hc.
Qed.

(** Smoothing ends with a seam-closing loop: whatever the grid it was given,
    its seams are closed afterwards. *)
Lemma smoothDisplacedGeometry_closed (g : BufferGeometry num) segs n passes :
  froundIdempotent -> storedAll (position g) -> n * (segs + 1) <= count (position g) ->
  let g' := smoothDisplacedGeometry g segs n passes in
  storedAll (position g') /\ seamsClosed segs n (position g')
  /\ count (position g') = count (position g).
Proof.
  intros Hi Hst Hn g'. subst g'. unfold smoothDisplacedGeometry. cbn [position].
  destruct (iter_smoothPass_stored segs n passes Hi Hst) as [Hk Hc].
  split; [|split].
  - apply Displacement.matchSeam_stored; [exact Hi | rewrite Hc; exact Hn | exact Hk].
  - apply Displacement.matchSeam_closes; [rewrite Hc; exact Hn | exact Hk].
  - rewrite Displacement.matchSeam_count. exact Hc.
Qed.

Lemma smoothAndRepair_position (g : BufferGeometry num) segs n passes :
  position (smoothAndRepair g segs n passes)
  = position (smoothDisplacedGeometry g segs n passes).
Proof. reflexivity. Qed.

(** Whatever path [applyDisplacementToGeometry] takes, a grid of stored
    values with closed seams stays one. *)
Lemma applyDisplacement_stored_closed (params : LoftParams num) (g : BufferGeometry num)
      tex scale bias useVN :
  froundIdempotent ->
  let segs := segments params in
  let n := numRingsOf segs (position g) in
  storedAll (position g) -> seamsClosed segs n (position g) ->
  let g' := applyDisplacementToGeometry params g tex scale bias useVN in
  storedAll (position g') /\ seamsClosed segs n (position g')
  /\ count (position g') = count (position g).
Proof.
  intros Hi segs n Hst Hcl g'. subst g'.
  assert (Hid : storedAll (position g) /\ seamsClosed segs n (position g)
                /\ count (position g) = count (position g)) by auto.
  destruct tex as [tex|]; [|exact Hid].
  destruct (if useVN then Some None
            else option_map Some
                   (calculateFaceNormalsForVertices (ensureNormalsPointOutward g)))
    as [fnm|] eqn:Hfn.
  2:{ unfold applyDisplacementToGeometry. rewrite Hfn. exact Hid. }
  destruct (image tex) as [img|] eqn:Himg.
  2:{ unfold applyDisplacementToGeometry. rewrite Hfn, Himg. exact Hid. }
  rewrite (Displacement.applyDisplacement_position params scale bias (conj Himg Hfn)).
  fold segs n.
  destruct (Displacement.displacePositions_props img params scale bias
              (ensureNormalsPointOutward g) fnm Hi) as (Hc & Hs1 & Hc1).
  cbn [position ensureNormalsPointOutward] in Hc, Hc1. fold segs n in Hc1.
  set (p1 := displacePositions img params scale bias (ensureNormalsPointOutward g) fnm) in *.
  destruct (_ && _); [|auto].
  assert (Hn : n * (segs + 1) <= count p1)
    by (rewrite Hc; apply Displacement.numRings_le).
  destruct (iter_smoothPass_stored segs n (smoothingIntensity params) Hi Hs1) as [Hk Hck].
  split; [|split].
  - apply Displacement.matchSeam_stored; [exact Hi | rewrite Hck; exact Hn | exact Hk].
  - apply Displacement.matchSeam_closes; [rewrite Hck; exact Hn | exact Hk].
  - rewrite Displacement.matchSeam_count, Hck. exact Hc.
Qed.
End Generic.

(** The body and the caps the rebuild returns fit together.  For a Float32
    rounding that leaves Float32 values alone, with geometry smoothing on (as
    the editor has it) and at least one ring: the body keeps one vertex per
    grid cell and the first and last vertex of each of its rings coincide;
    every rim vertex of the bottom (top) cap is exactly the vertex of the
    first (last) body ring it was read from; and the rim of each cap closes on
    itself. *)
Theorem updateLoftGeometry_watertight
    {num : Type} `{Number num} anchors (params : LoftParams num) tex body bottom top :
  froundIdempotent ->
  enableSmoothing params = true -> 0 < geometrySmoothing params -> 0 < rings params ->
  updateLoftGeometry anchors params tex = Some (body, (bottom, top)) ->
  let segs := segments params in
  count (position body) = rings params * (segs + 1)
  /\ seamsClosed segs (rings params) (position body)
  /\ (forall seg, seg <= segs ->
        fromBufferAttribute (position bottom) (1 + seg)
        = fromBufferAttribute (position body) seg)
  /\ (forall seg, seg <= segs ->
        fromBufferAttribute (position top) (1 + seg)
        = fromBufferAttribute (position body) ((rings params - 1) * (segs + 1) + seg))
  /\ fromBufferAttribute (position bottom) (1 + segs)
     = fromBufferAttribute (position bottom) 1
  /\ fromBufferAttribute (position top) (1 + segs)
     = fromBufferAttribute (position top) 1.
Proof.
  intros Hi Hsm Hgs Hr E segs.
  pose proof (Caps.updateLoftGeometry_caps _ _ _ E) as Ecaps.
  unfold updateLoftGeometry in E.
  destruct (createLoftGeometry anchors params) as [g0|] eqn:E0; [|discriminate].
  rewrite Hsm, (proj2 (Nat.ltb_lt _ _) Hgs) in E. cbn [andb] in E.
  destruct (LatheShape.lathe_count _ _ E0) as [Hc0 _].
  assert (Hst0 : storedAll (position g0)).
  { unfold createLoftGeometry in E0.
    destruct (ringRadii anchors params); [|discriminate].
    injection E0 as <-. cbn [position]. apply Float32_stored. exact Hi. }
  cbn [position ensureNormalsPointOutward] in E.
  assert (Hn : count (position g0) / (segments params + 1) = rings params).
  { rewrite Hc0. apply Nat.div_mul. lia. }
  rewrite Hn in E. fold segs in E, Hc0.
  set (g2 := smoothAndRepair (ensureNormalsPointOutward g0) segs (rings params)
                             (geometrySmoothing params)) in *.
  destruct (smoothDisplacedGeometry_closed (ensureNormalsPointOutward g0) segs
              (rings params) (geometrySmoothing params) Hi Hst0)
    as (Hst2 & Hcl2 & Hc2).
  { cbn [position ensureNormalsPointOutward]. rewrite Hc0. lia. }
  cbn [position ensureNormalsPointOutward] in Hc2.
  rewrite <- (smoothAndRepair_position (ensureNormalsPointOutward g0)) in Hst2, Hcl2, Hc2.
  fold g2 in Hst2, Hcl2, Hc2.
  assert (Hn2 : numRingsOf segs (position g2) = rings params).
  { unfold numRingsOf. rewrite Hc2, Hc0. apply Nat.div_mul. lia. }
  assert (Hbody : storedAll (position body) /\ seamsClosed segs (rings params) (position body)
                  /\ count (position body) = rings params * (segs + 1)).
  { assert (Hg2 : storedAll (position g2) /\ seamsClosed segs (rings params) (position g2)
                  /\ count (position g2) = rings params * (segs + 1))
      by (rewrite Hc0 in Hc2; auto).
    destruct tex as [t|].
    - destruct (nonZero (displacementScale params) || nonZero (displacementBias params)).
      + assert (Eb : body = applyDisplacementToGeometry params g2 (Some t)
                              (displacementScale params) (displacementBias params)
                              (negb (isFace (normalType params)))) by congruence.
        rewrite Eb.
        destruct (applyDisplacement_stored_closed params g2 (Some t)
                    (displacementScale params) (displacementBias params)
                    (negb (isFace (normalType params))) Hi) as (H1 & H2 & H3).
        * exact Hst2.
        * fold segs. rewrite Hn2. exact Hcl2.
        * fold segs in H2. rewrite Hn2 in H2. rewrite Hc2, Hc0 in H3.
          split; [exact H1|]. split; [exact H2 | exact H3].
      + assert (Eb : body = g2) by congruence. rewrite Eb. exact Hg2.
    - assert (Eb : body = g2) by congruence. rewrite Eb. exact Hg2. }
  clear E.
  destruct Hbody as (Hst & Hcl & Hc).
  destruct (Caps.createWeldedCapGeometries_vertices body params Hr) as (Hb & Ht & _).
  { intros seg Hseg. split; apply Hst; rewrite Hc; fold segs; nia. }
  rewrite <- Ecaps in Hb, Ht. cbn [fst snd] in Hb, Ht. fold segs in Hb, Ht.
  split; [exact Hc|]. split; [exact Hcl|]. split; [exact Hb|]. split; [exact Ht|].
  split.
  - pose proof (Hb 0 ltac:(lia)) as B0. change (1 + 0) with 1 in B0.
    rewrite (Hb segs), B0 by lia.
    pose proof (Hcl 0 Hr) as S0. unfold seamClosed in S0. cbn [Nat.mul Nat.add] in S0.
    exact S0.
  - pose proof (Ht 0 ltac:(lia)) as T0. change (1 + 0) with 1 in T0.
    rewrite (Ht segs), T0 by lia. rewrite Nat.add_0_r.
    apply (Hcl (rings params - 1)). lia.
Qed.

Lemma updateLoftGeometry_watertight_witness :
  exists body bottom top,
    @updateLoftGeometry R RealArith.RNumber Spec.scenarioA_anchors Spec.prismParams None
    = Some (body, (bottom, top))
    /\ @seamsClosed R RealArith.RNumber 4 3 (position body)
    /\ @fromBufferAttribute R RealArith.RNumber (position bottom) 5
       = @fromBufferAttribute R RealArith.RNumber (position bottom) 1.
Proof.
  destruct (@updateLoftGeometry R RealArith.RNumber Spec.scenarioA_anchors
              Spec.prismParams None) as [[body [bottom top]]|] eqn:E.
  - exists body, bottom, top. split; [reflexivity|].
    assert (Hi : @froundIdempotent R RealArith.RNumber) by (intros x; reflexivity).
    destruct (@updateLoftGeometry_watertight R RealArith.RNumber Spec.scenarioA_anchors
                Spec.prismParams None body bottom top
                Hi eq_refl ltac:(cbn; lia) ltac:(cbn; lia) E)
      as (_ & Hcl & _ & _ & Hrim & _).
    split; [exact Hcl | exact Hrim].
  - exfalso. unfold updateLoftGeometry in E.
    destruct (@LatheShape.createLoftGeometry_returns R RealArith.RNumber
                (Spec.cornerAnchor 2 0) [Spec.cornerAnchor 2 5] Spec.prismParams)
      as [g Eg].
    change (Spec.cornerAnchor 2 0 :: [Spec.cornerAnchor 2 5])
      with Spec.scenarioA_anchors in Eg.
    rewrite Eg in E. discriminate E.
Defined.
End Rebuild.

(** ** Topology of the caps *)

Module CapFans.
Section Generic.
Context {num : Type} `{Number num}.

Lemma capGeometry_vertex_count ring segs ny tri :
  count (position (capGeometry ring segs ny tri)) = segs + 2.
Proof. unfold count. rewrite Caps.capGeometry_count. apply Nat.div_mul. lia. Qed.

Lemma fan_length (tri : nat -> list nat) segs :
  (forall k, length (tri k) = 3) -> length (flat_map tri (seq 0 segs)) = segs * 3.
Proof.
  intros Ht. rewrite (flat_map_length_const _ (m := 3)) by exact Ht.
  rewrite length_seq. reflexivity.
Qed.

Lemma fan_triangle (tri : nat -> list nat) segs k c :
  (forall k, length (tri k) = 3) -> k < segs -> c < 3 ->
  nth (k * 3 + c) (flat_map tri (seq 0 segs)) 0 = nth c (tri k) 0.
Proof.
  intros Ht Hk Hc. rewrite (nth_flat_map_chunk tri (m := 3)) by assumption.
  reflexivity.
Qed.

Lemma fan_bound (tri : nat -> list nat) segs :
  (forall k, k < segs -> Forall (fun i => i < segs + 2) (tri k)) ->
  Forall (fun i => i < segs + 2) (flat_map tri (seq 0 segs)).
Proof.
  intros Ht. apply Forall_forall. intros i Hi. apply in_flat_map in Hi.
  destruct Hi as (k & Hk & Hi). apply in_seq in Hk.
  specialize (Ht k ltac:(lia)). rewrite Forall_forall in Ht. apply Ht. exact Hi.
Qed.

Lemma capGeometry_normal ring segs ny tri i :
  i < segs + 2 ->
  fromBufferAttribute (normal (capGeometry ring segs ny tri)) i
  = roundV (vec3 zero ny zero).
Proof.
  intros Hi. unfold capGeometry. cbn [normal].
  set (f := fun _ : nat => [zero; ny; zero]).
  set (l := [zero; ny; zero] ++ flat_map f (seq 0 (segs + 1))).
  assert (Hlen : length l = (segs + 2) * 3).
  { unfold l. rewrite length_app, (flat_map_length_const _ (m := 3)) by reflexivity.
    rewrite length_seq. cbn [length]. lia. }
  assert (Hc : forall c, c < 3 -> nth (i * 3 + c) l undef = nth c [zero; ny; zero] undef).
  { intros c Hc. unfold l. destruct i as [|k].
    - rewrite app_nth1 by (cbn; lia). reflexivity.
    - rewrite app_nth2 by (cbn; lia).
      replace (S k * 3 + c - length [zero; ny; zero]) with (k * 3 + c) by (cbn; lia).
      rewrite (nth_flat_map_chunk f (m := 3)) by (auto; lia). reflexivity. }
  unfold fromBufferAttribute, getX, getY, getZ, roundV. cbn [vx vy vz].
  rewrite !Caps.nth_Float32 by (rewrite Hlen; lia).
  pose proof (Hc 0 ltac:(lia)) as H0. rewrite Nat.add_0_r in H0.
  rewrite H0, (Hc 1), (Hc 2) by lia. reflexivity.
Qed.
End Generic.

(** The caps are triangle fans around their centre vertex.  Each cap has
    [segments] triangles whose indices all refer to its own [segments + 2]
    vertices; triangle [k] joins the centre (vertex 0) to the rim vertices
    [k + 1] and [k + 2], in one order on the bottom cap and in the opposite
    order on the top cap; every normal of the bottom cap is (0, -1, 0) and
    every normal of the top cap is (0, 1, 0), as stored. *)
Theorem createWeldedCapGeometries_fans
    {num : Type} `{Number num} (g : BufferGeometry num) (params : LoftParams num) :
  let caps := createWeldedCapGeometries g params in
  let segs := segments params in
  exists idxB idxT,
    index (fst caps) = Some idxB /\ index (snd caps) = Some idxT
    /\ length idxB = segs * 3 /\ length idxT = segs * 3
    /\ Forall (fun i => i < count (position (fst caps))) idxB
    /\ Forall (fun i => i < count (position (snd caps))) idxT
    /\ (forall k, k < segs ->
          (nth (k * 3) idxB 0, nth (k * 3 + 1) idxB 0, nth (k * 3 + 2) idxB 0)
          = (0, k + 2, k + 1)
          /\ (nth (k * 3) idxT 0, nth (k * 3 + 1) idxT 0, nth (k * 3 + 2) idxT 0)
             = (0, k + 1, k + 2))
    /\ (forall i, i < segs + 2 ->
          fromBufferAttribute (normal (fst caps)) i = roundV (vec3 zero (ofZ (-1)) zero)
          /\ fromBufferAttribute (normal (snd caps)) i = roundV (vec3 zero one zero)).
Proof.
  intros caps segs. subst caps. unfold createWeldedCapGeometries. cbn [fst snd]. fold segs.
  set (triB := fun seg => [0; seg + 2; seg + 1]).
  set (triT := fun seg => [0; seg + 1; seg + 2]).
  exists (flat_map triB (seq 0 segs)), (flat_map triT (seq 0 segs)).
  split; [reflexivity|]. split; [reflexivity|].
  split; [apply fan_length; reflexivity|]. split; [apply fan_length; reflexivity|].
  split; [|split; [|split]].
  - rewrite capGeometry_vertex_count. apply fan_bound. intros k Hk.
    repeat constructor; lia.
  - rewrite capGeometry_vertex_count. apply fan_bound. intros k Hk.
    repeat constructor; lia.
  - intros k Hk.
    pose proof (fan_triangle triB (c := 0) ltac:(reflexivity) Hk ltac:(lia)) as B0.
    pose proof (fan_triangle triT (c := 0) ltac:(reflexivity) Hk ltac:(lia)) as T0.
    rewrite Nat.add_0_r in B0, T0.
    rewrite B0, T0, !(fan_triangle triB), !(fan_triangle triT) by (auto; lia).
    split; reflexivity.
  - intros i Hi. split; apply capGeometry_normal; exact Hi.
Qed.
End CapFans.

(** ** Smoothing *)

Module Smoothing.
Section Generic.
Context {num : Type} `{Number num}.

Lemma matchSeam_length segs n (a : list num) : length (matchSeam segs n a) = length a.
Proof.
  unfold matchSeam. generalize (seq 0 n) as l. intros l. revert a.
  induction l as [|r l IH]; intros a; [reflexivity|].
  cbn [fold_left]. rewrite IH. apply setXYZ_length.
Qed.

Lemma smoothPass_length segs n (p : list num) : length (smoothPass segs n p) = length p.
Proof.
  unfold smoothPass. rewrite Displacement.copyBack_fold.
  apply (fold_setV_length
           (fun i (_ : Vector3 num) => fromBufferAttribute (smoothedPositions p segs n) i)).
Qed.

Lemma iter_smoothPass_length segs n (p : list num) k :
  length (Nat.iter k (smoothPass segs n) p) = length p.
Proof.
  induction k as [|k IH]; [reflexivity|].
  rewrite Nat.iter_succ, smoothPass_length. exact IH.
Qed.

(** The vertex a pass leaves at a grid cell. *)
Lemma smoothPass_cell segs n (p : list num) r s :
  n * (segs + 1) <= count p -> r < n -> s <= segs ->
  fromBufferAttribute (smoothPass segs n p) (r * (segs + 1) + s)
  = roundV (roundV (smoothedVertex p segs n (r, s))).
Proof.
  intros Hn Hr Hs.
  assert (Hb : r * (segs + 1) + s < count p) by nia.
  rewrite Displacement.smoothPass_vertex by exact Hb.
  change (r * (segs + 1) + s) with (cellIndex segs (r, s)).
  rewrite Displacement.smoothedPositions_cell; auto.
Qed.

Lemma smoothPass_keeps_cap segs n (p0 q : list num) :
  n * (segs + 1) <= count q ->
  capVerticesStored segs n p0 ->
  (forall r s, capRing n r -> s <= segs ->
     fromBufferAttribute q (r * (segs + 1) + s)
     = fromBufferAttribute p0 (r * (segs + 1) + s)) ->
  forall r s, capRing n r -> s <= segs ->
    fromBufferAttribute (smoothPass segs n q) (r * (segs + 1) + s)
    = fromBufferAttribute p0 (r * (segs + 1) + s).
Proof.
  intros Hn Hst Hq r s Hcap Hs.
  rewrite smoothPass_cell; [|exact Hn|apply Hcap|exact Hs].
  rewrite (Displacement.smoothedVertex_cap _ _ _ Hcap).
  unfold cellIndex. cbn [fst snd]. rewrite (Hq r s Hcap Hs).
  rewrite !(Hst r s Hcap Hs). reflexivity.
Qed.

Lemma iter_keeps_cap segs n (p : list num) k :
  n * (segs + 1) <= count p ->
  capVerticesStored segs n p ->
  (forall r s, capRing n r -> s <= segs ->
     fromBufferAttribute (Nat.iter k (smoothPass segs n) p) (r * (segs + 1) + s)
     = fromBufferAttribute p (r * (segs + 1) + s))
  /\ count (Nat.iter k (smoothPass segs n) p) = count p.
Proof.
  intros Hn Hst. induction k as [|k [IH Hc]]; [split; [reflexivity | reflexivity]|].
  rewrite !Nat.iter_succ. split.
  - apply smoothPass_keeps_cap; [rewrite Hc; exact Hn | exact Hst | exact IH].
  - rewrite Displacement.smoothPass_count. exact Hc.
Qed.
End Generic.

Section Hull.
Import RealArith RealFacts Inputs.
Local Open Scope R_scope.
#[local] Existing Instance RNumber.
Variables (a b c lo hi : R).

Lemma along_roundV (v : Vector3 R) : along a b c (roundV v) = along a b c v.
Proof. reflexivity. Qed.

Lemma accumulate_within (p : list R) s idx w :
  0 < w -> lo <= along a b c (fromBufferAttribute p idx) <= hi ->
  sumsWithin a b c lo hi s -> sumsWithin a b c lo hi (accumulate p s idx w).
Proof.
  intros Hw Hv [HW HS]. unfold sumsWithin, accumulate, along, fromBufferAttribute in *.
  cbn [vx vy vz sumX sumY sumZ totalWeight num_add num_mul RNumber] in *.
  split; [lra|]. nra.
Qed.

Lemma verticalStep_within (p : list R) segs n r s sums off :
  (forall j, (j < count p)%nat -> lo <= along a b c (fromBufferAttribute p j) <= hi) ->
  (n * (segs + 1) <= count p)%nat -> (s <= segs)%nat -> off <> 0%Z ->
  sumsWithin a b c lo hi sums ->
  sumsWithin a b c lo hi (verticalStep p segs n r s sums off).
Proof.
  intros Hp Hn Hs Hoff Hin. unfold verticalStep.
  destruct ((0 <=? Z.of_nat r + off)%Z && (Z.of_nat r + off <? Z.of_nat n)%Z) eqn:Et;
    [|exact Hin].
  apply andb_prop in Et. destruct Et as [E1 E2].
  apply Z.leb_le in E1. apply Z.ltb_lt in E2.
  apply accumulate_within; [| |exact Hin].
  - unfold lit. cbn [num_div Math_abs RNumber ofZ].
    apply Rdiv_lt_0_compat; [lra|]. apply Rabs_pos_lt. apply not_0_IZR. exact Hoff.
  - apply Hp. assert (Z.to_nat (Z.of_nat r + off) < n)%nat by lia. nia.
Qed.

Lemma horizontalStep_within (p : list R) segs n r s sums off :
  (forall j, (j < count p)%nat -> lo <= along a b c (fromBufferAttribute p j) <= hi) ->
  (n * (segs + 1) <= count p)%nat -> (0 < r)%nat -> (r < n - 1)%nat -> (s <= segs)%nat ->
  (off = -1 \/ off = 1)%Z ->
  sumsWithin a b c lo hi sums ->
  sumsWithin a b c lo hi (horizontalStep p segs r s sums off).
Proof.
  intros Hp Hn Hr0 Hr1 Hs Hoff Hin. unfold horizontalStep.
  apply accumulate_within; [| |exact Hin].
  - unfold lit. cbn [num_div RNumber ofZ]. lra.
  - apply Hp.
    set (ns0 := (Z.of_nat s + off)%Z).
    set (ns1 := if (ns0 <? 0)%Z then (Z.of_nat segs - 1)%Z else ns0).
    set (ns2 := if (Z.of_nat segs <? ns1)%Z then 1%Z else ns1).
    assert (Hns : (-1 <= ns2 <= Z.of_nat segs + 1)%Z).
    { unfold ns2, ns1, ns0.
      destruct Hoff as [-> | ->];
        repeat match goal with
               | |- context [(?x <? ?y)%Z] => destruct (Z.ltb_spec x y)
               end; lia. }
    assert (Hlo : (0 <= Z.of_nat r * (Z.of_nat segs + 1) + ns2)%Z) by nia.
    assert (Hhi : (Z.of_nat r * (Z.of_nat segs + 1) + ns2
                   < Z.of_nat n * (Z.of_nat segs + 1))%Z) by nia.
    assert (Z.to_nat (Z.of_nat r * (Z.of_nat segs + 1) + ns2) < n * (segs + 1))%nat.
    { apply Nat2Z.inj_lt. rewrite Z2Nat.id by exact Hlo.
      rewrite Nat2Z.inj_mul, Nat2Z.inj_add. exact Hhi. }
    lia.
Qed.

Lemma smoothedVertex_within (p : list R) segs n r s :
  (forall j, (j < count p)%nat -> lo <= along a b c (fromBufferAttribute p j) <= hi) ->
  (n * (segs + 1) <= count p)%nat -> (r < n)%nat -> (s <= segs)%nat ->
  lo <= along a b c (smoothedVertex p segs n (r, s)) <= hi.
Proof.
  intros Hp Hn Hr Hs. unfold smoothedVertex. cbn [fst snd].
  assert (Hc : lo <= along a b c (fromBufferAttribute p (cellIndex segs (r, s))) <= hi).
  { apply Hp. unfold cellIndex. cbn [fst snd]. nia. }
  destruct ((r =? 0)%nat || (r =? n - 1)%nat) eqn:Ecap; [exact Hc|].
  apply orb_false_iff in Ecap. destruct Ecap as [E0 E1].
  apply Nat.eqb_neq in E0, E1.
  set (s0 := mkSums _ _ _ _).
  assert (H0 : sumsWithin a b c lo hi s0).
  { unfold s0, sumsWithin, along, fromBufferAttribute, lit, zero in *.
    cbn [vx vy vz sumX sumY sumZ totalWeight num_add num_mul num_div RNumber ofZ] in *.
    split; [lra|]. nra. }
  set (s1 := fold_left _ [-2; -1; 1; 2]%Z s0).
  assert (H1 : sumsWithin a b c lo hi s1).
  { unfold s1. cbn [fold_left].
    repeat (apply verticalStep_within; [exact Hp | exact Hn | exact Hs | lia |]).
    exact H0. }
  set (s2 := fold_left _ [-1; 1]%Z s1).
  assert (H2 : sumsWithin a b c lo hi s2).
  { unfold s2. cbn [fold_left].
    repeat (apply (horizontalStep_within n);
            [exact Hp | exact Hn | lia | lia | exact Hs | lia |]).
    exact H1. }
  destruct H2 as [HW [HL HH]]. unfold along. cbn [vx vy vz num_div RNumber].
  set (W := totalWeight s2) in *.
  replace (a * (sumX s2 / W) + b * (sumY s2 / W) + c * (sumZ s2 / W))
    with ((a * sumX s2 + b * sumY s2 + c * sumZ s2) / W) by (field; lra).
  split.
  - apply (Rmult_le_reg_r W); [exact HW|]. unfold Rdiv.
    rewrite Rmult_assoc, Rinv_l by lra. lra.
  - apply (Rmult_le_reg_r W); [exact HW|]. unfold Rdiv.
    rewrite Rmult_assoc, Rinv_l by lra. lra.
Qed.

Lemma smoothPass_within (p : list R) segs n :
  (forall j, (j < count p)%nat -> lo <= along a b c (fromBufferAttribute p j) <= hi) ->
  count p = (n * (segs + 1))%nat ->
  forall j, (j < count p)%nat ->
    lo <= along a b c (fromBufferAttribute (smoothPass segs n p) j) <= hi.
Proof.
  intros Hp Hc j Hj.
  pose proof (Nat.div_mod_eq j (segs + 1)) as Ej.
  pose proof (Nat.mod_upper_bound j (segs + 1) ltac:(lia)) as Hs.
  assert (Hr : (j / (segs + 1) < n)%nat).
  { apply Nat.Div0.div_lt_upper_bound. lia. }
  assert (E : fromBufferAttribute (smoothPass segs n p) j
              = roundV (roundV (smoothedVertex p segs n
                                  ((j / (segs + 1))%nat, (j mod (segs + 1))%nat)))).
  { rewrite <- smoothPass_cell by lia. f_equal. lia. }
  rewrite E, !along_roundV.
  apply smoothedVertex_within; [exact Hp | lia | exact Hr | lia].
Qed.

Lemma matchSeam_within (p : list R) segs n :
  (forall j, (j < count p)%nat -> lo <= along a b c (fromBufferAttribute p j) <= hi) ->
  (n * (segs + 1) <= count p)%nat ->
  forall j, (j < count p)%nat ->
    lo <= along a b c (fromBufferAttribute (matchSeam segs n p) j) <= hi.
Proof.
  intros Hp Hn j Hj. rewrite Displacement.matchSeam_vertex by exact Hn.
  destruct (_ && _); [|apply Hp; exact Hj].
  rewrite along_roundV. apply Hp.
  pose proof (Nat.div_mod_eq j (segs + 1)). lia.
Qed.
End Hull.

(** Smoothing leaves the two cap rings where they are.  On a grid whose cap
    rings hold Float32 values and have closed seams, every vertex of ring 0
    and of the last ring has the same position after
    [smoothDisplacedGeometry], whatever the number of passes; normals, UVs and
    index are not touched and the position array keeps its length. *)
Theorem smoothDisplacedGeometry_keeps_cap_rings
    {num : Type} `{Number num} (g : BufferGeometry num) (segs n passes : nat) :
  n * (segs + 1) <= count (position g) ->
  capVerticesStored segs n (position g) -> capSeamsClosed segs n (position g) ->
  let g' := smoothDisplacedGeometry g segs n passes in
  normal g' = normal g /\ uv g' = uv g /\ index g' = index g
  /\ length (position g') = length (position g)
  /\ forall r s, (r = 0 \/ r = n - 1) -> r < n -> s <= segs ->
       fromBufferAttribute (position g') (r * (segs + 1) + s)
       = fromBufferAttribute (position g) (r * (segs + 1) + s).
Proof.
  intros Hn Hst Hcl g'. subst g'. unfold smoothDisplacedGeometry. cbn [position normal uv index].
  split; [reflexivity|]. split; [reflexivity|]. split; [reflexivity|].
  split; [rewrite matchSeam_length; apply iter_smoothPass_length|].
  intros r s Hr Hlt Hs.
  destruct (iter_keeps_cap passes Hn Hst) as [Hk Hc].
  rewrite Displacement.matchSeam_vertex by (rewrite Hc; exact Hn).
  destruct (Displacement.cell_div_mod r Hs) as [Hd Hm]. rewrite Hd, Hm.
  rewrite (proj2 (Nat.ltb_lt r n) Hlt), andb_true_r.
  destruct (Nat.eqb_spec s segs) as [->|Hne].
  - pose proof (Hk r 0 (conj Hr Hlt) ltac:(lia)) as E0. rewrite Nat.add_0_r in E0.
    rewrite E0.
    pose proof (Hst r 0 (conj Hr Hlt) ltac:(lia)) as S0. rewrite Nat.add_0_r in S0.
    rewrite S0. symmetry. apply Hcl. exact (conj Hr Hlt).
  - apply Hk; [exact (conj Hr Hlt) | exact Hs].
Qed.

Lemma smoothDisplacedGeometry_keeps_cap_rings_witness :
  @fromBufferAttribute R RealArith.RNumber
     (position (@smoothDisplacedGeometry R RealArith.RNumber Spec.prismGeometry 4 3 5)) 12
  = vec3 (- (1 / 2))%R 5%R 0%R.
Proof.
  assert (Hn : 3 * (4 + 1) <= count (position Spec.prismGeometry))
    by (unfold count; simpl; lia).
  assert (Hst : @capVerticesStored R RealArith.RNumber 4 3 (position Spec.prismGeometry)).
  { intros r s _ _. unfold storedVertex, roundV.
    destruct (fromBufferAttribute (position Spec.prismGeometry) (r * (4 + 1) + s)).
    reflexivity. }
  assert (Hcl : @capSeamsClosed R RealArith.RNumber 4 3 (position Spec.prismGeometry)).
  { intros r [[-> | ->] _]; reflexivity. }
  destruct (@smoothDisplacedGeometry_keeps_cap_rings R RealArith.RNumber
              Spec.prismGeometry 4 3 5 Hn Hst Hcl) as (_ & _ & _ & _ & Hv).
  change 12 with (2 * (4 + 1) + 2).
  rewrite (Hv 2 2); [reflexivity | right; reflexivity | lia | lia].
Defined.

#[local] Existing Instance RealArith.RNumber.

(** In exact arithmetic smoothing keeps the grid inside its convex hull: if
    every vertex satisfies [lo <= a x + b y + c z <= hi] before
    [smoothDisplacedGeometry], every vertex satisfies it afterwards; in
    particular no vertex leaves the range of heights, nor any slab or
    half-space, that held the grid. *)
Theorem smoothDisplacedGeometry_convex
    (g : BufferGeometry R) (segs n passes : nat) (a b c lo hi : R) :
  count (position g) = n * (segs + 1) ->
  (forall j, j < count (position g) ->
     (lo <= Inputs.along a b c (fromBufferAttribute (position g) j) <= hi)%R) ->
  forall j, j < count (position g) ->
    (lo <= Inputs.along a b c
             (fromBufferAttribute (position (smoothDisplacedGeometry g segs n passes)) j)
        <= hi)%R.
Proof.
  intros Hc Hp j Hj. unfold smoothDisplacedGeometry. cbn [position].
  assert (Hk : forall k,
            count (Nat.iter k (smoothPass segs n) (position g)) = count (position g)
            /\ forall i, i < count (position g) ->
                 (lo <= Inputs.along a b c
                          (fromBufferAttribute
                             (Nat.iter k (smoothPass segs n) (position g)) i) <= hi)%R).
  { induction k as [|k [IHc IH]]; [split; [reflexivity | exact Hp]|].
    rewrite !Nat.iter_succ. split.
    - rewrite Displacement.smoothPass_count. exact IHc.
    - intros i Hi. apply smoothPass_within; rewrite ?IHc; auto. }
  destruct (Hk passes) as [Hck Hpk].
  apply matchSeam_within; rewrite ?Hck; auto. lia.
Qed.

Lemma smoothDisplacedGeometry_convex_witness :
  (0 <= vy (fromBufferAttribute
              (position (smoothDisplacedGeometry Spec.prismGeometry 4 3 5)) 7) <= 5)%R.
Proof.
  assert (Hc : count (position Spec.prismGeometry) = 3 * (4 + 1))
    by (unfold count; simpl; lia).
  assert (Hp : forall j, j < count (position Spec.prismGeometry) ->
            (0 <= Inputs.along 0 1 0 (fromBufferAttribute (position Spec.prismGeometry) j)
             <= 5)%R).
  { intros j Hj. rewrite Hc in Hj. unfold Inputs.along.
    do 15 (destruct j as [|j]; [cbn; lra|]). cbn in Hj. lia. }
  pose proof (@smoothDisplacedGeometry_convex Spec.prismGeometry 4 3 5 0 1 0 0 5 Hc Hp
                7 ltac:(rewrite Hc; cbn; lia)) as Hy.
  unfold Inputs.along in Hy. lra.
Defined.
End Smoothing.

(** ** Recomputed normals *)

Module SmoothNormals.
Section Reals.
Import RealArith RealFacts Spec.
Local Open Scope R_scope.
#[local] Existing Instance RNumber.

Lemma radial_root (x z k : R) :
  0 <= k -> k * k = x * x + z * z -> R_sqrt.sqrt (x * x + z * z) = k.
Proof. intros Hk E. apply sqrt_lem_1; [nra | exact Hk | exact E]. Qed.

Lemma atan_root (t : R) : 1 <= R_sqrt.sqrt (1 + t²).
Proof. rewrite <- sqrt_1 at 1. apply sqrt_le_1_alt. unfold Rsqr. nra. Qed.

(** [Math.atan2(z, x)] is the angle of the point [(x, z)]. *)
Lemma Ratan2_cos_sin (z x : R) :
  let rho := R_sqrt.sqrt (x * x + z * z) in
  0 < rho ->
  cos (Ratan2 z x) = x / rho /\ sin (Ratan2 z x) = z / rho.
Proof.
  intros rho Hrho. unfold Ratan2.
  set (t := z / x). pose proof (atan_root t) as HS.
  assert (HSS : R_sqrt.sqrt (1 + t²) * R_sqrt.sqrt (1 + t²) = 1 + t²)
    by (apply sqrt_sqrt; unfold Rsqr; nra).
  set (S := R_sqrt.sqrt (1 + t²)) in *.
  destruct (Rlt_dec 0 x) as [Hx|Hx].
  - assert (Er : rho = S * x).
    { apply radial_root; [nra|].
      transitivity ((S * S) * (x * x)); [ring|]. rewrite HSS. unfold t, Rsqr. field. lra. }
    rewrite cos_atan, sin_atan. fold S. rewrite Er. unfold t. split; field; lra.
  - destruct (Rlt_dec x 0) as [Hx'|Hx'].
    + assert (Er : rho = S * - x).
      { apply radial_root; [nra|].
        transitivity ((S * S) * (x * x)); [ring|]. rewrite HSS. unfold t, Rsqr. field. lra. }
      assert (Ec : cos (atan t) = 1 / S) by apply cos_atan.
      assert (Es : sin (atan t) = t / S) by apply sin_atan.
      destruct (Rle_dec 0 z).
      * rewrite neg_cos, neg_sin, Ec, Es, Er. unfold t. split; field; lra.
      * rewrite cos_minus, sin_minus, cos_PI, sin_PI, Ec, Es, Er. unfold t. split; field; lra.
    + assert (x = 0) by lra. subst x.
      assert (Er : rho = R_sqrt.sqrt (z * z)) by (unfold rho; f_equal; ring).
      destruct (Rlt_dec 0 z) as [Hz|Hz].
      * rewrite sqrt_square in Er by lra. rewrite cos_PI2, sin_PI2, Er. split; field; lra.
      * destruct (Rlt_dec z 0) as [Hz'|Hz'].
        -- replace (z * z) with (- z * - z) in Er by ring.
           rewrite sqrt_square in Er by lra.
           rewrite cos_neg, sin_neg, cos_PI2, sin_PI2, Er. split; field; lra.
        -- assert (z = 0) by lra. subst z. exfalso.
           rewrite Er in Hrho. replace (0 * 0) with 0 in Hrho by ring.
           rewrite sqrt_0 in Hrho. lra.
Qed.


Lemma smoothNormalAt_real (p : list R) segs n r s :
  let x := getX p (r * (segs + 1) + s) in
  let z := getZ p (r * (segs + 1) + s) in
  exists k,
    ((r = 0 \/ r = n - 1)%nat -> k = 0)
    /\ smoothNormalAt p segs n (r, s)
       = vec3 (- cos (Ratan2 z x) / R_sqrt.sqrt (1 + k * k))
              (- k / R_sqrt.sqrt (1 + k * k))
              (- sin (Ratan2 z x) / R_sqrt.sqrt (1 + k * k)).
Proof.
  intros x z. unfold smoothNormalAt. cbn [fst snd]. cbv zeta.
  set (k := if (0 <? r)%nat && (r <? n - 1)%nat then _ else zero).
  exists k. split.
  - intros Hcap. unfold k.
    destruct (Nat.ltb_spec 0 r); destruct (Nat.ltb_spec r (n - 1)); cbn [andb];
      try reflexivity.
    exfalso. lia.
  - rewrite <- LatheShape.normalize_cross. reflexivity.
Qed.
End Reals.

#[local] Existing Instance RealArith.RNumber.

(** In exact arithmetic, on a geometry that stores a position and a normal
    for every grid vertex and whose rings next above and next below every
    interior vertex lie at different heights (so that the slope
    [(radiusNext - radiusPrev) / (yNext - yPrev)] divides by a number other
    than 0), [recalculateSmoothNormals] leaves positions, UVs and index
    alone, and the normal it writes at a grid vertex is a unit vector,
    horizontal on the two cap rings, whose horizontal part points at the axis:
    off the axis, its component along the radial direction of the vertex is
    negative.  The orientation repair has to follow it. *)
Theorem recalculateSmoothNormals_inward (g : BufferGeometry R) (segs n : nat) :
  n * (segs + 1) <= count (normal g) ->
  n * (segs + 1) <= count (position g) ->
  (forall r s, 0 < r -> r < n - 1 -> s <= segs ->
     getY (position g) ((r + 1) * (segs + 1) + s)
     <> getY (position g) ((r - 1) * (segs + 1) + s)) ->
  let g' := recalculateSmoothNormals g segs n in
  position g' = position g /\ uv g' = uv g /\ index g' = index g
  /\ forall r s, r < n -> s <= segs ->
       let i := r * (segs + 1) + s in
       let p := fromBufferAttribute (position g) i in
       let nrm := fromBufferAttribute (normal g') i in
       (vx nrm * vx nrm + vy nrm * vy nrm + vz nrm * vz nrm = 1)%R
       /\ ((r = 0 \/ r = n - 1) -> vy nrm = 0%R)
       /\ ((0 < Spec.radial p)%R -> (vx nrm * vx p + vz nrm * vz p < 0)%R).
Proof.
  intros Hn _ _ g'. split; [reflexivity|]. split; [reflexivity|]. split; [reflexivity|].
  intros r s Hr Hs i p nrm.
  assert (En : nrm = smoothNormalAt (position g) segs n (r, s)).
  { subst nrm g'.
    transitivity (roundV (smoothNormalAt (position g) segs n (r, s))).
    - apply (Displacement.fold_writes_get (cellIndex segs)
               (smoothNormalAt (position g) segs n) (gridCells segs n) (normal g) (r, s)).
      + rewrite Displacement.gridCells_indices. apply seq_NoDup.
      + apply Displacement.gridCells_In; assumption.
      + unfold cellIndex. cbn [fst snd]. nia.
    - unfold roundV. destruct (smoothNormalAt (position g) segs n (r, s)). reflexivity. }
  destruct (smoothNormalAt_real (position g) segs n r s) as (k & Hk & E).
  cbv zeta in E. fold i in E. rewrite E in En. clear E.
  set (th := RealArith.Ratan2 (getZ (position g) i) (getX (position g) i)) in *.
  set (L := R_sqrt.sqrt (1 + k * k)) in *.
  assert (HL : (L * L = 1 + k * k)%R) by (apply sqrt_sqrt; nra).
  assert (HL1 : (1 <= L)%R).
  { unfold L. rewrite <- sqrt_1 at 1. apply sqrt_le_1_alt. nra. }
  pose proof (sin2_cos2 th) as Esc. unfold Rsqr in Esc.
  rewrite En. cbn [vx vy vz]. split; [|split].
  - replace (- cos th / L * (- cos th / L) + - k / L * (- k / L)
             + - sin th / L * (- sin th / L))%R
      with ((sin th * sin th + cos th * cos th + k * k) / (L * L))%R by (field; lra).
    rewrite Esc, HL. field. nra.
  - intros Hcap. rewrite (Hk Hcap). unfold Rdiv. ring.
  - intros Hrad.
    destruct (Ratan2_cos_sin (getZ (position g) i) (getX (position g) i) Hrad) as [Ec Es].
    fold th in Ec, Es. change (getX (position g) i) with (vx p) in Ec, Es.
    change (getZ (position g) i) with (vz p) in Ec, Es.
    fold (Spec.radial p) in Ec, Es. set (rho := Spec.radial p) in *.
    rewrite Ec, Es.
    assert (Hrr : (rho * rho = vx p * vx p + vz p * vz p)%R).
    { unfold rho, Spec.radial. apply sqrt_sqrt.
      pose proof (Rle_0_sqr (vx p)). pose proof (Rle_0_sqr (vz p)). unfold Rsqr in *. lra. }
    replace (- (vx p / rho) / L * vx p + - (vz p / rho) / L * vz p)%R
      with (- ((vx p * vx p + vz p * vz p) / (rho * L)))%R by (field; lra).
    rewrite <- Hrr.
    replace (rho * rho / (rho * L))%R with (rho / L)%R by (field; lra).
    assert (0 < rho / L)%R by (apply Rdiv_lt_0_compat; lra). lra.
Qed.

Lemma recalculateSmoothNormals_inward_witness :
  let nrm := fromBufferAttribute
               (normal (recalculateSmoothNormals Spec.prismGeometry 4 3)) 5 in
  (vx nrm * (1 / 2) + vz nrm * 0 < 0)%R.
Proof.
  assert (Hn : 3 * (4 + 1) <= count (normal Spec.prismGeometry))
    by (unfold count; simpl; lia).
  assert (Hp : 3 * (4 + 1) <= count (position Spec.prismGeometry))
    by (unfold count; simpl; lia).
  assert (Hy : forall r s, 0 < r -> r < 3 - 1 -> s <= 4 ->
            getY (position Spec.prismGeometry) ((r + 1) * (4 + 1) + s)
            <> getY (position Spec.prismGeometry) ((r - 1) * (4 + 1) + s)).
  { intros r s H0 H1 Hs. assert (r = 1) by lia. subst r.
    assert (Hc : s = 0 \/ s = 1 \/ s = 2 \/ s = 3 \/ s = 4) by lia.
    destruct Hc as [->|[->|[->|[->| ->]]]]; cbn; lra. }
  destruct (@recalculateSmoothNormals_inward Spec.prismGeometry 4 3 Hn Hp Hy)
    as (_ & _ & _ & Hv).
  destruct (Hv 1 0 ltac:(lia) ltac:(lia)) as (_ & _ & Hin).
  apply Hin. unfold Spec.radial. apply sqrt_lt_R0. cbn. lra.
Defined.
End SmoothNormals.

(** ** Face normals *)

Module FaceNormals.
Section Generic.
Context {num : Type} `{Number num}.

Lemma addAt_Some (m : list (Vector3 num)) a v m' :
  addAt m a v = Some m' -> a < length m /\ length m' = length m.
Proof.
  unfold addAt. destruct (nth_error m a) as [w|] eqn:E; [|discriminate].
  intros E'. injection E' as <-. split.
  - apply nth_error_Some. rewrite E. discriminate.
  - apply upd_length.
Qed.

Lemma addAt_valid (m : list (Vector3 num)) a v :
  a < length m -> exists m', addAt m a v = Some m' /\ length m' = length m.
Proof.
  intros Ha. unfold addAt. destruct (nth_error m a) as [w|] eqn:E.
  - eexists. split; [reflexivity | apply upd_length].
  - apply nth_error_None in E. lia.
Qed.

Lemma faceStep_Some positions (m : list (Vector3 num)) a b c m' :
  faceStep positions m a b c = Some m' ->
  a < length m /\ b < length m /\ c < length m /\ length m' = length m.
Proof.
  unfold faceStep. set (n := outwardFaceNormal _ _ _).
  destruct (addAt m a n) as [m1|] eqn:E1; [|discriminate].
  destruct (addAt m1 b n) as [m2|] eqn:E2; [|discriminate].
  intros E3. apply addAt_Some in E1, E2, E3.
  destruct E1 as [Ha L1], E2 as [Hb L2], E3 as [Hc L3]. lia.
Qed.

Lemma faceStep_valid positions (m : list (Vector3 num)) a b c :
  a < length m -> b < length m -> c < length m ->
  exists m', faceStep positions m a b c = Some m' /\ length m' = length m.
Proof.
  intros Ha Hb Hc. unfold faceStep. set (n := outwardFaceNormal _ _ _).
  destruct (addAt_valid m n Ha) as (m1 & -> & L1).
  destruct (addAt_valid m1 n (a := b) ltac:(lia)) as (m2 & -> & L2).
  destruct (addAt_valid m2 n (a := c) ltac:(lia)) as (m3 & -> & L3).
  exists m3. split; [reflexivity | lia].
Qed.

Lemma mod3_SSS k : S (S (S k)) mod 3 = k mod 3.
Proof.
  replace (S (S (S k))) with (k + 1 * 3) by lia. apply Nat.Div0.mod_add.
Qed.

Lemma faceLoop_Some positions k :
  forall idx (m m' : list (Vector3 num)),
    length idx <= k -> faceLoop positions idx m = Some m' ->
    Forall (fun i => i < length m) idx /\ length idx mod 3 = 0 /\ length m' = length m.
Proof.
  induction k as [|k IH]; intros idx m m' Hk E.
  - destruct idx; [|cbn in Hk; lia]. cbn in E. injection E as <-. auto.
  - destruct idx as [|a [|b [|c rest]]]; cbn [faceLoop] in E; try discriminate.
    + injection E as <-. auto.
    + destruct (faceStep positions m a b c) as [m1|] eqn:E1; [|discriminate].
      apply faceStep_Some in E1. destruct E1 as (Ha & Hb & Hc & L1).
      destruct (IH rest m1 m' ltac:(cbn in Hk; lia) E) as (Hr & Hm & L).
      rewrite L1 in Hr, L. split; [|split; [|exact L]].
      * repeat constructor; assumption.
      * cbn [length]. rewrite mod3_SSS. exact Hm.
Qed.

Lemma faceLoop_valid positions k :
  forall idx (m : list (Vector3 num)),
    length idx <= k -> Forall (fun i => i < length m) idx -> length idx mod 3 = 0 ->
    exists m', faceLoop positions idx m = Some m' /\ length m' = length m.
Proof.
  induction k as [|k IH]; intros idx m Hk Hv Hm.
  - destruct idx; [|cbn in Hk; lia]. exists m. auto.
  - destruct idx as [|a [|b [|c rest]]]; try (cbn in Hm; discriminate).
    + exists m. auto.
    + inversion Hv as [|? ? Ha Hv1]; subst. inversion Hv1 as [|? ? Hb Hv2]; subst.
      inversion Hv2 as [|? ? Hc Hv3]; subst.
      destruct (faceStep_valid positions m Ha Hb Hc) as (m1 & E1 & L1).
      cbn [length] in Hm. rewrite mod3_SSS in Hm.
      destruct (IH rest m1 ltac:(cbn in Hk; lia)) as (m' & E & L);
        [rewrite L1; exact Hv3 | exact Hm |].
      exists m'. cbn [faceLoop]. rewrite E1. split; [exact E | lia].
Qed.

Lemma ensured_face_inputs (g : BufferGeometry num) :
  position (ensureNormalsPointOutward g) = position g
  /\ index (ensureNormalsPointOutward g) = index g.
Proof. split; reflexivity. Qed.
End Generic.

(** The face normals are computed exactly when the index is sound.  For an
    indexed geometry, [calculateFaceNormalsForVertices] returns if and only
    if every index refers to a vertex and the index holds whole triangles;
    otherwise a lookup of the normal map fails (the TypeError that the
    displacement swallows).  When it returns, the map has one normal per
    vertex.  A geometry without index gets one normal per vertex as well. *)
Theorem calculateFaceNormalsForVertices_returns
    {num : Type} `{Number num} (g : BufferGeometry num) :
  (forall idx, index g = Some idx ->
     (exists m, calculateFaceNormalsForVertices g = Some m)
     <-> (Forall (fun i => i < count (position g)) idx /\ length idx mod 3 = 0))
  /\ (index g = None -> exists m, calculateFaceNormalsForVertices g = Some m)
  /\ (forall m, calculateFaceNormalsForVertices g = Some m ->
        length m = count (position g)).
Proof.
  unfold calculateFaceNormalsForVertices.
  set (init := repeat (vec3 zero zero zero) (count (position g))).
  assert (Hinit : length init = count (position g)) by apply repeat_length.
  split; [|split].
  - intros idx Ei. rewrite Ei. split.
    + intros [m E].
      destruct (faceLoop (position g) idx init) as [m1|] eqn:E1; [|discriminate].
      destruct (@faceLoop_Some _ _ (position g) (length idx) idx init _ (le_n _) E1)
        as (Hv & Hm & _).
      rewrite Hinit in Hv. auto.
    + intros [Hv Hm]. rewrite <- Hinit in Hv.
      destruct (@faceLoop_valid _ _ (position g) (length idx) idx init (le_n _) Hv Hm)
        as (m' & -> & _).
      eexists. reflexivity.
  - intros ->. eexists. reflexivity.
  - intros m E. destruct (index g) as [idx|].
    + destruct (faceLoop (position g) idx init) as [m1|] eqn:E1; [|discriminate].
      destruct (@faceLoop_Some _ _ (position g) (length idx) idx init _ (le_n _) E1)
        as (_ & _ & L).
      cbn in E. injection E as <-. rewrite length_map. lia.
    + cbn in E. injection E as <-. rewrite length_map. exact Hinit.
Qed.

(** On the lathe the face normals are always computed: for the grid
    [createLoftGeometry] returns, after the orientation repair and after any
    smoothing of the rebuild, [calculateFaceNormalsForVertices] returns a map
    with one normal per vertex, so a displacement along face normals never
    stops on a missing lookup. *)
Theorem createLoftGeometry_face_normals
    {num : Type} `{Number num} anchors (params : LoftParams num) g (passes : nat) :
  createLoftGeometry anchors params = Some g ->
  (exists m, calculateFaceNormalsForVertices (ensureNormalsPointOutward g) = Some m
             /\ length m = count (position g))
  /\ (exists m,
        calculateFaceNormalsForVertices
          (ensureNormalsPointOutward
             (smoothAndRepair (ensureNormalsPointOutward g) (segments params)
                              (rings params) passes)) = Some m
        /\ length m = count (position g)).
Proof.
  intros E. destruct (LatheShape.lathe_lengths _ _ E) as (_ & _ & Hi).
  destruct (LatheShape.lathe_count _ _ E) as [Hc _].
  assert (Hgen : forall g1 : BufferGeometry num,
            index g1 = Some (quadIndices params) ->
            count (position g1) = count (position g) ->
            exists m, calculateFaceNormalsForVertices g1 = Some m
                      /\ length m = count (position g)).
  { intros g1 Hi1 Hc1. unfold calculateFaceNormalsForVertices. rewrite Hi1.
    set (init := repeat (vec3 zero zero zero) (count (position g1))).
    assert (Hinit : length init = count (position g1)) by apply repeat_length.
    destruct (@faceLoop_valid _ _ (position g1) (length (quadIndices params))
                (quadIndices params) init (le_n _)) as (m' & -> & L).
    - rewrite Hinit, Hc1, Hc. apply LatheShape.quadIndices_bound.
    - rewrite LatheShape.quadIndices_length.
      replace ((rings params - 1) * segments params * 6)
        with ((rings params - 1) * segments params * 2 * 3) by lia.
      apply Nat.Div0.mod_mul.
    - eexists. split; [reflexivity|]. rewrite length_map. lia. }
  split.
  - apply Hgen; [exact Hi | reflexivity].
  - apply Hgen; [exact Hi|].
    cbn [position ensureNormalsPointOutward smoothAndRepair recalculateSmoothNormals
         smoothDisplacedGeometry].
    rewrite Displacement.matchSeam_count.
    generalize passes as k. induction k as [|k IH]; [reflexivity|].
    rewrite Nat.iter_succ, Displacement.smoothPass_count. exact IH.
Qed.

Lemma createLoftGeometry_face_normals_witness :
  exists g m,
    @createLoftGeometry R RealArith.RNumber Spec.scenarioA_anchors Spec.prismParams = Some g
    /\ @calculateFaceNormalsForVertices R RealArith.RNumber
         (@ensureNormalsPointOutward R RealArith.RNumber g) = Some m
    /\ length m = 15.
Proof.
  destruct (@LatheShape.createLoftGeometry_returns R RealArith.RNumber
              (Spec.cornerAnchor 2 0) [Spec.cornerAnchor 2 5] Spec.prismParams)
    as [g Eg].
  destruct (proj1 (@createLoftGeometry_face_normals R RealArith.RNumber _ _ g 0 Eg))
    as (m & Em & Lm).
  exists g, m. split; [exact Eg|]. split; [exact Em|].
  rewrite Lm. destruct (LatheShape.lathe_count _ _ Eg) as [Hc _]. rewrite Hc. reflexivity.
Defined.
End FaceNormals.

(** ** What the displacement leaves alone *)

Module Topology.
Section Generic.
Context {num : Type} `{Number num}.

Lemma fold_writes_length {C : Type} (key : C -> nat) (val : C -> Vector3 num) l
      (a : list num) :
  length (fold_left (fun sm c => setV sm (key c) (val c)) l a) = length a.
Proof.
  revert a. induction l as [|c l IH]; intros a; [reflexivity|].
  cbn [fold_left]. rewrite IH. apply setXYZ_length.
Qed.

Lemma recalculateSmoothNormals_length (g : BufferGeometry num) segs n :
  length (normal (recalculateSmoothNormals g segs n)) = length (normal g).
Proof.
  apply (fold_writes_length (cellIndex segs) (smoothNormalAt (position g) segs n)).
Qed.

Lemma displacePositions_length img (params : LoftParams num) scale bias
      (g : BufferGeometry num) fnm :
  length (displacePositions img params scale bias g fnm) = length (position g).
Proof.
  unfold displacePositions. rewrite Smoothing.matchSeam_length.
  rewrite Displacement.displaceStep_fold.
  apply (fold_setV_length
           (fun i v => displacedVertex img params scale bias (normal g) (uv g)
                         (seamDisplacements img params scale bias (uv g)
                            (count (position g) / (segments params + 1)))
                         fnm (count (position g) / (segments params + 1)) v i)).
Qed.
End Generic.

(** The displacement moves vertices and rewrites normals, nothing else:
    whatever its arguments and whichever way it ends, the UVs and the index
    of the geometry are the same afterwards, and the position and normal
    arrays keep their lengths (no vertex is added or dropped). *)
Theorem applyDisplacementToGeometry_topology
    {num : Type} `{Number num} (params : LoftParams num) (g : BufferGeometry num)
    (tex : option Texture) (scale bias : num) (useVertexNormals : bool) :
  let g' := applyDisplacementToGeometry params g tex scale bias useVertexNormals in
  uv g' = uv g /\ index g' = index g
  /\ length (position g') = length (position g)
  /\ length (normal g') = length (normal g).
Proof.
  intros g'. subst g'. unfold applyDisplacementToGeometry.
  destruct tex as [tex|]; [|auto].
  pose proof (Normals.ensureNormalsPointOutward_length g) as Hn1.
  destruct (if useVertexNormals then Some None
            else option_map Some
                   (calculateFaceNormalsForVertices (ensureNormalsPointOutward g)))
    as [fnm|]; [|cbn; auto].
  destruct (image tex) as [img|]; [|cbn; auto].
  set (g1 := ensureNormalsPointOutward g) in *.
  set (n := count (position g1) / (segments params + 1)).
  set (g2 := withPositions g1 (displacePositions img params scale bias g1 fnm)).
  assert (H2 : uv g2 = uv g /\ index g2 = index g
               /\ length (position g2) = length (position g)
               /\ length (normal g2) = length (normal g)).
  { unfold g2. cbn [uv index position normal withPositions].
    rewrite displacePositions_length. auto. }
  destruct H2 as (Hu2 & Hi2 & Hp2 & Hnn2).
  set (g3 := recalculateSmoothNormals g2 (segments params) n).
  assert (H3 : uv g3 = uv g /\ index g3 = index g
               /\ length (position g3) = length (position g)
               /\ length (normal g3) = length (normal g)).
  { unfold g3. rewrite recalculateSmoothNormals_length. auto. }
  destruct (_ && _); [|exact H3].
  destruct H3 as (Hu3 & Hi3 & Hp3 & Hnn3).
  rewrite Normals.ensureNormalsPointOutward_length, recalculateSmoothNormals_length.
  cbn [uv index position normal ensureNormalsPointOutward recalculateSmoothNormals
       smoothDisplacedGeometry].
  rewrite Smoothing.matchSeam_length, Smoothing.iter_smoothPass_length. auto.
Qed.
End Topology.

(** ** Falloff at the rims *)

Module Rims.
Section Generic.
Context {num : Type} `{Number num}.

Lemma matchSeam_keeps_cap segs n (p0 q : list num) :
  n * (segs + 1) <= count q ->
  capVerticesStored segs n p0 -> capSeamsClosed segs n p0 ->
  (forall r s, capRing n r -> s <= segs ->
     fromBufferAttribute q (r * (segs + 1) + s)
     = fromBufferAttribute p0 (r * (segs + 1) + s)) ->
  forall r s, capRing n r -> s <= segs ->
    fromBufferAttribute (matchSeam segs n q) (r * (segs + 1) + s)
    = fromBufferAttribute p0 (r * (segs + 1) + s).
Proof.
  intros Hn Hst Hcl Hq r s Hcap Hs.
  rewrite Displacement.matchSeam_vertex by exact Hn.
  destruct (Displacement.cell_div_mod r Hs) as [Hd Hm]. rewrite Hd, Hm.
  rewrite (proj2 (Nat.ltb_lt r n) (proj2 Hcap)), andb_true_r.
  destruct (Nat.eqb_spec s segs) as [->|Hne].
  - pose proof (Hq r 0 Hcap ltac:(lia)) as E0. rewrite Nat.add_0_r in E0.
    rewrite E0.
    pose proof (Hst r 0 Hcap ltac:(lia)) as S0. rewrite Nat.add_0_r in S0.
    rewrite S0. symmetry. apply Hcl. exact Hcap.
  - apply Hq; [exact Hcap | exact Hs].
Qed.
End Generic.

Section Reals.
Import RealArith RealFacts Spec.
Local Open Scope R_scope.
#[local] Existing Instance RNumber.

Lemma roundV_real (v : Vector3 R) : roundV v = v.
Proof. destruct v. reflexivity. Qed.

Lemma stored_real segs n (p : list R) : capVerticesStored segs n p.
Proof. intros r s _ _. apply roundV_real. Qed.

Lemma falloff_rim (params : LoftParams R) v :
  falloffEnabled params = true ->
  0 < falloffBottom params <= 1 -> 0 < falloffTop params -> 0 < falloffPower params ->
  v = 0 \/ v = 1 ->
  calculateDisplacementFalloff v params = 0.
Proof.
  intros He [Hb Hb1] Ht Hp Hv. unfold calculateDisplacementFalloff, one.
  rewrite He. cbn [negb num_ltb num_sub num_div Math_pow RNumber ofZ].
  destruct Hv as [-> | ->].
  - rewrite Rltb_true by lra. replace (0 / falloffBottom params) with 0 by (field; lra).
    apply Falloff.Rpow_0. exact Hp.
  - destruct (Rlt_dec 1 (falloffBottom params)) as [L|L]; [lra|].
    rewrite (Rltb_false (a := 1) (b := falloffBottom params)) by lra.
    rewrite Rltb_true by lra.
    replace ((1 - 1) / falloffTop params) with 0 by (field; lra).
    apply Falloff.Rpow_0. exact Hp.
Qed.

Lemma offsetPosition_zero (params : LoftParams R) cap (current nrm : Vector3 R) :
  offsetPosition params cap current nrm 0 = current.
Proof.
  destruct current as [x y z]. unfold offsetPosition.
  cbn [vx vy vz num_add num_mul RNumber].
  destruct (normalType params).
  - destruct cap; f_equal; ring.
  - destruct cap; f_equal; ring.
  - destruct (_ <? _)%js; [f_equal; ring | reflexivity].
Qed.

Lemma sampleDisplacement_pixelIndexAt img (params : LoftParams R) scale bias u v :
  sampleDisplacement img params scale bias u v
  = pixel img (pixelIndexAt img params u v) / 255 * scale + bias.
Proof. reflexivity. Qed.

Lemma sampleReadsPixel_blackPixel (params : LoftParams R) u v :
  sampleReadsPixel blackPixel params u v.
Proof.
  exists 0%nat. split; [|cbn; lia].
  unfold pixelIndexAt, one, ofNat. cbn [width i_height blackPixel].
  change (Z.of_nat 1 - 1)%Z with 0%Z. change (Z.of_nat 1) with 1%Z.
  cbn [num_mul num_add num_sub num_rem Math_floor toIndex RNumber ofZ].
  rewrite !Rmult_0_r. rewrite Falloff.Int_part_0.
  replace ((0 * 1 + 0) * 4) with (IZR 0) by lra.
  apply Displacement.RtoIndex_IZR. lia.
Qed.

Lemma displacedVertex_rim img (params : LoftParams R) scale bias normals uvs seam fnm n
      current i :
  calculateDisplacementFalloff (getV uvs i) params = 0 ->
  1 / 10 <= radial current ->
  displacedVertex img params scale bias normals uvs seam fnm n current i = current.
Proof.
  intros Hf Hr. unfold displacedVertex. rewrite Hf.
  cbn [num_mul RNumber]. rewrite Rmult_0_r.
  rewrite offsetPosition_zero. apply Clamp.clampRadius_keeps. exact Hr.
Qed.
End Reals.

#[local] Existing Instance RealArith.RNumber.

(** With falloff enabled the rims are pinned.  In exact arithmetic, for
    non-empty falloff zones and a positive power, on a grid whose cap rings
    store a normal and a UV pair for every vertex, carry [v = 0] or [v = 1],
    lie at least 0.1 from the axis and have closed seams, and for a texture
    whose image, when it is decoded, is read inside its data by the two
    samples of every cap vertex (the one at the vertex's own UV and the one
    of its seam entry, at [u = 0]), [applyDisplacementToGeometry] leaves
    every vertex of ring 0 and of the last ring exactly where it was,
    whatever the scale, the bias and the normal mode.  (A sample that leaves
    the image reads [undefined], and [NaN * 0] is not 0.) *)
Theorem applyDisplacementToGeometry_pins_rims
    (params : LoftParams R) (g : BufferGeometry R) (tex : option Texture)
    (scale bias : R) (useVertexNormals : bool) :
  falloffEnabled params = true ->
  (0 < falloffBottom params <= 1)%R -> (0 < falloffTop params)%R ->
  (0 < falloffPower params)%R ->
  let segs := segments params in
  let n := numRingsOf segs (position g) in
  (forall r s, capRing n r -> s <= segs ->
     let i := r * (segs + 1) + s in
     (getV (uv g) i = 0%R \/ getV (uv g) i = 1%R)
     /\ (1 / 10 <= Spec.radial (fromBufferAttribute (position g) i))%R) ->
  (forall r s, capRing n r -> s <= segs -> vertexStored g (r * (segs + 1) + s)) ->
  (forall t img, tex = Some t -> image t = Some img ->
     forall r s, capRing n r -> s <= segs ->
       let i := r * (segs + 1) + s in
       sampleReadsPixel img params (getU (uv g) i) (getV (uv g) i)
       /\ sampleReadsPixel img params 0%R (getV (uv g) i)) ->
  capSeamsClosed segs n (position g) ->
  forall r s, (r = 0 \/ r = n - 1) -> r < n -> s <= segs ->
    fromBufferAttribute
      (position (applyDisplacementToGeometry params g tex scale bias useVertexNormals))
      (r * (segs + 1) + s)
    = fromBufferAttribute (position g) (r * (segs + 1) + s).
Proof.
  intros He Hb Ht Hp segs n Hrim _ _ Hcl r s Hr Hlt Hs.
  assert (Hcap : capRing n r) by (split; assumption).
  destruct tex as [tex|]; [|reflexivity].
  destruct (if useVertexNormals then Some None
            else option_map Some
                   (calculateFaceNormalsForVertices (ensureNormalsPointOutward g)))
    as [fnm|] eqn:Hfn.
  2:{ unfold applyDisplacementToGeometry. rewrite Hfn. reflexivity. }
  destruct (image tex) as [img|] eqn:Himg.
  2:{ unfold applyDisplacementToGeometry. rewrite Hfn, Himg. reflexivity. }
  rewrite (Displacement.applyDisplacement_position params scale bias (conj Himg Hfn)).
  fold segs n.
  set (p1 := displacePositions img params scale bias (ensureNormalsPointOutward g) fnm).
  assert (Hn0 : n * (segs + 1) <= count (position g)) by apply Displacement.numRings_le.
  assert (Hc1 : count p1 = count (position g)).
  { unfold p1, displacePositions.
    rewrite Displacement.matchSeam_count, Displacement.displaceLoop_count. reflexivity. }
  assert (H1 : forall r s, capRing n r -> s <= segs ->
            fromBufferAttribute p1 (r * (segs + 1) + s)
            = fromBufferAttribute (position g) (r * (segs + 1) + s)).
  { unfold p1, displacePositions. cbn [position normal uv ensureNormalsPointOutward].
    fold (numRingsOf (segments params) (position g)). fold segs n.
    apply matchSeam_keeps_cap.
    - rewrite Displacement.displaceLoop_count. exact Hn0.
    - apply stored_real.
    - exact Hcl.
    - intros r' s' Hcap' Hs'.
      pose proof (Displacement.capRing_bound (position g) Hcap' Hs' Hn0) as Hb'.
      rewrite Displacement.displaceLoop_vertex by exact Hb'.
      rewrite roundV_real. destruct (Hrim r' s' Hcap' Hs') as [Hv Hrad].
      apply displacedVertex_rim; [|exact Hrad].
      apply falloff_rim; assumption. }
  destruct (_ && _); [|apply H1; assumption].
  destruct (@Smoothing.iter_keeps_cap R _ segs n p1 (smoothingIntensity params)
              ltac:(rewrite Hc1; exact Hn0) (@stored_real segs n p1)) as [Hk Hck].
  apply (matchSeam_keeps_cap (p0 := position g)); try assumption.
  - rewrite Hck, Hc1. exact Hn0.
  - apply stored_real.
  - intros r' s' Hcap' Hs'. rewrite (Hk r' s' Hcap' Hs'). apply H1; assumption.
Qed.

Lemma applyDisplacementToGeometry_pins_rims_witness :
  fromBufferAttribute
    (position (applyDisplacementToGeometry Spec.prismParams Spec.prismGeometry
                 (Some blackTexture) 1%R (- (1 / 4))%R true)) 12
  = vec3 (- (1 / 2))%R 5%R 0%R.
Proof.
  pose proof (@applyDisplacementToGeometry_pins_rims Spec.prismParams Spec.prismGeometry
                (Some blackTexture) 1%R (- (1 / 4))%R true eq_refl) as T.
  cbn zeta in T.
  change (numRingsOf (segments Spec.prismParams) (position Spec.prismGeometry))
    with 3 in T.
  change (segments Spec.prismParams) with 4 in T.
  change 12 with (2 * (4 + 1) + 2).
  rewrite T; [reflexivity | | | | | | | | right; reflexivity | lia | lia].
  - cbn. lra.
  - cbn. lra.
  - cbn. lra.
  - intros r s [Hr Hlt] Hs.
    assert (Hrad : forall x y z : R, (1 / 100 <= x * x + z * z)%R ->
              (1 / 10 <= Spec.radial (vec3 x y z))%R).
    { intros x y z Hxz. unfold Spec.radial. cbn [vx vz].
      replace (1 / 10)%R with (R_sqrt.sqrt (1 / 10 * (1 / 10)))
        by (apply sqrt_square; lra).
      apply sqrt_le_1_alt. lra. }
    destruct Hr as [-> | ->];
      do 5 (destruct s as [|s];
            [split; [cbn; auto | apply Hrad; cbn; lra]|]); lia.
  - intros r s [Hr Hlt] Hs. unfold vertexStored, count.
    change (length (normal Spec.prismGeometry)) with 45.
    change (length (uv Spec.prismGeometry)) with 30.
    change (45 / 3) with 15.
    destruct Hr as [-> | ->]; lia.
  - intros t img Et Ei r s _ _. injection Et as <-. injection Ei as <-.
    split; apply sampleReadsPixel_blackPixel.
  - intros r [[-> | ->] _]; reflexivity.
Defined.
End Rims.

(** ** Errors of the export clone *)

Module ExportErrors.
Section Generic.
Context {num : Type} `{Number num}.

Lemma traverse_cons {A B : Type} (callback : A -> M num B) x l (h : Heap num) :
  traverse callback (x :: l) h
  = match callback x h with
    | (Ok c, h') =>
        match traverse callback l h' with
        | (Ok r, h'') => (Ok (c :: r), h'')
        | (Thrown, h'') => (Thrown, h'')
        end
    | (Thrown, h') => (Thrown, h')
    end.
Proof. reflexivity. Qed.

Lemma transformForExport_count (g : BufferGeometry num) scale swapYZ :
  count (position (transformForExport g scale swapYZ)) = count (position g).
Proof.
  destruct (ExportTransform.transformForExport_exported g scale swapYZ) as (_ & _ & _ & Hl).
  unfold count. rewrite Hl. reflexivity.
Qed.

(** The outcome of cloning one mesh for export. *)
Lemma createExportClone_mesh_result (h : Heap num) a g scale swapYZ :
  nth_error h a = Some g ->
  createExportClone (Mesh a) scale swapYZ h
  = (if count (position g) =? 0 then Thrown else Ok (Mesh (length h)),
     h ++ [indexedForSTL (transformForExport g scale swapYZ)]).
Proof.
  intros Ha. cbn [createExportClone]. unfold bind at 1. unfold load at 1. rewrite Ha.
  unfold bind at 1, alloc at 1.
  unfold processGeometryForExport, bind at 1. unfold bind at 1, load at 1.
  rewrite ExportTransform.nth_error_app_last.
  unfold bind at 1, store at 1. rewrite ExportTransform.upd_app_last.
  unfold prepareGeometryForSTL, bind at 1, load at 1.
  rewrite ExportTransform.nth_error_app_last.
  unfold bind at 1, store at 1. rewrite ExportTransform.upd_app_last.
  pose proof (transformForExport_count g scale swapYZ) as Hct.
  unfold indexedForSTL, bind, throw, ret.
  destruct (Nat.eqb_spec (count (position (transformForExport g scale swapYZ))) 0);
    destruct (Nat.eqb_spec (count (position g)) 0); try lia; reflexivity.
Qed.

Lemma group_with_empty_geometry scale swapYZ addrs gs :
  forall h : Heap num,
    Forall2 (fun a g => nth_error h a = Some g) addrs gs ->
    Exists (fun g => count (position g) = 0) gs ->
    fst (traverse (fun child => createExportClone child scale swapYZ) (map Mesh addrs) h)
    = Thrown.
Proof.
  revert gs. induction addrs as [|a addrs IH]; intros gs h Hall Hex.
  - inversion Hall; subst. inversion Hex.
  - inversion Hall as [|a0 g l l' Ha Hrest]; subst.
    cbn [map]. rewrite traverse_cons, (@createExportClone_mesh_result h a g scale swapYZ Ha).
    destruct (Nat.eqb_spec (count (position g)) 0) as [E|E]; [reflexivity|].
    inversion Hex as [? ? Hg|? ? Hl]; subst; [contradiction|].
    set (h1 := h ++ [indexedForSTL (transformForExport g scale swapYZ)]).
    assert (Hrest' : Forall2 (fun a g => nth_error h1 a = Some g) addrs l').
    { clear -Hrest. induction Hrest as [|x y xs ys Hx _ IHr]; constructor; [|exact IHr].
      unfold h1. rewrite nth_error_app1; [exact Hx|].
      apply nth_error_Some. rewrite Hx. discriminate. }
    specialize (IH l' h1 Hrest' Hl).
    destruct (traverse _ (map Mesh addrs) h1) as [[r|] h2]; [discriminate IH | reflexivity].
Qed.
End Generic.

(** What the export clone does with a geometry it cannot export.  A mesh
    without geometry is returned as it is, and nothing is allocated.  A mesh
    whose geometry has no vertex makes [createExportClone] throw, after the
    clone of the geometry was allocated; so does a group of meshes as soon as
    one of them is empty, even when the others are sound.  Otherwise the
    geometry of the clone carries an index: the original one, or
    [0 .. count - 1] when the original has none. *)
Theorem createExportClone_errors
    {num : Type} `{Number num} (scale : num) (swapYZ : bool) (h : Heap num) :
  (forall a, nth_error h a = None ->
     createExportClone (Mesh a) scale swapYZ h = (Ok (Mesh a), h))
  /\ (forall a g, nth_error h a = Some g -> count (position g) = 0 ->
        exists g', createExportClone (Mesh a) scale swapYZ h = (Thrown, h ++ [g']))
  /\ (forall addrs gs,
        Forall2 (fun a g => nth_error h a = Some g) addrs gs ->
        Exists (fun g => count (position g) = 0) gs ->
        fst (createExportClone (Group (map Mesh addrs)) scale swapYZ h) = Thrown)
  /\ (forall a g, nth_error h a = Some g -> 0 < count (position g) ->
        exists g',
          createExportClone (Mesh a) scale swapYZ h = (Ok (Mesh (length h)), h ++ [g'])
          /\ index g' = Some (match index g with
                              | Some idx => idx
                              | None => seq 0 (count (position g))
                              end)
          /\ uv g' = uv g).
Proof.
  split; [|split; [|split]].
  - intros a Ha. cbn [createExportClone]. unfold bind, load. rewrite Ha. reflexivity.
  - intros a g Ha Hc. rewrite (@createExportClone_mesh_result _ _ h a g scale swapYZ Ha), Hc.
    eexists. reflexivity.
  - intros addrs gs Hall Hex. cbn [createExportClone]. unfold bind.
    pose proof (@group_with_empty_geometry _ _ scale swapYZ addrs gs h Hall Hex) as E.
    destruct (traverse _ (map Mesh addrs) h) as [[r|] h1]; [discriminate E | reflexivity].
  - intros a g Ha Hc. rewrite (@createExportClone_mesh_result _ _ h a g scale swapYZ Ha).
    destruct (Nat.eqb_spec (count (position g)) 0) as [E|_]; [lia|].
    eexists. split; [reflexivity|]. split; [|reflexivity].
    unfold indexedForSTL. cbn [index transformForExport].
    rewrite transformForExport_count. destruct (index g); reflexivity.
Qed.
End ExportErrors.

(** * The profile editor *)

Module Editor.
Section Generic.
Context {num : Type} `{Number num}.
Local Open Scope js_scope.

Lemma nth_error_upd_same {A : Type} (l : list A) i x :
  (i < length l)%nat -> nth_error (upd l i x) i = Some x.
Proof.
  revert i; induction l as [|h t IH]; intros [|j] Hi; simpl in *; try lia; auto.
  apply IH; lia.
Qed.

Lemma nth_error_upd_other {A : Type} (l : list A) i j x :
  i <> j -> nth_error (upd l i x) j = nth_error l j.
Proof.
  revert i j; induction l as [|h t IH]; intros [|i] [|j] Hij; simpl; auto; try lia.
Qed.

Lemma spliceIn_length {A : Type} (l : list A) i x :
  length (spliceIn l i x) = S (length l).
Proof.
  unfold spliceIn. rewrite length_app. cbn [length].
  rewrite <- (firstn_skipn i l) at 3. rewrite length_app. lia.
Qed.

Lemma spliceOut_length {A : Type} (l : list A) i :
  (i < length l)%nat -> S (length (spliceOut l i)) = length l.
Proof.
  intros Hi. unfold spliceOut.
  rewrite length_app, length_firstn, length_skipn. lia.
Qed.

Lemma toggleLoftAnchorSmooth_length (anchors : list (LoftBezierAnchor num)) idx :
  length (toggleLoftAnchorSmooth anchors idx) = length anchors.
Proof.
  unfold toggleLoftAnchorSmooth.
  destruct ((idx <? 0)%Z || (Z.of_nat (length anchors) <=? idx)%Z); [reflexivity|].
  destruct (nth_error anchors (Z.to_nat idx)); [apply upd_length | reflexivity].
Qed.

(** What the loop of the pointer-down handler can do. *)
Lemma pointerdownLoop_cases hitAnchor hitIn hitOut (st : Editor num) indices :
  pointerdownLoop hitAnchor hitIn hitOut st indices = st
  \/ (exists i, In i indices
                /\ pointerdownLoop hitAnchor hitIn hitOut st indices = grabAnchor st i)
  \/ (exists h, selectedAnchorIndex st <> None
                /\ pointerdownLoop hitAnchor hitIn hitOut st indices = grabHandle st h).
Proof.
  induction indices as [|i rest IH]; [left; reflexivity|].
  cbn [pointerdownLoop].
  destruct (hitAnchor i).
  { right; left. exists i. split; [left; reflexivity | reflexivity]. }
  assert (IH' : pointerdownLoop hitAnchor hitIn hitOut st rest = st
                \/ (exists i0, In i0 (i :: rest)
                      /\ pointerdownLoop hitAnchor hitIn hitOut st rest = grabAnchor st i0)
                \/ (exists h, selectedAnchorIndex st <> None
                      /\ pointerdownLoop hitAnchor hitIn hitOut st rest = grabHandle st h)).
  { destruct IH as [E | [(j & Hj & E) | (h & Hs & E)]]; [left; exact E | |].
    - right; left. exists j. split; [right; exact Hj | exact E].
    - right; right. exists h. split; assumption. }
  destruct (isSelected st i) eqn:Hsel; [|exact IH'].
  assert (Hs : selectedAnchorIndex st <> None).
  { unfold isSelected in Hsel. destruct (selectedAnchorIndex st); congruence. }
  destruct (hitIn i); [right; right; exists handle_in; split; [exact Hs | reflexivity]|].
  destruct (hitOut i); [right; right; exists handle_out; split; [exact Hs | reflexivity]|].
  exact IH'.
Qed.

Lemma grabAnchor_anchors (st : Editor num) i :
  loftBezierAnchors (grabAnchor st i) = loftBezierAnchors st
  /\ selectedAnchorIndex (grabAnchor st i) = Some i
  /\ isDragging (grabAnchor st i) = true /\ dragObject (grabAnchor st i) = true.
Proof. unfold grabAnchor. destruct (_ && _); repeat split. Qed.

(** The anchors a pointer-down leaves, and the selection it makes. *)
Lemma pointerdown_selection hitAnchor hitIn hitOut (st : Editor num) :
  let st' := pointerdown hitAnchor hitIn hitOut st in
  loftBezierAnchors st' = loftBezierAnchors st
  /\ (selectedAnchorIndex st' = None
      \/ selectedAnchorIndex st' = selectedAnchorIndex st
      \/ exists i, (i < length (loftBezierAnchors st))%nat
                   /\ selectedAnchorIndex st' = Some i).
Proof.
  cbv zeta. unfold pointerdown.
  destruct (pointerdownLoop_cases hitAnchor hitIn hitOut st
              (seq 0 (length (loftBezierAnchors st))))
    as [E | [(i & Hi & E) | (h & Hs & E)]]; rewrite E.
  - destruct (isDragging st && dragObject st); cbn; auto.
  - destruct (grabAnchor_anchors st i) as (Ea & Es & Ed & Eo).
    rewrite Ed, Eo. cbn [andb]. split; [exact Ea|].
    right; right. exists i. apply in_seq in Hi. split; [lia | exact Es].
  - cbn. auto.
Qed.

Lemma pointermove_anchors height intersect (st st' : Editor num) :
  pointermove height intersect st = Some st' ->
  length (loftBezierAnchors st') = length (loftBezierAnchors st)
  /\ selectedAnchorIndex st' = selectedAnchorIndex st.
Proof.
  unfold pointermove. destruct (negb (isDragging st)); [intros [= <-]; auto|].
  destruct (selectedAnchorIndex st) as [i|] eqn:Es; [|intros [= <-]; auto].
  destruct (nth_error (loftBezierAnchors st) i); [|discriminate].
  intros [= <-]. cbn. rewrite upd_length. auto.
Qed.

Lemma pointermove_returns height intersect (st : Editor num) :
  selectionValid st -> exists st', pointermove height intersect st = Some st'.
Proof.
  unfold selectionValid, pointermove. intros Hv.
  destruct (negb (isDragging st)); [eauto|].
  destruct (selectedAnchorIndex st) as [i|]; [|eauto].
  destruct (nth_error (loftBezierAnchors st) i) eqn:E; [eauto|].
  apply nth_error_None in E. lia.
Qed.

Lemma dblclick_anchors hitAnchor curveHit (st : Editor num) :
  let st' := dblclick hitAnchor curveHit st in
  (length (loftBezierAnchors st) <= length (loftBezierAnchors st'))%nat
  /\ selectedAnchorIndex st' = selectedAnchorIndex st.
Proof.
  cbv zeta. unfold dblclick.
  destruct (find hitAnchor _).
  - cbn. rewrite toggleLoftAnchorSmooth_length. auto.
  - destruct curveHit; cbn; [|auto]. unfold insertAnchor.
    rewrite spliceIn_length. auto.
Qed.

Lemma deleteKey_anchors (st : Editor num) :
  (2 <= length (loftBezierAnchors st))%nat ->
  (2 <= length (loftBezierAnchors (deleteKey st)))%nat
  /\ (selectedAnchorIndex (deleteKey st) = None
      \/ deleteKey st = st).
Proof.
  intros Hl. unfold deleteKey.
  destruct (selectedAnchorIndex st) as [i|]; [|auto].
  destruct (_ && _) eqn:Ht; [|auto].
  apply andb_prop in Ht. destruct Ht as [H0 H1].
  apply Nat.ltb_lt in H0. apply Z.ltb_lt in H1.
  cbn. split; [|auto].
  pose proof (@spliceOut_length _ (loftBezierAnchors st) i ltac:(lia)). lia.
Qed.

(** Every handler keeps at least two anchors and a selection that
    designates one of them, and the pointer-move handler finds its anchor. *)
Lemma handleEvent_valid height (st : Editor num) e :
  (2 <= length (loftBezierAnchors st))%nat -> selectionValid st ->
  exists st', handleEvent height st e = Some st'
              /\ (2 <= length (loftBezierAnchors st'))%nat /\ selectionValid st'.
Proof.
  intros Hl Hv. destruct e as [hitAnchor hitIn hitOut | intersect | | hitAnchor curveHit |];
    cbn [handleEvent].
  - eexists; split; [reflexivity|].
    destruct (pointerdown_selection hitAnchor hitIn hitOut st) as (Ea & Es).
    rewrite Ea. split; [exact Hl|]. unfold selectionValid in *. rewrite Ea.
    destruct Es as [-> | [-> | (i & Hi & ->)]]; auto.
  - destruct (@pointermove_returns height intersect st Hv) as [st' E].
    exists st'. split; [exact E|].
    destruct (@pointermove_anchors _ _ _ _ E) as [El Es].
    unfold selectionValid in *. rewrite El, Es. auto.
  - eexists; split; [reflexivity|]. unfold pointerup, selectionValid in *.
    destruct (displacementDisabledForDrag st); cbn; auto.
  - eexists; split; [reflexivity|].
    destruct (dblclick_anchors hitAnchor curveHit st) as [El Es].
    unfold selectionValid in *. rewrite Es. split; [lia|].
    destruct (selectedAnchorIndex st); [lia | exact I].
  - eexists; split; [reflexivity|].
    destruct (@deleteKey_anchors st Hl) as [Hl' [Es | E]].
    + split; [exact Hl'|]. unfold selectionValid. rewrite Es. exact I.
    + rewrite E. auto.
Qed.

Lemma handleEvents_valid height events : forall st : Editor num,
  (2 <= length (loftBezierAnchors st))%nat -> selectionValid st ->
  exists st', handleEvents height st events = Some st'
              /\ (2 <= length (loftBezierAnchors st'))%nat /\ selectionValid st'.
Proof.
  induction events as [|e rest IH]; intros st Hl Hv; cbn [handleEvents].
  - exists st. auto.
  - destruct (@handleEvent_valid height st e Hl Hv) as (st1 & E & Hl1 & Hv1).
    rewrite E. apply IH; assumption.
Qed.

(** The displacement saved at the first grab is the one a pointer-up
    restores, whatever happens in between. *)
Lemma handleEvent_displacementKept height scale bias (st st' : Editor num) e :
  handleEvent height st e = Some st' ->
  displacementKept scale bias st -> displacementKept scale bias st'.
Proof.
  unfold displacementKept.
  destruct e as [hitAnchor hitIn hitOut | intersect | | hitAnchor curveHit |];
    cbn [handleEvent].
  - intros [= <-] Hk. unfold pointerdown.
    destruct (pointerdownLoop_cases hitAnchor hitIn hitOut st
                (seq 0 (length (loftBezierAnchors st))))
      as [E | [(i & Hi & E) | (h & Hs & E)]]; rewrite E.
    + destruct (isDragging st && dragObject st); exact Hk.
    + destruct (grabAnchor_anchors st i) as (_ & _ & Ed & Eo). rewrite Ed, Eo.
      cbn [andb]. unfold grabAnchor.
      destruct (displacementDisabledForDrag st) eqn:Ef; cbn [negb andb].
      * cbn. rewrite ?Ef. exact Hk.
      * destruct (nonZero _ || nonZero _); cbn; rewrite ?Ef; [|exact Hk].
        destruct Hk as [-> ->]. repeat split.
    + cbn. exact Hk.
  - unfold pointermove. destruct (negb (isDragging st)); [intros [= <-]; tauto|].
    destruct (selectedAnchorIndex st) as [i|]; [|intros [= <-]; tauto].
    destruct (nth_error (loftBezierAnchors st) i); [|discriminate].
    intros [= <-]. cbn. tauto.
  - intros [= <-]. unfold pointerup.
    destruct (displacementDisabledForDrag st); cbn; tauto.
  - intros [= <-]. unfold dblclick. destruct (find hitAnchor _); [cbn; tauto|].
    destruct curveHit; cbn; tauto.
  - intros [= <-]. unfold deleteKey. destruct (selectedAnchorIndex st); [|tauto].
    destruct (_ && _); cbn; tauto.
Qed.

Lemma handleEvents_displacementKept height scale bias events :
  forall st st' : Editor num,
  handleEvents height st events = Some st' ->
  displacementKept scale bias st -> displacementKept scale bias st'.
Proof.
  induction events as [|e rest IH]; intros st st' E Hk; cbn [handleEvents] in E.
  - injection E as <-. exact Hk.
  - destruct (handleEvent height st e) as [st1|] eqn:E1; [|discriminate].
    apply (IH st1 st' E). exact (@handleEvent_displacementKept height scale bias st st1 e E1 Hk).
Qed.

Lemma handleEvents_app height events1 events2 : forall st : Editor num,
  handleEvents height st (events1 ++ events2)
  = match handleEvents height st events1 with
    | Some st1 => handleEvents height st1 events2
    | None => None
    end.
Proof.
  induction events1 as [|e rest IH]; intros st; cbn [handleEvents app]; [reflexivity|].
  destruct (handleEvent height st e); [apply IH | reflexivity].
Qed.
End Generic.

Section Insertion.
Context {num : Type} `{Number num}.
Local Open Scope js_scope.

Lemma findInsertIndex_spec (anchors : list (LoftBezierAnchor num)) clickY : forall k,
  anchors <> [] ->
  exists i, findInsertIndex anchors clickY k = Some (k + i)%nat
    /\ (i < length anchors)%nat
    /\ (forall a, In a (firstn i anchors) -> (clickY <? vy (a_position a)) = false)
    /\ ((i < length anchors - 1)%nat ->
        exists b, nth_error anchors i = Some b /\ (clickY <? vy (a_position b)) = true).
Proof.
  induction anchors as [|a rest IH]; intros k Hne; [congruence|].
  cbn [findInsertIndex].
  destruct (clickY <? vy (a_position a)) eqn:Ha.
  - exists 0%nat. rewrite Nat.add_0_r. cbn.
    split; [reflexivity|]. split; [lia|]. split; [intros ? []|].
    intros _. exists a. auto.
  - destruct rest as [|b rest'].
    + exists 0%nat. rewrite Nat.add_0_r. cbn.
      split; [reflexivity|]. split; [lia|]. split; [intros ? [] | lia].
    + destruct (IH (S k) ltac:(discriminate)) as (i & E & Hi & Hb & Ha').
      exists (S i). rewrite E. split; [f_equal; lia|]. split; [cbn in *; lia|]. split.
      * intros a0 [<- | Hin]; [exact Ha | apply Hb; exact Hin].
      * intros Hlt. apply Ha'. cbn in *. lia.
Qed.

Lemma nth_error_spliceIn_last {A : Type} (l : list A) i x :
  (i < length l)%nat ->
  nth_error (spliceIn l i x) (length (spliceIn l i x) - 1) = nth_error l (length l - 1).
Proof.
  intros Hi. rewrite spliceIn_length. unfold spliceIn.
  rewrite nth_error_app2 by (rewrite length_firstn; lia).
  rewrite length_firstn, Nat.min_l by lia.
  replace (S (length l) - 1 - i)%nat with (S (length l - 1 - i)) by lia.
  cbn [nth_error]. rewrite nth_error_skipn. f_equal. lia.
Qed.

Lemma nth_error_spliceOut_last {A : Type} (l : list A) i :
  (i < length l - 1)%nat ->
  nth_error (spliceOut l i) (length (spliceOut l i) - 1) = nth_error l (length l - 1).
Proof.
  intros Hi. pose proof (@spliceOut_length _ l i ltac:(lia)) as El.
  unfold spliceOut in *.
  rewrite nth_error_app2 by (rewrite length_firstn; lia).
  rewrite length_firstn, Nat.min_l by lia.
  rewrite nth_error_skipn. f_equal. lia.
Qed.

Lemma Forall_upd {A : Type} (P : A -> Prop) (l : list A) i x :
  Forall P l -> P x -> Forall P (upd l i x).
Proof.
  intros Hl Hx. revert i. induction Hl as [|a l Ha Hl IH]; intros [|i]; cbn;
    constructor; auto.
Qed.

Lemma Forall_spliceIn {A : Type} (P : A -> Prop) (l : list A) i x :
  Forall P l -> P x -> Forall P (spliceIn l i x).
Proof.
  intros Hl Hx. unfold spliceIn. rewrite <- (firstn_skipn i l) in Hl.
  apply Forall_app in Hl. destruct Hl as [H1 H2].
  apply Forall_app. split; [exact H1 | constructor; assumption].
Qed.

Lemma Forall_spliceOut {A : Type} (P : A -> Prop) (l : list A) i :
  Forall P l -> Forall P (spliceOut l i).
Proof.
  intros Hl. unfold spliceOut. rewrite <- (firstn_skipn i l) in Hl.
  apply Forall_app in Hl. destruct Hl as [H1 H2].
  apply Forall_app. split; [exact H1|].
  change (skipn (S i) l) with (skipn (1 + i) l). rewrite <- skipn_skipn.
  destruct (skipn i l) as [|a t]; [constructor|].
  inversion H2; assumption.
Qed.
End Insertion.

Section Reals.
Import RealArith RealFacts Inputs.
Local Open Scope R_scope.
#[local] Existing Instance RNumber.

Lemma mirrored_opposite (v : Vector3 R) :
  vx v + vx (multiplyScalar v (ofZ (-1))) = 0
  /\ vy v + vy (multiplyScalar v (ofZ (-1))) = 0
  /\ vz v + vz (multiplyScalar v (ofZ (-1))) = 0.
Proof. destruct v as [x y z]. cbn. repeat split; ring. Qed.

Lemma toggledAnchor_wellFormed (a : LoftBezierAnchor R) :
  wellFormedAnchor a -> wellFormedAnchor (toggledAnchor a).
Proof.
  intros [Hx Hs]. unfold toggledAnchor, wellFormedAnchor.
  destruct (isSmooth a); cbn [negb].
  - split; [exact Hx | discriminate].
  - destruct (_ >? _)%js; cbn [a_position isSmooth]; (split; [exact Hx|]); intros _;
      unfold oppositeHandles; cbn [handleIn handleOut].
    + apply mirrored_opposite.
    + destruct (mirrored_opposite (handleOut a)) as (E1 & E2 & E3).
      repeat split; lra.
Qed.

Lemma movedAnchor_wellFormed h n i (a : LoftBezierAnchor R) p :
  wellFormedAnchor a -> wellFormedAnchor (movedAnchor h n i a p).
Proof.
  intros [Hx Hs]. unfold movedAnchor, wellFormedAnchor.
  cbn [a_position isSmooth handleIn handleOut vx]. split; [|exact Hs].
  unfold lit. cbn [Math_max ofZ num_div RNumber]. apply Rmax_l.
Qed.

Lemma movedHandle_wellFormed hd (a : LoftBezierAnchor R) p :
  wellFormedAnchor a -> wellFormedAnchor (movedHandle hd a p).
Proof.
  intros [Hx Hs]. unfold movedHandle, wellFormedAnchor.
  destruct hd; cbn [a_position isSmooth handleIn handleOut]; (split; [exact Hx|]);
    intros E; rewrite E; unfold oppositeHandles; cbn [handleIn handleOut].
  - apply mirrored_opposite.
  - match goal with
    | |- context [multiplyScalar ?v _] => destruct (mirrored_opposite v) as (E1 & E2 & E3)
    end.
    repeat split; lra.
Qed.

Lemma toggleLoftAnchorSmooth_wellFormed (anchors : list (LoftBezierAnchor R)) idx :
  Forall wellFormedAnchor anchors ->
  Forall wellFormedAnchor (toggleLoftAnchorSmooth anchors idx).
Proof.
  intros Hall. unfold toggleLoftAnchorSmooth.
  destruct (_ || _); [exact Hall|].
  destruct (nth_error anchors (Z.to_nat idx)) as [a|] eqn:E; [|exact Hall].
  apply Forall_upd; [exact Hall|]. apply toggledAnchor_wellFormed.
  apply nth_error_In in E. rewrite Forall_forall in Hall. apply Hall. exact E.
Qed.

Lemma toggleLoftAnchorSmooth_position (anchors : list (LoftBezierAnchor R)) idx j :
  option_map (@a_position R) (nth_error (toggleLoftAnchorSmooth anchors idx) j)
  = option_map (@a_position R) (nth_error anchors j).
Proof.
  unfold toggleLoftAnchorSmooth.
  destruct (_ || _); [reflexivity|].
  destruct (nth_error anchors (Z.to_nat idx)) as [a|] eqn:E; [|reflexivity].
  destruct (Nat.eq_dec (Z.to_nat idx) j) as [<-|Hne].
  - rewrite nth_error_upd_same by (apply nth_error_Some; congruence).
    rewrite E. cbn. unfold toggledAnchor.
    destruct (negb (isSmooth a)); [destruct (_ >? _)%js|]; reflexivity.
  - rewrite nth_error_upd_other by exact Hne. reflexivity.
Qed.

Lemma insertAnchor_wellFormed (anchors : list (LoftBezierAnchor R)) p :
  Forall wellFormedAnchor anchors -> Forall wellFormedAnchor (insertAnchor anchors p).
Proof.
  intros Hall. unfold insertAnchor. apply Forall_spliceIn; [exact Hall|].
  unfold wellFormedAnchor, oppositeHandles, lit, zero.
  cbn [a_position isSmooth handleIn handleOut vx vy vz Math_max ofZ num_div RNumber].
  split; [apply Rmax_l|]. intros _. repeat split; lra.
Qed.

Lemma insertAnchor_last (anchors : list (LoftBezierAnchor R)) p :
  anchors <> [] -> lastAnchor (insertAnchor anchors p) = lastAnchor anchors.
Proof.
  intros Hne. unfold insertAnchor, lastAnchor.
  destruct (@findInsertIndex_spec R _ anchors (vy p) 0%nat Hne) as (i & E & Hi & _).
  rewrite E. apply nth_error_spliceIn_last. exact Hi.
Qed.

Lemma handleEvent_profileKept h (st st' : Editor R) e :
  (2 <= length (loftBezierAnchors st))%nat ->
  handleEvent h st e = Some st' -> profileKept h st -> profileKept h st'.
Proof.
  intros Hl E [Hall (la & Hla & Hy)]. unfold profileKept.
  destruct e as [hitAnchor hitIn hitOut | intersect | | hitAnchor curveHit |];
    cbn [handleEvent] in E.
  - injection E as <-.
    destruct (pointerdown_selection hitAnchor hitIn hitOut st) as [Ea _].
    rewrite Ea. eauto.
  - unfold pointermove in E. destruct (negb (isDragging st)); [injection E as <-; eauto|].
    destruct (selectedAnchorIndex st) as [i|]; [|injection E as <-; eauto].
    destruct (nth_error (loftBezierAnchors st) i) as [a|] eqn:Ei; [|discriminate].
    injection E as <-. cbn [loftBezierAnchors withAnchors].
    assert (Hi : (i < length (loftBezierAnchors st))%nat)
      by (apply nth_error_Some; congruence).
    assert (Ha : wellFormedAnchor a).
    { rewrite Forall_forall in Hall. apply Hall. eapply nth_error_In. exact Ei. }
    split.
    + apply Forall_upd; [exact Hall|].
      destruct (selectedHandle st);
        [apply movedHandle_wellFormed | apply movedAnchor_wellFormed]; exact Ha.
    + unfold lastAnchor in *. rewrite upd_length.
      destruct (Nat.eq_dec i (length (loftBezierAnchors st) - 1)) as [Ei'|Hne].
      * rewrite <- Ei'. rewrite nth_error_upd_same by exact Hi.
        eexists; split; [reflexivity|].
        destruct (selectedHandle st) as [[|]|]; cbn [movedHandle movedAnchor a_position vy].
        -- rewrite <- Ei' in Hla. congruence.
        -- rewrite <- Ei' in Hla. congruence.
        -- destruct (Nat.eqb_spec i 0); [lia|].
           rewrite (proj2 (Nat.eqb_eq _ _) Ei'). reflexivity.
      * rewrite nth_error_upd_other by exact Hne. eauto.
  - injection E as <-. unfold pointerup.
    destruct (displacementDisabledForDrag st); cbn [loftBezierAnchors]; eauto.
  - injection E as <-. unfold dblclick.
    destruct (find hitAnchor _) as [i|].
    + cbn [loftBezierAnchors withAnchors]. split.
      * apply toggleLoftAnchorSmooth_wellFormed. exact Hall.
      * unfold lastAnchor in *. rewrite toggleLoftAnchorSmooth_length.
        pose proof (toggleLoftAnchorSmooth_position (loftBezierAnchors st) (Z.of_nat i)
                      (length (loftBezierAnchors st) - 1)) as Ep.
        rewrite Hla in Ep.
        destruct (nth_error (toggleLoftAnchorSmooth _ _) _) as [a'|]; [|discriminate].
        cbn in Ep. exists a'. split; [reflexivity|]. congruence.
    + destruct curveHit as [p|]; [|eauto]. cbn [loftBezierAnchors withAnchors]. split.
      * apply insertAnchor_wellFormed. exact Hall.
      * rewrite insertAnchor_last; [eauto|].
        destruct (loftBezierAnchors st); [cbn in Hl; lia | discriminate].
  - injection E as <-. unfold deleteKey.
    destruct (selectedAnchorIndex st) as [i|]; [|eauto].
    destruct (_ && _) eqn:Ht; [|eauto].
    apply andb_prop in Ht. destruct Ht as [H0 H1].
    apply Nat.ltb_lt in H0. apply Z.ltb_lt in H1.
    cbn [loftBezierAnchors]. split; [apply Forall_spliceOut; exact Hall|].
    unfold lastAnchor in *. rewrite nth_error_spliceOut_last by lia. eauto.
Qed.

Lemma handleEvents_profileKept h events : forall st st' : Editor R,
  (2 <= length (loftBezierAnchors st))%nat -> selectionValid st ->
  handleEvents h st events = Some st' -> profileKept h st -> profileKept h st'.
Proof.
  induction events as [|e rest IH]; intros st st' Hl Hv E Hk; cbn [handleEvents] in E.
  - injection E as <-. exact Hk.
  - destruct (@handleEvent_valid R _ h st e Hl Hv) as (st1 & E1 & Hl1 & Hv1).
    rewrite E1 in E. apply (IH st1 st' Hl1 Hv1 E).
    exact (@handleEvent_profileKept h st st1 e Hl E1 Hk).
Qed.

Lemma initEditor_profileKept (params : LoftParams R) :
  1 / 10 <= radius params -> profileKept (height params) (initEditor params).
Proof.
  intros Hr. split.
  - cbn [initEditor loftBezierAnchors]. unfold initLoftBezierAnchors. cbn [seq map].
    rewrite Forall_forall. intros a Hin. cbn in Hin.
    assert (Hw : forall i, (0 < i < 4)%nat -> wellFormedAnchor (initAnchor params i)).
    { intros i Hi. split; [exact Hr|]. intros _.
      unfold initAnchor, oppositeHandles, lit, zero.
      destruct (Nat.eqb_spec i 0) as [|_]; [lia|].
      destruct (Nat.eqb_spec i 4) as [|_]; [lia|].
      cbn [handleIn handleOut vx vy vz ofZ num_div RNumber]. repeat split; lra. }
    destruct Hin as [<- | [<- | [<- | [<- | [<- | []]]]]];
      try (apply Hw; lia); (split; [exact Hr | discriminate]).
  - cbn. eexists; split; [reflexivity|]. cbn. unfold ofNat. cbn. field.
Qed.
End Reals.

(** The handlers of the profile editor never read a missing anchor.  After
    any sequence of pointer-down, pointer-move, pointer-up, double-click and
    Delete events on the initial profile, whatever the rays hit, no handler
    has raised a TypeError, the profile still has at least two anchors, the
    selected index, if any, designates an anchor, and a further pointer-move
    finds the anchor it drags. *)
Theorem initLoftBezierInteractions_never_fails
    {num : Type} `{Number num} (params : LoftParams num) (height : num)
    (events : list (Event num)) :
  exists st,
    handleEvents height (initEditor params) events = Some st
    /\ 2 <= length (loftBezierAnchors st)
    /\ selectionValid st
    /\ forall intersect, pointermove height intersect st <> None.
Proof.
  destruct (@handleEvents_valid num _ height events (initEditor params))
    as (st & E & Hl & Hv).
  - cbn. lia.
  - exact I.
  - exists st. repeat split; try assumption.
    intros intersect. destruct (@pointermove_returns num _ height intersect st Hv) as [st' ->].
    discriminate.
Qed.

(** The displacement damped for a drag is restored exactly.  At every moment
    of a session [loftParams] holds the displacement scale and bias the user
    has set, or, between a grab and the next pointer-up, these values
    multiplied once by 0.3: a second grab before the pointer-up neither damps
    them again nor overwrites the saved values.  After a pointer-up the scale
    and the bias are the values of the start, and the flag is cleared. *)
Theorem initLoftBezierInteractions_restores_displacement
    {num : Type} `{Number num} (params : LoftParams num) (height : num)
    (events : list (Event num)) :
  (exists st,
     handleEvents height (initEditor params) events = Some st
     /\ ((e_displacementScale st = displacementScale params
          /\ e_displacementBias st = displacementBias params)
         \/ (e_displacementScale st = (displacementScale params * lit 3 10)%js
             /\ e_displacementBias st = (displacementBias params * lit 3 10)%js)))
  /\ (exists st,
       handleEvents height (initEditor params) (events ++ [PointerUp]) = Some st
       /\ e_displacementScale st = displacementScale params
       /\ e_displacementBias st = displacementBias params
       /\ displacementDisabledForDrag st = false).
Proof.
  destruct (@handleEvents_valid num _ height events (initEditor params))
    as (st & E & Hl & Hv); [cbn; lia | exact I |].
  assert (Hk : displacementKept (displacementScale params) (displacementBias params) st).
  { apply (@handleEvents_displacementKept num _ height _ _ events (initEditor params) st E).
    unfold displacementKept. cbn. auto. }
  unfold displacementKept in Hk. split.
  - exists st. split; [exact E|].
    destruct (displacementDisabledForDrag st); tauto.
  - exists (pointerup st). rewrite handleEvents_app, E. split; [reflexivity|].
    unfold pointerup. destruct (displacementDisabledForDrag st); cbn; tauto.
Qed.

(** Where a double click on the curve puts the new anchor: before the first
    anchor that lies higher than the click, and, when no anchor does, before
    the last anchor, never after it.  The anchors before the new one are not
    higher than the click, and the last anchor of the profile stays the last
    one. *)
Theorem insertAnchor_place
    {num : Type} `{Number num} (anchors : list (LoftBezierAnchor num))
    (clickedPoint : Vector3 num) :
  anchors <> [] ->
  exists i,
    i < length anchors
    /\ insertAnchor anchors clickedPoint
       = firstn i anchors
         ++ mkAnchor (vec3 (Math_max (lit 1 10) (vx clickedPoint)) (vy clickedPoint) zero)
                     (vec3 zero (lit (-1) 10) zero) (vec3 zero (lit 1 10) zero) true
         :: skipn i anchors
    /\ (forall a, In a (firstn i anchors) ->
          (vy clickedPoint <? vy (a_position a))%js = false)
    /\ (i < length anchors - 1 ->
        exists b, nth_error anchors i = Some b
                  /\ (vy clickedPoint <? vy (a_position b))%js = true)
    /\ lastAnchor (insertAnchor anchors clickedPoint) = lastAnchor anchors.
Proof.
  intros Hne.
  destruct (@findInsertIndex_spec num _ anchors (vy clickedPoint) 0 Hne)
    as (i & E & Hi & Hb & Ha).
  exists i. split; [exact Hi|].
  assert (Ei : insertAnchor anchors clickedPoint
               = spliceIn anchors i
                   (mkAnchor (vec3 (Math_max (lit 1 10) (vx clickedPoint))
                                   (vy clickedPoint) zero)
                             (vec3 zero (lit (-1) 10) zero)
                             (vec3 zero (lit 1 10) zero) true)).
  { unfold insertAnchor. rewrite E. reflexivity. }
  split; [exact Ei|]. split; [exact Hb|]. split; [exact Ha|].
  rewrite Ei. unfold lastAnchor. apply nth_error_spliceIn_last. exact Hi.
Qed.

#[local] Existing Instance RealArith.RNumber.

(** A click above every anchor of a two-anchor profile puts the new anchor
    between the two. *)
Lemma insertAnchor_place_witness :
  exists i,
    i < 2
    /\ insertAnchor [mkAnchor (vec3 2 0 0) (vec3 0 0 0) (vec3 0 0 0) false;
                     mkAnchor (vec3 2 5 0) (vec3 0 0 0) (vec3 0 0 0) false]%R
                    (vec3 1 7 0)%R
       = [mkAnchor (vec3 2 0 0) (vec3 0 0 0) (vec3 0 0 0) false;
          mkAnchor (vec3 (Rmax (1 / 10) 1) 7 0) (vec3 0 (-1 / 10) 0) (vec3 0 (1 / 10) 0) true;
          mkAnchor (vec3 2 5 0) (vec3 0 0 0) (vec3 0 0 0) false]%R.
Proof.
  destruct (@insertAnchor_place R RealArith.RNumber
              [mkAnchor (vec3 2 0 0) (vec3 0 0 0) (vec3 0 0 0) false;
               mkAnchor (vec3 2 5 0) (vec3 0 0 0) (vec3 0 0 0) false]%R
              (vec3 1 7 0)%R ltac:(discriminate))
    as (i & Hi & E & Hb & _).
  exists 1. split; [lia|].
  unfold insertAnchor. cbn [findInsertIndex vy a_position].
  cbn [num_ltb RealArith.RNumber]. unfold RealArith.Rltb.
  destruct (Rlt_dec 7 0) as [L|_]; [lra|].
  destruct (Rlt_dec 7 5) as [L|_]; [lra|].
  reflexivity.
Defined.

(** The editor keeps the profile well formed.  In exact arithmetic, when the
    initial radius is at least 0.1, after any sequence of events every anchor
    has a radius of at least 0.1, every smooth anchor has opposite handles,
    and the last anchor lies at the height of the model. *)
Theorem initLoftBezierInteractions_keeps_profile
    (params : LoftParams R) (events : list (Event R)) :
  (1 / 10 <= radius params)%R ->
  exists st,
    handleEvents (height params) (initEditor params) events = Some st
    /\ Forall Inputs.wellFormedAnchor (loftBezierAnchors st)
    /\ exists a, lastAnchor (loftBezierAnchors st) = Some a
                 /\ vy (a_position a) = height params.
Proof.
  intros Hr.
  destruct (@handleEvents_valid R _ (height params) events (initEditor params))
    as (st & E & Hl & Hv); [cbn; lia | exact I |].
  exists st. split; [exact E|].
  apply (@handleEvents_profileKept (height params) events (initEditor params) st);
    [cbn; lia | exact I | exact E | apply initEditor_profileKept; exact Hr].
Qed.

(** The third anchor dragged to a negative radius above the model, then
    deleted. *)
Lemma initLoftBezierInteractions_keeps_profile_witness :
  exists st,
    handleEvents (height (@loftParams R RealArith.RNumber)) (initEditor loftParams)
                 [PointerDown (Nat.eqb 2) (fun _ => false) (fun _ => false);
                  PointerMove (vec3 (-3) 9 0)%R; PointerUp; KeyDelete]
    = Some st
    /\ Forall Inputs.wellFormedAnchor (loftBezierAnchors st)
    /\ exists a, lastAnchor (loftBezierAnchors st) = Some a
                 /\ vy (a_position a) = height (@loftParams R RealArith.RNumber).
Proof.
  apply (@initLoftBezierInteractions_keeps_profile loftParams
           [PointerDown (Nat.eqb 2) (fun _ => false) (fun _ => false);
            PointerMove (vec3 (-3) 9 0)%R; PointerUp; KeyDelete]).
  cbn. lra.
Defined.

(** A toggle keeps the longer handle.  In exact arithmetic,
    [toggleLoftAnchorSmooth] changes the anchor of the given index only, and
    of it neither the position nor, when it becomes a corner, the handles;
    when it becomes smooth its handles are opposite, both as long as the
    longer of the two was, and one of them is unchanged.  An index that
    designates no anchor changes nothing. *)
Theorem toggleLoftAnchorSmooth_keeps_longer_handle
    (anchors : list (LoftBezierAnchor R)) (idx : Z) :
  length (toggleLoftAnchorSmooth anchors idx) = length anchors
  /\ (forall j, Z.of_nat j <> idx ->
        nth_error (toggleLoftAnchorSmooth anchors idx) j = nth_error anchors j)
  /\ (forall j a, nth_error anchors j = Some a -> Z.of_nat j = idx ->
        exists a',
          nth_error (toggleLoftAnchorSmooth anchors idx) j = Some a'
          /\ a_position a' = a_position a
          /\ isSmooth a' = negb (isSmooth a)
          /\ (isSmooth a = true ->
                handleIn a' = handleIn a /\ handleOut a' = handleOut a)
          /\ (isSmooth a = false ->
                Inputs.oppositeHandles a'
                /\ lengthSq (handleIn a')
                   = Rmax (lengthSq (handleIn a)) (lengthSq (handleOut a))
                /\ lengthSq (handleOut a')
                   = Rmax (lengthSq (handleIn a)) (lengthSq (handleOut a))
                /\ (handleIn a' = handleIn a \/ handleOut a' = handleOut a))).
Proof.
  split; [apply toggleLoftAnchorSmooth_length|]. split.
  - intros j Hj. unfold toggleLoftAnchorSmooth.
    destruct ((idx <? 0)%Z || _) eqn:Eb; [reflexivity|].
    apply orb_false_elim in Eb. destruct Eb as [Eb _]. apply Z.ltb_ge in Eb.
    destruct (nth_error anchors (Z.to_nat idx)) as [a|] eqn:E; [|reflexivity].
    apply nth_error_upd_other. intros Ej. apply Hj. subst j. apply Z2Nat.id. exact Eb.
  - intros j a Ej <-. unfold toggleLoftAnchorSmooth.
    assert (Hj : j < length anchors) by (apply nth_error_Some; congruence).
    destruct (Z.ltb_spec (Z.of_nat j) 0) as [L|_]; [lia|].
    destruct (Z.leb_spec (Z.of_nat (length anchors)) (Z.of_nat j)) as [L|_]; [lia|].
    cbn [orb]. rewrite Nat2Z.id, Ej, nth_error_upd_same by exact Hj.
    eexists; split; [reflexivity|].
    unfold toggledAnchor. destruct (isSmooth a); cbn [negb].
    + cbn. repeat split; auto; discriminate.
    + set (li := lengthSq (handleIn a)). set (lo := lengthSq (handleOut a)).
      assert (Em : forall v : Vector3 R, lengthSq (multiplyScalar v (ofZ (-1))) = lengthSq v).
      { intros [x y z]. unfold lengthSq. cbn. ring. }
      cbn [num_ltb RealArith.RNumber]. unfold RealArith.Rltb.
      destruct (Rlt_dec lo li) as [L|L]; cbn [a_position isSmooth handleIn handleOut];
        (split; [reflexivity|]); (split; [reflexivity|]); (split; [discriminate|]);
        intros _; unfold Inputs.oppositeHandles; cbn [handleIn handleOut];
        rewrite ?Em; fold li lo.
      * split; [apply mirrored_opposite|].
        rewrite Rmax_left by lra. auto.
      * destruct (mirrored_opposite (handleOut a)) as (E1 & E2 & E3).
        rewrite Rmax_right by lra. repeat split; auto; lra.
Qed.
End Editor.

(** * Merging geometries *)

Module Merge.
Section Generic.
Context {num : Type} `{Number num}.

Lemma pushedXYZ_length (a : list num) : length (pushedXYZ a) = count a * 3.
Proof.
  unfold pushedXYZ. rewrite (flat_map_length_const _ (m := 3)) by reflexivity.
  rewrite length_seq. reflexivity.
Qed.

Lemma pushedXYZ_vertex (a rest : list num) k :
  k < count a ->
  fromBufferAttribute (pushedXYZ a ++ rest) k = fromBufferAttribute a k.
Proof.
  intros Hk. unfold fromBufferAttribute, getX, getY, getZ.
  rewrite !app_nth1 by (rewrite pushedXYZ_length; lia).
  unfold pushedXYZ.
  pose proof (fun c => @nth_flat_map_chunk num
                         (fun i => [nth (i * 3) a undef; nth (i * 3 + 1) a undef;
                                    nth (i * 3 + 2) a undef])
                         3 0 (count a) k c undef (fun _ => eq_refl) Hk) as E.
  pose proof (E 0 ltac:(lia)) as E0. pose proof (E 1 ltac:(lia)) as E1.
  pose proof (E 2 ltac:(lia)) as E2. rewrite Nat.add_0_r in E0.
  unfold getX, getY, getZ. rewrite E0, E1, E2. reflexivity.
Qed.

Lemma fromBufferAttribute_shift (l1 l2 : list num) n0 k :
  length l1 = n0 * 3 ->
  fromBufferAttribute (l1 ++ l2) (n0 + k) = fromBufferAttribute l2 k.
Proof.
  intros Hl. unfold fromBufferAttribute, getX, getY, getZ.
  rewrite !app_nth2 by lia. rewrite Hl.
  replace ((n0 + k) * 3 - n0 * 3) with (k * 3) by lia.
  replace ((n0 + k) * 3 + 1 - n0 * 3) with (k * 3 + 1) by lia.
  replace ((n0 + k) * 3 + 2 - n0 * 3) with (k * 3 + 2) by lia.
  reflexivity.
Qed.

Lemma vertexOffset_S (g : BufferGeometry num) gs j :
  vertexOffset (g :: gs) (S j) = count (position g) + vertexOffset gs j.
Proof. reflexivity. Qed.

Lemma entryOffset_S (g : BufferGeometry num) gs j :
  entryOffset (g :: gs) (S j) = indexLength g + entryOffset gs j.
Proof. reflexivity. Qed.

(** The loop appends: positions geometry by geometry. *)
Lemma fold_positions (gs : list (BufferGeometry num)) : forall acc,
  m_positions (fold_left mergeStep gs acc)
  = m_positions acc ++ flat_map (fun g => pushedXYZ (position g)) gs.
Proof.
  induction gs as [|g gs IH]; intros acc; cbn [fold_left flat_map].
  - rewrite app_nil_r. reflexivity.
  - rewrite IH. cbn [mergeStep m_positions]. rewrite app_assoc. reflexivity.
Qed.

Lemma merged_length (gs : list (BufferGeometry num)) :
  length (flat_map (fun g => pushedXYZ (position g)) gs)
  = vertexOffset gs (length gs) * 3.
Proof.
  induction gs as [|g gs IH]; [reflexivity|].
  cbn [flat_map length]. rewrite vertexOffset_S, length_app, pushedXYZ_length, IH. lia.
Qed.

Lemma merged_vertex (gs : list (BufferGeometry num)) : forall j g k,
  nth_error gs j = Some g -> k < count (position g) ->
  fromBufferAttribute (flat_map (fun g => pushedXYZ (position g)) gs)
                      (vertexOffset gs j + k)
  = fromBufferAttribute (position g) k.
Proof.
  induction gs as [|g0 gs IH]; intros [|j] g k Ej Hk; try discriminate.
  - injection Ej as ->. cbn [flat_map]. change (vertexOffset (g :: gs) 0) with 0.
    apply pushedXYZ_vertex. exact Hk.
  - cbn [nth_error] in Ej. cbn [flat_map]. rewrite vertexOffset_S.
    rewrite <- Nat.add_assoc.
    rewrite fromBufferAttribute_shift by apply pushedXYZ_length.
    apply IH; assumption.
Qed.

Lemma vertexOffset_lt (gs : list (BufferGeometry num)) : forall j g k,
  nth_error gs j = Some g -> k < count (position g) ->
  vertexOffset gs j + k < vertexOffset gs (length gs).
Proof.
  induction gs as [|g0 gs IH]; intros [|j] g k Ej Hk; try discriminate.
  - injection Ej as ->. cbn [length]. rewrite vertexOffset_S.
    change (vertexOffset (g :: gs) 0) with 0. lia.
  - cbn [nth_error] in Ej. cbn [length]. rewrite !vertexOffset_S.
    specialize (IH j g k Ej Hk). lia.
Qed.

Lemma In_firstn_incl {A : Type} (x : A) (l : list A) : forall j,
  In x (firstn j l) -> In x l.
Proof.
  induction l as [|a l IH]; intros [|j] Hin; cbn in *; try contradiction.
  destruct Hin as [E | Hin]; [left; exact E | right; exact (IH j Hin)].
Qed.

Lemma nth_map_add (l : list nat) c : forall p,
  p < length l -> nth p (map (fun i => i + c) l) 0 = nth p l 0 + c.
Proof.
  induction l as [|x l IH]; intros [|p] Hp; cbn in *; try lia.
  apply IH. lia.
Qed.

(** The index entries, when every geometry before the one of rank [j] has
    an index. *)
Lemma fold_indices_app (gs : list (BufferGeometry num)) : forall acc,
  exists ext, m_indices (fold_left mergeStep gs acc) = m_indices acc ++ ext.
Proof.
  induction gs as [|g gs IH]; intros acc; cbn [fold_left].
  - exists []. rewrite app_nil_r. reflexivity.
  - destruct (IH (mergeStep acc g)) as [ext E]. rewrite E.
    cbn [mergeStep m_indices]. destruct (index g) as [arr|].
    + exists (map (fun i => i + indexOffset acc) arr ++ ext).
      rewrite app_assoc. reflexivity.
    + exists ext. reflexivity.
Qed.

Lemma merged_entry (gs : list (BufferGeometry num)) : forall acc j g idx p,
  (forall g', In g' (firstn j gs) -> index g' <> None) ->
  nth_error gs j = Some g -> index g = Some idx -> p < length idx ->
  nth (length (m_indices acc) + entryOffset gs j + p)
      (m_indices (fold_left mergeStep gs acc)) 0
  = nth p idx 0 + (indexOffset acc + vertexOffset gs j).
Proof.
  induction gs as [|g0 gs IH]; intros acc [|j] g idx p Hall Ej Ei Hp; try discriminate.
  - injection Ej as ->. cbn [fold_left].
    destruct (fold_indices_app gs (mergeStep acc g)) as [ext E]. rewrite E.
    cbn [mergeStep m_indices]. rewrite Ei.
    change (entryOffset (g :: gs) 0) with 0.
    change (vertexOffset (g :: gs) 0) with 0.
    rewrite !Nat.add_0_r. rewrite <- app_assoc, app_nth2 by lia.
    replace (length (m_indices acc) + p - length (m_indices acc)) with p by lia.
    rewrite app_nth1 by (rewrite length_map; exact Hp).
    rewrite nth_map_add by exact Hp. reflexivity.
  - cbn [nth_error] in Ej. cbn [fold_left].
    assert (H0 : index g0 <> None) by (apply Hall; left; reflexivity).
    destruct (index g0) as [idx0|] eqn:E0; [|congruence].
    pose proof (IH (mergeStep acc g0) j g idx p
                   (fun g' Hin => Hall g' (or_intror Hin)) Ej Ei Hp) as E.
    cbn [mergeStep m_indices indexOffset] in E. rewrite E0 in E.
    rewrite length_app, length_map in E.
    rewrite entryOffset_S, vertexOffset_S. unfold indexLength at 1. rewrite E0.
    replace (length (m_indices acc) + (length idx0 + entryOffset gs j) + p)
      with (length (m_indices acc) + length idx0 + entryOffset gs j + p) by lia.
    rewrite E. lia.
Qed.

Lemma mergeGeometries_position (gs : list (BufferGeometry num)) :
  position (mergeGeometries gs)
  = Float32BufferAttribute (flat_map (fun g => pushedXYZ (position g)) gs).
Proof. unfold mergeGeometries. cbn [position]. rewrite fold_positions. reflexivity. Qed.

Lemma mergeGeometries_count (gs : list (BufferGeometry num)) :
  count (position (mergeGeometries gs)) = vertexOffset gs (length gs).
Proof.
  rewrite mergeGeometries_position. unfold count, Float32BufferAttribute.
  rewrite length_map, merged_length. apply Nat.div_mul. lia.
Qed.

Lemma mergeGeometries_vertex (gs : list (BufferGeometry num)) j g k :
  nth_error gs j = Some g -> k < count (position g) ->
  fromBufferAttribute (position (mergeGeometries gs)) (vertexOffset gs j + k)
  = roundV (fromBufferAttribute (position g) k).
Proof.
  intros Ej Hk. rewrite mergeGeometries_position.
  pose proof (vertexOffset_lt gs j Ej Hk) as Hlt.
  rewrite <- (merged_vertex gs j Ej Hk).
  unfold fromBufferAttribute, getX, getY, getZ, roundV. cbn [vx vy vz].
  rewrite !Caps.nth_Float32 by (rewrite merged_length; lia). reflexivity.
Qed.
Lemma fold_indices_length (gs : list (BufferGeometry num)) : forall acc,
  length (m_indices (fold_left mergeStep gs acc))
  = length (m_indices acc) + entryOffset gs (length gs).
Proof.
  induction gs as [|g gs IH]; intros acc; cbn [fold_left length].
  - change (entryOffset [] 0) with 0. lia.
  - rewrite IH, entryOffset_S. cbn [mergeStep m_indices]. unfold indexLength.
    destruct (index g); [rewrite length_app, length_map|]; lia.
Qed.

Lemma entryOffset_le (gs : list (BufferGeometry num)) : forall j g,
  nth_error gs j = Some g ->
  entryOffset gs j + indexLength g <= entryOffset gs (length gs).
Proof.
  induction gs as [|g0 gs IH]; intros [|j] g Ej; try discriminate.
  - injection Ej as ->. cbn [length]. rewrite entryOffset_S.
    change (entryOffset (g :: gs) 0) with 0. lia.
  - cbn [nth_error] in Ej. cbn [length]. rewrite !entryOffset_S.
    specialize (IH j g Ej). lia.
Qed.

Lemma fold_indices_valid (gs : list (BufferGeometry num)) : forall acc,
  (forall g, In g gs -> index g <> None /\ indicesValid g) ->
  Forall (fun i => i < indexOffset acc) (m_indices acc) ->
  Forall (fun i => i < indexOffset acc + vertexOffset gs (length gs))
         (m_indices (fold_left mergeStep gs acc)).
Proof.
  induction gs as [|g gs IH]; intros acc Hall Hacc; cbn [fold_left length].
  - change (vertexOffset [] 0) with 0. rewrite Nat.add_0_r. exact Hacc.
  - destruct (Hall g (or_introl eq_refl)) as [Hi Hv]. unfold indicesValid in Hv.
    destruct (index g) as [idx|] eqn:Ei; [|congruence].
    rewrite vertexOffset_S, Nat.add_assoc.
    replace (indexOffset acc + count (position g))
      with (indexOffset (mergeStep acc g)) by (cbn [mergeStep indexOffset]; rewrite Ei; reflexivity).
    apply IH; [intros g' Hin; apply Hall; right; exact Hin|].
    cbn [mergeStep m_indices indexOffset]. rewrite Ei.
    apply Forall_app. split.
    + eapply Forall_impl; [|exact Hacc]. cbn. intros; lia.
    + rewrite Forall_map. eapply Forall_impl; [|exact Hv]. cbn. intros; lia.
Qed.

Lemma mergeGeometries_index (gs : list (BufferGeometry num)) :
  index (mergeGeometries gs)
  = match m_indices (fold_left mergeStep gs (mkMerged [] [] [] [] 0)) with
    | [] => None
    | indices => Some indices
    end.
Proof. reflexivity. Qed.
End Generic.

(** Merging indexed geometries keeps their triangles.  When every geometry
    has an index, the merged geometry has the vertices of all of them, in
    order, and each index entry of each geometry becomes an entry that
    designates the same vertex (as a Float32Array holds it) in the merged
    geometry. *)
Theorem mergeGeometries_keeps_triangles
    {num : Type} `{Number num} (geometries : list (BufferGeometry num)) :
  (forall g, In g geometries -> index g <> None) ->
  count (position (mergeGeometries geometries))
  = vertexOffset geometries (length geometries)
  /\ forall j g idx p,
       nth_error geometries j = Some g -> index g = Some idx -> p < length idx ->
       exists merged,
         index (mergeGeometries geometries) = Some merged
         /\ length merged = entryOffset geometries (length geometries)
         /\ nth (entryOffset geometries j + p) merged 0
            = vertexOffset geometries j + nth p idx 0
         /\ (nth p idx 0 < count (position g) ->
             fromBufferAttribute (position (mergeGeometries geometries))
                                 (nth (entryOffset geometries j + p) merged 0)
             = roundV (fromBufferAttribute (position g) (nth p idx 0))).
Proof.
  intros Hall. split; [apply mergeGeometries_count|].
  intros j g idx p Ej Ei Hp.
  set (acc0 := mkMerged (num := num) [] [] [] [] 0).
  pose proof (fold_indices_length geometries acc0) as El. cbn [acc0 m_indices length] in El.
  pose proof (entryOffset_le geometries j Ej) as Hle. unfold indexLength in Hle.
  rewrite Ei in Hle.
  pose proof (@merged_entry num _ geometries acc0 j g idx p
                (fun g' Hin => Hall g' (@In_firstn_incl _ g' geometries j Hin)) Ej Ei Hp) as En.
  cbn [acc0 m_indices indexOffset length] in En. fold acc0 in En, El.
  rewrite mergeGeometries_index. fold acc0.
  destruct (m_indices (fold_left mergeStep geometries acc0)) as [|i0 rest] eqn:Em;
    [cbn [length] in El; lia|].
  rewrite <- Em in *. eexists. split; [reflexivity|]. split; [exact El|].
  assert (E : nth (entryOffset geometries j + p)
                  (m_indices (fold_left mergeStep geometries acc0)) 0
              = vertexOffset geometries j + nth p idx 0).
  { change (0 + entryOffset geometries j + p) with (entryOffset geometries j + p) in En.
    rewrite En. lia. }
  split; [exact E|]. intros Hv. rewrite E.
  apply mergeGeometries_vertex; assumption.
Qed.

(** An unindexed geometry breaks the indices of the ones after it.  The
    offset added to index entries grows only with geometries that have an
    index: when the first of two geometries has none, the entries of the
    second are copied unchanged although its vertices come after those of
    the first, so that an entry below the vertex count of the first
    designates a vertex of the first. *)
Theorem mergeGeometries_unindexed_first
    {num : Type} `{Number num} (g1 g2 : BufferGeometry num) (idx : list nat) :
  index g1 = None -> index g2 = Some idx -> idx <> [] ->
  let merged := mergeGeometries [g1; g2] in
  index merged = Some idx
  /\ (forall k, k < count (position g1) ->
        fromBufferAttribute (position merged) k
        = roundV (fromBufferAttribute (position g1) k))
  /\ (forall k, k < count (position g2) ->
        fromBufferAttribute (position merged) (count (position g1) + k)
        = roundV (fromBufferAttribute (position g2) k)).
Proof.
  intros E1 E2 Hne merged. subst merged. split; [|split].
  - rewrite mergeGeometries_index. cbn [fold_left mergeStep m_indices indexOffset].
    rewrite E1, E2. cbn [app].
    rewrite (map_ext _ (fun i => i) (fun i => Nat.add_0_r i)), map_id.
    destruct idx; [congruence | reflexivity].
  - intros k Hk.
    exact (@mergeGeometries_vertex num _ [g1; g2] 0 g1 k eq_refl Hk).
  - intros k Hk.
    pose proof (@mergeGeometries_vertex num _ [g1; g2] 1 g2 k eq_refl Hk) as E.
    rewrite vertexOffset_S in E. change (vertexOffset [g2] 0) with 0 in E.
    rewrite Nat.add_0_r in E. exact E.
Qed.

(** The body and its caps merge into one valid mesh.  For a body whose
    index entries designate vertices of the body, [createWatertightMesh]
    applied to it and to the caps welded to it gives a geometry with the
    vertices of the body, then those of the bottom cap, then those of the top
    cap; its index has the entries of the three, and every entry designates
    a vertex of the merged geometry. *)
Theorem createWatertightMesh_valid
    {num : Type} `{Number num} (body : BufferGeometry num) (params : LoftParams num)
    (idx : list nat) :
  index body = Some idx ->
  Forall (fun i => i < count (position body)) idx ->
  let caps := createWeldedCapGeometries body params in
  let segs := segments params in
  let merged := createWatertightMesh body (Some (fst caps)) (Some (snd caps)) in
  count (position merged) = count (position body) + 2 * (segs + 2)
  /\ (forall k, k < count (position body) ->
        fromBufferAttribute (position merged) k
        = roundV (fromBufferAttribute (position body) k))
  /\ (forall k, k < segs + 2 ->
        fromBufferAttribute (position merged) (count (position body) + k)
        = roundV (fromBufferAttribute (position (fst caps)) k)
        /\ fromBufferAttribute (position merged) (count (position body) + (segs + 2) + k)
           = roundV (fromBufferAttribute (position (snd caps)) k))
  /\ match index merged with
     | Some entries =>
         length entries = length idx + 6 * segs
         /\ Forall (fun i => i < count (position merged)) entries
     | None => idx = [] /\ segs = 0
     end.
Proof.
  intros Ei Hv caps segs merged.
  set (gs := [body; fst caps; snd caps]).
  assert (Em : merged = mergeGeometries gs) by reflexivity.
  assert (Hcb : count (position (fst caps)) = segs + 2)
    by apply CapFans.capGeometry_vertex_count.
  assert (Hct : count (position (snd caps)) = segs + 2)
    by apply CapFans.capGeometry_vertex_count.
  assert (Hoff : vertexOffset gs 1 = count (position body)
                 /\ vertexOffset gs 2 = count (position body) + (segs + 2)
                 /\ vertexOffset gs 3 = count (position body) + 2 * (segs + 2)).
  { unfold gs. rewrite !vertexOffset_S.
    change (vertexOffset _ 0) with 0. rewrite Hcb, Hct. lia. }
  destruct Hoff as (O1 & O2 & O3).
  assert (Hc : count (position merged) = count (position body) + 2 * (segs + 2)).
  { rewrite Em, mergeGeometries_count. exact O3. }
  split; [exact Hc|]. split; [|split].
  - intros k Hk. rewrite Em.
    exact (@mergeGeometries_vertex num _ gs 0 body k eq_refl Hk).
  - intros k Hk. rewrite Em. split.
    + rewrite <- O1.
      apply (@mergeGeometries_vertex num _ gs 1 (fst caps) k eq_refl). lia.
    + rewrite <- O2.
      apply (@mergeGeometries_vertex num _ gs 2 (snd caps) k eq_refl). lia.
  - set (acc0 := mkMerged (num := num) [] [] [] [] 0).
    assert (Hall : forall g, In g gs -> index g <> None /\ indicesValid g).
    { intros g [<- | [<- | [<- | []]]]; unfold indicesValid.
      - rewrite Ei. split; [discriminate | exact Hv].
      - cbn [caps createWeldedCapGeometries fst capGeometry index].
        split; [discriminate|].
        change (count _) with (count (position (fst caps))). rewrite Hcb.
        apply CapFans.fan_bound. intros k Hk. repeat constructor; lia.
      - cbn [caps createWeldedCapGeometries snd capGeometry index].
        split; [discriminate|].
        change (count _) with (count (position (snd caps))). rewrite Hct.
        apply CapFans.fan_bound. intros k Hk. repeat constructor; lia. }
    pose proof (@fold_indices_valid num _ gs acc0 Hall ltac:(constructor)) as Hb.
    pose proof (fold_indices_length gs acc0) as El.
    cbn [acc0 m_indices indexOffset length gs] in Hb, El. fold gs acc0 in Hb, El.
    change (length gs) with 3 in *. rewrite O3 in Hb.
    assert (Ee : entryOffset gs 3 = length idx + 6 * segs).
    { unfold gs. rewrite !entryOffset_S. change (entryOffset _ 0) with 0.
      unfold indexLength. rewrite Ei.
      cbn [caps createWeldedCapGeometries fst snd capGeometry index].
      rewrite !CapFans.fan_length by reflexivity. fold segs. lia. }
    rewrite Ee in El. rewrite Em, mergeGeometries_index. fold acc0.
    destruct (m_indices (fold_left mergeStep gs acc0)) as [|i0 rest] eqn:E.
    + cbn [length] in El. split; [destruct idx; [reflexivity | cbn in El; lia] | lia].
    + rewrite <- Em, Hc. split; [exact El | exact Hb].
Qed.

#[local] Existing Instance RealArith.RNumber.

(** Two copies of a one-vertex geometry: the entries of the second designate
    the second vertex. *)
Lemma mergeGeometries_keeps_triangles_witness :
  count (position (mergeGeometries [Inputs.inwardVertex; Inputs.inwardVertex])) = 2
  /\ exists merged,
       index (mergeGeometries [Inputs.inwardVertex; Inputs.inwardVertex]) = Some merged
       /\ nth 3 merged 0 = 1.
Proof.
  destruct (@mergeGeometries_keeps_triangles R RealArith.RNumber
              [Inputs.inwardVertex; Inputs.inwardVertex]) as [Hc Ht].
  - intros g [<- | [<- | []]]; discriminate.
  - split; [exact Hc|].
    destruct (Ht 1 Inputs.inwardVertex [0; 0; 0] 0 eq_refl eq_refl ltac:(cbn; lia))
      as (merged & Ei & _ & En & _).
    exists merged. split; [exact Ei | exact En].
Defined.

(** An unindexed vertex followed by an indexed one: the triangle of the
    second is drawn on the vertex of the first. *)
Lemma mergeGeometries_unindexed_first_witness :
  index (mergeGeometries [mkGeometry [2; 0; 0]%R [1; 0; 0]%R [0; 0]%R None;
                          Inputs.inwardVertex]) = Some [0; 0; 0]
  /\ fromBufferAttribute
       (position (mergeGeometries [mkGeometry [2; 0; 0]%R [1; 0; 0]%R [0; 0]%R None;
                                   Inputs.inwardVertex])) 0
     = vec3 2%R 0%R 0%R.
Proof.
  destruct (@mergeGeometries_unindexed_first R RealArith.RNumber
              (mkGeometry [2; 0; 0]%R [1; 0; 0]%R [0; 0]%R None) Inputs.inwardVertex
              [0; 0; 0] eq_refl eq_refl ltac:(discriminate)) as (Ei & E1 & _).
  split; [exact Ei|]. rewrite (E1 0) by (cbn; lia). reflexivity.
Defined.

(** The one-vertex geometry with the caps of a four-segment grid. *)
Lemma createWatertightMesh_valid_witness :
  count (position (createWatertightMesh Inputs.inwardVertex
                     (Some (fst (createWeldedCapGeometries Inputs.inwardVertex
                                   Spec.prismParams)))
                     (Some (snd (createWeldedCapGeometries Inputs.inwardVertex
                                   Spec.prismParams)))))
  = 1 + 2 * (segments Spec.prismParams + 2).
Proof.
  exact (proj1 (@createWatertightMesh_valid R RealArith.RNumber Inputs.inwardVertex
                  Spec.prismParams [0; 0; 0] eq_refl
                  ltac:(repeat constructor))).
Defined.
End Merge.

(** * The wireframe *)

Module Wireframe.
Section Generic.
Context {num : Type} `{Number num}.
Local Open Scope js_scope.

Lemma flat_map_ext_in {A B : Type} (f g : A -> list B) (l : list A) :
  (forall x, In x l -> f x = g x) -> flat_map f l = flat_map g l.
Proof.
  induction l as [|x l IH]; intros E; [reflexivity|].
  cbn. rewrite (E x (or_introl eq_refl)), IH; [reflexivity|].
  intros y Hy. apply E. right. exact Hy.
Qed.

Lemma concat_length_const {A : Type} (ls : list (list A)) m :
  (forall l, In l ls -> length l = m) -> length (concat ls) = (length ls * m)%nat.
Proof.
  induction ls as [|l ls IH]; intros Hm; [reflexivity|].
  cbn. rewrite length_app, (Hm l (or_introl eq_refl)), IH; [lia|].
  intros l' Hl'. apply Hm. right. exact Hl'.
Qed.

Lemma nth_concat_chunk {A : Type} (ls : list (list A)) m d : forall k c,
  (forall l, In l ls -> length l = m) -> (k < length ls)%nat -> (c < m)%nat ->
  nth (k * m + c) (concat ls) d = nth c (nth k ls []) d.
Proof.
  induction ls as [|l ls IH]; intros k c Hm Hk Hc; [cbn in Hk; lia|].
  pose proof (Hm l (or_introl eq_refl)) as Hl.
  cbn [concat]. destruct k as [|k].
  - rewrite app_nth1 by lia. reflexivity.
  - rewrite app_nth2 by (rewrite Hl; lia). rewrite Hl.
    replace (S k * m + c - m)%nat with (k * m + c)%nat by lia.
    cbn [nth]. apply IH; [|cbn in Hk; lia | exact Hc].
    intros l' Hl'. apply Hm. right. exact Hl'.
Qed.

(** The points of one ring outline: a pair for every segment, and the
    closing point. *)
Lemma wireRing_split (params : LoftParams num) ringRadius ring :
  wireRing params ringRadius ring
  = flat_map (fun seg =>
                [ringRadius * Math_cos (theta params ring seg); ringHeight params ring;
                 ringRadius * Math_sin (theta params ring seg);
                 ringRadius * Math_cos (theta params ring (seg + 1)); ringHeight params ring;
                 ringRadius * Math_sin (theta params ring (seg + 1))])
             (seq 0 (segments params))
    ++ [ringRadius * Math_cos (theta params ring (segments params));
        ringHeight params ring;
        ringRadius * Math_sin (theta params ring (segments params))].
Proof.
  unfold wireRing. rewrite Nat.add_1_r, seq_S, flat_map_app. cbn [Nat.add flat_map].
  rewrite Nat.ltb_irrefl, !app_nil_r. f_equal.
  apply flat_map_ext_in. intros seg Hin. apply in_seq in Hin.
  rewrite (proj2 (Nat.ltb_lt _ _)) by lia. reflexivity.
Qed.

Lemma wireRing_length (params : LoftParams num) ringRadius ring :
  length (wireRing params ringRadius ring) = ((2 * segments params + 1) * 3)%nat.
Proof.
  rewrite wireRing_split, length_app.
  rewrite (flat_map_length_const _ (m := 6)) by reflexivity.
  rewrite length_seq. cbn [length]. lia.
Qed.

Lemma wireRing_point (params : LoftParams num) ringRadius ring seg c :
  (seg <= segments params)%nat -> (c < 3)%nat ->
  nth (2 * seg * 3 + c) (wireRing params ringRadius ring) undef
  = nth c [ringRadius * Math_cos (theta params ring seg); ringHeight params ring;
           ringRadius * Math_sin (theta params ring seg)] undef.
Proof.
  intros Hs Hc. rewrite wireRing_split.
  destruct (Nat.eq_dec seg (segments params)) as [->|Hne].
  - rewrite app_nth2
      by (rewrite (flat_map_length_const _ (m := 6)), length_seq by reflexivity; lia).
    rewrite (flat_map_length_const _ (m := 6)), length_seq by reflexivity.
    replace (2 * segments params * 3 + c - segments params * 6)%nat with c by lia.
    reflexivity.
  - rewrite app_nth1
      by (rewrite (flat_map_length_const _ (m := 6)), length_seq by reflexivity; lia).
    replace (2 * seg * 3 + c)%nat with (seg * 6 + c)%nat by lia.
    rewrite (nth_flat_map_chunk _ (m := 6)) by (try reflexivity; lia).
    cbn [Nat.add]. destruct c as [|[|[|c]]]; try lia; reflexivity.
Qed.

Lemma mapM_Forall {A B : Type} (f : A -> option B) (P : B -> Prop) (l : list A) ys :
  mapM f l = Some ys -> (forall x y, f x = Some y -> P y) ->
  length ys = length l /\ Forall P ys.
Proof.
  revert ys. induction l as [|x l IH]; intros ys E Hm; cbn in E.
  - injection E as <-. split; [reflexivity | constructor].
  - destruct (f x) as [y|] eqn:Ex; [|discriminate].
    destruct (mapM f l) as [ys'|]; [|discriminate].
    injection E as <-. destruct (IH ys' eq_refl Hm) as [Hl Hy].
    split; [cbn; rewrite Hl; reflexivity|].
    constructor; [exact (Hm x y Ex) | exact Hy].
Qed.

Lemma concat_length_rows {A : Type} (rows : list (list A)) n :
  Forall (fun row => length row = n) rows -> length (concat rows) = (length rows * n)%nat.
Proof.
  intros Hall. apply concat_length_const. apply Forall_forall. exact Hall.
Qed.

Lemma wireVertical_returns (a0 : LoftBezierAnchor num) rest (params : LoftParams num)
      seg ring :
  exists line, wireVertical (a0 :: rest) params seg ring = Some line.
Proof.
  unfold wireVertical.
  destruct (LatheShape.getRadiusAtHeight_returns a0 rest params (ringHeight params ring))
    as [r1 ->].
  destruct (LatheShape.getRadiusAtHeight_returns a0 rest params
              (ringHeight params (ring + 1))) as [r2 ->].
  eexists; reflexivity.
Qed.

Lemma wireVertical_length anchors (params : LoftParams num) seg ring line :
  wireVertical anchors params seg ring = Some line -> length line = 6%nat.
Proof.
  unfold wireVertical.
  destruct (getRadiusAtHeight anchors params (ringHeight params ring)); [|discriminate].
  destruct (getRadiusAtHeight anchors params (ringHeight params (ring + 1)));
    [|discriminate].
  intros [= <-]. reflexivity.
Qed.
End Generic.

(** The wireframe follows the profile, without the clamp of the mesh.  For
    a non-empty profile [createLoftWireframe] returns line segments with
    [rings * (2 * segments + 1)] points of ring outlines followed by two
    points for each of the [segments / 4 + 1] vertical lines between
    consecutive rings.  The first point of segment [seg] of the outline of
    ring [ring] lies at the profile radius times the taper, at the angle and
    height of the mesh vertex of that cell; it is that mesh vertex whenever
    the radius of the ring is not raised to the minimum radius by
    [createLoftGeometry]. *)
Theorem createLoftWireframe_outlines
    {num : Type} `{Number num} (a0 : LoftBezierAnchor num)
    (rest : list (LoftBezierAnchor num)) (params : LoftParams num) :
  let anchors := a0 :: rest in
  let segs := segments params in
  exists w,
    createLoftWireframe anchors params = Some w
    /\ count w = rings params * (2 * segs + 1) + 2 * (segs / 4 + 1) * (rings params - 1)
    /\ forall ring seg, ring < rings params -> seg <= segs ->
         exists baseRadius,
           getRadiusAtHeight anchors params (ringHeight params ring) = Some baseRadius
           /\ fromBufferAttribute w (ring * (2 * segs + 1) + 2 * seg)
              = roundV (vec3 (baseRadius * ringTaper params ring
                              * Math_cos (theta params ring seg))%js
                             (ringHeight params ring)
                             (baseRadius * ringTaper params ring
                              * Math_sin (theta params ring seg))%js)
           /\ forall g,
                createLoftGeometry anchors params = Some g ->
                Math_max minRadius (baseRadius * ringTaper params ring)%js
                = (baseRadius * ringTaper params ring)%js ->
                fromBufferAttribute w (ring * (2 * segs + 1) + 2 * seg)
                = fromBufferAttribute (position g) (ring * (segs + 1) + seg).
Proof.
  intros anchors segs. unfold createLoftWireframe.
  destruct (@LatheShape.mapM_total _ _ (wireOutline anchors params) (seq 0 (rings params)))
    as [outlines Eo].
  { intros ring. unfold wireOutline.
    destruct (LatheShape.getRadiusAtHeight_returns a0 rest params (ringHeight params ring))
      as [r Er]. fold anchors in Er. rewrite Er. eexists; reflexivity. }
  destruct (@LatheShape.mapM_total _ _
              (fun seg => mapM (wireVertical anchors params seg) (seq 0 (rings params - 1)))
              (map (fun k => 4 * k) (seq 0 (segs / 4 + 1)))) as [verticals Ev].
  { intros seg. apply LatheShape.mapM_total. intros ring.
    apply wireVertical_returns. }
  fold segs. rewrite Eo, Ev. eexists. split; [reflexivity|].
  set (m := (2 * segs + 1) * 3).
  destruct (@mapM_Forall _ _ (wireOutline anchors params)
              (fun row => length row = m) (seq 0 (rings params)) outlines Eo)
    as [Hlo Hmo].
  { intros ring y. unfold wireOutline.
    destruct (getRadiusAtHeight anchors params (ringHeight params ring)); [|discriminate].
    intros [= <-]. apply wireRing_length. }
  rewrite length_seq in Hlo.
  destruct (@mapM_Forall _ _
              (fun seg => mapM (wireVertical anchors params seg) (seq 0 (rings params - 1)))
              (fun lines => length lines = rings params - 1
                            /\ Forall (fun line => length line = 6) lines)
              (map (fun k => 4 * k) (seq 0 (segs / 4 + 1))) verticals Ev) as [Hlv Hmv].
  { intros seg lines E.
    destruct (@mapM_Forall _ _ (wireVertical anchors params seg)
                (fun line => length line = 6) (seq 0 (rings params - 1)) lines E)
      as [Hl Hm].
    - intros ring line. apply wireVertical_length.
    - rewrite length_seq in Hl. split; assumption. }
  rewrite length_map, length_seq in Hlv.
  assert (Hco : length (concat outlines) = rings params * m)
    by (rewrite (concat_length_rows Hmo), Hlo; reflexivity).
  assert (Hcv : length (concat (concat verticals))
                = (segs / 4 + 1) * (rings params - 1) * 6).
  { rewrite (@concat_length_rows _ (concat verticals) 6).
    - rewrite (@concat_length_rows _ verticals (rings params - 1)), Hlv; [reflexivity|].
      eapply Forall_impl; [|exact Hmv]. cbn. tauto.
    - apply Forall_concat. eapply Forall_impl; [|exact Hmv]. cbn. tauto. }
  split.
  { unfold count, Float32BufferAttribute. rewrite length_map, length_app, Hco, Hcv.
    replace (rings params * m + (segs / 4 + 1) * (rings params - 1) * 6)
      with ((rings params * (2 * segs + 1) + 2 * (segs / 4 + 1) * (rings params - 1)) * 3)
      by (unfold m; nia).
    apply Nat.div_mul. lia. }
  intros ring seg Hr Hs.
  destruct (Lathe.mapM_Some _ _ Eo) as [_ Hn]. rewrite length_seq in Hn.
  specialize (Hn ring 0 [] Hr). rewrite seq_nth in Hn by exact Hr.
  cbn [Nat.add] in Hn. unfold wireOutline in Hn.
  destruct (getRadiusAtHeight anchors params (ringHeight params ring)) as [base|] eqn:Eb;
    [|discriminate].
  cbn [option_map] in Hn. injection Hn as Hn.
  exists base. split; [reflexivity|].
  assert (Hc : forall c, c < 3 ->
            nth ((ring * (2 * segs + 1) + 2 * seg) * 3 + c)
                (Float32BufferAttribute (concat outlines ++ concat (concat verticals)))
                undef
            = fround (nth c [base * ringTaper params ring * Math_cos (theta params ring seg);
                             ringHeight params ring;
                             base * ringTaper params ring * Math_sin (theta params ring seg)]%js
                          undef)).
  { intros c Hc.
    assert (Hb : (ring * (2 * segs + 1) + 2 * seg) * 3 + c < rings params * m)
      by (unfold m; nia).
    rewrite Caps.nth_Float32 by (rewrite length_app, Hco; lia).
    rewrite app_nth1 by (rewrite Hco; exact Hb).
    replace ((ring * (2 * segs + 1) + 2 * seg) * 3 + c)
      with (ring * m + (2 * seg * 3 + c)) by (unfold m; lia).
    rewrite (@nth_concat_chunk _ outlines m undef ring (2 * seg * 3 + c))
      by (try (apply Forall_forall; exact Hmo); unfold m; lia).
    rewrite <- Hn. rewrite wireRing_point by assumption. reflexivity. }
  assert (Ev' : fromBufferAttribute
                  (Float32BufferAttribute (concat outlines ++ concat (concat verticals)))
                  (ring * (2 * segs + 1) + 2 * seg)
                = roundV (vec3 (base * ringTaper params ring
                                * Math_cos (theta params ring seg))%js
                               (ringHeight params ring)
                               (base * ringTaper params ring
                                * Math_sin (theta params ring seg))%js)).
  { unfold fromBufferAttribute, getX, getY, getZ, roundV. cbn [vx vy vz].
    pose proof (Hc 0 ltac:(lia)) as H0. rewrite Nat.add_0_r in H0.
    rewrite H0, (Hc 1), (Hc 2) by lia. reflexivity. }
  split; [exact Ev'|].
  intros g Eg Hmax. rewrite Ev'.
  destruct (Lathe.createLoftGeometry_grid _ _ Eg) as (radii & _ & _ & Hrad & Hv & _).
  destruct (Hrad ring Hr) as (base' & Eb' & Enth).
  change (getRadiusAtHeight anchors params (ringHeight params ring) = Some base') in Eb'.
  rewrite Eb in Eb'. injection Eb' as <-.
  fold segs in Hv. rewrite (Hv ring seg Hr Hs), Enth.
  change (lit 1 10) with minRadius. rewrite Hmax. reflexivity.
Qed.
End Wireframe.

(** * The normals helper *)

Module Helper.
Section Generic.
Context {num : Type} `{Number num}.
Local Open Scope js_scope.

Lemma shownVertexNormal_cond (positions normals : list num) i :
  shownVertexNormal positions normals i
  = if pointsInward (fromBufferAttribute positions i) (fromBufferAttribute normals i)
    then negV (fromBufferAttribute normals i) else fromBufferAttribute normals i.
Proof.
  unfold shownVertexNormal, pointsInward, negV, fromBufferAttribute. cbn [vx vy vz].
  destruct (_ >? _); [destruct (_ <? _)|]; reflexivity.
Qed.

Lemma vertexLines_length (g : BufferGeometry num) length offset :
  Datatypes.length (createNormalsHelper g length offset vertex)
  = (count (position g) * 6)%nat.
Proof.
  unfold createNormalsHelper, Float32BufferAttribute. rewrite length_map.
  rewrite (flat_map_length_const _ (m := 6)) by reflexivity.
  rewrite length_seq. reflexivity.
Qed.

Lemma vertexLines_nth (g : BufferGeometry num) length offset i c :
  (i < count (position g))%nat -> (c < 6)%nat ->
  nth (i * 6 + c) (createNormalsHelper g length offset vertex) undef
  = fround (nth c (normalLine (fromBufferAttribute (position g) i)
                              (shownVertexNormal (position g) (normal g) i)
                              length offset) undef).
Proof.
  intros Hi Hc. unfold createNormalsHelper.
  rewrite Caps.nth_Float32
    by (rewrite (flat_map_length_const _ (m := 6)), length_seq by reflexivity; lia).
  rewrite (nth_flat_map_chunk _ (m := 6)) by (try reflexivity; assumption).
  reflexivity.
Qed.
End Generic.

Section Reals.
Import RealArith RealFacts.
Local Open Scope R_scope.
#[local] Existing Instance RNumber.

Lemma shown_is_repaired (g : BufferGeometry R) i :
  (count (position g) <= count (normal g))%nat -> (i < count (position g))%nat ->
  shownVertexNormal (position g) (normal g) i
  = fromBufferAttribute (normal (ensureNormalsPointOutward g)) i
  /\ shownVertexNormal (position g) (normal (ensureNormalsPointOutward g)) i
     = fromBufferAttribute (normal (ensureNormalsPointOutward g)) i.
Proof.
  intros Hc Hi. rewrite !shownVertexNormal_cond.
  rewrite (Normals.ensureNormalsPointOutward_normal g i Hc).
  rewrite (proj2 (Nat.ltb_lt _ _) Hi). cbn [andb].
  destruct (pointsInward (fromBufferAttribute (position g) i)
                         (fromBufferAttribute (normal g) i)) eqn:E.
  - rewrite Rims.roundV_real. split; [reflexivity|].
    rewrite (Normals.pointsInward_negV _ _ E). reflexivity.
  - rewrite E. split; reflexivity.
Qed.
End Reals.

#[local] Existing Instance RealArith.RNumber.

(** The helper cannot show an inverted normal.  In exact arithmetic, for the
    type ['vertex'], [createNormalsHelper] draws two points per vertex: the
    line of vertex [i] runs from the vertex moved by [offset] to the vertex
    moved by [offset + length] along the normal that
    [ensureNormalsPointOutward] would store there, not along the stored one;
    so the helper of a geometry and the helper of its repaired copy are the
    same lines. *)
Theorem createNormalsHelper_shows_repaired_normals
    (g : BufferGeometry R) (length offset : R) :
  count (position g) <= count (normal g) ->
  let helper := createNormalsHelper g length offset vertex in
  count helper = 2 * count (position g)
  /\ helper = createNormalsHelper (ensureNormalsPointOutward g) length offset vertex
  /\ forall i, i < count (position g) ->
       let p := fromBufferAttribute (position g) i in
       let n := fromBufferAttribute (normal (ensureNormalsPointOutward g)) i in
       fromBufferAttribute helper (2 * i)
       = vec3 (vx p + vx n * offset)%R (vy p + vy n * offset)%R
              (vz p + vz n * offset)%R
       /\ fromBufferAttribute helper (2 * i + 1)
          = vec3 (vx p + vx n * (offset + length))%R (vy p + vy n * (offset + length))%R
                 (vz p + vz n * (offset + length))%R.
Proof.
  intros Hc helper. split; [|split].
  - unfold count at 1. unfold helper. rewrite vertexLines_length.
    replace (count (position g) * 6) with (2 * count (position g) * 3) by lia.
    apply Nat.div_mul. lia.
  - unfold helper, createNormalsHelper. f_equal.
    cbn [position ensureNormalsPointOutward].
    apply Wireframe.flat_map_ext_in. intros i Hi. apply in_seq in Hi.
    destruct (@shown_is_repaired g i Hc ltac:(lia)) as [E1 E2].
    cbn [position ensureNormalsPointOutward] in E2. rewrite E1, E2. reflexivity.
  - intros i Hi p n.
    destruct (@shown_is_repaired g i Hc Hi) as [E1 _]. fold n in E1.
    pose proof (fun c Hc' => @vertexLines_nth R _ g length offset i c Hi Hc') as Hn.
    rewrite E1 in Hn. fold p in Hn.
    unfold fromBufferAttribute, getX, getY, getZ. fold helper in Hn. split.
    + replace (2 * i * 3) with (i * 6 + 0) by lia.
      replace (i * 6 + 0 + 1) with (i * 6 + 1) by lia.
      replace (i * 6 + 0 + 2) with (i * 6 + 2) by lia.
      rewrite !Hn by lia. reflexivity.
    + replace ((2 * i + 1) * 3) with (i * 6 + 3) by lia.
      replace (i * 6 + 3 + 1) with (i * 6 + 4) by lia.
      replace (i * 6 + 3 + 2) with (i * 6 + 5) by lia.
      rewrite !Hn by lia. reflexivity.
Qed.

(** A vertex at (1, 0, 0) with the normal (-1, 0, 0): the helper is the one of
    the repaired geometry, whose normal is (1, 0, 0). *)
Lemma createNormalsHelper_shows_repaired_normals_witness :
  count (createNormalsHelper Inputs.inwardVertex (1 / 5)%R (1 / 20)%R vertex) = 2
  /\ createNormalsHelper Inputs.inwardVertex (1 / 5)%R (1 / 20)%R vertex
     = createNormalsHelper (ensureNormalsPointOutward Inputs.inwardVertex)
                           (1 / 5)%R (1 / 20)%R vertex.
Proof.
  destruct (@createNormalsHelper_shows_repaired_normals Inputs.inwardVertex
              (1 / 5)%R (1 / 20)%R ltac:(unfold count; simpl; lia)) as (Hn & He & _).
  split; [exact Hn | exact He].
Defined.
End Helper.

(** * The displacement controls *)

Module Controls.
Section Reals.
Import RealArith RealFacts.
Local Open Scope R_scope.
#[local] Existing Instance RNumber.

Lemma clamped_between lo hi x :
  lo <= hi -> lo <= Math_max lo (Math_min hi x) <= hi.
Proof.
  intros Hle. unfold Math_min. cbn [Math_max num_neg RNumber]. split; [apply Rmax_l|].
  apply Rmax_lub; [exact Hle|].
  pose proof (Rmax_l (- hi) (- x)). lra.
Qed.

Lemma updateDisplacement_zones (p : LoftParams R) :
  falloffTop (updateDisplacement p) = falloffTop p
  /\ falloffBottom (updateDisplacement p) = falloffBottom p
  /\ falloffEnabled (updateDisplacement p) = falloffEnabled p
  /\ falloffPower (updateDisplacement p) = falloffPower p
  /\ -2 <= displacementScale (updateDisplacement p) <= 2
  /\ -1 <= displacementBias (updateDisplacement p) <= 1.
Proof.
  unfold updateDisplacement, withDisplacement.
  cbn [falloffTop falloffBottom falloffEnabled falloffPower displacementScale
       displacementBias].
  repeat (split; [reflexivity|]).
  split; apply (clamped_between (lo := IZR (-2)) (hi := IZR 2))
         || apply (clamped_between (lo := IZR (-1)) (hi := IZR 1)); lra.
Qed.

Lemma middle_band (p : LoftParams R) h :
  falloffBottom p <= h <= 1 - falloffTop p -> calculateDisplacementFalloff h p = 1.
Proof.
  intros [Hb Ht]. unfold calculateDisplacementFalloff, one.
  destruct (negb (falloffEnabled p)); [reflexivity|].
  cbn [num_ltb num_sub RNumber ofZ].
  rewrite (Rltb_false (a := h) (b := falloffBottom p)) by lra.
  rewrite (Rltb_false (a := 1 - falloffTop p) (b := h)) by lra.
  reflexivity.
Qed.
End Reals.

#[local] Existing Instance RealArith.RNumber.

(** The falloff sliders keep the two zones apart.  In exact arithmetic, after
    the handler of either falloff slider the top and bottom zones sum to at
    most 0.95, so that a band of at least 0.05 of the height stays between
    them, on which the displacement has full strength; the handler changes
    only the zone of its own slider, and only when the sum exceeded 0.95; and
    the parameters the rebuild then sees have a scale within [-2, 2] and a
    bias within [-1, 1]. *)
Theorem falloff_sliders_keep_zones_apart (p : LoftParams R) :
  let check (p' : LoftParams R) :=
    (falloffTop p' + falloffBottom p' <= 95 / 100)%R
    /\ (forall h, (falloffBottom p' <= h <= 1 - falloffTop p')%R ->
                  calculateDisplacementFalloff h p' = 1%R)
    /\ (-2 <= displacementScale p' <= 2)%R
    /\ (-1 <= displacementBias p' <= 1)%R in
  check (onFalloffTopChange p)
  /\ falloffBottom (onFalloffTopChange p) = falloffBottom p
  /\ check (onFalloffBottomChange p)
  /\ falloffTop (onFalloffBottomChange p) = falloffTop p
  /\ ((falloffTop p + falloffBottom p <= 95 / 100)%R ->
      falloffTop (onFalloffTopChange p) = falloffTop p
      /\ falloffBottom (onFalloffBottomChange p) = falloffBottom p).
Proof.
  cbv zeta. unfold onFalloffTopChange, onFalloffBottomChange, lit.
  cbn [num_ltb num_add num_sub num_div ofZ RealArith.RNumber].
  unfold RealArith.Rltb.
  destruct (Rlt_dec (95 / 100) (falloffTop p + falloffBottom p)%R) as [L|L].
  - destruct (updateDisplacement_zones
                (withFalloffZones p (95 / 100 - falloffBottom p)%R (falloffBottom p)))
      as (Et1 & Eb1 & _ & _ & Hs1 & Hb1).
    destruct (updateDisplacement_zones
                (withFalloffZones p (falloffTop p) (95 / 100 - falloffTop p)%R))
      as (Et2 & Eb2 & _ & _ & Hs2 & Hb2).
    cbn [withFalloffZones falloffTop falloffBottom] in Et1, Eb1, Et2, Eb2.
    repeat split; try (apply Hs1 || apply Hs2 || apply Hb1 || apply Hb2);
      try (rewrite ?Et1, ?Eb1, ?Et2, ?Eb2; lra);
      try (intros h Hh; apply middle_band; exact Hh);
      try assumption; lra.
  - destruct (updateDisplacement_zones p) as (Et & Eb & _ & _ & Hs & Hb).
    repeat split; try (apply Hs || apply Hb);
      try (rewrite ?Et, ?Eb; lra);
      try (intros h Hh; apply middle_band; exact Hh);
      try assumption.
Qed.
End Controls.

(** * The export commands *)

Module ExportCommands.
Section Generic.
Context {num : Type} `{Number num}.

Lemma fold_total_ge (f : Object3D -> nat) (l : list Object3D) : forall a,
  a <= fold_left (fun total child => total + f child) l a.
Proof.
  induction l as [|x l IH]; intros a; cbn [fold_left]; [lia|].
  specialize (IH (a + f x)). lia.
Qed.

(** A group of meshes with non-empty geometries passes the validation of
    [exportMesh]: the exporter receives the clone. *)
Lemma exportMesh_group scale swapYZ a0 addrs g0 gs (h : Heap num) :
  Forall2 (fun a g => nth_error h a = Some g /\ 0 < count (position g))
          (a0 :: addrs) (g0 :: gs) ->
  exists gs',
    exportMesh (Some (Group (map Mesh (a0 :: addrs)))) scale swapYZ h
    = (Ok (Group (map Mesh (seq (length h) (length (a0 :: addrs))))), h ++ gs')
    /\ Forall2 (exportedFrom scale swapYZ) (g0 :: gs) gs'.
Proof.
  intros Hall.
  destruct (ExportTransform.createExportClone_group scale swapYZ h Hall)
    as (gs' & E & Hex).
  exists gs'. split; [|exact Hex].
  unfold exportMesh, bind. rewrite E.
  inversion Hex as [|x g0' l gs'' Hx Hrest]; subst.
  inversion Hall as [|? ? ? ? [Ha0 Hc0] _]; subst.
  assert (Hpos : 0 < totalVertices (h ++ g0' :: gs'')
                     (Group (map Mesh (seq (length h) (length (a0 :: addrs)))))).
  { cbn [length seq map totalVertices fold_left].
    replace (nth_error (h ++ g0' :: gs'') (length h)) with (Some g0').
    - destruct Hx as (_ & _ & _ & Hl).
      eapply Nat.lt_le_trans; [|apply fold_total_ge].
      unfold count in *. rewrite Hl. exact Hc0.
    - rewrite nth_error_app2 by lia. rewrite Nat.sub_diag. reflexivity. }
  destruct (Nat.eqb_spec (totalVertices (h ++ g0' :: gs'')
              (Group (map Mesh (seq (length h) (length (a0 :: addrs)))))) 0) as [E0|_];
    [lia | reflexivity].
Qed.
End Generic.

(** The OBJ export leaves the bottom cap out.  For a body mesh and two cap
    meshes with non-empty geometries, the STL command and the binary STL
    command hand the exporter a group of three fresh meshes, the exported
    copies of the body, the bottom cap and the top cap; the OBJ command hands
    it a group of two, the copies of the body and of the top cap only, so
    that the exported OBJ model is open at the bottom.  Without a body mesh
    none of the three exports anything. *)
Theorem exportOBJ_omits_bottom_cap
    {num : Type} `{Number num} (h : Heap num) (params : LoftParams num)
    (body bottom top : nat) (gBody gBottom gTop : BufferGeometry num) :
  nth_error h body = Some gBody -> nth_error h bottom = Some gBottom ->
  nth_error h top = Some gTop ->
  0 < count (position gBody) -> 0 < count (position gBottom) ->
  0 < count (position gTop) ->
  (exists run gs',
     exportSTL (Some (Mesh body)) (Some (Mesh bottom)) (Some (Mesh top)) params = Some run
     /\ exportSTLBinary (Some (Mesh body)) (Some (Mesh bottom)) (Some (Mesh top)) params
        = Some run
     /\ run h = (Ok (Group [Mesh (length h); Mesh (S (length h)); Mesh (S (S (length h)))]),
                 h ++ gs')
     /\ Forall2 (exportedFrom (exportScale params) true) [gBody; gBottom; gTop] gs')
  /\ (exists run gs',
        exportOBJ (Some (Mesh body)) (Some (Mesh bottom)) (Some (Mesh top)) params
        = Some run
        /\ run h = (Ok (Group [Mesh (length h); Mesh (S (length h))]), h ++ gs')
        /\ Forall2 (exportedFrom (exportScale params) true) [gBody; gTop] gs')
  /\ (forall caps1 caps2,
        exportSTL None caps1 caps2 params = None
        /\ exportOBJ None caps1 caps2 params = None
        /\ exportSTLBinary None caps1 caps2 params = None).
Proof.
  intros Eb E1 E2 Hb H1 H2. split; [|split].
  - destruct (@exportMesh_group num _ (exportScale params) true body [bottom; top]
                gBody [gBottom; gTop] h) as (gs' & E & Hex).
    { repeat constructor; assumption. }
    eexists. exists gs'. split; [reflexivity|]. split; [reflexivity|].
    split; [exact E | exact Hex].
  - destruct (@exportMesh_group num _ (exportScale params) true body [top]
                gBody [gTop] h) as (gs' & E & Hex).
    { repeat constructor; assumption. }
    eexists. exists gs'. split; [reflexivity|]. split; [exact E | exact Hex].
  - intros caps1 caps2. repeat split.
Qed.

#[local] Existing Instance RealArith.RNumber.

(** Three meshes on the one-vertex geometry. *)
Lemma exportOBJ_omits_bottom_cap_witness :
  exists run gs',
    exportOBJ (Some (Mesh 0)) (Some (Mesh 0)) (Some (Mesh 0)) Spec.prismParams = Some run
    /\ run [Inputs.inwardVertex] = (Ok (Group [Mesh 1; Mesh 2]), [Inputs.inwardVertex] ++ gs')
    /\ Forall2 (exportedFrom (exportScale Spec.prismParams) true)
               [Inputs.inwardVertex; Inputs.inwardVertex] gs'.
Proof.
  exact (proj1 (proj2 (@exportOBJ_omits_bottom_cap R RealArith.RNumber
                         [Inputs.inwardVertex] Spec.prismParams 0 0 0
                         Inputs.inwardVertex Inputs.inwardVertex Inputs.inwardVertex
                         eq_refl eq_refl eq_refl
                         ltac:(unfold count; simpl; lia) ltac:(unfold count; simpl; lia)
                         ltac:(unfold count; simpl; lia)))).
Defined.
End ExportCommands.
